(** * Exercise settlement engine: profitability evaluator and settlement
      orchestrator

    A shallow embedding of [ProfitabilityCalculator] (services/
    ProfitabilityCalculator.ts), of [SettlementEngine] (SettlementEngine.ts)
    and of the JavaScript primitives they rely on, followed by the
    properties of the engine's specification, each proved or refuted on the
    embedding.

    Conventions.
    - A JavaScript [bigint] and a JSBI value are both a [Z]; the source
      converts between them through decimal strings, and those calls are
      kept ([BigInt], [BigInt_toString]).
    - A [string] is a sequence of 8-bit code units: it stands for the
      JavaScript string with these code units, all below 256.  (The
      message templates of the Telegram service hold characters beyond
      that range; they are written as their UTF-8 bytes and are only ever
      concatenated.)
    - A computation that may throw returns a [Completion]; a method of a
      class with mutable fields is a function from the object's state to a
      completion and a new state (the state survives a throw, as in
      JavaScript).
    - What the outside world answers (RPC calls, configuration lookups, the
      clock) is read from a record of oracles, [Env]. *)

From Stdlib Require Import ZArith String Ascii List Lia Bool DecimalString DecimalPos QArith Qround.
From stdpp Require Import gmap strings list.
Import ListNotations.

Local Open Scope Z_scope.

(* ===================================================================== *)
(** ** Completions: normal return or throw *)
(* ===================================================================== *)

Inductive Completion (A : Type) : Type :=
| Normal (value : A)
| Throw (error : string).

Arguments Normal {A} value.
Arguments Throw {A} error.

Definition cbind {A B} (k : A -> Completion B) (c : Completion A) : Completion B :=
  match c with
  | Normal a => k a
  | Throw e => Throw e
  end.

#[global] Instance Completion_ret : MRet Completion := fun _ a => Normal a.
#[global] Instance Completion_bind : MBind Completion := fun _ _ k c => cbind k c.

(** [Array.prototype.map] with a callback that may throw: the first throw
    aborts the traversal. *)
Fixpoint mapC {A B} (f : A -> Completion B) (l : list A) : Completion (list B) :=
  match l with
  | [] => Normal []
  | x :: xs => y ← f x; ys ← mapC f xs; Normal (y :: ys)
  end.

(* ===================================================================== *)
(** ** JavaScript primitives *)
(* ===================================================================== *)

Module JS.

(** Value of a digit character in bases up to 16. *)
Definition digitValue (c : ascii) : option Z :=
  let n := Z.of_N (N_of_ascii c) in
  if (48 <=? n) && (n <=? 57) then Some (n - 48)
  else if (97 <=? n) && (n <=? 102) then Some (n - 87)
  else if (65 <=? n) && (n <=? 70) then Some (n - 55)
  else None.

(** All of [s] read as digits of [base], most significant first. *)
Fixpoint digitsAcc (base : Z) (s : string) (acc : Z) : option Z :=
  match s with
  | EmptyString => Some acc
  | String c s' =>
      match digitValue c with
      | Some d => if d <? base then digitsAcc base s' (base * acc + d) else None
      | None => None
      end
  end.

Definition digits (base : Z) (s : string) : option Z :=
  match s with
  | EmptyString => None
  | _ => digitsAcc base s 0
  end.

(** The white space and line terminators of ECMAScript, which [BigInt],
    [parseInt] and [trim] strip: among the code units below 256 these are
    TAB, LF, VT, FF and CR (9 to 13), the space (32) and the no-break space
    U+00A0 (160).  The others (U+1680, U+2000 to U+200A, U+2028, U+2029,
    U+202F, U+205F, U+3000 and U+FEFF) lie beyond the code units a
    [string] holds. *)
Definition isWhiteSpace (c : ascii) : bool :=
  let n := Z.of_N (N_of_ascii c) in
  ((9 <=? n) && (n <=? 13)) || (n =? 32) || (n =? 160).

Fixpoint trimStart (s : string) : string :=
  match s with
  | String c s' => if isWhiteSpace c then trimStart s' else s
  | EmptyString => EmptyString
  end.

Fixpoint trimEnd (s : string) : string :=
  match s with
  | EmptyString => EmptyString
  | String c s' =>
      match trimEnd s' with
      | EmptyString => if isWhiteSpace c then EmptyString else String c EmptyString
      | t => String c t
      end
  end.

Definition trim (s : string) : string := trimEnd (trimStart s).

(** [BigInt(s)] for a string argument (StringToBigInt): white space is
    trimmed, the empty string is [0n], a [0x], [0o] or [0b] prefix selects
    the base (no sign allowed then), otherwise an optional sign and decimal
    digits; anything else throws a SyntaxError. *)
Definition BigInt (s : string) : Completion Z :=
  let err := Throw ("SyntaxError: Cannot convert " +:+ s +:+ " to a BigInt") in
  let of_opt (o : option Z) := match o with Some z => Normal z | None => err end in
  match trim s with
  | EmptyString => Normal 0
  | String "0" (String "x" r) | String "0" (String "X" r) => of_opt (digits 16 r)
  | String "0" (String "o" r) | String "0" (String "O" r) => of_opt (digits 8 r)
  | String "0" (String "b" r) | String "0" (String "B" r) => of_opt (digits 2 r)
  | String "-" r => of_opt (option_map Z.opp (digits 10 r))
  | String "+" r => of_opt (digits 10 r)
  | r => of_opt (digits 10 r)
  end.

(** [BigInt.prototype.toString()], and [Number.prototype.toString()] on an
    integer below 10^21 in magnitude: decimal digits, a leading minus sign
    for a negative value. *)
Definition BigInt_toString (z : Z) : string :=
  match z with
  | Z0 => "0"
  | Zpos p => NilEmpty.string_of_uint (Pos.to_uint p)
  | Zneg p => String "-" (NilEmpty.string_of_uint (Pos.to_uint p))
  end.

(** Longest prefix of [s] made of digits of [base]: its value and whether
    it is non-empty. *)
Fixpoint digitPrefix (base : Z) (s : string) (acc : Z) (seen : bool) : option Z :=
  match s with
  | EmptyString => if seen then Some acc else None
  | String c s' =>
      match digitValue c with
      | Some d =>
          if d <? base then digitPrefix base s' (base * acc + d) true
          else if seen then Some acc else None
      | None => if seen then Some acc else None
      end
  end.

(** [parseInt(s)] without a radix: leading white space is skipped, then an
    optional sign, an optional [0x] prefix, and the longest run of digits;
    [None] is NaN.  The value is kept exact: the source only compares it
    with the tick bounds, which rounding to a double does not change. *)
Definition parseInt (s : string) : option Z :=
  let body (r : string) :=
    match r with
    | String "0" (String "x" h) | String "0" (String "X" h) => digitPrefix 16 h 0 false
    | _ => digitPrefix 10 r 0 false
    end in
  match trimStart s with
  | String "-" r => option_map Z.opp (body r)
  | String "+" r => body r
  | r => body r
  end.

(** Lower-case hexadecimal digit of a value below 16. *)
Definition hexDigit (n : N) : ascii :=
  if (n <? 10)%N then ascii_of_N (48 + n) else ascii_of_N (87 + n).

(** The double quote, code unit 34. *)
Definition dquote : ascii := ascii_of_N 34.

(** QuoteJSONString, one code unit at a time. *)
Definition escapeChar (c : ascii) : string :=
  let n := N_of_ascii c in
  if (n =? 8)%N then "\b"
  else if (n =? 9)%N then "\t"
  else if (n =? 10)%N then "\n"
  else if (n =? 12)%N then "\f"
  else if (n =? 13)%N then "\r"
  else if (n =? 34)%N then String "\" (String dquote EmptyString)
  else if (n =? 92)%N then "\\"
  else if (n <? 32)%N then
    "\u00" +:+ String (hexDigit (n / 16)) (String (hexDigit (n mod 16)) EmptyString)
  else String c EmptyString.

Fixpoint escape (s : string) : string :=
  match s with
  | EmptyString => EmptyString
  | String c s' => escapeChar c +:+ escape s'
  end.

Definition quoteJSON (s : string) : string :=
  String dquote (escape s +:+ String dquote EmptyString).

(** [JSON.stringify] of an array whose elements are already serialised. *)
Definition stringifyArray (elems : list string) : string :=
  match elems with
  | [] => "[]"
  | e :: es => "[" +:+ e +:+ fold_right (fun x acc => "," +:+ x +:+ acc) "]" es
  end.

End JS.

(* ===================================================================== *)
(** ** The concentrated-liquidity library the evaluator calls

    [TickMath], [FullMath] and [SqrtPriceMath] are imported from
    [@uniswap/v3-sdk]; the package is a dependency and is not part of the
    repository's sources. *)
(* ===================================================================== *)

Module JSBI.

(** [JSBI.divide] and [JSBI.remainder] truncate towards zero and throw a
    RangeError on a zero divisor. *)
Definition divide (a b : Z) : Completion Z :=
  if b =? 0 then Throw "RangeError: Division by zero" else Normal (Z.quot a b).

Definition remainder (a b : Z) : Completion Z :=
  if b =? 0 then Throw "RangeError: Division by zero" else Normal (Z.rem a b).

End JSBI.

Module TickMath.

Definition MIN_TICK : Z := -887272.
Definition MAX_TICK : Z := 887272.
Definition MIN_SQRT_RATIO : Z := 4295128739.
Definition MAX_SQRT_RATIO : Z := 1461446703485210103287273052203988822378723970342.
Definition Q32 : Z := 2 ^ 32.
Definition MaxUint256 : Z := 2 ^ 256 - 1.

Definition mulShift (val mulBy : Z) : Z := Z.shiftr (val * mulBy) 128.

(** The multipliers applied for bits 1 to 19 of the absolute tick, each
    with its bit mask. *)
Definition tickFactors : list (Z * Z) :=
  [ (0x2, 0xfff97272373d413259a46990580e213a);
    (0x4, 0xfff2e50f5f656932ef12357cf3c7fdcc);
    (0x8, 0xffe5caca7e10e4e61c3624eaa0941cd0);
    (0x10, 0xffcb9843d60f6159c9db58835c926644);
    (0x20, 0xff973b41fa98c081472e6896dfb254c0);
    (0x40, 0xff2ea16466c96a3843ec78b326b52861);
    (0x80, 0xfe5dee046a99a2a811c461f1969c3053);
    (0x100, 0xfcbe86c7900a88aedcffc83b479aa3a4);
    (0x200, 0xf987a7253ac413176f2b074cf7815e54);
    (0x400, 0xf3392b0822b70005940c7a398e4b70f3);
    (0x800, 0xe7159475a2c29b7443b29c7fa6e889d9);
    (0x1000, 0xd097f3bdfd2022b8845ad8f792aa5825);
    (0x2000, 0xa9f746462d870fdf8a65dc1f90e061e5);
    (0x4000, 0x70d869a156d2a1b890bb3df62baf32f7);
    (0x8000, 0x31be135f97d08fd981231505542fcfa6);
    (0x10000, 0x9aa508b5b7a84e1c677de54f3e99bc9);
    (0x20000, 0x5d6af8dedb81196699c329225ee604);
    (0x40000, 0x2216e584f5fa1ea926041bedfe98);
    (0x80000, 0x48a170391f7dc42444e8fa2) ].

(** One line [if ((absTick & mask) != 0) ratio = mulShift(ratio, mulBy)]. *)
Definition applyFactor (absTick : Z) (ratio : Z) (f : Z * Z) : Z :=
  if negb (Z.land absTick (fst f) =? 0) then mulShift ratio (snd f) else ratio.

(** The Q128.128 ratio for an absolute tick. *)
Definition ratioAtAbsTick (absTick : Z) : Z :=
  let ratio :=
    if negb (Z.land absTick 0x1 =? 0)
    then 0xfffcb933bd6fad37aa2d162d1a594001
    else 0x100000000000000000000000000000000 in
  fold_left (applyFactor absTick) tickFactors ratio.

(** Modelled from the spec: [TickMath.getSqrtRatioAtTick] of the SDK, which
    is not under src/; section 4.1 has it "convert each tick to a
    square-root price in a fixed-point representation", for ticks "within
    the platform's supported tick range".  The argument is a JavaScript
    number, [None] being NaN; the invariant of the SDK rejects NaN and
    ticks outside [MIN_TICK, MAX_TICK]. *)
Definition getSqrtRatioAtTick (tick : option Z) : Completion Z :=
  match tick with
  | None => Throw "Invariant failed: TICK"
  | Some tick =>
      if (MIN_TICK <=? tick) && (tick <=? MAX_TICK) then
        let absTick := if tick <? 0 then tick * -1 else tick in
        let ratio := ratioAtAbsTick absTick in
        ratio ← (if 0 <? tick then JSBI.divide MaxUint256 ratio else Normal ratio);
        r ← JSBI.remainder ratio Q32;
        q ← JSBI.divide ratio Q32;
        if 0 <? r then Normal (q + 1) else Normal q
      else Throw "Invariant failed: TICK"
  end.

End TickMath.

Module FullMath.

(** Modelled from the spec: [FullMath.mulDivRoundingUp] of the SDK, not
    under src/; section 4.1 asks for the quotient "rounding up (never
    down)". *)
Definition mulDivRoundingUp (a b denominator : Z) : Completion Z :=
  let product := a * b in
  result ← JSBI.divide product denominator;
  r ← JSBI.remainder product denominator;
  if negb (r =? 0) then Normal (result + 1) else Normal result.

End FullMath.

Module SqrtPriceMath.

Definition Q96 : Z := 2 ^ 96.

(** Modelled from the spec: [SqrtPriceMath.getAmount0Delta] of the SDK, not
    under src/; section 4.1: "apply the closed-form delta formulas for each
    token, rounding up".  The amount of token0 between two square-root
    prices is [liquidity * 2^96 * (B - A) / (B * A)], divided in two steps. *)
Definition getAmount0Delta (sqrtRatioAX96 sqrtRatioBX96 liquidity : Z) (roundUp : bool)
  : Completion Z :=
  let '(sqrtRatioAX96, sqrtRatioBX96) :=
    if sqrtRatioBX96 <? sqrtRatioAX96
    then (sqrtRatioBX96, sqrtRatioAX96) else (sqrtRatioAX96, sqrtRatioBX96) in
  let numerator1 := Z.shiftl liquidity 96 in
  let numerator2 := sqrtRatioBX96 - sqrtRatioAX96 in
  if roundUp then
    inner ← FullMath.mulDivRoundingUp numerator1 numerator2 sqrtRatioBX96;
    FullMath.mulDivRoundingUp inner 1 sqrtRatioAX96
  else
    inner ← JSBI.divide (numerator1 * numerator2) sqrtRatioBX96;
    JSBI.divide inner sqrtRatioAX96.

(** Modelled from the spec: [SqrtPriceMath.getAmount1Delta] of the SDK, not
    under src/; the amount of token1 is [liquidity * (B - A) / 2^96]. *)
Definition getAmount1Delta (sqrtRatioAX96 sqrtRatioBX96 liquidity : Z) (roundUp : bool)
  : Completion Z :=
  let '(sqrtRatioAX96, sqrtRatioBX96) :=
    if sqrtRatioBX96 <? sqrtRatioAX96
    then (sqrtRatioBX96, sqrtRatioAX96) else (sqrtRatioAX96, sqrtRatioBX96) in
  if roundUp then
    FullMath.mulDivRoundingUp liquidity (sqrtRatioBX96 - sqrtRatioAX96) Q96
  else
    JSBI.divide (liquidity * (sqrtRatioBX96 - sqrtRatioAX96)) Q96.

End SqrtPriceMath.

(* ===================================================================== *)
(** ** Data model (types/Option.ts) *)
(* ===================================================================== *)

Module InternalOption.
Record t := mk {
  handler : string;
  pool : string;
  hook : string;
  liquidityAtOpen : string;
  liquidityExercised : string;
  liquiditySettled : string;
  liquidityAtLive : string;
  tickLower : string;
  tickUpper : string;
  strike : string;
  index : string
}.
End InternalOption.

Module Option.
Record t := mk {
  tokenId : string;
  market : string;
  owner : string;
  createdAt : Z;
  expiry : Z;
  isCall : bool;
  opTickArrayLen : Z;
  chainId : Z;
  exerciseDelegate : option bool;
  internalOptions : list InternalOption.t
}.
End Option.

Module GetRatesRequestInternalOption.
Record t := mk {
  tickLower : string;
  tickUpper : string;
  liquidity : string
}.
End GetRatesRequestInternalOption.

Module GetRatesRequest.
Record t := mk {
  market : string;
  pool : string;
  tokenId : string;
  isCall : bool;
  chainId : Z;
  internalOptions : list GetRatesRequestInternalOption.t
}.
End GetRatesRequest.

Module ProfitabilityResult.
Record t := mk {
  index : nat;
  liquidityAvailable : string;
  amountLocked : string;
  quotedAmountOut : string;
  amountToRefill : string;
  profit : string;
  isProfitable : bool
}.
End ProfitabilityResult.

Module ExerciseParams.
Record t := mk {
  optionId : string;
  swapper : list string;
  swapData : list string;
  liquidityToExercise : list string
}.
End ExerciseParams.

Module GetRatesResponse.
Record t := mk {
  tokenId : string;
  totalProfit : string;
  isProfitable : bool;
  details : list ProfitabilityResult.t;
  exerciseParams : option ExerciseParams.t
}.
End GetRatesResponse.

(** [PoolMarketInfo] of ProfitabilityCalculator.ts. *)
Module PoolMarketInfo.
Record t := mk {
  poolFee : Z;
  callAsset : string;
  putAsset : string;
  token0 : string;
  token1 : string;
  primePool : option string
}.
End PoolMarketInfo.

(* ===================================================================== *)
(** ** The outside world *)
(* ===================================================================== *)

(** One entry of a viem [multicall] result: [{status: "success", result}]
    or [{status: "failure", error}]. *)
Inductive MulticallEntry (A : Type) : Type :=
| Success (result : A)
| Failure (error : string).

Arguments Success {A} result.
Arguments Failure {A} error.

Definition isFailure {A} (e : MulticallEntry A) : bool :=
  match e with Failure _ => true | Success _ => false end.

(** The five reads of the metadata batch, in the order of the source:
    pool fee, call asset, put asset, token0, token1. *)
Record PoolMulticallResult := {
  mc_fee : MulticallEntry Z;
  mc_callAsset : MulticallEntry string;
  mc_putAsset : MulticallEntry string;
  mc_token0 : MulticallEntry string;
  mc_token1 : MulticallEntry string
}.

(** Argument of the quoter's [quoteExactInputSingle]. *)
Record QuoteRequest := {
  qr_address : string;
  qr_tokenIn : string;
  qr_tokenOut : string;
  qr_amountIn : Z;
  qr_fee : Z;
  qr_sqrtPriceLimitX96 : Z
}.

(** The tuple the quoter returns: [amountOut, sqrtPriceX96After,
    initializedTicksCrossed, gasEstimate]. *)
Record QuoteTuple := {
  qt_amountOut : Z;
  qt_sqrtPriceX96After : Z;
  qt_initializedTicksCrossed : Z;
  qt_gasEstimate : Z
}.

(** A round trip to the chain issued by the evaluator. *)
Inductive NetworkCall :=
| ReadPrimePool (market : string)
| MulticallPool (market pool : string)
| MulticallQuotes (contracts : list QuoteRequest).

(** What the collaborators answer.  [getRpcUrl], [getQuoterAddress] and
    [getSwapRouterSwapper] are the chain configuration resolver (the
    resolver under src/ predates [getQuoterAddress], so the three lookups
    are taken as given); the next three fields are the chain client;
    [encodePacked] is viem's encoder applied to
    [["uint24", "uint256"], [fee, 0n]]; [dateNow n] is the value of the
    n-th reading of [Date.now()]. *)
Record Env := {
  getRpcUrl : Z -> Completion string;
  getQuoterAddress : Z -> Completion string;
  getSwapRouterSwapper : Z -> Completion string;
  readPrimePool : string -> Completion string;
  multicallPool : string -> string -> Completion PoolMulticallResult;
  multicallQuotes : list QuoteRequest -> Completion (list (MulticallEntry QuoteTuple));
  encodePacked : Z -> Completion string;
  dateNow : nat -> Z
}.

Inductive LogLevel := LError | LWarn | LInfo | LDebug.

(** A viem chain definition, as far as the source fills it in. *)
Record Chain := {
  chain_id : Z;
  chain_name : string;
  chain_rpcDefault : string;
  chain_rpcPublic : option string
}.

Record PublicClient := {
  client_chain : Chain;
  client_transport : string
}.

(* ===================================================================== *)
(** ** ProfitabilityCalculator *)
(* ===================================================================== *)

Record CacheEntry := {
  timestamp : Z;
  result : GetRatesResponse.t
}.

(** The calculator's private maps, followed by the three effects it has on
    its surroundings: records handed to the logger (latest first), readings
    of the clock so far, and round trips issued (latest first). *)
Record State := {
  chainConfigs : gmap Z Chain;
  profitabilityCache : gmap string CacheEntry;
  poolMarketInfoCache : gmap string PoolMarketInfo.t;
  logged : list (LogLevel * string);
  clockReads : nat;
  network : list NetworkCall
}.

Definition M (A : Type) : Type := State -> Completion A * State.

#[global] Instance M_ret : MRet M := fun _ a st => (Normal a, st).
#[global] Instance M_bind : MBind M := fun _ _ k m st =>
  match m st with
  | (Normal a, st') => k a st'
  | (Throw e, st') => (Throw e, st')
  end.

Definition liftC {A} (c : Completion A) : M A := fun st => (c, st).

(** [try { body } catch (error) { handler }]. *)
Definition tryCatch {A} (body : M A) (handler : string -> M A) : M A := fun st =>
  match body st with
  | (Normal a, st') => (Normal a, st')
  | (Throw e, st') => handler e st'
  end.

Definition getState : M State := fun st => (Normal st, st).

(** The state updates behind the primitive steps. *)
Definition addLog (level : LogLevel) (message : string) (st : State) : State :=
  {| chainConfigs := chainConfigs st;
     profitabilityCache := profitabilityCache st;
     poolMarketInfoCache := poolMarketInfoCache st;
     logged := (level, message) :: logged st;
     clockReads := clockReads st;
     network := network st |}.

Definition tick (st : State) : State :=
  {| chainConfigs := chainConfigs st;
     profitabilityCache := profitabilityCache st;
     poolMarketInfoCache := poolMarketInfoCache st;
     logged := logged st;
     clockReads := S (clockReads st);
     network := network st |}.

Definition issue (call : NetworkCall) (st : State) : State :=
  {| chainConfigs := chainConfigs st;
     profitabilityCache := profitabilityCache st;
     poolMarketInfoCache := poolMarketInfoCache st;
     logged := logged st;
     clockReads := clockReads st;
     network := call :: network st |}.

Definition withChainConfigs (m : gmap Z Chain) (st : State) : State :=
  {| chainConfigs := m;
     profitabilityCache := profitabilityCache st;
     poolMarketInfoCache := poolMarketInfoCache st;
     logged := logged st;
     clockReads := clockReads st;
     network := network st |}.

Definition withPoolMarketInfoCache (m : gmap string PoolMarketInfo.t) (st : State) : State :=
  {| chainConfigs := chainConfigs st;
     profitabilityCache := profitabilityCache st;
     poolMarketInfoCache := m;
     logged := logged st;
     clockReads := clockReads st;
     network := network st |}.

Definition withProfitabilityCache (m : gmap string CacheEntry) (st : State) : State :=
  {| chainConfigs := chainConfigs st;
     profitabilityCache := m;
     poolMarketInfoCache := poolMarketInfoCache st;
     logged := logged st;
     clockReads := clockReads st;
     network := network st |}.

(** [this.logger.info(...)] and the like. *)
Definition log (level : LogLevel) (message : string) : M unit := fun st =>
  (Normal tt, addLog level message st).

(** [Date.now()]. *)
Definition Date_now (env : Env) : M Z := fun st =>
  (Normal (dateNow env (clockReads st)), tick st).

(** A round trip: the call is issued, then the world answers. *)
Definition rpc {A} (call : NetworkCall) (answer : Completion A) : M A := fun st =>
  (answer, issue call st).

Definition setChainConfig (chainId : Z) (chain : Chain) : M unit := fun st =>
  (Normal tt, withChainConfigs (<[chainId := chain]> (chainConfigs st)) st).

Definition setPoolMarketInfo (key : string) (info : PoolMarketInfo.t) : M unit := fun st =>
  (Normal tt, withPoolMarketInfoCache (<[key := info]> (poolMarketInfoCache st)) st).

Definition setProfitability (key : string) (entry : CacheEntry) : M unit := fun st =>
  (Normal tt, withProfitabilityCache (<[key := entry]> (profitabilityCache st)) st).

Definition CACHE_TTL_MS : Z := 5000.

(** [JSON.stringify] of one [{tickLower, tickUpper, liquidity}] object. *)
Definition stringifyInternalOption (io : GetRatesRequestInternalOption.t) : string :=
  "{" +:+ JS.quoteJSON "tickLower" +:+ ":"
      +:+ JS.quoteJSON (GetRatesRequestInternalOption.tickLower io) +:+ ","
      +:+ JS.quoteJSON "tickUpper" +:+ ":"
      +:+ JS.quoteJSON (GetRatesRequestInternalOption.tickUpper io) +:+ ","
      +:+ JS.quoteJSON "liquidity" +:+ ":"
      +:+ JS.quoteJSON (GetRatesRequestInternalOption.liquidity io) +:+ "}".

Definition boolToString (b : bool) : string := if b then "true" else "false".

Definition generateProfitabilityCacheKey (request : GetRatesRequest.t) : string :=
  JS.BigInt_toString (GetRatesRequest.chainId request) +:+ "-"
    +:+ GetRatesRequest.market request +:+ "-"
    +:+ GetRatesRequest.pool request +:+ "-"
    +:+ GetRatesRequest.tokenId request +:+ "-"
    +:+ boolToString (GetRatesRequest.isCall request) +:+ "-"
    +:+ JS.stringifyArray (map stringifyInternalOption (GetRatesRequest.internalOptions request)).

Definition isCacheValid (env : Env) (timestamp : Z) : M bool :=
  now ← Date_now env;
  mret (now - timestamp <? CACHE_TTL_MS).

Definition generatePoolMarketCacheKey (chainId : Z) (market pool : string) : string :=
  JS.BigInt_toString chainId +:+ "-" +:+ market +:+ "-" +:+ pool.

Definition getChainConfig (env : Env) (chainId : Z) : M Chain :=
  st ← getState;
  match chainConfigs st !! chainId with
  | Some chain => mret chain
  | None =>
      rpcDefault ← liftC (getRpcUrl env chainId);
      rpcPublic ← liftC (getRpcUrl env chainId);
      let chain :=
        {| chain_id := chainId;
           chain_name := "Chain " +:+ JS.BigInt_toString chainId;
           chain_rpcDefault := rpcDefault;
           chain_rpcPublic := Some rpcPublic |} in
      _ ← setChainConfig chainId chain;
      mret chain
  end.

Definition createPublicClientForChain (env : Env) (chainId : Z) : M PublicClient :=
  rpcUrl ← liftC (getRpcUrl env chainId);
  chain ← (if chainId =? 8450 then
             rpcDefault ← liftC (getRpcUrl env chainId);
             mret {| chain_id := 8450; chain_name := "Base";
                     chain_rpcDefault := rpcDefault; chain_rpcPublic := None |}
           else getChainConfig env chainId);
  mret {| client_chain := chain; client_transport := rpcUrl |}.

(** [multicallResult.some((result) => result.status === "failure")]. *)
Definition someFailure (r : PoolMulticallResult) : bool :=
  isFailure (mc_fee r) || isFailure (mc_callAsset r) || isFailure (mc_putAsset r)
  || isFailure (mc_token0 r) || isFailure (mc_token1 r).

Definition getPoolMarketInfo (env : Env) (chainId : Z) (market pool : string)
  : M PoolMarketInfo.t :=
  let cacheKey := generatePoolMarketCacheKey chainId market pool in
  st ← getState;
  match poolMarketInfoCache st !! cacheKey with
  | Some cachedInfo =>
      _ ← log LDebug ("Using cached pool/market info for " +:+ cacheKey);
      mret cachedInfo
  | None =>
      _ ← log LInfo ("Fetching pool/market info for " +:+ cacheKey);
      primePool ← (if String.eqb market pool then mret pool
                   else rpc (ReadPrimePool market) (readPrimePool env market));
      multicallResult ← rpc (MulticallPool market pool) (multicallPool env market pool);
      match multicallResult with
      | {| mc_fee := Success poolFee; mc_callAsset := Success callAsset;
           mc_putAsset := Success putAsset; mc_token0 := Success token0;
           mc_token1 := Success token1 |} =>
          let info :=
            PoolMarketInfo.mk poolFee callAsset putAsset token0 token1 (Some primePool) in
          _ ← setPoolMarketInfo cacheKey info;
          mret info
      | _ => liftC (Throw "Failed to fetch pool data")
      end
  end.

(** An element of the [internalOptionsData] array built by the first loop
    of [calculateOptionProfitability]. *)
Record InternalOptionData := {
  iod_index : nat;
  iod_liquidityAvailable : Z;
  iod_amountLocked : Z;
  iod_amountToRefill : Z;
  iod_skipQuote : bool
}.

(** One pass of the first loop: what it pushes on [quoteRequests] (nothing,
    or one request) and on [internalOptionsData]. *)
Definition scanInternalOption (quoterAddress assetToUse assetToGet : string)
    (poolFee : Z) (isAmount0 : bool) (i : nat)
    (internalOption : GetRatesRequestInternalOption.t)
  : Completion (list QuoteRequest * InternalOptionData) :=
  liquidityAvailable ← JS.BigInt (GetRatesRequestInternalOption.liquidity internalOption);
  if liquidityAvailable <=? 0 then
    Normal ([], {| iod_index := i; iod_liquidityAvailable := 0; iod_amountLocked := 0;
                   iod_amountToRefill := 0; iod_skipQuote := true |})
  else
    let tickLower := JS.parseInt (GetRatesRequestInternalOption.tickLower internalOption) in
    let tickUpper := JS.parseInt (GetRatesRequestInternalOption.tickUpper internalOption) in
    sqrtRatioAX96 ← TickMath.getSqrtRatioAtTick tickLower;
    sqrtRatioBX96 ← TickMath.getSqrtRatioAtTick tickUpper;
    liquidity0 ← JS.BigInt (JS.BigInt_toString liquidityAvailable);
    amount0 ← SqrtPriceMath.getAmount0Delta sqrtRatioAX96 sqrtRatioBX96 liquidity0 true;
    liquidity1 ← JS.BigInt (JS.BigInt_toString liquidityAvailable);
    amount1 ← SqrtPriceMath.getAmount1Delta sqrtRatioAX96 sqrtRatioBX96 liquidity1 true;
    let '(amountLocked, amountToRefill) :=
      if isAmount0 then (amount0, amount1) else (amount1, amount0) in
    amountToSwapBigInt ← JS.BigInt (JS.BigInt_toString amountLocked);
    amountToRefillBigInt ← JS.BigInt (JS.BigInt_toString amountToRefill);
    Normal ([ {| qr_address := quoterAddress; qr_tokenIn := assetToUse;
                 qr_tokenOut := assetToGet; qr_amountIn := amountToSwapBigInt;
                 qr_fee := poolFee; qr_sqrtPriceLimitX96 := 0 |} ],
            {| iod_index := i; iod_liquidityAvailable := liquidityAvailable;
               iod_amountLocked := amountToSwapBigInt;
               iod_amountToRefill := amountToRefillBigInt; iod_skipQuote := false |}).

(** The first loop, from index [i] on. *)
Fixpoint scanLoop (quoterAddress assetToUse assetToGet : string) (poolFee : Z)
    (isAmount0 : bool) (i : nat) (internalOptions : list GetRatesRequestInternalOption.t)
    (quoteRequests : list QuoteRequest) (internalOptionsData : list InternalOptionData)
  : Completion (list QuoteRequest * list InternalOptionData) :=
  match internalOptions with
  | [] => Normal (quoteRequests, internalOptionsData)
  | internalOption :: rest =>
      '(pushed, data) ← scanInternalOption quoterAddress assetToUse assetToGet poolFee
                          isAmount0 i internalOption;
      scanLoop quoterAddress assetToUse assetToGet poolFee isAmount0 (S i) rest
        (quoteRequests ++ pushed) (internalOptionsData ++ [data])
  end.

Definition skippedDetail (i : nat) : ProfitabilityResult.t :=
  ProfitabilityResult.mk i "0" "0" "0" "0" "0" false.

Definition failedQuoteDetail (optionData : InternalOptionData) : ProfitabilityResult.t :=
  ProfitabilityResult.mk (iod_index optionData)
    (JS.BigInt_toString (iod_liquidityAvailable optionData))
    (JS.BigInt_toString (iod_amountLocked optionData))
    "0"
    (JS.BigInt_toString (iod_amountToRefill optionData))
    "0" false.

Definition quotedDetail (optionData : InternalOptionData) (quotedAmountOut : Z)
  : ProfitabilityResult.t :=
  let profit := quotedAmountOut - iod_amountToRefill optionData in
  ProfitabilityResult.mk (iod_index optionData)
    (JS.BigInt_toString (iod_liquidityAvailable optionData))
    (JS.BigInt_toString (iod_amountLocked optionData))
    (JS.BigInt_toString quotedAmountOut)
    (JS.BigInt_toString (iod_amountToRefill optionData))
    (JS.BigInt_toString profit)
    (0 <? profit).

(** The second loop: [quoteIndex], [totalProfit] and [profitabilityDetails]
    are the loop's variables.  Reading past the end of [quoteResults] gives
    [undefined], whose [status] is a TypeError. *)
Fixpoint processLoop (internalOptionsData : list InternalOptionData)
    (quoteResults : list (MulticallEntry QuoteTuple)) (quoteIndex : nat)
    (totalProfit : Z) (profitabilityDetails : list ProfitabilityResult.t)
  : M (Z * list ProfitabilityResult.t) :=
  match internalOptionsData with
  | [] => mret (totalProfit, profitabilityDetails)
  | optionData :: rest =>
      if iod_skipQuote optionData then
        processLoop rest quoteResults quoteIndex totalProfit
          (profitabilityDetails ++ [skippedDetail (iod_index optionData)])
      else
        match quoteResults !! quoteIndex with
        | None =>
            liftC (Throw "TypeError: Cannot read properties of undefined (reading 'status')")
        | Some (Failure _) =>
            _ ← log LError "Quote request failed";
            processLoop rest quoteResults (S quoteIndex) totalProfit
              (profitabilityDetails ++ [failedQuoteDetail optionData])
        | Some (Success result) =>
            let quotedAmountOut := qt_amountOut result in
            let profit := quotedAmountOut - iod_amountToRefill optionData in
            processLoop rest quoteResults (S quoteIndex)
              (if 0 <? profit then totalProfit + profit else totalProfit)
              (profitabilityDetails ++ [quotedDetail optionData quotedAmountOut])
        end
  end.

(** Which [return] statement of [calculateOptionProfitability] produced the
    response: the cache hit, the end of the [try] block, the two early
    returns inside it, or the [catch] block. *)
Inductive Path := CacheHit | Computed | EncodingFailed | NoSwapper | Caught.

Definition zeroLiquidity (request : GetRatesRequest.t) : list string :=
  repeat "0" (length (GetRatesRequest.internalOptions request)).

(** The response of the two early returns (swap data that cannot be
    encoded, no swapper address). *)
Definition degradedResponse (request : GetRatesRequest.t) (totalProfit : Z)
    (profitabilityDetails : list ProfitabilityResult.t) : GetRatesResponse.t :=
  GetRatesResponse.mk (GetRatesRequest.tokenId request)
    (JS.BigInt_toString totalProfit) (0 <? totalProfit) profitabilityDetails
    (Some (ExerciseParams.mk (GetRatesRequest.tokenId request) [] []
             (zeroLiquidity request))).

(** The response of the [catch] block. *)
Definition fallbackResponse (request : GetRatesRequest.t) : GetRatesResponse.t :=
  GetRatesResponse.mk (GetRatesRequest.tokenId request) "0" false []
    (Some (ExerciseParams.mk (GetRatesRequest.tokenId request) [] []
             (zeroLiquidity request))).

(** From the end of the second loop to the end of the [try] block. *)
Definition prepareExercise (env : Env) (request : GetRatesRequest.t) (cacheKey : string)
    (poolFee : Z) (totalProfit : Z) (profitabilityDetails : list ProfitabilityResult.t)
  : M (Path * GetRatesResponse.t) :=
  let tokenId := GetRatesRequest.tokenId request in
  let chainId := GetRatesRequest.chainId request in
  _ ← log LInfo ("Profitability analysis for option " +:+ tokenId);
  let liquidityToExercise :=
    map (fun detail =>
           if ProfitabilityResult.isProfitable detail
           then ProfitabilityResult.liquidityAvailable detail else "0")
        profitabilityDetails in
  match mapC (fun _ => encodePacked env poolFee) (GetRatesRequest.internalOptions request) with
  | Throw error =>
      _ ← log LError ("Error encoding swap data: " +:+ error);
      mret (EncodingFailed, degradedResponse request totalProfit profitabilityDetails)
  | Normal swapData =>
      swapRouterSwapperAddress ← liftC (getSwapRouterSwapper env chainId);
      if String.eqb swapRouterSwapperAddress EmptyString then
        _ ← log LError ("No swapper address configured for chain "
                          +:+ JS.BigInt_toString chainId);
        mret (NoSwapper, degradedResponse request totalProfit profitabilityDetails)
      else
        let swapperAddresses :=
          repeat swapRouterSwapperAddress
            (length (GetRatesRequest.internalOptions request)) in
        let exerciseParams :=
          ExerciseParams.mk tokenId swapperAddresses swapData liquidityToExercise in
        _ ← log LInfo "Generated exercise parameters:";
        let result :=
          GetRatesResponse.mk tokenId (JS.BigInt_toString totalProfit) (0 <? totalProfit)
            profitabilityDetails (Some exerciseParams) in
        now ← Date_now env;
        _ ← setProfitability cacheKey {| timestamp := now; result := result |};
        mret (Computed, result)
  end.

(** The [try] block. *)
Definition evaluate (env : Env) (request : GetRatesRequest.t) (cacheKey : string)
  : M (Path * GetRatesResponse.t) :=
  let tokenId := GetRatesRequest.tokenId request in
  let chainId := GetRatesRequest.chainId request in
  publicClient ← createPublicClientForChain env chainId;
  poolMarketInfo ← getPoolMarketInfo env chainId (GetRatesRequest.market request)
                     (GetRatesRequest.pool request);
  _ ← Date_now env;
  _ ← log LInfo ("Time after getting pool info " +:+ tokenId);
  let poolFee := PoolMarketInfo.poolFee poolMarketInfo in
  let callAsset := PoolMarketInfo.callAsset poolMarketInfo in
  let putAsset := PoolMarketInfo.putAsset poolMarketInfo in
  let token0 := PoolMarketInfo.token0 poolMarketInfo in
  let isCall := GetRatesRequest.isCall request in
  let isAmount0 := if isCall then String.eqb token0 callAsset else String.eqb token0 putAsset in
  let assetToUse := if isCall then callAsset else putAsset in
  let assetToGet := if isCall then putAsset else callAsset in
  quoterAddress ← liftC (getQuoterAddress env chainId);
  '(quoteRequests, internalOptionsData) ←
    liftC (scanLoop quoterAddress assetToUse assetToGet poolFee isAmount0 0
             (GetRatesRequest.internalOptions request) [] []);
  _ ← Date_now env;
  _ ← log LInfo ("Time before multi call 2 " +:+ tokenId);
  quoteResults ← (match quoteRequests with
                  | [] => mret []
                  | _ => rpc (MulticallQuotes quoteRequests) (multicallQuotes env quoteRequests)
                  end);
  _ ← Date_now env;
  _ ← log LInfo ("Time after multi call 2 " +:+ tokenId);
  '(totalProfit, profitabilityDetails) ← processLoop internalOptionsData quoteResults 0 0 [];
  prepareExercise env request cacheKey poolFee totalProfit profitabilityDetails.

(** The [try ... catch] statement. *)
Definition tryEvaluate (env : Env) (request : GetRatesRequest.t) (cacheKey : string)
  : M (Path * GetRatesResponse.t) :=
  tryCatch (evaluate env request cacheKey)
    (fun error =>
       _ ← log LError ("Error calculating profitability for option "
                         +:+ GetRatesRequest.tokenId request +:+ ":");
       mret (Caught, fallbackResponse request)).

(** [calculateOptionProfitability], paired with the [return] it left by. *)
Definition calculateTraced (env : Env) (request : GetRatesRequest.t)
  : M (Path * GetRatesResponse.t) :=
  let tokenId := GetRatesRequest.tokenId request in
  startTime ← Date_now env;
  _ ← log LInfo ("Calculating profitability for option " +:+ tokenId);
  let cacheKey := generateProfitabilityCacheKey request in
  st ← getState;
  match profitabilityCache st !! cacheKey with
  | Some cachedResult =>
      valid ← isCacheValid env (timestamp cachedResult);
      if (valid : bool) then
        _ ← log LInfo ("Using cached profitability result for option " +:+ tokenId);
        mret (CacheHit, result cachedResult)
      else tryEvaluate env request cacheKey
  | None => tryEvaluate env request cacheKey
  end.

Definition calculateOptionProfitability (env : Env) (request : GetRatesRequest.t)
  : M GetRatesResponse.t :=
  r ← calculateTraced env request;
  mret (snd r).

(** [cleanupCache]: entries older than the TTL are deleted. *)
Definition cleanupCache (env : Env) : M unit :=
  now ← Date_now env;
  st ← getState;
  let kept :=
    filter (fun kv => ¬ (CACHE_TTL_MS < now - timestamp (snd kv))) (profitabilityCache st) in
  let expiredCount := (size (profitabilityCache st) - size kept)%nat in
  _ ← ((fun st' : State => (Normal tt, withProfitabilityCache kept st')) : M unit);
  _ ← (if (0 <? expiredCount)%nat
       then log LInfo "Cleaned up expired cache entries" else mret tt);
  log LDebug "Pool market info cache size".

(* ===================================================================== *)
(** ** SettlementEngine *)
(* ===================================================================== *)

(** [SettleOptionParams] of SettlementEngine.ts. *)
Module SettleOptionParams.
Record t := mk {
  optionId : Z;
  swapper : list string;
  swapData : list string;
  liquidityToSettle : list Z
}.
End SettleOptionParams.

(** A [walletClient.writeContract] call: the contract function and its
    arguments. *)
Inductive Submission :=
| SettleOption (market : string) (params : SettleOptionParams.t).

(** The collaborators of the engine beyond those of the calculator: the
    key-to-account derivation, the pool's [fee] read, the transaction
    submission (answering a hash). *)
Record EngineEnv := {
  base : Env;
  privateKeyToAccount : Completion string;
  readPoolFee : string -> Completion Z;
  writeContract : Submission -> Completion string
}.

(** The engine's fields; [calculator] is its ProfitabilityCalculator, whose
    logger is the engine's.  [timersCreated] numbers the handles that
    [setInterval] hands out, [submitted] lists the transactions handed to
    the wallet client (latest first), [passes] counts the passes through
    the body of the control loop begun so far. *)
Record EngineState := {
  isRunning : bool;
  cacheCleanupInterval : option nat;
  engineChainConfigs : gmap Z Chain;
  timersCreated : nat;
  submitted : list Submission;
  passes : nat;
  calculator : State
}.

Definition E (A : Type) : Type := EngineState -> Completion A * EngineState.

#[global] Instance E_ret : MRet E := fun _ a st => (Normal a, st).
#[global] Instance E_bind : MBind E := fun _ _ k m st =>
  match m st with
  | (Normal a, st') => k a st'
  | (Throw e, st') => (Throw e, st')
  end.

Definition liftE {A} (c : Completion A) : E A := fun st => (c, st).

Definition tryCatchE {A} (body : E A) (handler : string -> E A) : E A := fun st =>
  match body st with
  | (Normal a, st') => (Normal a, st')
  | (Throw e, st') => handler e st'
  end.

Definition getEngine : E EngineState := fun st => (Normal st, st).

(** The state updates behind the engine's primitive steps. *)
Definition withCalculator (c : State) (st : EngineState) : EngineState :=
  {| isRunning := isRunning st;
     cacheCleanupInterval := cacheCleanupInterval st;
     engineChainConfigs := engineChainConfigs st;
     timersCreated := timersCreated st;
     submitted := submitted st;
     passes := passes st;
     calculator := c |}.

Definition withRunning (b : bool) (st : EngineState) : EngineState :=
  {| isRunning := b;
     cacheCleanupInterval := cacheCleanupInterval st;
     engineChainConfigs := engineChainConfigs st;
     timersCreated := timersCreated st;
     submitted := submitted st;
     passes := passes st;
     calculator := calculator st |}.

Definition withNewInterval (st : EngineState) : EngineState :=
  {| isRunning := isRunning st;
     cacheCleanupInterval := Some (timersCreated st);
     engineChainConfigs := engineChainConfigs st;
     timersCreated := S (timersCreated st);
     submitted := submitted st;
     passes := passes st;
     calculator := calculator st |}.

Definition withoutInterval (st : EngineState) : EngineState :=
  {| isRunning := isRunning st;
     cacheCleanupInterval := None;
     engineChainConfigs := engineChainConfigs st;
     timersCreated := timersCreated st;
     submitted := submitted st;
     passes := passes st;
     calculator := calculator st |}.

Definition withEngineChainConfigs (m : gmap Z Chain) (st : EngineState) : EngineState :=
  {| isRunning := isRunning st;
     cacheCleanupInterval := cacheCleanupInterval st;
     engineChainConfigs := m;
     timersCreated := timersCreated st;
     submitted := submitted st;
     passes := passes st;
     calculator := calculator st |}.

Definition addSubmission (s : Submission) (st : EngineState) : EngineState :=
  {| isRunning := isRunning st;
     cacheCleanupInterval := cacheCleanupInterval st;
     engineChainConfigs := engineChainConfigs st;
     timersCreated := timersCreated st;
     submitted := s :: submitted st;
     passes := passes st;
     calculator := calculator st |}.

Definition countPass (st : EngineState) : EngineState :=
  {| isRunning := isRunning st;
     cacheCleanupInterval := cacheCleanupInterval st;
     engineChainConfigs := engineChainConfigs st;
     timersCreated := timersCreated st;
     submitted := submitted st;
     passes := S (passes st);
     calculator := calculator st |}.

(** A method of the calculator run on the engine's instance. *)
Definition onCalculator {A} (m : M A) : E A := fun st =>
  (fst (m (calculator st)), withCalculator (snd (m (calculator st))) st).

(** The engine's logger is the one it hands to its calculator. *)
Definition elog (level : LogLevel) (message : string) : E unit :=
  onCalculator (log level message).

Definition setRunning (b : bool) : E unit := fun st => (Normal tt, withRunning b st).

(** [this.cacheCleanupInterval = setInterval(...)]. *)
Definition setCleanupInterval : E unit := fun st => (Normal tt, withNewInterval st).

(** [if (this.cacheCleanupInterval) { clearInterval(...); ... = null }]. *)
Definition clearCleanupInterval : E unit := fun st =>
  (Normal tt,
   match cacheCleanupInterval st with
   | Some _ => withoutInterval st
   | None => st
   end).

Definition setEngineChainConfig (chainId : Z) (chain : Chain) : E unit := fun st =>
  (Normal tt, withEngineChainConfigs (<[chainId := chain]> (engineChainConfigs st)) st).

(** [walletClient.writeContract(...)]: the call is handed over, then the
    wallet answers. *)
Definition submit (eenv : EngineEnv) (s : Submission) : E string := fun st =>
  (writeContract eenv s, addSubmission s st).

Definition beginPass : E unit := fun st => (Normal tt, countPass st).

Definition engineGetChainConfig (eenv : EngineEnv) (chainId : Z) : E Chain :=
  st ← getEngine;
  match engineChainConfigs st !! chainId with
  | Some chain => mret chain
  | None =>
      rpcDefault ← liftE (getRpcUrl (base eenv) chainId);
      rpcPublic ← liftE (getRpcUrl (base eenv) chainId);
      let chain :=
        {| chain_id := chainId;
           chain_name := "Chain " +:+ JS.BigInt_toString chainId;
           chain_rpcDefault := rpcDefault;
           chain_rpcPublic := Some rpcPublic |} in
      _ ← setEngineChainConfig chainId chain;
      mret chain
  end.

(** [createClientsForChain]: the public client and the wallet client's
    account. *)
Definition createClientsForChain (eenv : EngineEnv) (chainId : Z)
  : E (PublicClient * string) :=
  rpcUrl ← liftE (getRpcUrl (base eenv) chainId);
  chain ← (if chainId =? 8450 then
             rpcDefault ← liftE (getRpcUrl (base eenv) chainId);
             mret {| chain_id := 8450; chain_name := "Base";
                     chain_rpcDefault := rpcDefault; chain_rpcPublic := None |}
           else engineGetChainConfig eenv chainId);
  account ← liftE (privateKeyToAccount eenv);
  mret ({| client_chain := chain; client_transport := rpcUrl |}, account).

(** The callback of [option.internalOptions.map] that computes
    [liquidityToSettle]; the three versions of [handleExpiredOption] in the
    repository share it. *)
Definition settlementLiquidity (internalOption : InternalOption.t) : Completion Z :=
  atOpen ← JS.BigInt (InternalOption.liquidityAtOpen internalOption);
  exercised ← JS.BigInt (InternalOption.liquidityExercised internalOption);
  settled ← JS.BigInt (InternalOption.liquiditySettled internalOption);
  let liquidityAvailable := atOpen - exercised - settled in
  Normal liquidityAvailable.

(** [Array(n).fill(x)] for a number [n]. *)
Definition arrayFill {A} (n : Z) (x : A) : Completion (list A) :=
  if (0 <=? n) && (n <? 2 ^ 32) then Normal (repeat x (Z.to_nat n))
  else Throw "RangeError: Invalid array length".

(** The [try] block of [handleExpiredOption]. *)
Definition settleExpired (eenv : EngineEnv) (option : Option.t) : E unit :=
  _ ← createClientsForChain eenv (Option.chainId option);
  first ← liftE (match Option.internalOptions option with
                 | internalOption :: _ => Normal internalOption
                 | [] => Throw "TypeError: Cannot read properties of undefined (reading 'pool')"
                 end);
  poolFee ← liftE (readPoolFee eenv (InternalOption.pool first));
  _ ← elog LInfo ("Pool fee: " +:+ JS.BigInt_toString poolFee);
  liquidityToSettle ← liftE (mapC settlementLiquidity (Option.internalOptions option));
  swapData ← liftE (mapC (fun _ => encodePacked (base eenv) poolFee)
                      (Option.internalOptions option));
  swapperAddress ← liftE (getSwapRouterSwapper (base eenv) (Option.chainId option));
  swapperAddresses ← liftE (arrayFill (Option.opTickArrayLen option) swapperAddress);
  optionId ← liftE (JS.BigInt (Option.tokenId option));
  let settlementParams :=
    SettleOptionParams.mk optionId swapperAddresses swapData liquidityToSettle in
  _ ← elog LInfo "Attempting to settle option with params:";
  hash ← submit eenv (SettleOption (Option.market option) settlementParams);
  elog LInfo "Settlement transaction submitted".

Definition handleExpiredOption (eenv : EngineEnv) (option : Option.t) : E unit :=
  _ ← elog LInfo ("Handling expired option " +:+ Option.tokenId option);
  tryCatchE (settleExpired eenv option)
    (fun error =>
       _ ← elog LError ("Error handlin expired options " +:+ Option.tokenId option +:+ ":");
       elog LError "Failed option details:").

(** [stop()]. *)
Definition stop : E unit :=
  _ ← setRunning false;
  _ ← elog LInfo "Stopping settlement engine";
  clearCleanupInterval.

(** What happens during one pass through the body of the control loop
    ([processExpiringOptions], [processExpiredOptions], the ten-second
    pause): whether the pass ends normally or by throwing, and whether
    [stop()] is called (index.ts calls it from its signal handlers) while
    the pass is suspended.  The effects of the pass on the rest of the
    engine are not followed here. *)
Record Pass := {
  pass_outcome : Completion unit;
  pass_stop : bool
}.

(** The body of the loop, with its [catch] clause, for one pass. *)
Definition loopBody (pass : Pass) : E unit :=
  _ ← beginPass;
  _ ← (if pass_stop pass then stop else mret tt);
  tryCatchE (liftE (pass_outcome pass))
    (fun error => elog LError "Error in main loop:").

(** How far [start()] has got when the passes listed have been played. *)
Inductive Progress := Returned | Looping.

(** [while (this.isRunning) { try { ... } catch (error) { ... } }]. *)
Fixpoint controlLoop (schedule : list Pass) (st : EngineState) : Progress * EngineState :=
  if isRunning st then
    match schedule with
    | [] => (Looping, st)
    | pass :: rest => controlLoop rest (snd (loopBody pass st))
    end
  else (Returned, st).

(** [start()], played against a schedule of passes. *)
Definition start (schedule : list Pass) (st : EngineState) : Progress * EngineState :=
  if isRunning st then
    (Returned, snd (elog LWarn "Settlement engine is already running" st))
  else
    let st1 := snd (setRunning true st) in
    let st2 := snd (elog LInfo "Starting settlement engine" st1) in
    let st3 := snd (setCleanupInterval st2) in
    match controlLoop schedule st3 with
    | (Returned, st4) => (Returned, snd (clearCleanupInterval st4))
    | (Looping, st4) => (Looping, st4)
    end.

(* ===================================================================== *)
(** ** Reference formulas and sample inputs *)
(* ===================================================================== *)

(** The closed-form amount of token0 between two square-root prices, in
    rational arithmetic: [L * 2^96 * (hi - lo) / (hi * lo)]. *)
Definition exactAmount0Delta (sqrtRatioAX96 sqrtRatioBX96 liquidity : Z) : Q :=
  let lo := Z.min sqrtRatioAX96 sqrtRatioBX96 in
  let hi := Z.max sqrtRatioAX96 sqrtRatioBX96 in
  (inject_Z (liquidity * 2 ^ 96 * (hi - lo)) / inject_Z (hi * lo))%Q.

(** The closed-form amount of token1, in rational arithmetic:
    [L * (hi - lo) / 2^96]. *)
Definition exactAmount1Delta (sqrtRatioAX96 sqrtRatioBX96 liquidity : Z) : Q :=
  let lo := Z.min sqrtRatioAX96 sqrtRatioBX96 in
  let hi := Z.max sqrtRatioAX96 sqrtRatioBX96 in
  (inject_Z (liquidity * (hi - lo)) / inject_Z (2 ^ 96))%Q.

(** A world in which every lookup succeeds: token0 is the call asset, the
    fee tier is 3000, the clock advances by one millisecond per reading;
    the answers of the metadata batch and of the quote batch are left
    open. *)
Definition sampleMetadata : PoolMulticallResult :=
  {| mc_fee := Success 3000; mc_callAsset := Success "0xCa11";
     mc_putAsset := Success "0xFee7"; mc_token0 := Success "0xCa11";
     mc_token1 := Success "0xFee7" |}.

Definition sampleEnv (metadata : Completion PoolMulticallResult)
    (quotes : Completion (list (MulticallEntry QuoteTuple))) (swapper : string) : Env :=
  {| getRpcUrl := fun _ => Normal "http://localhost:8545";
     getQuoterAddress := fun _ => Normal "0x0007e4";
     getSwapRouterSwapper := fun _ => Normal swapper;
     readPrimePool := fun _ => Normal "0x9001";
     multicallPool := fun _ _ => metadata;
     multicallQuotes := fun _ => quotes;
     encodePacked := fun _ => Normal "0x000bb8";
     dateNow := fun n => 1000 + Z.of_nat n |}.

Definition quoted (amountOut : Z) : MulticallEntry QuoteTuple :=
  Success {| qt_amountOut := amountOut; qt_sqrtPriceX96After := 0;
             qt_initializedTicksCrossed := 0; qt_gasEstimate := 0 |}.

Definition emptyState : State :=
  {| chainConfigs := ∅; profitabilityCache := ∅; poolMarketInfoCache := ∅;
     logged := []; clockReads := 0; network := [] |}.

Definition sampleRequest (internalOptions : list GetRatesRequestInternalOption.t)
  : GetRatesRequest.t :=
  GetRatesRequest.mk "0x3a47" "0x3a47" "7" true 8453 internalOptions.

(** Ticks -100 to 100 with liquidity 1000000: both token amounts are 10000. *)
Definition liveRange : GetRatesRequestInternalOption.t :=
  GetRatesRequestInternalOption.mk "-100" "100" "1000000".

Definition emptyRange : GetRatesRequestInternalOption.t :=
  GetRatesRequestInternalOption.mk "-100" "100" "0".

(* ===================================================================== *)
(** ** Auxiliary definitions for the proofs *)
(* ===================================================================== *)

Definition isDigit (c : ascii) : bool :=
  (48 <=? N_of_ascii c)%N && (N_of_ascii c <=? 57)%N.

Fixpoint allDigits (s : string) : bool :=
  match s with
  | EmptyString => true
  | String c s' => isDigit c && allDigits s'
  end.

(** The completion [BigInt] builds from the digits it has read. *)
Definition ofDigits (s : string) (o : option Z) : Completion Z :=
  match o with
  | Some z => Normal z
  | None => Throw ("SyntaxError: Cannot convert " +:+ s +:+ " to a BigInt")
  end.

(** The Q128.128 ratio obtained when every factor is applied. *)
Definition leastRatio : Z :=
  fold_left (fun x f => TickMath.mulShift x (snd f)) TickMath.tickFactors
    0xfffcb933bd6fad37aa2d162d1a594001.

(** Inverse of [JS.escapeChar] on the character after a backslash. *)
Definition unescapeChar (e : ascii) : option ascii :=
  let n := N_of_ascii e in
  if (n =? 98)%N then Some (ascii_of_N 8)
  else if (n =? 116)%N then Some (ascii_of_N 9)
  else if (n =? 110)%N then Some (ascii_of_N 10)
  else if (n =? 102)%N then Some (ascii_of_N 12)
  else if (n =? 114)%N then Some (ascii_of_N 13)
  else if (n =? 34)%N then Some (ascii_of_N 34)
  else if (n =? 92)%N then Some (ascii_of_N 92)
  else None.

Definition hexValue4 (a b c d : ascii) : option N :=
  match JS.digitValue a, JS.digitValue b, JS.digitValue c, JS.digitValue d with
  | Some x, Some y, Some z, Some w => Some (Z.to_N (((x * 16 + y) * 16 + z) * 16 + w))
  | _, _, _, _ => None
  end.

(** Reads a JSON string body up to its closing quote: the string it
    denotes and what follows the quote. *)
Fixpoint unquoteBody (s : string) : option (string * string) :=
  match s with
  | EmptyString => None
  | String c r =>
      if (N_of_ascii c =? 34)%N then Some (EmptyString, r)
      else if (N_of_ascii c =? 92)%N then
        match r with
        | String e r1 =>
            if (N_of_ascii e =? 117)%N then
              match r1 with
              | String h1 (String h2 (String h3 (String h4 r2))) =>
                  match hexValue4 h1 h2 h3 h4, unquoteBody r2 with
                  | Some n, Some (t, rest) => Some (String (ascii_of_N n) t, rest)
                  | _, _ => None
                  end
              | _ => None
              end
            else
              match unescapeChar e, unquoteBody r1 with
              | Some d, Some (t, rest) => Some (String d t, rest)
              | _, _ => None
              end
        | EmptyString => None
        end
      else
        match unquoteBody r with
        | Some (t, rest) => Some (String c t, rest)
        | None => None
        end
  end.

(** No hyphen among the characters of [s]. *)
Fixpoint noDash (s : string) : bool :=
  match s with
  | EmptyString => true
  | String c s' => negb (Ascii.eqb c "-") && noDash s'
  end.

(** The addresses and the position identifier of a request contain no
    hyphen. *)
Definition hyphenFree (request : GetRatesRequest.t) : Prop :=
  noDash (GetRatesRequest.market request) = true
  /\ noDash (GetRatesRequest.pool request) = true
  /\ noDash (GetRatesRequest.tokenId request) = true.

(** Two requests that differ in one field and agree on the others.  A
    difference in the list of sub-positions is any difference: the same
    sub-positions in another order, or a sub-position with another
    [tickLower], [tickUpper] or [liquidity]. *)
Inductive differInOneField : GetRatesRequest.t -> GetRatesRequest.t -> Prop :=
| differ_chainId chainId chainId' market pool tokenId isCall internalOptions :
    chainId <> chainId' ->
    differInOneField
      (GetRatesRequest.mk market pool tokenId isCall chainId internalOptions)
      (GetRatesRequest.mk market pool tokenId isCall chainId' internalOptions)
| differ_market market market' pool tokenId isCall chainId internalOptions :
    market <> market' ->
    differInOneField
      (GetRatesRequest.mk market pool tokenId isCall chainId internalOptions)
      (GetRatesRequest.mk market' pool tokenId isCall chainId internalOptions)
| differ_pool pool pool' market tokenId isCall chainId internalOptions :
    pool <> pool' ->
    differInOneField
      (GetRatesRequest.mk market pool tokenId isCall chainId internalOptions)
      (GetRatesRequest.mk market pool' tokenId isCall chainId internalOptions)
| differ_tokenId tokenId tokenId' market pool isCall chainId internalOptions :
    tokenId <> tokenId' ->
    differInOneField
      (GetRatesRequest.mk market pool tokenId isCall chainId internalOptions)
      (GetRatesRequest.mk market pool tokenId' isCall chainId internalOptions)
| differ_isCall isCall isCall' market pool tokenId chainId internalOptions :
    isCall <> isCall' ->
    differInOneField
      (GetRatesRequest.mk market pool tokenId isCall chainId internalOptions)
      (GetRatesRequest.mk market pool tokenId isCall' chainId internalOptions)
| differ_internalOptions internalOptions internalOptions' market pool tokenId isCall chainId :
    internalOptions <> internalOptions' ->
    differInOneField
      (GetRatesRequest.mk market pool tokenId isCall chainId internalOptions)
      (GetRatesRequest.mk market pool tokenId isCall chainId internalOptions').

(** Two requests that differ in their market and pool strings. *)
Definition dashedMarket : GetRatesRequest.t :=
  GetRatesRequest.mk "a-b" "c" "7" true 1 [].

Definition dashedPool : GetRatesRequest.t :=
  GetRatesRequest.mk "a" "b-c" "7" true 1 [].

(** A computation that leaves the observation [f] of the state unchanged,
    however it ends. *)
Definition keeps {A X} (f : State -> X) (m : M A) : Prop :=
  forall st, f (snd (m st)) = f st.

(** The pass of the first loop over a sub-position without liquidity. *)
Definition skippedData (i : nat) : InternalOptionData :=
  {| iod_index := i; iod_liquidityAvailable := 0; iod_amountLocked := 0;
     iod_amountToRefill := 0; iod_skipQuote := true |}.

(** The sub-position has positive liquidity: the first loop queues a quote
    for it. *)
Definition hasLiquidity (io : GetRatesRequestInternalOption.t) : bool :=
  match JS.BigInt (GetRatesRequestInternalOption.liquidity io) with
  | Normal liquidity => 0 <? liquidity
  | Throw _ => false
  end.

(** The position, in the quote batch, of the quote for sub-position [j]:
    the number of sub-positions with liquidity among the first [j]. *)
Fixpoint quoteSlot (internalOptions : list GetRatesRequestInternalOption.t) (j : nat) : nat :=
  match j, internalOptions with
  | S j', io :: rest => ((if hasLiquidity io then 1 else 0) + quoteSlot rest j')%nat
  | _, _ => 0%nat
  end.

(** The same count on [internalOptionsData]: the elements among the first
    [j] whose quote is not skipped. *)
Fixpoint dataSlot (data : list InternalOptionData) (j : nat) : nat :=
  match j, data with
  | S j', od :: rest => ((if iod_skipQuote od then 0 else 1) + dataSlot rest j')%nat
  | _, _ => 0%nat
  end.

(** The detail the second loop pushes for one element of
    [internalOptionsData], given the quote results and the element's slot. *)
Definition detailFor (optionData : InternalOptionData)
    (quoteResults : list (MulticallEntry QuoteTuple)) (slot : nat) : ProfitabilityResult.t :=
  if iod_skipQuote optionData then skippedDetail (iod_index optionData)
  else match quoteResults !! slot with
       | Some (Success quote) => quotedDetail optionData (qt_amountOut quote)
       | _ => failedQuoteDetail optionData
       end.

Fixpoint expectedDetails (internalOptionsData : list InternalOptionData)
    (quoteResults : list (MulticallEntry QuoteTuple)) (slot : nat)
  : list ProfitabilityResult.t :=
  match internalOptionsData with
  | [] => []
  | optionData :: rest =>
      detailFor optionData quoteResults slot
        :: expectedDetails rest quoteResults
             (if iod_skipQuote optionData then slot else S slot)
  end.

(** The profit a detail reports, when it is positive; zero otherwise. *)
Definition positiveProfit (detail : ProfitabilityResult.t) : Z :=
  match JS.BigInt (ProfitabilityResult.profit detail) with
  | Normal profit => if 0 <? profit then profit else 0
  | Throw _ => 0
  end.

Definition sumPositiveProfits (details : list ProfitabilityResult.t) : Z :=
  fold_right (fun detail acc => positiveProfit detail + acc) 0 details.

(** The liquidity-to-exercise entries the source derives from the details. *)
Definition exercisable (details : list ProfitabilityResult.t) : list string :=
  map (fun detail =>
         if ProfitabilityResult.isProfitable detail
         then ProfitabilityResult.liquidityAvailable detail else "0")
      details.

(** The arguments of the first loop, as [evaluate] derives them from the
    metadata and the request. *)
Definition assetToUse (info : PoolMarketInfo.t) (request : GetRatesRequest.t) : string :=
  if GetRatesRequest.isCall request
  then PoolMarketInfo.callAsset info else PoolMarketInfo.putAsset info.

Definition assetToGet (info : PoolMarketInfo.t) (request : GetRatesRequest.t) : string :=
  if GetRatesRequest.isCall request
  then PoolMarketInfo.putAsset info else PoolMarketInfo.callAsset info.

Definition isAmount0 (info : PoolMarketInfo.t) (request : GetRatesRequest.t) : bool :=
  if GetRatesRequest.isCall request
  then String.eqb (PoolMarketInfo.token0 info) (PoolMarketInfo.callAsset info)
  else String.eqb (PoolMarketInfo.token0 info) (PoolMarketInfo.putAsset info).

(** A computation of [calculateOptionProfitability] that writes the result
    cache only when it leaves by the end of the [try] block. *)
Definition writesOnlyWhenComputed (m : M (Path * GetRatesResponse.t)) : Prop :=
  forall st out st',
    m st = (out, st') ->
    (forall r, out <> Normal (Computed, r)) ->
    profitabilityCache st' = profitabilityCache st.

(** The state in which [calculateOptionProfitability] enters its [try]
    block, when it does: after the first log record and, if a stale entry
    was found, a second reading of the clock. *)
Definition tryState (env : Env) (request : GetRatesRequest.t) (st : State) : option State :=
  let st1 := addLog LInfo ("Calculating profitability for option "
                             +:+ GetRatesRequest.tokenId request) (tick st) in
  match profitabilityCache st !! generateProfitabilityCacheKey request with
  | Some cachedResult =>
      if dateNow env (S (clockReads st)) - timestamp cachedResult <? CACHE_TTL_MS
      then None else Some (tick st1)
  | None => Some st1
  end.

(** The quote batch throws. *)
Definition brokenQuoter : Env :=
  sampleEnv (Normal sampleMetadata) (Throw "HTTP request failed") "0x5a99".

(** A world in which the quote for [liveRange] is 10050 against a refill of
    10000. *)
Definition profitableWorld : Env :=
  sampleEnv (Normal sampleMetadata) (Normal [quoted 10050]) "0x5a99".

(** The same world without a swapper address. *)
Definition noSwapperWorld : Env :=
  sampleEnv (Normal sampleMetadata) (Normal [quoted 10050]) EmptyString.

(** The state after one call in [profitableWorld]. *)
Definition afterFirstCall : State :=
  snd (calculateTraced profitableWorld (sampleRequest [liveRange]) emptyState).

Definition afterNoSwapper : State :=
  snd (calculateTraced noSwapperWorld (sampleRequest [liveRange]) emptyState).

(** The first quote of the batch fails, the second succeeds. *)
Definition partialFailureWorld : Env :=
  sampleEnv (Normal sampleMetadata)
    (Normal [Failure "execution reverted"; quoted 10050]) "0x5a99".

(** The [fee] read of the metadata batch fails. *)
Definition failedMetadata : PoolMulticallResult :=
  {| mc_fee := Failure "execution reverted"; mc_callAsset := Success "0xCa11";
     mc_putAsset := Success "0xFee7"; mc_token0 := Success "0xCa11";
     mc_token1 := Success "0xFee7" |}.

Definition metadataFailureWorld : Env :=
  sampleEnv (Normal failedMetadata) (Normal [quoted 10050]) "0x5a99".

(** The response computed for [liveRange] in [profitableWorld]. *)
Definition profitableResponse : GetRatesResponse.t :=
  GetRatesResponse.mk "7" "50" true
    [ProfitabilityResult.mk 0 "1000000" "10000" "10050" "10000" "50" true]
    (Some (ExerciseParams.mk "7" ["0x5a99"] ["0x000bb8"] ["1000000"])).

(** The quote batches among the round trips issued so far, latest first. *)
Definition quoteBatches (st : State) : list (list QuoteRequest) :=
  omap (fun call => match call with
                    | MulticallQuotes contracts => Some contracts
                    | _ => None
                    end)
       (network st).

(** The response of the [catch] block for a request with the single
    sub-position [emptyRange]. *)
Definition emptyRangeFallback : GetRatesResponse.t :=
  GetRatesResponse.mk "7" "0" false [] (Some (ExerciseParams.mk "7" [] [] ["0"])).

(** The response for [liveRange] in [noSwapperWorld]: the detail is
    profitable, nothing is to be exercised. *)
Definition noSwapperResponse : GetRatesResponse.t :=
  GetRatesResponse.mk "7" "50" true
    [ProfitabilityResult.mk 0 "1000000" "10000" "10050" "10000" "50" true]
    (Some (ExerciseParams.mk "7" [] [] ["0"])).

(** The response for two live ranges in [partialFailureWorld]: the first
    quote failed, the second makes the aggregate profitable. *)
Definition partialFailureResponse : GetRatesResponse.t :=
  GetRatesResponse.mk "7" "50" true
    [ProfitabilityResult.mk 0 "1000000" "10000" "0" "10000" "0" false;
     ProfitabilityResult.mk 1 "1000000" "10000" "10050" "10000" "50" true]
    (Some (ExerciseParams.mk "7" ["0x5a99"; "0x5a99"] ["0x000bb8"; "0x000bb8"]
             ["0"; "1000000"])).

(** The response for a live range followed by an empty one in
    [profitableWorld], and the state after that call. *)
Definition mixedResponse : GetRatesResponse.t :=
  GetRatesResponse.mk "7" "50" true
    [ProfitabilityResult.mk 0 "1000000" "10000" "10050" "10000" "50" true;
     ProfitabilityResult.mk 1 "0" "0" "0" "0" "0" false]
    (Some (ExerciseParams.mk "7" ["0x5a99"; "0x5a99"] ["0x000bb8"; "0x000bb8"]
             ["1000000"; "0"])).

Definition afterMixedCall : State :=
  snd (calculateTraced profitableWorld (sampleRequest [liveRange; emptyRange]) emptyState).

(** An observation of the engine that a computation leaves unchanged. *)
Definition keepsE {A X} (f : EngineState -> X) (m : E A) : Prop :=
  forall st, f (snd (m st)) = f st.

(** A computation of the engine that submits nothing, or exactly one
    [settleOption] call for [option] whose liquidity figures are those
    computed by [settlementLiquidity]. *)
Definition settlesAtMostOnce {A} (option : Option.t) (m : E A) : Prop :=
  forall st out st',
    m st = (out, st') ->
    submitted st' = submitted st
    \/ exists params,
         submitted st' = SettleOption (Option.market option) params :: submitted st
         /\ mapC settlementLiquidity (Option.internalOptions option)
            = Normal (SettleOptionParams.liquidityToSettle params).

(** An engine that has not been started. *)
Definition idleEngine : EngineState :=
  {| isRunning := false; cacheCleanupInterval := None; engineChainConfigs := ∅;
     timersCreated := 0; submitted := []; passes := 0; calculator := emptyState |}.

Definition sampleEngineEnv : EngineEnv :=
  {| base := profitableWorld;
     privateKeyToAccount := Normal "0xacc0";
     readPoolFee := fun _ => Normal 3000;
     writeContract := fun _ => Normal "0x7a5h" |}.

Definition sampleInternalOption (atOpen exercised settled : string) : InternalOption.t :=
  InternalOption.mk "0x4a2d" "0x9001" "0x400c" atOpen exercised settled "0"
    "-100" "100" "1800" "0".

(** An expired position whose records say that more liquidity has been
    exercised and settled (80 + 30) than was opened (100). *)
Definition overdrawnOption : Option.t :=
  Option.mk "7" "0x3a47" "0x0e4a" 1700000000 1700003600 true 1 8453 None
    [sampleInternalOption "100" "80" "30"].

(** A position with 100 opened, 30 exercised and 20 settled. *)
Definition partlySettledOption : Option.t :=
  Option.mk "7" "0x3a47" "0x0e4a" 1700000000 1700003600 true 1 8453 None
    [sampleInternalOption "100" "30" "20"].

(** The call submitted for [partlySettledOption] and for
    [overdrawnOption] in [sampleEngineEnv]. *)
Definition partlySettledParams : SettleOptionParams.t :=
  SettleOptionParams.mk 7 ["0x5a99"] ["0x000bb8"] [50].

Definition overdrawnParams : SettleOptionParams.t :=
  SettleOptionParams.mk 7 ["0x5a99"] ["0x000bb8"] [-10].




(** Three passes: the second throws; nobody calls [stop()]. *)
Definition roughSchedule : list Pass :=
  [ {| pass_outcome := Normal tt; pass_stop := false |};
    {| pass_outcome := Throw "ECONNRESET"; pass_stop := false |};
    {| pass_outcome := Normal tt; pass_stop := false |} ].

(** [stop()] is called during the second of three passes. *)
Definition stoppedSchedule : list Pass :=
  [ {| pass_outcome := Normal tt; pass_stop := false |};
    {| pass_outcome := Normal tt; pass_stop := true |};
    {| pass_outcome := Normal tt; pass_stop := false |} ].


(** The response computed for [dashedMarket] in [profitableWorld]. *)
Definition dashedResponse : GetRatesResponse.t :=
  GetRatesResponse.mk "7" "0" false [] (Some (ExerciseParams.mk "7" [] [] [])).

(** The same world with a swapper lookup that throws. *)
Definition swapperLookupThrows : Env :=
  {| getRpcUrl := getRpcUrl profitableWorld;
     getQuoterAddress := getQuoterAddress profitableWorld;
     getSwapRouterSwapper :=
       fun _ => Throw "Missing SWAP_ROUTER_SWAPPER_8453 in environment variables";
     readPrimePool := readPrimePool profitableWorld;
     multicallPool := multicallPool profitableWorld;
     multicallQuotes := multicallQuotes profitableWorld;
     encodePacked := encodePacked profitableWorld;
     dateNow := dateNow profitableWorld |}.

(** The same world with swap data that cannot be encoded. *)
Definition encodingFailureWorld : Env :=
  {| getRpcUrl := getRpcUrl profitableWorld;
     getQuoterAddress := getQuoterAddress profitableWorld;
     getSwapRouterSwapper := getSwapRouterSwapper profitableWorld;
     readPrimePool := readPrimePool profitableWorld;
     multicallPool := multicallPool profitableWorld;
     multicallQuotes := multicallQuotes profitableWorld;
     encodePacked := fun _ => Throw "IntegerOutOfRangeError";
     dateNow := dateNow profitableWorld |}.

(* ===================================================================== *)
(** ** ChainConfigService (services/ChainConfigService.ts)

    The resolver reads [process.env], given here as a finite map from the
    names of the variables that are set to their values, and remembers the
    configurations it has loaded.  It writes to a logger of its own. *)
(* ===================================================================== *)

Module ChainConfig.
Record t := mk {
  rpcUrl : string;
  swapRouterSwapper : string;
  autoExercise : string
}.
End ChainConfig.

Module ChainConfigService.

Record State := {
  chainConfigs : gmap Z ChainConfig.t;
  logged : list (LogLevel * string)
}.

Definition Run (A : Type) : Type := State -> Completion A * State.

#[global] Instance Run_ret : MRet Run := fun _ a st => (Normal a, st).
#[global] Instance Run_bind : MBind Run := fun _ _ k m st =>
  match m st with
  | (Normal a, st') => k a st'
  | (Throw e, st') => (Throw e, st')
  end.

Definition throw {A} (error : string) : Run A := fun st => (Throw error, st).

Definition tryCatch {A} (body : Run A) (handler : string -> Run A) : Run A := fun st =>
  match body st with
  | (Normal a, st') => (Normal a, st')
  | (Throw e, st') => handler e st'
  end.

Definition log (level : LogLevel) (message : string) : Run unit := fun st =>
  (Normal tt, {| chainConfigs := chainConfigs st;
                 logged := (level, message) :: logged st |}).

Definition setConfig (chainId : Z) (config : ChainConfig.t) : Run unit := fun st =>
  (Normal tt, {| chainConfigs := <[chainId := config]> (chainConfigs st);
                 logged := logged st |}).

(** [const v = process.env[name]; if (!v) { this.logger.error(...); throw
    new Error(...) }]: the three reads of [loadConfig] have this shape. *)
Definition required (processEnv : gmap string string) (name : string) : Run string :=
  match processEnv !! name with
  | Some (String c s) => mret (String c s)
  | _ =>
      _ ← log LError ("Missing " +:+ name +:+ " in environment variables");
      throw ("Missing " +:+ name +:+ " in environment variables")
  end.

Definition loadConfig (processEnv : gmap string string) (chainId : Z) : Run ChainConfig.t :=
  let id := JS.BigInt_toString chainId in
  _ ← log LInfo ("Loading configuration for chain " +:+ id);
  _ ← log LInfo "Environment variables:";
  rpcUrl ← required processEnv ("RPC_URL_" +:+ id);
  swapRouterSwapper ← required processEnv ("SWAP_ROUTER_SWAPPER_" +:+ id);
  autoExercise ← required processEnv ("AUTO_EXERCISE_" +:+ id);
  let config := ChainConfig.mk rpcUrl swapRouterSwapper autoExercise in
  _ ← setConfig chainId config;
  _ ← log LInfo ("Successfully loaded configuration for chain " +:+ id);
  mret config.

Definition getConfig (processEnv : gmap string string) (chainId : Z) : Run ChainConfig.t :=
  fun st =>
    match chainConfigs st !! chainId with
    | Some config => (Normal config, st)
    | None => loadConfig processEnv chainId st
    end.

Definition getRpcUrl (processEnv : gmap string string) (chainId : Z) : Run string :=
  tryCatch (config ← getConfig processEnv chainId; mret (ChainConfig.rpcUrl config))
    (fun error =>
       match processEnv !! "FALLBACK_RPC_URL" with
       | Some (String c s) =>
           _ ← log LWarn ("Using fallback RPC URL for chain " +:+ JS.BigInt_toString chainId);
           mret (String c s)
       | _ => throw error
       end).

Definition getSwapRouterSwapper (processEnv : gmap string string) (chainId : Z) : Run string :=
  config ← getConfig processEnv chainId;
  mret (ChainConfig.swapRouterSwapper config).

Definition getAutoExercise (processEnv : gmap string string) (chainId : Z) : Run string :=
  config ← getConfig processEnv chainId;
  mret (ChainConfig.autoExercise config).

(** The state the constructor leaves. *)
Definition initial : State := {| chainConfigs := ∅; logged := [] |}.

(** The three public lookups. *)
Inductive Getter := RpcUrl | SwapRouterSwapper | AutoExercise.

Definition call (getter : Getter) : gmap string string -> Z -> Run string :=
  match getter with
  | RpcUrl => getRpcUrl
  | SwapRouterSwapper => getSwapRouterSwapper
  | AutoExercise => getAutoExercise
  end.

(** A variable that is set to a non-empty value. *)
Definition isSet (value : option string) : bool :=
  match value with
  | Some (String _ _) => true
  | _ => false
  end.

(** The three variables of a chain are all set. *)
Definition configured (processEnv : gmap string string) (chainId : Z) : bool :=
  let id := JS.BigInt_toString chainId in
  isSet (processEnv !! ("RPC_URL_" +:+ id))
  && isSet (processEnv !! ("SWAP_ROUTER_SWAPPER_" +:+ id))
  && isSet (processEnv !! ("AUTO_EXERCISE_" +:+ id)).

(** No field of a configuration is empty. *)
Definition complete (config : ChainConfig.t) : bool :=
  negb (String.eqb (ChainConfig.rpcUrl config) EmptyString)
  && negb (String.eqb (ChainConfig.swapRouterSwapper config) EmptyString)
  && negb (String.eqb (ChainConfig.autoExercise config) EmptyString).

(** Every configuration the resolver remembers is complete. *)
Definition wellFormed (st : State) : Prop :=
  map_Forall (fun _ config => complete config = true) (chainConfigs st).

(** What the environment holds for a chain, read off in the order of
    [loadConfig]: the three values, or the error for the first variable
    that is not set. *)
Definition requiredValue (processEnv : gmap string string) (name : string)
  : Completion string :=
  match processEnv !! name with
  | Some (String c s) => Normal (String c s)
  | _ => Throw ("Missing " +:+ name +:+ " in environment variables")
  end.

Definition fromEnvironment (processEnv : gmap string string) (chainId : Z)
  : Completion ChainConfig.t :=
  let id := JS.BigInt_toString chainId in
  rpcUrl ← requiredValue processEnv ("RPC_URL_" +:+ id);
  swapRouterSwapper ← requiredValue processEnv ("SWAP_ROUTER_SWAPPER_" +:+ id);
  autoExercise ← requiredValue processEnv ("AUTO_EXERCISE_" +:+ id);
  Normal (ChainConfig.mk rpcUrl swapRouterSwapper autoExercise).

(** What a lookup answers when [remembered] is the map of configurations:
    the remembered configuration decides, then the environment; only
    [getRpcUrl] has a fallback. *)
Definition answerOf (getter : Getter) (processEnv : gmap string string) (chainId : Z)
    (remembered : gmap Z ChainConfig.t) : Completion string :=
  let config :=
    match remembered !! chainId with
    | Some config => Normal config
    | None => fromEnvironment processEnv chainId
    end in
  match getter, config with
  | RpcUrl, Normal config => Normal (ChainConfig.rpcUrl config)
  | RpcUrl, Throw error =>
      match processEnv !! "FALLBACK_RPC_URL" with
      | Some (String c s) => Normal (String c s)
      | _ => Throw error
      end
  | SwapRouterSwapper, Normal config => Normal (ChainConfig.swapRouterSwapper config)
  | AutoExercise, Normal config => Normal (ChainConfig.autoExercise config)
  | _, Throw error => Throw error
  end.

(** The map of configurations after a lookup for [chainId]. *)
Definition afterLookup (processEnv : gmap string string) (chainId : Z)
    (remembered : gmap Z ChainConfig.t) : gmap Z ChainConfig.t :=
  match remembered !! chainId, fromEnvironment processEnv chainId with
  | None, Normal config => <[chainId := config]> remembered
  | _, _ => remembered
  end.

End ChainConfigService.

(** An environment in which chain 8453 has its RPC URL but no swapper
    address, and a fallback RPC URL is set; and one in which chain 8453 is
    fully configured. *)
Definition partialEnvironment : gmap string string :=
  <["RPC_URL_8453" := "https://base.example"]>
    (<["FALLBACK_RPC_URL" := "https://fallback.example"]> ∅).

Definition fullEnvironment : gmap string string :=
  <["RPC_URL_8453" := "https://base.example"]>
    (<["SWAP_ROUTER_SWAPPER_8453" := "0x5a99"]>
       (<["AUTO_EXERCISE_8453" := "0xae01"]> ∅)).

(* ===================================================================== *)
(** ** OptionsService (services/OptionsService.ts) and the rest of
       SettlementEngine

    The methods of the engine that handle expiring positions and walk the
    lists of positions need two more collaborators, the indexer behind
    [OptionsService] and the auto-exercise contract; their state extends
    the engine's. *)
(* ===================================================================== *)

(** The arguments of an [autoExercise] call, with the address of the
    contract it is sent to. *)
Module AutoExerciseCall.
Record t := mk {
  address : string;
  market : string;
  tokenId : Z;
  executorFee : Z;
  optionId : Z;
  swapper : list string;
  swapData : list string;
  liquidityToExercise : list Z
}.
End AutoExerciseCall.

(** [baseUrl] is the constructor argument of [OptionsService]; [httpGet url
    n] is the [options] array of the body answered to the n-th request,
    or the error [axios.get] rejects with; [getAutoExercise] is the
    resolver's lookup; [writeAutoExercise] is the wallet's answer to an
    [autoExercise] call. *)
Record OrchestratorEnv := {
  engineEnv : EngineEnv;
  baseUrl : string;
  httpGet : string -> nat -> Completion (list Option.t);
  getAutoExercise : Z -> Completion string;
  writeAutoExercise : AutoExerciseCall.t -> Completion string
}.

(** The engine, the [autoExercise] calls handed to the wallet (latest
    first), the requests sent to the indexer so far, and what was written
    with [console.error] (latest first). *)
Record Orchestrator := {
  engine : EngineState;
  exerciseSubmitted : list AutoExerciseCall.t;
  requestsSent : nat;
  consoleErrors : list string
}.

Definition O (A : Type) : Type := Orchestrator -> Completion A * Orchestrator.

#[global] Instance O_ret : MRet O := fun _ a st => (Normal a, st).
#[global] Instance O_bind : MBind O := fun _ _ k m st =>
  match m st with
  | (Normal a, st') => k a st'
  | (Throw e, st') => (Throw e, st')
  end.

Definition liftO {A} (c : Completion A) : O A := fun st => (c, st).

Definition tryCatchO {A} (body : O A) (handler : string -> O A) : O A := fun st =>
  match body st with
  | (Normal a, st') => (Normal a, st')
  | (Throw e, st') => handler e st'
  end.

Definition withEngine (e : EngineState) (st : Orchestrator) : Orchestrator :=
  {| engine := e;
     exerciseSubmitted := exerciseSubmitted st;
     requestsSent := requestsSent st;
     consoleErrors := consoleErrors st |}.

Definition addExercise (call : AutoExerciseCall.t) (st : Orchestrator) : Orchestrator :=
  {| engine := engine st;
     exerciseSubmitted := call :: exerciseSubmitted st;
     requestsSent := requestsSent st;
     consoleErrors := consoleErrors st |}.

Definition countRequest (st : Orchestrator) : Orchestrator :=
  {| engine := engine st;
     exerciseSubmitted := exerciseSubmitted st;
     requestsSent := S (requestsSent st);
     consoleErrors := consoleErrors st |}.

Definition addConsoleError (message : string) (st : Orchestrator) : Orchestrator :=
  {| engine := engine st;
     exerciseSubmitted := exerciseSubmitted st;
     requestsSent := requestsSent st;
     consoleErrors := message :: consoleErrors st |}.

(** A method of the engine modelled above, run on the engine. *)
Definition onEngine {A} (m : E A) : O A := fun st =>
  (fst (m (engine st)), withEngine (snd (m (engine st))) st).

Definition olog (level : LogLevel) (message : string) : O unit :=
  onEngine (elog level message).

(** [axios.get(url)]: the request is sent, then the indexer answers. *)
Definition axiosGet (oenv : OrchestratorEnv) (url : string) : O (list Option.t) := fun st =>
  (httpGet oenv url (requestsSent st), countRequest st).

Definition consoleError (message : string) : O unit := fun st =>
  (Normal tt, addConsoleError message st).

(** [walletClient.writeContract] for [autoExercise]. *)
Definition submitExercise (oenv : OrchestratorEnv) (call : AutoExerciseCall.t) : O string :=
  fun st => (writeAutoExercise oenv call, addExercise call st).

Module OptionsService.

Definition getExpiringOptions (oenv : OrchestratorEnv) : O (list Option.t) :=
  tryCatchO (axiosGet oenv (baseUrl oenv +:+ "/expiring-options"))
    (fun error =>
       _ ← consoleError "Error fetching expiring options:";
       liftO (Throw error)).

Definition getExpiredOptions (oenv : OrchestratorEnv) : O (list Option.t) :=
  tryCatchO (axiosGet oenv (baseUrl oenv +:+ "/expired-options"))
    (fun error =>
       _ ← consoleError "Error fetching expired options:";
       liftO (Throw error)).

End OptionsService.

(** [for (const x of xs) { await f(x); }]. *)
Fixpoint forEachO {A} (f : A -> O unit) (xs : list A) : O unit :=
  match xs with
  | [] => mret tt
  | x :: rest => _ ← f x; forEachO f rest
  end.

(** [liquidity || "0"]. *)
Definition orZero (liquidity : string) : string :=
  if String.eqb liquidity EmptyString then "0" else liquidity.

(** [liquidityToExercise.reduce((sum, liquidity) => sum + BigInt(liquidity
    || "0"), BigInt(0))], from the running sum on. *)
Fixpoint sumLiquidity (sum : Z) (liquidityToExercise : list string) : Completion Z :=
  match liquidityToExercise with
  | [] => Normal sum
  | liquidity :: rest =>
      amount ← JS.BigInt (orZero liquidity);
      sumLiquidity (sum + amount) rest
  end.

(** The request [handleExpiringOption] builds for a position: the market
    stands for the pool, the live liquidity for the liquidity. *)
Definition exerciseRequest (option : Option.t) : GetRatesRequest.t :=
  GetRatesRequest.mk (Option.market option) (Option.market option) (Option.tokenId option)
    (Option.isCall option) (Option.chainId option)
    (map (fun internalOption =>
            GetRatesRequestInternalOption.mk
              (InternalOption.tickLower internalOption)
              (InternalOption.tickUpper internalOption)
              (InternalOption.liquidityAtLive internalOption))
         (Option.internalOptions option)).

(** The [try] block of [handleExpiringOption]. *)
Definition exerciseExpiring (oenv : OrchestratorEnv) (option : Option.t) : O unit :=
  _ ← onEngine (createClientsForChain (engineEnv oenv) (Option.chainId option));
  let request := exerciseRequest option in
  profitabilityResult ←
    onEngine (onCalculator (calculateOptionProfitability (base (engineEnv oenv)) request));
  _ ← olog LInfo ("Profitability analysis for option " +:+ Option.tokenId option);
  let exerciseParams := GetRatesResponse.exerciseParams profitabilityResult in
  totalLiquidityToExercise ←
    liftO (match exerciseParams with
           | Some exerciseParams =>
               sumLiquidity 0 (ExerciseParams.liquidityToExercise exerciseParams)
           | None => Normal 0
           end);
  if totalLiquidityToExercise =? 0 then
    olog LInfo ("No profitable liquidity to exercise for option " +:+ Option.tokenId option)
  else
    autoExerciseAddress ← liftO (getAutoExercise oenv (Option.chainId option));
    let executorFee := 100000 in
    tokenId ← liftO (JS.BigInt (Option.tokenId option));
    optionId ← liftO (JS.BigInt (match exerciseParams with
                                 | Some exerciseParams =>
                                     orZero (ExerciseParams.optionId exerciseParams)
                                 | None => "0"
                                 end));
    liquidityToExercise ←
      liftO (match exerciseParams with
             | Some exerciseParams =>
                 mapC (fun liquidity => JS.BigInt (orZero liquidity))
                   (ExerciseParams.liquidityToExercise exerciseParams)
             | None => Normal []
             end);
    hash ← submitExercise oenv
             (AutoExerciseCall.mk autoExerciseAddress (Option.market option) tokenId
                executorFee optionId
                (match exerciseParams with
                 | Some exerciseParams => ExerciseParams.swapper exerciseParams
                 | None => []
                 end)
                (match exerciseParams with
                 | Some exerciseParams => ExerciseParams.swapData exerciseParams
                 | None => []
                 end)
                liquidityToExercise);
    olog LInfo "Auto-exercise transaction submitted".

Definition handleExpiringOption (oenv : OrchestratorEnv) (option : Option.t) : O unit :=
  _ ← olog LInfo ("Handling expiring option " +:+ Option.tokenId option);
  tryCatchO (exerciseExpiring oenv option)
    (fun error =>
       _ ← olog LError ("Error handling expiring option " +:+ Option.tokenId option +:+ ":");
       olog LError "Failed option details:").

Definition processExpiringOptions (oenv : OrchestratorEnv) : O unit :=
  tryCatchO
    (options ← OptionsService.getExpiringOptions oenv;
     _ ← olog LInfo ("Processing " +:+ JS.BigInt_toString (Z.of_nat (length options))
                       +:+ " expiring options");
     forEachO (handleExpiringOption oenv) options)
    (fun error => olog LError "Error processing expiring options:").

Definition processExpiredOptions (oenv : OrchestratorEnv) : O unit :=
  tryCatchO
    (options ← OptionsService.getExpiredOptions oenv;
     _ ← olog LInfo ("Processing " +:+ JS.BigInt_toString (Z.of_nat (length options))
                       +:+ " expired options");
     forEachO (fun option => onEngine (handleExpiredOption (engineEnv oenv) option)) options)
    (fun error => olog LError "Error processing expired options:").

(** The body of the [try] statement in the loop of [start()]: the two
    walks, then the ten-second pause. *)
Definition poll (oenv : OrchestratorEnv) : O unit :=
  _ ← processExpiringOptions oenv;
  _ ← processExpiredOptions oenv;
  mret tt.

Module SettlementEngine.

(** The engine's [cleanupCache] and [calculateOptionProfitability] hand
    over to the calculator. *)
Definition cleanupCache (eenv : EngineEnv) : E unit :=
  onCalculator (cleanupCache (base eenv)).

Definition calculateOptionProfitability (eenv : EngineEnv) (request : GetRatesRequest.t)
  : E GetRatesResponse.t :=
  onCalculator (calculateOptionProfitability (base eenv) request).

End SettlementEngine.

(* ===================================================================== *)
(** ** Auxiliary definitions for the further properties *)
(* ===================================================================== *)

(** A computation that leaves a metadata record where it is. *)
Definition retains {A} (key : string) (info : PoolMarketInfo.t) (m : M A) : Prop :=
  forall st,
    poolMarketInfoCache st !! key = Some info ->
    poolMarketInfoCache (snd (m st)) !! key = Some info.

(** A computation that makes at most [n] round trips, however it ends. *)
Definition issuesAtMost {A} (n : nat) (m : M A) : Prop :=
  forall st,
    exists calls,
      network (snd (m st)) = calls ++ network st /\ (length calls <= n)%nat.

(** A tick the price conversion rejects: not a number, or outside the
    supported range. *)
Definition tickRejected (tick : option Z) : bool :=
  match tick with
  | None => true
  | Some tick => (tick <? TickMath.MIN_TICK) || (TickMath.MAX_TICK <? tick)
  end.

(** A sub-position the first loop cannot get past: its liquidity is not an
    integer literal, or it has liquidity and one of its ticks is rejected. *)
Definition malformed (io : GetRatesRequestInternalOption.t) : bool :=
  match JS.BigInt (GetRatesRequestInternalOption.liquidity io) with
  | Throw _ => true
  | Normal liquidity =>
      (0 <? liquidity)
      && (tickRejected (JS.parseInt (GetRatesRequestInternalOption.tickLower io))
          || tickRejected (JS.parseInt (GetRatesRequestInternalOption.tickUpper io)))
  end.

(** The response to a request without sub-positions. *)
Definition emptyResponse (request : GetRatesRequest.t) : GetRatesResponse.t :=
  GetRatesResponse.mk (GetRatesRequest.tokenId request) "0" false []
    (Some (ExerciseParams.mk (GetRatesRequest.tokenId request) [] [] [])).

(** Sub-positions with a liquidity that is not a number, and with a tick
    beyond the supported range. *)
Definition garbledRange : GetRatesRequestInternalOption.t :=
  GetRatesRequestInternalOption.mk "-100" "100" "1e6".

Definition farRange : GetRatesRequestInternalOption.t :=
  GetRatesRequestInternalOption.mk "-100" "900000" "1000000".

(** Every liquidity-to-exercise entry of the response is "0". *)
Definition asksNothing (r : GetRatesResponse.t) : bool :=
  match GetRatesResponse.exerciseParams r with
  | Some exerciseParams =>
      forallb (String.eqb "0") (ExerciseParams.liquidityToExercise exerciseParams)
  | None => true
  end.

(** The response asks to exercise something exactly when it says that the
    position is profitable; and every cached response is of this kind. *)
Definition faithful (r : GetRatesResponse.t) : bool :=
  Bool.eqb (asksNothing r) (negb (GetRatesResponse.isProfitable r)).

Definition cacheFaithful (st : State) : Prop :=
  map_Forall (fun _ entry => faithful (result entry) = true) (profitabilityCache st).

(** A detail whose flag, profit and liquidity agree: profitable with a
    positive profit and a liquidity other than "0", or not profitable with
    nothing to add to the total. *)
Definition coherent (detail : ProfitabilityResult.t) : Prop :=
  if ProfitabilityResult.isProfitable detail
  then 0 < positiveProfit detail /\ ProfitabilityResult.liquidityAvailable detail <> "0"
  else positiveProfit detail = 0.

(** A computation of [calculateOptionProfitability] that, when it leaves by
    the end of the [try] block, has stored its response under [key] and
    changed nothing else in the result cache. *)
Definition storesResult (key : string) (m : M (Path * GetRatesResponse.t)) : Prop :=
  forall st r st',
    m st = (Normal (Computed, r), st') ->
    exists now,
      profitabilityCache st'
      = <[key := {| timestamp := now; result := r |}]> (profitabilityCache st).

(** What [handleExpiredOption] hands to the wallet for a position, read
    off its [try] block without the engine's state: the parameters of the
    [settleOption] call, or the first error on the way to them. *)
Definition settlementParams (eenv : EngineEnv) (option : Option.t)
  : Completion SettleOptionParams.t :=
  _ ← getRpcUrl (base eenv) (Option.chainId option);
  _ ← privateKeyToAccount eenv;
  first ← match Option.internalOptions option with
          | internalOption :: _ => Normal internalOption
          | [] => Throw "TypeError: Cannot read properties of undefined (reading 'pool')"
          end;
  poolFee ← readPoolFee eenv (InternalOption.pool first);
  liquidityToSettle ← mapC settlementLiquidity (Option.internalOptions option);
  swapData ← mapC (fun _ => encodePacked (base eenv) poolFee) (Option.internalOptions option);
  swapperAddress ← getSwapRouterSwapper (base eenv) (Option.chainId option);
  swapperAddresses ← arrayFill (Option.opTickArrayLen option) swapperAddress;
  optionId ← JS.BigInt (Option.tokenId option);
  Normal (SettleOptionParams.mk optionId swapperAddresses swapData liquidityToSettle).

Definition settlementCall (eenv : EngineEnv) (option : Option.t)
  : Datatypes.option Submission :=
  match settlementParams eenv option with
  | Normal params => Some (SettleOption (Option.market option) params)
  | Throw _ => None
  end.

(** An observation of the orchestrator that a computation leaves
    unchanged. *)
Definition keepsO {A X} (f : Orchestrator -> X) (m : O A) : Prop :=
  forall st, f (snd (m st)) = f st.

(** A computation that never throws. *)
Definition totalO {A} (m : O A) : Prop :=
  forall st, exists a, fst (m st) = Normal a.

(** What [handleExpiringOption] hands to the wallet once the calculator
    has answered [profitabilityResult], read off its [try] block: nothing
    when the total liquidity to exercise is zero or an error occurs on the
    way, the [autoExercise] call otherwise. *)
Definition exerciseCall (oenv : OrchestratorEnv) (option : Option.t)
    (profitabilityResult : GetRatesResponse.t) : Datatypes.option AutoExerciseCall.t :=
  match GetRatesResponse.exerciseParams profitabilityResult with
  | None => None
  | Some exerciseParams =>
      match sumLiquidity 0 (ExerciseParams.liquidityToExercise exerciseParams),
            getAutoExercise oenv (Option.chainId option),
            JS.BigInt (Option.tokenId option),
            JS.BigInt (orZero (ExerciseParams.optionId exerciseParams)),
            mapC (fun liquidity => JS.BigInt (orZero liquidity))
              (ExerciseParams.liquidityToExercise exerciseParams) with
      | Normal total, Normal autoExerciseAddress, Normal tokenId, Normal optionId,
        Normal liquidityToExercise =>
          if total =? 0 then None
          else Some (AutoExerciseCall.mk autoExerciseAddress (Option.market option) tokenId
                       100000 optionId (ExerciseParams.swapper exerciseParams)
                       (ExerciseParams.swapData exerciseParams) liquidityToExercise)
      | _, _, _, _, _ => None
      end
  end.

(** An [autoExercise] call made for a position: it names the position's
    market and identifier, goes to the auto-exercise contract of the
    position's chain and offers the fixed executor fee. *)
Definition exercises (oenv : OrchestratorEnv) (call : AutoExerciseCall.t)
  (option : Option.t) : Prop :=
  AutoExerciseCall.market call = Option.market option
  /\ JS.BigInt (Option.tokenId option) = Normal (AutoExerciseCall.tokenId call)
  /\ getAutoExercise oenv (Option.chainId option) = Normal (AutoExerciseCall.address call)
  /\ AutoExerciseCall.executorFee call = 100000.

(** The calculator's state when [handleExpiringOption] calls it. *)
Definition calculatorAtCall (option : Option.t) (st : Orchestrator) : State :=
  addLog LInfo ("Handling expiring option " +:+ Option.tokenId option)
    (calculator (engine st)).

(** Worlds for the orchestrator: the indexer answers every request with
    [options]; the auto-exercise contract is configured and the wallet
    accepts every call. *)
Definition sampleOrchestratorEnv (eenv : EngineEnv) (options : Completion (list Option.t))
  : OrchestratorEnv :=
  {| engineEnv := eenv;
     baseUrl := "http://localhost:42069";
     httpGet := fun _ _ => options;
     getAutoExercise := fun _ => Normal "0xae01";
     writeAutoExercise := fun _ => Normal "0x7a5h" |}.

Definition idleOrchestrator : Orchestrator :=
  {| engine := idleEngine; exerciseSubmitted := []; requestsSent := 0; consoleErrors := [] |}.

(** A position with one range of live liquidity 1000000 between ticks -100
    and 100, and one whose only range has no live liquidity. *)
Definition liveInternalOption (liquidityAtLive : string) : InternalOption.t :=
  InternalOption.mk "0x4a2d" "0x9001" "0x400c" "1000000" "0" "0" liquidityAtLive
    "-100" "100" "1800" "0".

Definition liveOption : Option.t :=
  Option.mk "7" "0x3a47" "0x0e4a" 1700000000 1700003600 true 1 8453 None
    [liveInternalOption "1000000"].

Definition spentOption : Option.t :=
  Option.mk "8" "0x3a47" "0x0e4a" 1700000000 1700003600 true 1 8453 None
    [liveInternalOption "0"].

(** A position without sub-positions. *)
Definition hollowOption : Option.t :=
  Option.mk "9" "0x3a47" "0x0e4a" 1700000000 1700003600 true 0 8453 None [].

(* ===================================================================== *)
(** ** TelegramService (services/TelegramService.ts) and TelegramTransport
    (utils/TelegramTransport.ts)

    The service keeps a bot object, a chat and a flag, and writes to a
    logger of its own.  The Telegram library and [JSON.stringify] belong
    to the world: constructing a bot or sending a message may throw, and
    so may the serialisation of a context object. *)
(* ===================================================================== *)

(** The line feed of the message templates. *)
Definition LF : string := String "010"%char EmptyString.

Module TelegramConfig.
Record t := mk {
  token : string;
  chatId : string;
  enabled : bool
}.
End TelegramConfig.

(** A property value of a context object or of a log record. *)
Inductive JsValue :=
| JsString (s : string)
| JsNumber (n : Z)
| JsBoolean (b : bool)
| JsReference (address : nat).

Definition JsObject := gmap string JsValue.

Module TelegramBot.
(** A bot object, known by the token it was made with. *)
Record t := mk { token : string }.
End TelegramBot.

(** [new TelegramBot(token, { polling: false })], [bot.sendMessage(chatId,
    text, { parse_mode: 'HTML' })] as the message sent after [n] earlier
    ones, and [JSON.stringify(context, null, 2)]. *)
Record TelegramApi := {
  newTelegramBot : string -> Completion TelegramBot.t;
  botSendMessage : TelegramBot.t -> string -> string -> nat -> Completion unit;
  jsonStringify : JsObject -> Completion string
}.

Module TelegramService.

(** The fields of the service, what its logger has written and the
    messages handed to the Telegram library (latest first). *)
Record State := {
  bot : option TelegramBot.t;
  chatId : string;
  enabled : bool;
  logged : list (LogLevel * string);
  sent : list (TelegramBot.t * string * string)
}.

Definition Run (A : Type) : Type := State -> Completion A * State.

#[global] Instance Run_ret : MRet Run := fun _ a st => (Normal a, st).
#[global] Instance Run_bind : MBind Run := fun _ _ k m st =>
  match m st with
  | (Normal a, st') => k a st'
  | (Throw e, st') => (Throw e, st')
  end.

Definition lift {A} (c : Completion A) : Run A := fun st => (c, st).

Definition get : Run State := fun st => (Normal st, st).

Definition tryCatch {A} (body : Run A) (handler : string -> Run A) : Run A := fun st =>
  match body st with
  | (Normal a, st') => (Normal a, st')
  | (Throw e, st') => handler e st'
  end.

Definition log (level : LogLevel) (message : string) : Run unit := fun st =>
  (Normal tt, {| bot := bot st; chatId := chatId st; enabled := enabled st;
                 logged := (level, message) :: logged st; sent := sent st |}).

Definition setEnabled (value : bool) : Run unit := fun st =>
  (Normal tt, {| bot := bot st; chatId := chatId st; enabled := value;
                 logged := logged st; sent := sent st |}).

Definition setChatId (value : string) : Run unit := fun st =>
  (Normal tt, {| bot := bot st; chatId := value; enabled := enabled st;
                 logged := logged st; sent := sent st |}).

Definition setBot (value : TelegramBot.t) : Run unit := fun st =>
  (Normal tt, {| bot := Some value; chatId := chatId st; enabled := enabled st;
                 logged := logged st; sent := sent st |}).

(** [await this.bot.sendMessage(this.chatId, message, { parse_mode: 'HTML'
    })]. *)
Definition botSend (api : TelegramApi) (message : string) : Run unit := fun st =>
  match bot st with
  | Some b =>
      (botSendMessage api b (chatId st) message (length (sent st)),
       {| bot := bot st; chatId := chatId st; enabled := enabled st;
          logged := logged st; sent := (b, chatId st, message) :: sent st |})
  | None => (Throw "TypeError: Cannot read properties of null (reading 'sendMessage')", st)
  end.

(** The fields of a new service. *)
Definition initial : State :=
  {| bot := None; chatId := EmptyString; enabled := false; logged := []; sent := [] |}.

Definition initialize (api : TelegramApi) (config : TelegramConfig.t) : Run unit :=
  tryCatch
    (_ ← setEnabled (TelegramConfig.enabled config);
     st ← get;
     if negb (enabled st) then
       log LInfo "Telegram notifications are disabled"
     else if String.eqb (TelegramConfig.token config) EmptyString then
       _ ← log LError "Telegram bot token is missing";
       setEnabled false
     else if String.eqb (TelegramConfig.chatId config) EmptyString then
       _ ← log LError "Telegram chat ID is missing";
       setEnabled false
     else
       _ ← setChatId (TelegramConfig.chatId config);
       newBot ← lift (newTelegramBot api (TelegramConfig.token config));
       _ ← setBot newBot;
       log LInfo "Telegram service initialized successfully")
    (fun error =>
       _ ← log LError "Failed to initialize Telegram service:";
       setEnabled false).

(** [new TelegramService(config)]. *)
Definition construct (api : TelegramApi) (config : option TelegramConfig.t) : State :=
  match config with
  | Some config => snd (initialize api config initial)
  | None => initial
  end.

(** [if (!this.enabled || !this.bot)]. *)
Definition unavailable (st : State) : bool :=
  negb (enabled st) || match bot st with Some _ => false | None => true end.

Definition sendMessage (api : TelegramApi) (message : string) : Run bool :=
  st ← get;
  if unavailable st then mret false
  else
    tryCatch
      (_ ← botSend api message;
       mret true)
      (fun error =>
         _ ← log LError "Failed to send Telegram message:";
         mret false).

(** [message += '\n\n<b>Context:</b>\n<pre>' + JSON.stringify(context,
    null, 2) + '</pre>'] under [if (context)]. *)
Definition withContext (api : TelegramApi) (message : string) (context : option JsObject)
  : Run string :=
  match context with
  | Some context =>
      text ← lift (jsonStringify api context);
      mret (message +:+ LF +:+ LF +:+ "<b>Context:</b>" +:+ LF +:+ "<pre>" +:+ text
              +:+ "</pre>")
  | None => mret message
  end.

Definition sendErrorAlert (api : TelegramApi) (errorMessage : string)
  (context : option JsObject) : Run bool :=
  st ← get;
  if unavailable st then mret false
  else
    tryCatch
      (message ← withContext api ("🚨 <b>ERROR ALERT</b> 🚨" +:+ LF +:+ LF +:+ errorMessage) context;
       _ ← botSend api message;
       mret true)
      (fun error =>
         _ ← log LError "Failed to send error alert to Telegram:";
         mret false).

Definition sendInfoAlert (api : TelegramApi) (infoMessage : string)
  (context : option JsObject) : Run bool :=
  st ← get;
  if unavailable st then mret false
  else
    tryCatch
      (message ← withContext api ("ℹ️ <b>INFO</b> ℹ️" +:+ LF +:+ LF +:+ infoMessage) context;
       _ ← botSend api message;
       mret true)
      (fun error =>
         _ ← log LError "Failed to send info alert to Telegram:";
         mret false).

End TelegramService.

Module TelegramTransport.

(** A log record as winston hands it to a transport: [properties] are its
    own enumerable properties, [level] and [message] the strings held by
    the two of these names (empty when the property is absent). *)
Record LogInfo := {
  level : string;
  message : string;
  properties : JsObject
}.

(** The service the transport writes to, the calls of [callback] so far
    and what was written with [console.error] (latest first). *)
Record State := {
  telegramService : TelegramService.State;
  callbacks : nat;
  consoleErrors : list string
}.

Definition Run (A : Type) : Type := State -> Completion A * State.

#[global] Instance Run_ret : MRet Run := fun _ a st => (Normal a, st).
#[global] Instance Run_bind : MBind Run := fun _ _ k m st =>
  match m st with
  | (Normal a, st') => k a st'
  | (Throw e, st') => (Throw e, st')
  end.

Definition tryCatch {A} (body : Run A) (handler : string -> Run A) : Run A := fun st =>
  match body st with
  | (Normal a, st') => (Normal a, st')
  | (Throw e, st') => handler e st'
  end.

Definition onService {A} (m : TelegramService.Run A) : Run A := fun st =>
  (fst (m (telegramService st)),
   {| telegramService := snd (m (telegramService st));
      callbacks := callbacks st;
      consoleErrors := consoleErrors st |}).

Definition callback : Run unit := fun st =>
  (Normal tt, {| telegramService := telegramService st;
                 callbacks := S (callbacks st);
                 consoleErrors := consoleErrors st |}).

Definition consoleError (message : string) : Run unit := fun st =>
  (Normal tt, {| telegramService := telegramService st;
                 callbacks := callbacks st;
                 consoleErrors := message :: consoleErrors st |}).

(** The defaults of the constructor, and [{ ...defaults, ...opts.levels
    }]. *)
Definition defaultLevels : gmap string bool :=
  list_to_map [("error", true); ("warn", false); ("info", false); ("http", false);
               ("verbose", false); ("debug", false); ("silly", false)].

Definition enabledLevels (levels : option (gmap string bool)) : gmap string bool :=
  match levels with
  | Some levels => levels ∪ defaultLevels
  | None => defaultLevels
  end.

(** The names an object literal inherits from [Object.prototype]; each
    holds a function or an object. *)
Definition objectPrototype : list string :=
  ["constructor"; "__defineGetter__"; "__defineSetter__"; "hasOwnProperty";
   "__lookupGetter__"; "__lookupSetter__"; "isPrototypeOf"; "propertyIsEnumerable";
   "toString"; "valueOf"; "__proto__"; "toLocaleString"].

(** Whether [this.enabledLevels[level]] is truthy. *)
Definition levelEnabled (enabledLevels : gmap string bool) (level : string) : bool :=
  match enabledLevels !! level with
  | Some enabled => enabled
  | None => existsb (String.eqb level) objectPrototype
  end.

Definition log (api : TelegramApi) (enabledLevels : gmap string bool) (info : LogInfo)
  : Run unit :=
  let level := if String.eqb (level info) EmptyString then "info" else level info in
  if negb (levelEnabled enabledLevels level) then callback
  else
    _ ← tryCatch
          (let message := message info in
           let metadata := properties info in
           let metadata := delete "level" metadata in
           let metadata := delete "message" metadata in
           let metadata := delete "timestamp" metadata in
           if String.eqb level "error" then
             _ ← onService (TelegramService.sendErrorAlert api message (Some metadata));
             mret tt
           else if String.eqb level "warn" then
             let formattedMessage := "⚠️ <b>WARNING</b> ⚠️" +:+ LF +:+ LF +:+ message in
             _ ← onService (TelegramService.sendMessage api formattedMessage);
             mret tt
           else
             _ ← onService (TelegramService.sendInfoAlert api message (Some metadata));
             mret tt)
          (fun error => consoleError "Error sending log to Telegram:");
    callback.

End TelegramTransport.

(* --------------------------------------------------------------------- *)
(** *** Auxiliary definitions for the properties of the Telegram code *)

(** The three ways of sending, and the method for each. *)
Inductive Alert :=
| Message (message : string)
| ErrorAlert (errorMessage : string) (context : option JsObject)
| InfoAlert (infoMessage : string) (context : option JsObject).

Definition send (api : TelegramApi) (alert : Alert) : TelegramService.Run bool :=
  match alert with
  | Message message => TelegramService.sendMessage api message
  | ErrorAlert errorMessage context => TelegramService.sendErrorAlert api errorMessage context
  | InfoAlert infoMessage context => TelegramService.sendInfoAlert api infoMessage context
  end.

(** The text of an alert, or the error of [JSON.stringify]. *)
Definition decorated (api : TelegramApi) (message : string) (context : option JsObject)
  : Completion string :=
  match context with
  | Some context =>
      text ← jsonStringify api context;
      Normal (message +:+ LF +:+ LF +:+ "<b>Context:</b>" +:+ LF +:+ "<pre>" +:+ text
                +:+ "</pre>")
  | None => Normal message
  end.

Definition textOf (api : TelegramApi) (alert : Alert) : Completion string :=
  match alert with
  | Message message => Normal message
  | ErrorAlert errorMessage context =>
      decorated api ("🚨 <b>ERROR ALERT</b> 🚨" +:+ LF +:+ LF +:+ errorMessage) context
  | InfoAlert infoMessage context =>
      decorated api ("ℹ️ <b>INFO</b> ℹ️" +:+ LF +:+ LF +:+ infoMessage) context
  end.

(** A configuration that passes the three checks of [initialize]. *)
Definition usable (config : TelegramConfig.t) : bool :=
  TelegramConfig.enabled config
  && negb (String.eqb (TelegramConfig.token config) EmptyString)
  && negb (String.eqb (TelegramConfig.chatId config) EmptyString).

(** The level a record is filed under, and the alert the transport sends
    for a record of an enabled level. *)
Definition levelOf (info : TelegramTransport.LogInfo) : string :=
  if String.eqb (TelegramTransport.level info) EmptyString then "info"
  else TelegramTransport.level info.

Definition metadataOf (info : TelegramTransport.LogInfo) : JsObject :=
  delete "timestamp" (delete "message" (delete "level" (TelegramTransport.properties info))).

Definition alertOf (info : TelegramTransport.LogInfo) : Alert :=
  if String.eqb (levelOf info) "error" then
    ErrorAlert (TelegramTransport.message info) (Some (metadataOf info))
  else if String.eqb (levelOf info) "warn" then
    Message ("⚠️ <b>WARNING</b> ⚠️" +:+ LF +:+ LF +:+ TelegramTransport.message info)
  else InfoAlert (TelegramTransport.message info) (Some (metadataOf info)).

(** A world in which bots can be made, messages are delivered and a
    context is serialised to a fixed text; a service initialised in it;
    two log records. *)
Definition sampleApi : TelegramApi :=
  {| newTelegramBot := fun token => Normal (TelegramBot.mk token);
     botSendMessage := fun _ _ _ _ => Normal tt;
     jsonStringify := fun _ => Normal "{}" |}.

Definition sampleConfig : TelegramConfig.t :=
  TelegramConfig.mk "110201543:AAHdqTcvCH1vGWJxfSeofSAs0K5PALDsaw" "-1001234" true.

Definition readyService : TelegramService.State :=
  TelegramService.construct sampleApi (Some sampleConfig).

Definition errorRecord : TelegramTransport.LogInfo :=
  {| TelegramTransport.level := "error";
     TelegramTransport.message := "Error in main loop:";
     TelegramTransport.properties :=
       {["level" := JsString "error"; "message" := JsString "Error in main loop:";
         "timestamp" := JsString "2025-01-01T00:00:00.000Z"]} |}.

Definition infoRecord : TelegramTransport.LogInfo :=
  {| TelegramTransport.level := "info";
     TelegramTransport.message := "Starting settlement engine";
     TelegramTransport.properties :=
       {["level" := JsString "info"; "message" := JsString "Starting settlement engine"]} |}.

Definition idleTransport (service : TelegramService.State) : TelegramTransport.State :=
  {| TelegramTransport.telegramService := service;
     TelegramTransport.callbacks := 0;
     TelegramTransport.consoleErrors := [] |}.

(* ===================================================================== *)
(** ** Decimal strings *)
(* ===================================================================== *)

Lemma allDigits_string_of_uint d : allDigits (NilEmpty.string_of_uint d) = true.
Proof. induction d; simpl; auto. Qed.

Lemma string_of_uint_nonempty d : d <> Decimal.Nil -> NilEmpty.string_of_uint d <> EmptyString.
Proof. destruct d; simpl; congruence. Qed.

Lemma isDigit_not_space c : isDigit c = true -> JS.isWhiteSpace c = false.
Proof.
  unfold isDigit, JS.isWhiteSpace. intros H.
  apply andb_true_iff in H as [H1 H2].
  apply N.leb_le in H1. apply N.leb_le in H2.
  destruct (Z.leb_spec 9 (Z.of_N (N_of_ascii c))), (Z.leb_spec (Z.of_N (N_of_ascii c)) 13),
    (Z.eqb_spec (Z.of_N (N_of_ascii c)) 32), (Z.eqb_spec (Z.of_N (N_of_ascii c)) 160);
    simpl; try reflexivity; lia.
Qed.

Lemma trim_allDigits s : allDigits s = true -> JS.trim s = s.
Proof.
  intros H. unfold JS.trim.
  assert (Hs : JS.trimStart s = s).
  { destruct s as [|c s]; [reflexivity|]. simpl in *.
    apply andb_true_iff in H as [H _]. now rewrite (isDigit_not_space c H). }
  rewrite Hs. clear Hs.
  induction s as [|c s IH]; [reflexivity|]. simpl in *.
  apply andb_true_iff in H as [Hc H]. rewrite (IH H).
  destruct s; [|reflexivity]. now rewrite (isDigit_not_space c Hc).
Qed.

Lemma digitsAcc_string_of_uint d p :
  JS.digitsAcc 10 (NilEmpty.string_of_uint d) (Zpos p) = Some (Zpos (Pos.of_uint_acc d p)).
Proof.
  revert p. induction d; intros p; simpl; try reflexivity;
    match goal with
    | |- JS.digitsAcc _ _ ?a = Some (Z.pos (Pos.of_uint_acc _ ?q)) =>
        replace a with (Z.pos q) by lia; apply IHd
    end.
Qed.

Lemma digitsAcc_string_of_uint_0 d :
  JS.digitsAcc 10 (NilEmpty.string_of_uint d) 0 = Some (Z.of_N (Pos.of_uint d)).
Proof.
  induction d; simpl; try reflexivity; try assumption;
    apply (digitsAcc_string_of_uint d).
Qed.

Lemma digits_to_uint p :
  JS.digits 10 (NilEmpty.string_of_uint (Pos.to_uint p)) = Some (Zpos p).
Proof.
  unfold JS.digits.
  pose proof (string_of_uint_nonempty _ (Unsigned.to_uint_nonnil p)) as Hne.
  destruct (NilEmpty.string_of_uint (Pos.to_uint p)) eqn:E; [congruence|].
  rewrite <- E, digitsAcc_string_of_uint_0, Unsigned.of_to. reflexivity.
Qed.

Lemma trimEnd_allDigits s : allDigits s = true -> JS.trimEnd s = s.
Proof.
  induction s as [|c s IH]; [reflexivity|]. simpl. intros H.
  apply andb_true_iff in H as [Hc H]. rewrite (IH H).
  destruct s; [|reflexivity]. now rewrite (isDigit_not_space c Hc).
Qed.

Lemma isDigit_cases c :
  isDigit c = true ->
  (c = "0" \/ c = "1" \/ c = "2" \/ c = "3" \/ c = "4"
   \/ c = "5" \/ c = "6" \/ c = "7" \/ c = "8" \/ c = "9")%char.
Proof.
  unfold isDigit. intros H. apply andb_true_iff in H as [H1 H2].
  apply N.leb_le in H1. apply N.leb_le in H2.
  rewrite <- (ascii_N_embedding c).
  assert (Hn : (N_of_ascii c = 48 \/ N_of_ascii c = 49 \/ N_of_ascii c = 50
                \/ N_of_ascii c = 51 \/ N_of_ascii c = 52 \/ N_of_ascii c = 53
                \/ N_of_ascii c = 54 \/ N_of_ascii c = 55 \/ N_of_ascii c = 56
                \/ N_of_ascii c = 57)%N) by lia.
  repeat (destruct Hn as [Hn|Hn]; [rewrite Hn; tauto|]). rewrite Hn. tauto.
Qed.

Lemma BigInt_allDigits s :
  allDigits s = true -> s <> EmptyString -> JS.BigInt s = ofDigits s (JS.digits 10 s).
Proof.
  intros H Hne. unfold JS.BigInt. rewrite (trim_allDigits s H).
  destruct s as [|c r]; [congruence|]. clear Hne.
  cbn [allDigits] in H. apply andb_true_iff in H as [Hc Hr].
  destruct (isDigit_cases c Hc) as [->|[->|[->|[->|[->|[->|[->|[->|[->| ->]]]]]]]]];
    try reflexivity.
  destruct r as [|c2 r2]; [reflexivity|].
  cbn [allDigits] in Hr. apply andb_true_iff in Hr as [Hc2 _].
  destruct (isDigit_cases c2 Hc2) as [->|[->|[->|[->|[->|[->|[->|[->|[->| ->]]]]]]]]];
    reflexivity.
Qed.

Lemma BigInt_minus_allDigits s :
  allDigits s = true -> s <> EmptyString ->
  JS.BigInt (String "-" s) = ofDigits (String "-" s) (option_map Z.opp (JS.digits 10 s)).
Proof.
  intros H Hne. unfold JS.BigInt, JS.trim.
  change (JS.trimStart (String "-" s)) with (String "-" s).
  cbn [JS.trimEnd]. rewrite (trimEnd_allDigits s H).
  destruct s; [congruence | reflexivity].
Qed.

(** A [bigint] survives the trip through its decimal string. *)
Lemma BigInt_toString_roundtrip z : JS.BigInt (JS.BigInt_toString z) = Normal z.
Proof.
  destruct z as [|p|p]; [reflexivity | |]; unfold JS.BigInt_toString.
  - rewrite BigInt_allDigits, digits_to_uint; [reflexivity | |].
    + apply allDigits_string_of_uint.
    + apply string_of_uint_nonempty, Unsigned.to_uint_nonnil.
  - rewrite BigInt_minus_allDigits, digits_to_uint; [reflexivity | |].
    + apply allDigits_string_of_uint.
    + apply string_of_uint_nonempty, Unsigned.to_uint_nonnil.
Qed.

(** White space around a numeral is stripped, the no-break space (code
    unit 160) included: a liquidity or a tick written with it is read as
    the number it holds. *)
Lemma trimStart_white_space c s :
  JS.isWhiteSpace c = true -> JS.trimStart (String c s) = JS.trimStart s.
Proof. intros H. cbn [JS.trimStart]. now rewrite H. Qed.

Lemma numerals_with_no_break_space :
  JS.isWhiteSpace (ascii_of_N 160) = true
  /\ JS.BigInt (String (ascii_of_N 160) ("1000000" +:+ String (ascii_of_N 160) " "))
     = Normal 1000000
  /\ JS.parseInt (String (ascii_of_N 160) "-100") = Some (-100).
Proof. repeat split; vm_compute; reflexivity. Qed.

(* ===================================================================== *)
(** ** Fixed-point range calculation *)
(* ===================================================================== *)

Lemma mulShift_div val mulBy : TickMath.mulShift val mulBy = (val * mulBy) / 2 ^ 128.
Proof. unfold TickMath.mulShift. apply Z.shiftr_div_pow2. lia. Qed.

Lemma mulShift_mono lo r c :
  0 <= c -> lo <= r -> TickMath.mulShift lo c <= TickMath.mulShift r c.
Proof.
  intros Hc Hle. rewrite !mulShift_div.
  apply Z.div_le_mono; [lia | nia].
Qed.

Lemma mulShift_le r c : 0 <= r -> 0 <= c <= 2 ^ 128 -> TickMath.mulShift r c <= r.
Proof.
  intros Hr Hc. rewrite mulShift_div.
  apply Z.div_le_upper_bound; [lia | nia].
Qed.

Lemma mulShift_nonneg r c : 0 <= r -> 0 <= c -> 0 <= TickMath.mulShift r c.
Proof.
  intros Hr Hc. rewrite mulShift_div. apply Z.div_pos; [nia | lia].
Qed.

(** Applying every factor gives the least ratio: a factor is at most 1 in
    Q128.128, and [mulShift] is monotone. *)
Lemma fold_applyFactor_bounds absTick fs :
  Forall (fun f => 0 <= snd f <= 2 ^ 128) fs ->
  forall lo r, 0 <= lo -> lo <= r -> r <= 2 ^ 128 ->
    fold_left (fun x f => TickMath.mulShift x (snd f)) fs lo
      <= fold_left (TickMath.applyFactor absTick) fs r <= 2 ^ 128.
Proof.
  induction 1 as [|f fs Hf _ IH]; intros lo r Hlo Hle Hr; simpl.
  - lia.
  - pose proof (mulShift_mono lo r (snd f) ltac:(lia) Hle).
    pose proof (mulShift_le r (snd f) ltac:(lia) Hf).
    pose proof (mulShift_le lo (snd f) Hlo Hf).
    pose proof (mulShift_nonneg lo (snd f) Hlo ltac:(lia)).
    apply IH; unfold TickMath.applyFactor; try destruct (negb _); lia.
Qed.

Lemma tickFactors_range : Forall (fun f => 0 <= snd f <= 2 ^ 128) TickMath.tickFactors.
Proof. unfold TickMath.tickFactors. repeat constructor; simpl; lia. Qed.

Lemma ratioAtAbsTick_bounds absTick :
  2 ^ 32 <= TickMath.ratioAtAbsTick absTick <= 2 ^ 128.
Proof.
  assert (Hleast : 2 ^ 32 <= leastRatio) by (vm_compute; discriminate).
  unfold TickMath.ratioAtAbsTick.
  pose proof (fold_applyFactor_bounds absTick _ tickFactors_range) as H.
  destruct (negb _).
  - specialize (H 0xfffcb933bd6fad37aa2d162d1a594001 0xfffcb933bd6fad37aa2d162d1a594001
                  ltac:(lia) ltac:(lia) ltac:(lia)).
    fold leastRatio in H. lia.
  - specialize (H 0xfffcb933bd6fad37aa2d162d1a594001 0x100000000000000000000000000000000
                  ltac:(lia) ltac:(lia) ltac:(lia)).
    fold leastRatio in H. lia.
Qed.

Lemma divide_nonzero a b : b <> 0 -> JSBI.divide a b = Normal (a ÷ b).
Proof. intros H. unfold JSBI.divide. destruct (Z.eqb_spec b 0); [lia | reflexivity]. Qed.

Lemma remainder_nonzero a b : b <> 0 -> JSBI.remainder a b = Normal (Z.rem a b).
Proof. intros H. unfold JSBI.remainder. destruct (Z.eqb_spec b 0); [lia | reflexivity]. Qed.

(** Back to Q96: the last three lines of [getSqrtRatioAtTick]. *)
Lemma toQ96_pos ratio :
  2 ^ 32 <= ratio ->
  exists r,
    (r ← JSBI.remainder ratio TickMath.Q32;
     q ← JSBI.divide ratio TickMath.Q32;
     if 0 <? r then Normal (q + 1) else Normal q) = Normal r /\ 0 < r.
Proof.
  intros H.
  assert (HQ : TickMath.Q32 = 2 ^ 32) by reflexivity.
  rewrite remainder_nonzero, divide_nonzero by (rewrite HQ; lia).
  cbn [mbind Completion_bind cbind].
  assert (1 <= ratio ÷ TickMath.Q32).
  { rewrite Z.quot_div_nonneg by lia. apply Z.div_le_lower_bound; lia. }
  destruct (0 <? Z.rem ratio TickMath.Q32); eexists; (split; [reflexivity | lia]).
Qed.

(** From the Q128.128 ratio to the result of [getSqrtRatioAtTick]. *)
Lemma fromRatio_pos (positive : bool) ratio :
  2 ^ 32 <= ratio <= 2 ^ 128 ->
  exists r,
    (ratio ← (if positive then JSBI.divide TickMath.MaxUint256 ratio else Normal ratio);
     r ← JSBI.remainder ratio TickMath.Q32;
     q ← JSBI.divide ratio TickMath.Q32;
     if 0 <? r then Normal (q + 1) else Normal q) = Normal r /\ 0 < r.
Proof.
  intros [Hr1 Hr2].
  assert (HM : TickMath.MaxUint256 = 2 ^ 256 - 1) by reflexivity.
  destruct positive.
  - rewrite (divide_nonzero TickMath.MaxUint256 ratio) by lia.
    cbn [mbind Completion_bind cbind].
    apply toQ96_pos.
    rewrite Z.quot_div_nonneg by lia.
    apply Z.div_le_lower_bound; [lia|]. rewrite HM.
    transitivity (2 ^ 128 * 2 ^ 32); [nia | lia].
  - cbn [mbind Completion_bind cbind]. apply toQ96_pos. exact Hr1.
Qed.

(** Within the supported range the conversion returns, and the square-root
    price is positive. *)
Lemma getSqrtRatioAtTick_pos tick :
  TickMath.MIN_TICK <= tick <= TickMath.MAX_TICK ->
  exists r, TickMath.getSqrtRatioAtTick (Some tick) = Normal r /\ 0 < r.
Proof.
  intros [Hlo Hhi]. unfold TickMath.getSqrtRatioAtTick.
  rewrite (proj2 (Z.leb_le _ _) Hlo), (proj2 (Z.leb_le _ _) Hhi).
  cbn [andb]. apply fromRatio_pos, ratioAtAbsTick_bounds.
Qed.

(** [mulDivRoundingUp] returns the ceiling of the quotient. *)
Lemma mulDivRoundingUp_ceiling a b d :
  0 <= a * b -> 0 < d ->
  exists r, FullMath.mulDivRoundingUp a b d = Normal r /\ a * b <= r * d /\ 0 <= r.
Proof.
  intros Hab Hd. unfold FullMath.mulDivRoundingUp, JSBI.divide, JSBI.remainder.
  replace (d =? 0) with false by (symmetry; apply Z.eqb_neq; lia).
  cbn [mbind Completion_bind cbind].
  rewrite Z.quot_div_nonneg, Z.rem_mod_nonneg by lia.
  pose proof (Z.div_mod (a * b) d ltac:(lia)) as Hdm.
  pose proof (Z.mod_pos_bound (a * b) d Hd) as Hm.
  pose proof (Z.div_pos (a * b) d Hab Hd) as Hq.
  destruct (Z.eqb_spec ((a * b) mod d) 0) as [E|E]; simpl;
    eexists; (split; [reflexivity|]); nia.
Qed.

Lemma Qfloor_div n d : Qfloor (inject_Z n / inject_Z d) = n / d.
Proof. symmetry. apply Zdiv_Qdiv. Qed.

(** A quotient of integers is at most [r] when its numerator is at most
    [r] times its positive denominator. *)
Lemma Qdiv_le_upper n d r :
  0 < d -> n <= r * d -> (inject_Z n / inject_Z d <= inject_Z r)%Q.
Proof.
  intros Hd H. apply Qle_shift_div_r.
  - unfold Qlt. cbn. lia.
  - rewrite <- inject_Z_mult. unfold Qle. cbn. lia.
Qed.

Lemma getAmount0Delta_rounds_up A B L :
  0 < A -> 0 < B -> 0 <= L ->
  exists amount0,
    SqrtPriceMath.getAmount0Delta A B L true = Normal amount0
    /\ (exactAmount0Delta A B L <= inject_Z amount0)%Q
    /\ Qfloor (exactAmount0Delta A B L) <= amount0.
Proof.
  intros HA HB HL. unfold exactAmount0Delta. rewrite Qfloor_div.
  unfold SqrtPriceMath.getAmount0Delta.
  set (lo := Z.min A B). set (hi := Z.max A B).
  assert (Hsw : (if B <? A then (B, A) else (A, B)) = (lo, hi)).
  { unfold lo, hi. destruct (Z.ltb_spec B A); f_equal; lia. }
  rewrite Hsw. clear Hsw.
  assert (0 < lo /\ lo <= hi) as [Hlo Hhi] by (unfold lo, hi; lia).
  rewrite Z.shiftl_mul_pow2 by lia.
  destruct (mulDivRoundingUp_ceiling (L * 2 ^ 96) (hi - lo) hi) as (inner & E1 & H1 & H1');
    [nia | lia |].
  rewrite E1. cbn [mbind Completion_bind cbind].
  destruct (mulDivRoundingUp_ceiling inner 1 lo) as (r & E2 & H2 & H2'); [lia | lia |].
  rewrite E2. eexists; split; [reflexivity|]. split.
  - apply Qdiv_le_upper; nia.
  - apply Z.div_le_upper_bound; nia.
Qed.

Lemma getAmount1Delta_rounds_up A B L :
  0 <= L ->
  exists amount1,
    SqrtPriceMath.getAmount1Delta A B L true = Normal amount1
    /\ (exactAmount1Delta A B L <= inject_Z amount1)%Q
    /\ Qfloor (exactAmount1Delta A B L) <= amount1.
Proof.
  intros HL. unfold exactAmount1Delta. rewrite Qfloor_div.
  unfold SqrtPriceMath.getAmount1Delta.
  set (lo := Z.min A B). set (hi := Z.max A B).
  assert (Hsw : (if B <? A then (B, A) else (A, B)) = (lo, hi)).
  { unfold lo, hi. destruct (Z.ltb_spec B A); f_equal; lia. }
  rewrite Hsw. clear Hsw.
  assert (lo <= hi) by (unfold lo, hi; lia).
  destruct (mulDivRoundingUp_ceiling L (hi - lo) SqrtPriceMath.Q96) as (r & E & H1 & H2);
    [nia | reflexivity |].
  rewrite E. eexists; split; [reflexivity|]. unfold SqrtPriceMath.Q96 in H1. split.
  - apply Qdiv_le_upper; lia.
  - apply Z.div_le_upper_bound; lia.
Qed.

(** C8.  For a sub-position with a tick range inside the supported range
    (lower below upper) and positive liquidity, the pass of the first loop
    returns, and each of the two token amounts it stores (which one is the
    locked amount and which the refill depends on [isAmount0]) is at least
    the closed-form amount computed in rational arithmetic on the
    square-root prices of the two ticks: the amounts are rounded up, never
    down.  In particular each is at least that closed-form amount
    truncated. *)
Theorem rounding_direction
    (quoterAddress assetToUse assetToGet : string) (poolFee : Z) (isAmount0 : bool)
    (i : nat) (internalOption : GetRatesRequestInternalOption.t)
    (liquidity tickLower tickUpper : Z) :
  JS.BigInt (GetRatesRequestInternalOption.liquidity internalOption) = Normal liquidity ->
  JS.parseInt (GetRatesRequestInternalOption.tickLower internalOption) = Some tickLower ->
  JS.parseInt (GetRatesRequestInternalOption.tickUpper internalOption) = Some tickUpper ->
  0 < liquidity ->
  TickMath.MIN_TICK <= tickLower ->
  tickLower < tickUpper ->
  tickUpper <= TickMath.MAX_TICK ->
  exists sqrtRatioAX96 sqrtRatioBX96 pushed data,
    TickMath.getSqrtRatioAtTick (Some tickLower) = Normal sqrtRatioAX96
    /\ TickMath.getSqrtRatioAtTick (Some tickUpper) = Normal sqrtRatioBX96
    /\ scanInternalOption quoterAddress assetToUse assetToGet poolFee isAmount0 i
         internalOption = Normal (pushed, data)
    /\ (exactAmount0Delta sqrtRatioAX96 sqrtRatioBX96 liquidity
        <= inject_Z (if isAmount0 then iod_amountLocked data else iod_amountToRefill data))%Q
    /\ (exactAmount1Delta sqrtRatioAX96 sqrtRatioBX96 liquidity
        <= inject_Z (if isAmount0 then iod_amountToRefill data else iod_amountLocked data))%Q
    /\ Qfloor (exactAmount0Delta sqrtRatioAX96 sqrtRatioBX96 liquidity)
         <= (if isAmount0 then iod_amountLocked data else iod_amountToRefill data)
    /\ Qfloor (exactAmount1Delta sqrtRatioAX96 sqrtRatioBX96 liquidity)
         <= (if isAmount0 then iod_amountToRefill data else iod_amountLocked data).
Proof.
  intros HL Htl Htu Hpos Hmin Hlt Hmax.
  destruct (getSqrtRatioAtTick_pos tickLower) as (A & HA & HApos); [lia|].
  destruct (getSqrtRatioAtTick_pos tickUpper) as (B & HB & HBpos); [lia|].
  destruct (getAmount0Delta_rounds_up A B liquidity) as (a0 & H0 & Hup0 & Hle0); [lia..|].
  destruct (getAmount1Delta_rounds_up A B liquidity) as (a1 & H1 & Hup1 & Hle1); [lia|].
  exists A, B.
  unfold scanInternalOption. rewrite HL. cbn [mbind Completion_bind cbind].
  destruct (Z.leb_spec liquidity 0) as [|_]; [lia|].
  rewrite Htl, Htu, HA, HB. cbn [mbind Completion_bind cbind].
  rewrite !BigInt_toString_roundtrip. cbn [mbind Completion_bind cbind].
  rewrite H0. cbn [mbind Completion_bind cbind].
  rewrite H1. cbn [mbind Completion_bind cbind].
  destruct isAmount0; rewrite !BigInt_toString_roundtrip; cbn [mbind Completion_bind cbind];
    do 2 eexists; (split; [reflexivity|]); (split; [reflexivity|]);
    (split; [reflexivity|]);
    cbn [iod_amountLocked iod_amountToRefill]; auto.
Qed.

Lemma rounding_direction_witness :
  exists sqrtRatioAX96 sqrtRatioBX96 pushed data,
    TickMath.getSqrtRatioAtTick (Some (-100)) = Normal sqrtRatioAX96
    /\ TickMath.getSqrtRatioAtTick (Some 100) = Normal sqrtRatioBX96
    /\ scanInternalOption "0x0007e4" "0xCa11" "0xFee7" 3000 true 0 liveRange
         = Normal (pushed, data)
    /\ (exactAmount0Delta sqrtRatioAX96 sqrtRatioBX96 1000000
        <= inject_Z (iod_amountLocked data))%Q
    /\ (exactAmount1Delta sqrtRatioAX96 sqrtRatioBX96 1000000
        <= inject_Z (iod_amountToRefill data))%Q
    /\ Qfloor (exactAmount0Delta sqrtRatioAX96 sqrtRatioBX96 1000000)
         <= iod_amountLocked data
    /\ Qfloor (exactAmount1Delta sqrtRatioAX96 sqrtRatioBX96 1000000)
         <= iod_amountToRefill data.
Proof.
  apply (rounding_direction "0x0007e4" "0xCa11" "0xFee7" 3000 true 0 liveRange
           1000000 (-100) 100); try reflexivity; unfold TickMath.MIN_TICK, TickMath.MAX_TICK; lia.
Defined.

(* ===================================================================== *)
(** ** The cache key *)
(* ===================================================================== *)

#[local] Arguments String.append !s1 s2 : simpl nomatch.

Lemma string_app_assoc (a b c : string) : (a +:+ b) +:+ c = a +:+ (b +:+ c).
Proof. induction a as [|x a IH]; [reflexivity | cbn; f_equal; exact IH]. Qed.

Lemma unquoteBody_plain c r :
  (N_of_ascii c =? 34)%N = false -> (N_of_ascii c =? 92)%N = false ->
  unquoteBody (String c r)
  = match unquoteBody r with
    | Some (t, rest) => Some (String c t, rest)
    | None => None
    end.
Proof. intros H1 H2. cbn [unquoteBody]. rewrite H1, H2. reflexivity. Qed.

Lemma unquoteBody_backslash e d r :
  unescapeChar e = Some d -> (N_of_ascii e =? 117)%N = false ->
  unquoteBody (String "\" (String e r))
  = match unquoteBody r with
    | Some (t, rest) => Some (String d t, rest)
    | None => None
    end.
Proof.
  intros H1 H2. cbn [unquoteBody].
  change (N_of_ascii "\" =? 34)%N with false.
  change (N_of_ascii "\" =? 92)%N with true.
  cbv iota. rewrite H2, H1. reflexivity.
Qed.

Lemma unquoteBody_unicode h1 h2 h3 h4 n r :
  hexValue4 h1 h2 h3 h4 = Some n ->
  unquoteBody (String "\" (String "u" (String h1 (String h2 (String h3 (String h4 r))))))
  = match unquoteBody r with
    | Some (t, rest) => Some (String (ascii_of_N n) t, rest)
    | None => None
    end.
Proof.
  intros H. cbn [unquoteBody].
  change (N_of_ascii "\" =? 34)%N with false.
  change (N_of_ascii "\" =? 92)%N with true.
  change (N_of_ascii "u" =? 117)%N with true.
  cbv iota. rewrite H. reflexivity.
Qed.

Lemma hexValue4_control k :
  (k < 32)%nat ->
  hexValue4 "0" "0" (JS.hexDigit (N.of_nat k / 16)) (JS.hexDigit (N.of_nat k mod 16))
  = Some (N.of_nat k).
Proof.
  intros H.
  do 32 (destruct k as [|k]; [vm_compute; reflexivity|]). lia.
Qed.

(** One escaped character is read back as that character. *)
Lemma unquoteBody_escapeChar c tail s rest :
  unquoteBody tail = Some (s, rest) ->
  unquoteBody (JS.escapeChar c +:+ tail) = Some (String c s, rest).
Proof.
  intros IH. pose proof (ascii_N_embedding c) as Hc.
  unfold JS.escapeChar. set (n := N_of_ascii c) in *.
  destruct (N.eqb_spec n 8) as [E|N8];
    [rewrite <- Hc, E; cbn [String.append];
     rewrite (unquoteBody_backslash _ (ascii_of_N 8)), IH; reflexivity|].
  destruct (N.eqb_spec n 9) as [E|N9];
    [rewrite <- Hc, E; cbn [String.append];
     rewrite (unquoteBody_backslash _ (ascii_of_N 9)), IH; reflexivity|].
  destruct (N.eqb_spec n 10) as [E|N10];
    [rewrite <- Hc, E; cbn [String.append];
     rewrite (unquoteBody_backslash _ (ascii_of_N 10)), IH; reflexivity|].
  destruct (N.eqb_spec n 12) as [E|N12];
    [rewrite <- Hc, E; cbn [String.append];
     rewrite (unquoteBody_backslash _ (ascii_of_N 12)), IH; reflexivity|].
  destruct (N.eqb_spec n 13) as [E|N13];
    [rewrite <- Hc, E; cbn [String.append];
     rewrite (unquoteBody_backslash _ (ascii_of_N 13)), IH; reflexivity|].
  destruct (N.eqb_spec n 34) as [E|N34];
    [rewrite <- Hc, E; cbn [String.append];
     rewrite (unquoteBody_backslash _ (ascii_of_N 34)), IH; reflexivity|].
  destruct (N.eqb_spec n 92) as [E|N92];
    [rewrite <- Hc, E; cbn [String.append];
     rewrite (unquoteBody_backslash _ (ascii_of_N 92)), IH; reflexivity|].
  destruct (N.ltb_spec n 32) as [Hlt|Hge].
  - cbn [String.append].
    rewrite <- (N2Nat.id n) at 1 2.
    rewrite (unquoteBody_unicode _ _ _ _ (N.of_nat (N.to_nat n))), IH.
    + rewrite N2Nat.id, Hc. reflexivity.
    + apply hexValue4_control. lia.
  - cbn [String.append]. rewrite unquoteBody_plain, IH; [reflexivity | |];
      fold n; apply N.eqb_neq; assumption.
Qed.

(** The decoder undoes [JS.escape] and stops at the closing quote. *)
Lemma unquoteBody_escape s rest :
  unquoteBody (JS.escape s +:+ String JS.dquote rest) = Some (s, rest).
Proof.
  induction s as [|c s IH]; [reflexivity|].
  cbn [JS.escape]. rewrite string_app_assoc.
  apply unquoteBody_escapeChar, IH.
Qed.

Lemma quoteJSON_app s r :
  JS.quoteJSON s +:+ r = String JS.dquote (JS.escape s +:+ String JS.dquote r).
Proof. unfold JS.quoteJSON. cbn [String.append]. now rewrite string_app_assoc. Qed.

(** A quoted string followed by anything determines both. *)
Lemma quoteJSON_app_inj a a' r r' :
  JS.quoteJSON a +:+ r = JS.quoteJSON a' +:+ r' -> a = a' /\ r = r'.
Proof.
  rewrite !quoteJSON_app. intros H. injection H as H.
  apply (f_equal unquoteBody) in H. rewrite !unquoteBody_escape in H.
  now injection H.
Qed.

Lemma stringifyInternalOption_app io r :
  stringifyInternalOption io +:+ r
  = "{" +:+ JS.quoteJSON "tickLower" +:+ ":"
        +:+ JS.quoteJSON (GetRatesRequestInternalOption.tickLower io) +:+ ","
        +:+ JS.quoteJSON "tickUpper" +:+ ":"
        +:+ JS.quoteJSON (GetRatesRequestInternalOption.tickUpper io) +:+ ","
        +:+ JS.quoteJSON "liquidity" +:+ ":"
        +:+ JS.quoteJSON (GetRatesRequestInternalOption.liquidity io) +:+ "}" +:+ r.
Proof. unfold stringifyInternalOption. now rewrite !string_app_assoc. Qed.

Lemma stringifyInternalOption_app_inj io io' r r' :
  stringifyInternalOption io +:+ r = stringifyInternalOption io' +:+ r' ->
  io = io' /\ r = r'.
Proof.
  rewrite !stringifyInternalOption_app.
  destruct io as [l u q], io' as [l' u' q']. cbn [GetRatesRequestInternalOption.tickLower
    GetRatesRequestInternalOption.tickUpper GetRatesRequestInternalOption.liquidity].
  intros H.
  apply String.app_inj in H.
  apply quoteJSON_app_inj in H as [_ H].
  apply String.app_inj in H.
  apply quoteJSON_app_inj in H as [-> H].
  apply String.app_inj in H.
  apply quoteJSON_app_inj in H as [_ H].
  apply String.app_inj in H.
  apply quoteJSON_app_inj in H as [-> H].
  apply String.app_inj in H.
  apply quoteJSON_app_inj in H as [_ H].
  apply String.app_inj in H.
  apply quoteJSON_app_inj in H as [-> H].
  apply String.app_inj in H. now subst.
Qed.

Lemma stringifyInternalOption_head io r :
  exists t, stringifyInternalOption io +:+ r = String "{" t.
Proof. rewrite stringifyInternalOption_app. eexists. reflexivity. Qed.

Lemma app_char (c : ascii) (x : string) : String c EmptyString +:+ x = String c x.
Proof. reflexivity. Qed.

Lemma String_tail_inj (c : ascii) (x y : string) : String c x = String c y -> x = y.
Proof. intros H. now injection H. Qed.

(** The tail of a serialised array, after its first element. *)
Lemma stringifyArray_tail_inj (l l' : list GetRatesRequestInternalOption.t) :
  fold_right (fun x acc => "," +:+ x +:+ acc) "]" (map stringifyInternalOption l)
  = fold_right (fun x acc => "," +:+ x +:+ acc) "]" (map stringifyInternalOption l') ->
  l = l'.
Proof.
  revert l'. induction l as [|io l IH]; intros [|io' l']; cbn [map fold_right]; intros H.
  - reflexivity.
  - discriminate H.
  - discriminate H.
  - rewrite !app_char in H. apply String_tail_inj in H.
    apply stringifyInternalOption_app_inj in H as [-> H].
    f_equal. now apply IH.
Qed.

(** [JSON.stringify] is injective on lists of sub-positions, order
    included. *)
Lemma stringifyArray_inj (l l' : list GetRatesRequestInternalOption.t) :
  JS.stringifyArray (map stringifyInternalOption l)
  = JS.stringifyArray (map stringifyInternalOption l') ->
  l = l'.
Proof.
  destruct l as [|io l], l' as [|io' l']; cbn [map JS.stringifyArray]; intros H.
  - reflexivity.
  - exfalso. rewrite !app_char in H.
    destruct (stringifyInternalOption_head io'
                (fold_right (fun x acc => "," +:+ x +:+ acc) "]" (map stringifyInternalOption l')))
      as [t Ht].
    rewrite Ht in H. discriminate H.
  - exfalso. rewrite !app_char in H.
    destruct (stringifyInternalOption_head io
                (fold_right (fun x acc => "," +:+ x +:+ acc) "]" (map stringifyInternalOption l)))
      as [t Ht].
    rewrite Ht in H. discriminate H.
  - rewrite !app_char in H. apply String_tail_inj in H.
    apply stringifyInternalOption_app_inj in H as [-> H].
    f_equal. now apply stringifyArray_tail_inj.
Qed.

(** Two strings without a hyphen, each followed by a hyphen: the first
    hyphen marks where they end. *)
Lemma split_dash a a' r r' :
  noDash a = true -> noDash a' = true ->
  a +:+ String "-" r = a' +:+ String "-" r' -> a = a' /\ r = r'.
Proof.
  revert a'. induction a as [|c a IH]; intros [|c' a'] Ha Ha' H.
  - apply String_tail_inj in H. now subst.
  - exfalso. cbn [String.append] in H. injection H as Hc _. subst c'.
    discriminate Ha'.
  - exfalso. cbn [String.append] in H. injection H as Hc _. subst c.
    discriminate Ha.
  - cbn [String.append] in H. injection H as Hc H. subst c'.
    cbn [noDash] in Ha, Ha'.
    apply andb_true_iff in Ha as [_ Ha]. apply andb_true_iff in Ha' as [_ Ha'].
    destruct (IH a' Ha Ha' H) as [-> ->]. now split.
Qed.

Lemma allDigits_noDash s : allDigits s = true -> noDash s = true.
Proof.
  induction s as [|c s IH]; [reflexivity|]. cbn [allDigits noDash]. intros H.
  apply andb_true_iff in H as [Hc H]. rewrite (IH H), andb_true_r.
  destruct (Ascii.eqb_spec c "-") as [->|]; [discriminate Hc | reflexivity].
Qed.

Lemma BigInt_toString_inj z z' : JS.BigInt_toString z = JS.BigInt_toString z' -> z = z'.
Proof.
  intros H. apply (f_equal JS.BigInt) in H.
  rewrite !BigInt_toString_roundtrip in H. now injection H.
Qed.

(** The decimal string of a non-negative integer: digits, at least one. *)
Lemma BigInt_toString_nonneg z :
  0 <= z ->
  allDigits (JS.BigInt_toString z) = true /\ JS.BigInt_toString z <> EmptyString.
Proof.
  destruct z as [|p|p]; [split; [reflexivity | discriminate] | | lia]. intros _.
  split; [apply allDigits_string_of_uint|].
  apply string_of_uint_nonempty, Unsigned.to_uint_nonnil.
Qed.

Lemma BigInt_toString_neg p :
  JS.BigInt_toString (Zneg p) = String "-" (JS.BigInt_toString (Zpos p)).
Proof. reflexivity. Qed.

(** A decimal integer followed by a hyphen determines both the integer and
    what follows. *)
Lemma BigInt_toString_dash_inj z z' r r' :
  JS.BigInt_toString z +:+ String "-" r = JS.BigInt_toString z' +:+ String "-" r' ->
  z = z' /\ r = r'.
Proof.
  assert (Hmixed : forall x p s s', 0 <= x ->
            JS.BigInt_toString x +:+ s <> JS.BigInt_toString (Zneg p) +:+ s').
  { intros x p s s' Hx H. destruct (BigInt_toString_nonneg x Hx) as [Hd Hne].
    rewrite BigInt_toString_neg in H.
    destruct (JS.BigInt_toString x) as [|c t]; [congruence|].
    cbn [String.append] in H. injection H as Hc _. subst c. discriminate Hd. }
  assert (Hpos : forall x x' s s', 0 <= x -> 0 <= x' ->
            JS.BigInt_toString x +:+ String "-" s = JS.BigInt_toString x' +:+ String "-" s' ->
            x = x' /\ s = s').
  { intros x x' s s' Hx Hx' H.
    destruct (BigInt_toString_nonneg x Hx) as [Hd _].
    destruct (BigInt_toString_nonneg x' Hx') as [Hd' _].
    apply split_dash in H as [H ->]; auto using allDigits_noDash.
    split; [now apply BigInt_toString_inj | reflexivity]. }
  intros H. destruct z as [|p|p], z' as [|p'|p'];
    try (apply Hpos in H; [exact H | lia | lia]);
    try (exfalso; apply Hmixed in H; [exact H | lia]);
    try (exfalso; symmetry in H; apply Hmixed in H; [exact H | lia]).
  rewrite !BigInt_toString_neg in H. cbn [String.append] in H.
  apply String_tail_inj in H. apply Hpos in H as [H ->]; [|lia..].
  split; [congruence | reflexivity].
Qed.

Lemma boolToString_dash_inj b b' r r' :
  boolToString b +:+ String "-" r = boolToString b' +:+ String "-" r' ->
  b = b' /\ r = r'.
Proof.
  intros H. apply split_dash in H as [H ->]; [| destruct b; reflexivity | destruct b'; reflexivity].
  split; [|reflexivity]. destruct b, b'; (reflexivity || discriminate H).
Qed.

Lemma generateProfitabilityCacheKey_eq request :
  generateProfitabilityCacheKey request
  = JS.BigInt_toString (GetRatesRequest.chainId request) +:+ String "-"
      (GetRatesRequest.market request +:+ String "-"
         (GetRatesRequest.pool request +:+ String "-"
            (GetRatesRequest.tokenId request +:+ String "-"
               (boolToString (GetRatesRequest.isCall request) +:+ String "-"
                  (JS.stringifyArray
                     (map stringifyInternalOption
                        (GetRatesRequest.internalOptions request))))))).
Proof. reflexivity. Qed.

(** On requests whose market address, pool address and position identifier
    contain no hyphen, the cache key determines the request, field by
    field and sub-position by sub-position in order. *)
Lemma cache_key_injective (request1 request2 : GetRatesRequest.t) :
  hyphenFree request1 -> hyphenFree request2 ->
  generateProfitabilityCacheKey request1 = generateProfitabilityCacheKey request2 ->
  request1 = request2.
Proof.
  intros (Hm1 & Hp1 & Ht1) (Hm2 & Hp2 & Ht2).
  rewrite !generateProfitabilityCacheKey_eq.
  destruct request1 as [m1 p1 t1 c1 i1 l1], request2 as [m2 p2 t2 c2 i2 l2].
  cbn [GetRatesRequest.market GetRatesRequest.pool GetRatesRequest.tokenId
       GetRatesRequest.isCall GetRatesRequest.chainId GetRatesRequest.internalOptions] in *.
  intros H.
  apply BigInt_toString_dash_inj in H as [-> H].
  apply split_dash in H as [-> H]; [|assumption..].
  apply split_dash in H as [-> H]; [|assumption..].
  apply split_dash in H as [-> H]; [|assumption..].
  apply boolToString_dash_inj in H as [-> H].
  apply stringifyArray_inj in H as ->.
  reflexivity.
Qed.

(** What stands before and after a field in the key can be cancelled. *)
Lemma string_app_inv_head (a x y : string) : a +:+ x = a +:+ y -> x = y.
Proof.
  induction a as [|c a IH]; cbn [String.append]; intros H; [exact H|].
  injection H as H. exact (IH H).
Qed.

Lemma string_app_length (a b : string) :
  String.length (a +:+ b) = (String.length a + String.length b)%nat.
Proof. induction a as [|c a IH]; cbn [String.append String.length]; [reflexivity | now rewrite IH]. Qed.

Lemma string_app_inv_tail (x y b : string) : x +:+ b = y +:+ b -> x = y.
Proof.
  revert y. induction x as [|c x IH]; intros [|c' y] H.
  - reflexivity.
  - exfalso. apply (f_equal String.length) in H.
    cbn [String.append String.length] in H. rewrite string_app_length in H. lia.
  - exfalso. apply (f_equal String.length) in H.
    cbn [String.append String.length] in H. rewrite string_app_length in H. lia.
  - cbn [String.append] in H. injection H as -> H. now rewrite (IH y H).
Qed.

(** Two requests that differ in one field have different keys: no
    condition on the strings is needed, since everything around the field
    is the same in both keys. *)
Lemma cache_key_differs request1 request2 :
  differInOneField request1 request2 ->
  generateProfitabilityCacheKey request1 <> generateProfitabilityCacheKey request2.
Proof.
  intros Hd Hk. unfold generateProfitabilityCacheKey in Hk.
  destruct Hd as [c c' m p t b l Hne | m m' p t b c l Hne | p p' m t b c l Hne
                 | t t' m p b c l Hne | b b' m p t c l Hne | l l' m p t b c Hne];
    cbn [GetRatesRequest.market GetRatesRequest.pool GetRatesRequest.tokenId
         GetRatesRequest.isCall GetRatesRequest.chainId GetRatesRequest.internalOptions] in Hk;
    apply Hne.
  - apply string_app_inv_tail in Hk. now apply BigInt_toString_inj.
  - apply string_app_inv_head in Hk. apply string_app_inv_head in Hk.
    exact (string_app_inv_tail _ _ _ Hk).
  - do 4 apply string_app_inv_head in Hk. exact (string_app_inv_tail _ _ _ Hk).
  - do 6 apply string_app_inv_head in Hk. exact (string_app_inv_tail _ _ _ Hk).
  - do 8 apply string_app_inv_head in Hk. apply string_app_inv_tail in Hk.
    destruct b, b'; (reflexivity || discriminate Hk).
  - do 10 apply string_app_inv_head in Hk. now apply stringifyArray_inj.
Qed.

(* ===================================================================== *)
(** ** Reasoning about state-passing computations *)
(* ===================================================================== *)

Lemma bindM_eq {A B} (m : M A) (k : A -> M B) st :
  (m ≫= k) st
  = match m st with
    | (Normal a, st') => k a st'
    | (Throw e, st') => (Throw e, st')
    end.
Proof. reflexivity. Qed.

Lemma bindM_inv {A B} (m : M A) (k : A -> M B) st out st' :
  (m ≫= k) st = (out, st') ->
  (exists a st1, m st = (Normal a, st1) /\ k a st1 = (out, st'))
  \/ (exists e, m st = (Throw e, st') /\ out = Throw e).
Proof.
  rewrite bindM_eq. destruct (m st) as [[a|e] st1]; intros H.
  - left. eauto.
  - right. injection H as <- <-. eauto.
Qed.

Lemma bindM_normal_inv {A B} (m : M A) (k : A -> M B) st b st' :
  (m ≫= k) st = (Normal b, st') ->
  exists a st1, m st = (Normal a, st1) /\ k a st1 = (Normal b, st').
Proof.
  intros H. apply bindM_inv in H as [H | (e & _ & H)]; [exact H | discriminate H].
Qed.

(** A run that returns, written as an equation on the whole outcome. *)
Lemma run_eq {A} (m : M A) st a : fst (m st) = Normal a -> m st = (Normal a, snd (m st)).
Proof. destruct (m st) as [c st']. cbn. now intros ->. Qed.

Lemma keeps_bind {A B X} (f : State -> X) (m : M A) (k : A -> M B) :
  keeps f m -> (forall a, keeps f (k a)) -> keeps f (m ≫= k).
Proof.
  intros Hm Hk st. rewrite bindM_eq. specialize (Hm st).
  destruct (m st) as [[a|e] st1]; cbn [snd] in *; [|exact Hm].
  now rewrite Hk.
Qed.

Lemma keeps_ret {A X} (f : State -> X) (a : A) : keeps f (mret a).
Proof. intros st. reflexivity. Qed.

Lemma keeps_liftC {A X} (f : State -> X) (c : Completion A) : keeps f (liftC c).
Proof. intros st. reflexivity. Qed.

Lemma keeps_getState {X} (f : State -> X) : keeps f getState.
Proof. intros st. reflexivity. Qed.

(** Decomposes a goal [keeps f m] along the structure of [m]; what remains
    are the primitive steps, closed by computation when they do not touch
    the observation. *)
Ltac keeps_step :=
  match goal with
  | |- keeps _ (mbind _ _) => apply keeps_bind; [|intros ?]
  | |- keeps _ (mret _) => apply keeps_ret
  | |- keeps _ (liftC _) => apply keeps_liftC
  | |- keeps _ getState => apply keeps_getState
  | |- keeps _ (match ?x with _ => _ end) => destruct x
  | |- keeps _ (let '(_, _) := ?x in _) => destruct x
  | |- keeps _ _ => intros ?; reflexivity
  end.

Ltac keeps_auto := repeat keeps_step.

Section Frames.
Context {X : Type} (f : State -> X).
Hypothesis f_log : forall level message, keeps f (log level message).
Hypothesis f_clock : forall env, keeps f (Date_now env).
Hypothesis f_chain : forall chainId chain, keeps f (setChainConfig chainId chain).

Lemma keeps_getChainConfig env chainId : keeps f (getChainConfig env chainId).
Proof. unfold getChainConfig. keeps_auto; auto. Qed.

Lemma keeps_createPublicClientForChain env chainId :
  keeps f (createPublicClientForChain env chainId).
Proof.
  unfold createPublicClientForChain. keeps_auto; auto using keeps_getChainConfig.
Qed.

Lemma keeps_isCacheValid env timestamp : keeps f (isCacheValid env timestamp).
Proof. unfold isCacheValid. keeps_auto; auto. Qed.
End Frames.

Ltac frame := intros; intros ?; reflexivity.

Lemma keeps_cache_getPoolMarketInfo env chainId market pool :
  keeps profitabilityCache (getPoolMarketInfo env chainId market pool).
Proof. unfold getPoolMarketInfo. keeps_auto. Qed.

Lemma keeps_cache_processLoop data quoteResults :
  forall quoteIndex totalProfit details,
    keeps profitabilityCache (processLoop data quoteResults quoteIndex totalProfit details).
Proof.
  induction data as [|od data IH]; intros k tp ds; cbn [processLoop].
  - keeps_auto.
  - destruct (iod_skipQuote od); [apply IH|].
    destruct (quoteResults !! k) as [[q|err]|]; keeps_auto; apply IH.
Qed.

Lemma keeps_batches_getPoolMarketInfo env chainId market pool :
  keeps quoteBatches (getPoolMarketInfo env chainId market pool).
Proof. unfold getPoolMarketInfo. keeps_auto. Qed.

Lemma keeps_batches_processLoop data quoteResults :
  forall quoteIndex totalProfit details,
    keeps quoteBatches (processLoop data quoteResults quoteIndex totalProfit details).
Proof.
  induction data as [|od data IH]; intros k tp ds; cbn [processLoop].
  - keeps_auto.
  - destruct (iod_skipQuote od); [apply IH|].
    destruct (quoteResults !! k) as [[q|err]|]; keeps_auto; apply IH.
Qed.

Lemma keeps_batches_prepareExercise env request cacheKey poolFee totalProfit details :
  keeps quoteBatches (prepareExercise env request cacheKey poolFee totalProfit details).
Proof. unfold prepareExercise. keeps_auto. Qed.

Lemma keeps_eq {A X} (f : State -> X) (m : M A) st out st' :
  keeps f m -> m st = (out, st') -> f st' = f st.
Proof. intros Hk H. specialize (Hk st). now rewrite H in Hk. Qed.

Lemma In_quoteBatches batch st :
  In (MulticallQuotes batch) (network st) <-> In batch (quoteBatches st).
Proof.
  unfold quoteBatches. induction (network st) as [|call calls IH]; [reflexivity|].
  destruct call; cbn; rewrite <- IH; split; intros H; try tauto;
    destruct H as [H|H]; (discriminate H || tauto || (injection H as ->; tauto) || (subst; tauto)).
Qed.

(* ===================================================================== *)
(** ** The first loop *)
(* ===================================================================== *)

(** A sub-position without liquidity: nothing is pushed on the batch and
    the ticks are not read. *)
Lemma scanInternalOption_skip quoterAddress use get poolFee amount0 i io liquidity :
  JS.BigInt (GetRatesRequestInternalOption.liquidity io) = Normal liquidity ->
  liquidity <= 0 ->
  scanInternalOption quoterAddress use get poolFee amount0 i io = Normal ([], skippedData i).
Proof.
  intros HL Hle. unfold scanInternalOption. rewrite HL. cbn [mbind Completion_bind cbind].
  destruct (Z.leb_spec liquidity 0); [reflexivity | lia].
Qed.

(** A pass that returns pushes one request exactly when the sub-position
    has liquidity, and records the index, the liquidity and whether the
    quote was skipped. *)
Lemma scanInternalOption_normal quoterAddress use get poolFee amount0 i io pushed data :
  scanInternalOption quoterAddress use get poolFee amount0 i io = Normal (pushed, data) ->
  iod_index data = i
  /\ iod_skipQuote data = negb (hasLiquidity io)
  /\ length pushed = (if hasLiquidity io then 1 else 0)%nat
  /\ (hasLiquidity io = true ->
      JS.BigInt (GetRatesRequestInternalOption.liquidity io)
      = Normal (iod_liquidityAvailable data)).
Proof.
  unfold scanInternalOption, hasLiquidity.
  destruct (JS.BigInt (GetRatesRequestInternalOption.liquidity io)) as [L|e];
    cbn [mbind Completion_bind cbind]; [|discriminate].
  destruct (Z.leb_spec L 0) as [Hle|Hgt].
  - intros H. injection H as <- <-. cbn.
    destruct (Z.ltb_spec 0 L); [lia|]. repeat split; try reflexivity. discriminate.
  - destruct (Z.ltb_spec 0 L) as [_|]; [|lia].
    repeat match goal with
    | |- (?c ≫= _) = _ -> _ =>
        destruct c; cbn [mbind Completion_bind cbind]; [|discriminate]
    end.
    destruct amount0; cbn [mbind Completion_bind cbind];
    repeat match goal with
    | |- (?c ≫= _) = _ -> _ =>
        destruct c; cbn [mbind Completion_bind cbind]; [|discriminate]
    end;
    intros H; injection H as <- <-; cbn; repeat split; reflexivity.
Qed.

(** What the first loop returns, by induction on the sub-positions: one
    element of [internalOptionsData] per sub-position, in order, each the
    result of its own pass; the batch grows by what the passes push. *)
Lemma scanLoop_normal quoterAddress use get poolFee amount0 ios :
  forall i quoteRequests data quoteRequests' data',
    scanLoop quoterAddress use get poolFee amount0 i ios quoteRequests data
    = Normal (quoteRequests', data') ->
    exists pushes datas,
      quoteRequests' = quoteRequests ++ concat pushes
      /\ data' = data ++ datas
      /\ length datas = length ios
      /\ length pushes = length ios
      /\ forall j io, ios !! j = Some io ->
           exists pushed od,
             pushes !! j = Some pushed /\ datas !! j = Some od
             /\ scanInternalOption quoterAddress use get poolFee amount0 (i + j) io
                = Normal (pushed, od).
Proof.
  induction ios as [|io ios IH]; intros i qs ds qs' ds'; cbn [scanLoop].
  - intros H. injection H as <- <-. exists [], []. rewrite !app_nil_r.
    repeat split; try reflexivity. intros j io Hj. discriminate Hj.
  - destruct (scanInternalOption quoterAddress use get poolFee amount0 i io)
      as [[pushed od]|e] eqn:E; cbn [mbind Completion_bind cbind]; [|discriminate].
    intros H. apply IH in H as (pushes & datas & -> & -> & Hl1 & Hl2 & Hall).
    exists (pushed :: pushes), (od :: datas). cbn [concat length].
    rewrite <- !app_assoc. repeat split; try reflexivity; try lia.
    intros [|j] io' Hj.
    + injection Hj as <-. exists pushed, od. rewrite Nat.add_0_r. auto.
    + cbn in Hj. destruct (Hall j io' Hj) as (p' & od' & ? & ? & Hs).
      exists p', od'. replace (i + S j)%nat with (S i + j)%nat by lia. auto.
Qed.

(* ===================================================================== *)
(** ** The second loop *)
(* ===================================================================== *)

Lemma positiveProfit_skipped i : positiveProfit (skippedDetail i) = 0.
Proof. reflexivity. Qed.

Lemma positiveProfit_failed od : positiveProfit (failedQuoteDetail od) = 0.
Proof. reflexivity. Qed.

Lemma positiveProfit_quoted od quotedAmountOut :
  positiveProfit (quotedDetail od quotedAmountOut)
  = if 0 <? quotedAmountOut - iod_amountToRefill od
    then quotedAmountOut - iod_amountToRefill od else 0.
Proof.
  unfold positiveProfit, quotedDetail. cbn [ProfitabilityResult.profit].
  now rewrite BigInt_toString_roundtrip.
Qed.

Lemma sumPositiveProfits_app l1 l2 :
  sumPositiveProfits (l1 ++ l2) = sumPositiveProfits l1 + sumPositiveProfits l2.
Proof.
  induction l1 as [|d l1 IH]; [reflexivity|].
  change (positiveProfit d + sumPositiveProfits (l1 ++ l2)
          = positiveProfit d + sumPositiveProfits l1 + sumPositiveProfits l2).
  lia.
Qed.

(** When the second loop returns, the details are the expected ones, in
    order, and the total is the total on entry plus the positive profits
    among them. *)
Lemma processLoop_normal data quoteResults :
  forall quoteIndex totalProfit details st totalProfit' details' st',
    processLoop data quoteResults quoteIndex totalProfit details st
    = (Normal (totalProfit', details'), st') ->
    details' = details ++ expectedDetails data quoteResults quoteIndex
    /\ totalProfit'
       = totalProfit + sumPositiveProfits (expectedDetails data quoteResults quoteIndex).
Proof.
  induction data as [|od data IH]; intros k tp ds st tp' ds' st';
    cbn [processLoop expectedDetails].
  - intros H. injection H as <- <- _. rewrite app_nil_r. split; [reflexivity|].
    cbn. lia.
  - unfold detailFor. destruct (iod_skipQuote od).
    + intros H. apply IH in H as [-> ->]. rewrite <- app_assoc. split; [reflexivity|].
      cbn [sumPositiveProfits fold_right]. rewrite positiveProfit_skipped.
      fold (sumPositiveProfits (expectedDetails data quoteResults k)). lia.
    + destruct (quoteResults !! k) as [[q|err]|].
      * intros H. apply IH in H as [-> ->]. rewrite <- app_assoc. split; [reflexivity|].
        cbn [sumPositiveProfits fold_right]. rewrite positiveProfit_quoted.
        fold (sumPositiveProfits (expectedDetails data quoteResults (S k))).
        destruct (0 <? qt_amountOut q - iod_amountToRefill od); lia.
      * intros H. apply bindM_normal_inv in H as ([] & st1 & _ & H).
        apply IH in H as [-> ->]. rewrite <- app_assoc. split; [reflexivity|].
        cbn [sumPositiveProfits fold_right]. rewrite positiveProfit_failed.
        fold (sumPositiveProfits (expectedDetails data quoteResults (S k))). lia.
      * discriminate.
Qed.

(** When the second loop returns, the answer of the batch has an entry
    for every element whose quote was not skipped. *)
Lemma processLoop_entries data quoteResults :
  forall quoteIndex totalProfit details st out st',
    processLoop data quoteResults quoteIndex totalProfit details st = (Normal out, st') ->
    forall j od,
      data !! j = Some od -> iod_skipQuote od = false ->
      is_Some (quoteResults !! (quoteIndex + dataSlot data j)%nat).
Proof.
  induction data as [|od0 data IH]; intros k tp ds st out st' H j od Hj Hskip;
    [discriminate Hj|].
  cbn [processLoop] in H. destruct j as [|j]; cbn [dataSlot].
  - injection Hj as ->. rewrite Hskip in H. rewrite Nat.add_0_r.
    destruct (quoteResults !! k) as [entry|]; [eauto | discriminate H].
  - cbn in Hj. destruct (iod_skipQuote od0).
    + rewrite Nat.add_0_l. exact (IH _ _ _ _ _ _ H j od Hj Hskip).
    + replace (k + (1 + dataSlot data j))%nat with (S k + dataSlot data j)%nat by lia.
      destruct (quoteResults !! k) as [[q|err]|]; [| |discriminate H].
      * exact (IH _ _ _ _ _ _ H j od Hj Hskip).
      * apply bindM_normal_inv in H as ([] & st1 & _ & H).
        exact (IH _ _ _ _ _ _ H j od Hj Hskip).
Qed.

Lemma expectedDetails_length data quoteResults :
  forall slot, length (expectedDetails data quoteResults slot) = length data.
Proof.
  induction data as [|od data IH]; intros slot; cbn [expectedDetails length];
    [reflexivity | now rewrite IH].
Qed.

Lemma expectedDetails_lookup data quoteResults :
  forall slot j od,
    data !! j = Some od ->
    expectedDetails data quoteResults slot !! j
    = Some (detailFor od quoteResults (slot + dataSlot data j)).
Proof.
  induction data as [|od' data IH]; intros slot j od Hj; [discriminate Hj|].
  destruct j as [|j]; cbn [expectedDetails dataSlot].
  - injection Hj as ->. cbn. now rewrite Nat.add_0_r.
  - cbn in Hj. cbn [lookup list_lookup]. rewrite (IH _ j od Hj).
    do 2 f_equal. destruct (iod_skipQuote od'); lia.
Qed.

(** The slot counted on the data is the slot counted on the request. *)
Lemma dataSlot_quoteSlot ios :
  forall datas,
    length datas = length ios ->
    (forall j io, ios !! j = Some io ->
       exists od, datas !! j = Some od /\ iod_skipQuote od = negb (hasLiquidity io)) ->
    forall j, dataSlot datas j = quoteSlot ios j.
Proof.
  induction ios as [|io ios IH]; intros [|od datas] Hlen Hall j;
    try discriminate Hlen; destruct j as [|j]; try reflexivity.
  cbn [dataSlot quoteSlot].
  destruct (Hall 0%nat io eq_refl) as (od0 & Hod & Hskip). injection Hod as <-.
  rewrite Hskip.
  rewrite (IH datas); [destruct (hasLiquidity io); reflexivity | cbn in Hlen; lia |].
  intros j' io' Hj'. exact (Hall (S j') io' Hj').
Qed.

(* ===================================================================== *)
(** ** From the details to the response *)
(* ===================================================================== *)

Lemma state_eta st :
  {| chainConfigs := chainConfigs st; profitabilityCache := profitabilityCache st;
     poolMarketInfoCache := poolMarketInfoCache st; logged := logged st;
     clockReads := clockReads st; network := network st |} = st.
Proof. now destruct st. Qed.

(** The three ways out of [prepareExercise] that return a response. *)
Lemma prepareExercise_normal env request cacheKey poolFee totalProfit details st p r st' :
  prepareExercise env request cacheKey poolFee totalProfit details st = (Normal (p, r), st') ->
  GetRatesResponse.details r = details
  /\ GetRatesResponse.totalProfit r = JS.BigInt_toString totalProfit
  /\ GetRatesResponse.isProfitable r = (0 <? totalProfit)
  /\ match p with
     | Computed =>
         exists swapper swapData now,
           GetRatesResponse.exerciseParams r
           = Some (ExerciseParams.mk (GetRatesRequest.tokenId request)
                     (repeat swapper (length (GetRatesRequest.internalOptions request)))
                     swapData (exercisable details))
           /\ profitabilityCache st'
              = <[cacheKey := {| timestamp := now; result := r |}]> (profitabilityCache st)
     | EncodingFailed | NoSwapper =>
         r = degradedResponse request totalProfit details
         /\ profitabilityCache st' = profitabilityCache st
     | CacheHit | Caught => False
     end.
Proof.
  unfold prepareExercise. rewrite bindM_eq. cbn [log].
  destruct (mapC _ _) as [swapData|err].
  - rewrite bindM_eq. cbn [liftC].
    destruct (getSwapRouterSwapper env (GetRatesRequest.chainId request)) as [swapper|e];
      [|discriminate].
    destruct (String.eqb swapper EmptyString).
    + intros H. injection H as <- <- <-. cbn. auto.
    + intros H. injection H as <- <- <-. cbn. repeat split.
      exists swapper, swapData. eexists. split; reflexivity.
  - intros H. injection H as <- <- <-. cbn. auto.
Qed.

Lemma prepareExercise_writes env request cacheKey poolFee totalProfit details :
  writesOnlyWhenComputed (prepareExercise env request cacheKey poolFee totalProfit details).
Proof.
  intros st out st' H Hout. destruct out as [[p r]|e].
  - apply prepareExercise_normal in H as (_ & _ & _ & H).
    destruct p; try tauto; try (now destruct H).
    now destruct (Hout r).
  - revert H. unfold prepareExercise. rewrite bindM_eq. cbn [log].
    destruct (mapC _ _) as [swapData|err].
    + rewrite bindM_eq. cbn [liftC].
      destruct (getSwapRouterSwapper env (GetRatesRequest.chainId request)) as [swapper|e'].
      * destruct (String.eqb swapper EmptyString); discriminate.
      * intros H. injection H as _ <-. reflexivity.
    + discriminate.
Qed.

Lemma writes_bind {A} (m : M A) (k : A -> M (Path * GetRatesResponse.t)) :
  keeps profitabilityCache m ->
  (forall a, writesOnlyWhenComputed (k a)) ->
  writesOnlyWhenComputed (m ≫= k).
Proof.
  intros Hm Hk st out st' H Hout. specialize (Hm st).
  apply bindM_inv in H as [(a & st1 & E & H) | (e & E & ->)]; rewrite E in Hm; cbn [snd] in Hm.
  - rewrite <- Hm. exact (Hk a st1 out st' H Hout).
  - exact Hm.
Qed.

(** The [try] block writes the result cache only on its last line. *)
Lemma evaluate_writes env request cacheKey :
  writesOnlyWhenComputed (evaluate env request cacheKey).
Proof.
  unfold evaluate.
  apply writes_bind; [apply keeps_createPublicClientForChain; frame | intros publicClient].
  apply writes_bind; [apply keeps_cache_getPoolMarketInfo | intros info].
  apply writes_bind; [frame | intros _].
  apply writes_bind; [frame | intros _].
  apply writes_bind; [frame | intros quoter].
  apply writes_bind; [frame | intros [quoteRequests data]].
  apply writes_bind; [frame | intros _].
  apply writes_bind; [frame | intros _].
  apply writes_bind; [destruct quoteRequests; frame | intros quoteResults].
  apply writes_bind; [frame | intros _].
  apply writes_bind; [frame | intros _].
  apply writes_bind; [apply keeps_cache_processLoop | intros [tp ds]].
  apply prepareExercise_writes.
Qed.

(* ===================================================================== *)
(** ** The [try] block and the whole method *)
(* ===================================================================== *)

(** What has happened when the [try] block returns a response: the
    metadata was resolved, the first loop returned, the batch (if any) was
    answered, and the response was built from the expected details. *)
Lemma evaluate_normal env request cacheKey st p r st' :
  evaluate env request cacheKey st = (Normal (p, r), st') ->
  exists info quoterAddress quoteRequests data quoteResults st6,
    getQuoterAddress env (GetRatesRequest.chainId request) = Normal quoterAddress
    /\ scanLoop quoterAddress (assetToUse info request) (assetToGet info request)
         (PoolMarketInfo.poolFee info) (isAmount0 info request) 0
         (GetRatesRequest.internalOptions request) [] []
       = Normal (quoteRequests, data)
    /\ match quoteRequests with
       | [] => quoteResults = []
       | _ => multicallQuotes env quoteRequests = Normal quoteResults
       end
    /\ quoteBatches st'
       = match quoteRequests with [] => [] | _ => [quoteRequests] end ++ quoteBatches st
    /\ prepareExercise env request cacheKey (PoolMarketInfo.poolFee info)
         (sumPositiveProfits (expectedDetails data quoteResults 0))
         (expectedDetails data quoteResults 0) st6
       = (Normal (p, r), st').
Proof.
  unfold evaluate. intros H.
  apply bindM_normal_inv in H as (publicClient & st1 & H1 & H).
  apply (keeps_eq quoteBatches) in H1; [|apply keeps_createPublicClientForChain; frame].
  apply bindM_normal_inv in H as (info & st2 & H2 & H).
  apply (keeps_eq quoteBatches) in H2; [|apply keeps_batches_getPoolMarketInfo].
  apply bindM_normal_inv in H as (t1 & st3 & H3 & H).
  apply (keeps_eq quoteBatches) in H3; [|frame].
  apply bindM_normal_inv in H as ([] & st4 & H4 & H).
  apply (keeps_eq quoteBatches) in H4; [|frame].
  apply bindM_normal_inv in H as (quoter & st5 & Hq & H).
  apply bindM_normal_inv in H as ([quoteRequests data] & st6 & Hscan & H).
  unfold liftC in Hq, Hscan. injection Hq as Hq <-. injection Hscan as Hscan <-.
  apply bindM_normal_inv in H as (t2 & st7 & H7 & H).
  apply (keeps_eq quoteBatches) in H7; [|frame].
  apply bindM_normal_inv in H as ([] & st8 & H8 & H).
  apply (keeps_eq quoteBatches) in H8; [|frame].
  apply bindM_normal_inv in H as (quoteResults & st9 & Hbatch & H).
  apply bindM_normal_inv in H as (t3 & st10 & H10 & H).
  apply (keeps_eq quoteBatches) in H10; [|frame].
  apply bindM_normal_inv in H as ([] & st11 & H11 & H).
  apply (keeps_eq quoteBatches) in H11; [|frame].
  apply bindM_normal_inv in H as ([tp ds] & st12 & Hloop & H).
  pose proof (keeps_eq quoteBatches _ _ _ _ (keeps_batches_processLoop _ _ _ _ _) Hloop) as H12.
  apply processLoop_normal in Hloop as [-> ->]. cbn [app Z.add] in H.
  pose proof (keeps_eq quoteBatches _ _ _ _
                (keeps_batches_prepareExercise _ _ _ _ _ _) H) as H13.
  exists info, quoter, quoteRequests, data, quoteResults, st12.
  repeat split; try assumption.
  - destruct quoteRequests; [now injection Hbatch | unfold rpc in Hbatch; now injection Hbatch].
  - rewrite H13, H12, H11, H10.
    assert (Hb : quoteBatches st9
                 = match quoteRequests with [] => [] | _ => [quoteRequests] end
                   ++ quoteBatches st8).
    { destruct quoteRequests; [now injection Hbatch as _ <- |].
      unfold rpc in Hbatch. injection Hbatch as _ <-. reflexivity. }
    rewrite Hb, H8, H7, H4, H3, H2, H1. reflexivity.
Qed.

(** The same, with the entries the second loop has read: the answer of the
    batch has one for every sub-position whose quote was not skipped. *)
Lemma evaluate_quotes env request cacheKey st p r st' :
  evaluate env request cacheKey st = (Normal (p, r), st') ->
  exists info quoterAddress quoteRequests data quoteResults st6,
    getQuoterAddress env (GetRatesRequest.chainId request) = Normal quoterAddress
    /\ scanLoop quoterAddress (assetToUse info request) (assetToGet info request)
         (PoolMarketInfo.poolFee info) (isAmount0 info request) 0
         (GetRatesRequest.internalOptions request) [] []
       = Normal (quoteRequests, data)
    /\ match quoteRequests with
       | [] => quoteResults = []
       | _ => multicallQuotes env quoteRequests = Normal quoteResults
       end
    /\ quoteBatches st'
       = match quoteRequests with [] => [] | _ => [quoteRequests] end ++ quoteBatches st
    /\ (forall j od,
          data !! j = Some od -> iod_skipQuote od = false ->
          is_Some (quoteResults !! dataSlot data j))
    /\ prepareExercise env request cacheKey (PoolMarketInfo.poolFee info)
         (sumPositiveProfits (expectedDetails data quoteResults 0))
         (expectedDetails data quoteResults 0) st6
       = (Normal (p, r), st').
Proof.
  unfold evaluate. intros H.
  apply bindM_normal_inv in H as (publicClient & st1 & H1 & H).
  apply (keeps_eq quoteBatches) in H1; [|apply keeps_createPublicClientForChain; frame].
  apply bindM_normal_inv in H as (info & st2 & H2 & H).
  apply (keeps_eq quoteBatches) in H2; [|apply keeps_batches_getPoolMarketInfo].
  apply bindM_normal_inv in H as (t1 & st3 & H3 & H).
  apply (keeps_eq quoteBatches) in H3; [|frame].
  apply bindM_normal_inv in H as ([] & st4 & H4 & H).
  apply (keeps_eq quoteBatches) in H4; [|frame].
  apply bindM_normal_inv in H as (quoter & st5 & Hq & H).
  apply bindM_normal_inv in H as ([quoteRequests data] & st6 & Hscan & H).
  unfold liftC in Hq, Hscan. injection Hq as Hq <-. injection Hscan as Hscan <-.
  apply bindM_normal_inv in H as (t2 & st7 & H7 & H).
  apply (keeps_eq quoteBatches) in H7; [|frame].
  apply bindM_normal_inv in H as ([] & st8 & H8 & H).
  apply (keeps_eq quoteBatches) in H8; [|frame].
  apply bindM_normal_inv in H as (quoteResults & st9 & Hbatch & H).
  apply bindM_normal_inv in H as (t3 & st10 & H10 & H).
  apply (keeps_eq quoteBatches) in H10; [|frame].
  apply bindM_normal_inv in H as ([] & st11 & H11 & H).
  apply (keeps_eq quoteBatches) in H11; [|frame].
  apply bindM_normal_inv in H as ([tp ds] & st12 & Hloop & H).
  pose proof (keeps_eq quoteBatches _ _ _ _ (keeps_batches_processLoop _ _ _ _ _) Hloop) as H12.
  pose proof (processLoop_entries _ _ _ _ _ _ _ _ Hloop) as Hentries. cbn [Nat.add] in Hentries.
  apply processLoop_normal in Hloop as [-> ->]. cbn [app Z.add] in H.
  pose proof (keeps_eq quoteBatches _ _ _ _
                (keeps_batches_prepareExercise _ _ _ _ _ _) H) as H13.
  exists info, quoter, quoteRequests, data, quoteResults, st12.
  repeat split; try assumption.
  - destruct quoteRequests; [now injection Hbatch | unfold rpc in Hbatch; now injection Hbatch].
  - rewrite H13, H12, H11, H10.
    assert (Hb : quoteBatches st9
                 = match quoteRequests with [] => [] | _ => [quoteRequests] end
                   ++ quoteBatches st8).
    { destruct quoteRequests; [now injection Hbatch as _ <- |].
      unfold rpc in Hbatch. injection Hbatch as _ <-. reflexivity. }
    rewrite Hb, H8, H7, H4, H3, H2, H1. reflexivity.
Qed.

(** [tryEvaluate] always returns a response; when the [try] block throws,
    it is the response of the [catch] block. *)
Lemma tryEvaluate_total env request cacheKey st :
  exists p r st', tryEvaluate env request cacheKey st = (Normal (p, r), st').
Proof.
  unfold tryEvaluate, tryCatch.
  destruct (evaluate env request cacheKey st) as [[[p r]|e] st1]; eauto.
Qed.

Lemma tryEvaluate_caught env request cacheKey st error st1 :
  evaluate env request cacheKey st = (Throw error, st1) ->
  exists st', tryEvaluate env request cacheKey st
              = (Normal (Caught, fallbackResponse request), st').
Proof.
  intros H. unfold tryEvaluate, tryCatch. rewrite H, bindM_eq. cbn [log]. eauto.
Qed.

(** The response of [tryEvaluate], by the path taken. *)
Lemma tryEvaluate_inv env request cacheKey st p r st' :
  tryEvaluate env request cacheKey st = (Normal (p, r), st') ->
  (p = Caught /\ r = fallbackResponse request
   /\ exists error st1, evaluate env request cacheKey st = (Throw error, st1))
  \/ (p <> Caught /\ evaluate env request cacheKey st = (Normal (p, r), st')).
Proof.
  unfold tryEvaluate, tryCatch.
  destruct (evaluate env request cacheKey st) as [[[p1 r1]|e] st1] eqn:E.
  - intros H. injection H as <- <- <-. right. split; [|reflexivity].
    intros ->. apply evaluate_normal in E as (? & ? & ? & ? & ? & ? & _ & _ & _ & _ & E).
    apply prepareExercise_normal in E as (_ & _ & _ & []).
  - rewrite bindM_eq. cbn [log]. intros H. injection H as <- <- _. left. eauto.
Qed.

Lemma tryEvaluate_writes env request cacheKey :
  writesOnlyWhenComputed (tryEvaluate env request cacheKey).
Proof.
  intros st out st' H Hout. unfold tryEvaluate, tryCatch in H.
  destruct (evaluate env request cacheKey st) as [[a|e] st1] eqn:E.
  - injection H as <- <-. exact (evaluate_writes env request cacheKey st _ _ E Hout).
  - rewrite bindM_eq in H. cbn [log] in H. injection H as _ <-. cbn.
    apply (evaluate_writes env request cacheKey st _ _ E). discriminate.
Qed.

(** [calculateTraced], unfolded down to the [try ... catch] statement. *)
Lemma calculateTraced_eq env request st :
  calculateTraced env request st
  = let st1 := addLog LInfo ("Calculating profitability for option "
                               +:+ GetRatesRequest.tokenId request) (tick st) in
    match profitabilityCache st !! generateProfitabilityCacheKey request with
    | Some cachedResult =>
        if dateNow env (S (clockReads st)) - timestamp cachedResult <? CACHE_TTL_MS
        then (Normal (CacheHit, result cachedResult),
              addLog LInfo ("Using cached profitability result for option "
                              +:+ GetRatesRequest.tokenId request) (tick st1))
        else tryEvaluate env request (generateProfitabilityCacheKey request) (tick st1)
    | None => tryEvaluate env request (generateProfitabilityCacheKey request) st1
    end.
Proof.
  unfold calculateTraced, isCacheValid, Date_now, log, getState.
  rewrite !bindM_eq. cbn [profitabilityCache addLog tick].
  destruct (profitabilityCache st !! generateProfitabilityCacheKey request) as [c|];
    [|reflexivity].
  rewrite !bindM_eq. cbn [clockReads addLog tick].
  change (mret (M := M) ?x ?s) with (Normal x, s). cbv iota beta.
  destruct (_ <? CACHE_TTL_MS); reflexivity.
Qed.

Lemma tryState_frame env request st st0 :
  tryState env request st = Some st0 ->
  profitabilityCache st0 = profitabilityCache st
  /\ poolMarketInfoCache st0 = poolMarketInfoCache st
  /\ network st0 = network st.
Proof.
  unfold tryState.
  destruct (profitabilityCache st !! _) as [c|]; [destruct (_ <? _); [discriminate|]|];
    intros H; injection H as <-; repeat split.
Qed.

(** The two ways through [calculateTraced]: the cache hit, and the
    [try ... catch] statement entered in [tryState]. *)
Lemma calculateTraced_inv env request st p r st' :
  calculateTraced env request st = (Normal (p, r), st') ->
  (p = CacheHit
   /\ tryState env request st = None
   /\ exists entry,
        profitabilityCache st !! generateProfitabilityCacheKey request = Some entry
        /\ r = result entry
        /\ dateNow env (S (clockReads st)) - timestamp entry < CACHE_TTL_MS
        /\ profitabilityCache st' = profitabilityCache st
        /\ poolMarketInfoCache st' = poolMarketInfoCache st
        /\ network st' = network st)
  \/ (p <> CacheHit
      /\ exists st0,
           tryState env request st = Some st0
           /\ tryEvaluate env request (generateProfitabilityCacheKey request) st0
              = (Normal (p, r), st')).
Proof.
  rewrite calculateTraced_eq. unfold tryState. cbv zeta.
  assert (Htry : forall st0,
            tryEvaluate env request (generateProfitabilityCacheKey request) st0
            = (Normal (p, r), st') -> p <> CacheHit).
  { intros st0 H ->. apply tryEvaluate_inv in H as [(H & _) | (_ & H)]; [discriminate|].
    apply evaluate_normal in H as (? & ? & ? & ? & ? & ? & _ & _ & _ & _ & H).
    apply prepareExercise_normal in H as (_ & _ & _ & []). }
  destruct (profitabilityCache st !! generateProfitabilityCacheKey request) as [c|] eqn:E.
  - destruct (Z.ltb_spec (dateNow env (S (clockReads st)) - timestamp c) CACHE_TTL_MS)
      as [Hlt|Hge].
    + intros H. injection H as <- <- <-. left. repeat split. exists c. repeat split; auto.
    + intros H. right. split; [exact (Htry _ H) | eauto].
  - intros H. right. split; [exact (Htry _ H) | eauto].
Qed.

Lemma calculateTraced_total env request st :
  exists p r st', calculateTraced env request st = (Normal (p, r), st').
Proof.
  rewrite calculateTraced_eq. cbv zeta.
  destruct (profitabilityCache st !! _) as [c|]; [destruct (_ <? _)|];
    eauto using tryEvaluate_total.
Qed.

Lemma calculateOptionProfitability_eq env request st p r st' :
  calculateTraced env request st = (Normal (p, r), st') ->
  calculateOptionProfitability env request st = (Normal r, st').
Proof.
  intros H. unfold calculateOptionProfitability. rewrite bindM_eq, H. reflexivity.
Qed.

(** A valid entry is served as it is, and nothing else happens than two
    readings of the clock and two log records. *)
Lemma calculateTraced_hit env request st entry :
  profitabilityCache st !! generateProfitabilityCacheKey request = Some entry ->
  dateNow env (S (clockReads st)) - timestamp entry < CACHE_TTL_MS ->
  exists st',
    calculateTraced env request st = (Normal (CacheHit, result entry), st')
    /\ network st' = network st
    /\ profitabilityCache st' = profitabilityCache st
    /\ poolMarketInfoCache st' = poolMarketInfoCache st.
Proof.
  intros He Hage. rewrite calculateTraced_eq, He. cbv zeta.
  destruct (Z.ltb_spec (dateNow env (S (clockReads st)) - timestamp entry) CACHE_TTL_MS)
    as [_|Hge]; [|lia].
  eexists. repeat split.
Qed.

(** A response computed to the end of the [try] block is in the cache
    under the request's key when the method returns. *)
Lemma calculateTraced_computed_stored env request st r st' :
  calculateTraced env request st = (Normal (Computed, r), st') ->
  exists entry,
    profitabilityCache st' !! generateProfitabilityCacheKey request = Some entry
    /\ result entry = r.
Proof.
  intros H. apply calculateTraced_inv in H as [(H & _) | (_ & st0 & _ & H)]; [discriminate|].
  apply tryEvaluate_inv in H as [(H & _) | (_ & H)]; [discriminate|].
  apply evaluate_normal in H as (? & ? & ? & ? & ? & ? & _ & _ & _ & _ & H).
  apply prepareExercise_normal in H as (_ & _ & _ & swapper & swapData & now & _ & ->).
  eexists. rewrite lookup_insert_eq. split; reflexivity.
Qed.

Lemma stores_bind {A} key (m : M A) (k : A -> M (Path * GetRatesResponse.t)) :
  keeps profitabilityCache m ->
  (forall a, storesResult key (k a)) ->
  storesResult key (m ≫= k).
Proof.
  intros Hm Hk st r st' H. specialize (Hm st).
  apply bindM_normal_inv in H as (a & st1 & E & H). rewrite E in Hm. cbn [snd] in Hm.
  rewrite <- Hm. exact (Hk a st1 r st' H).
Qed.

(** The [try] block stores the response it returns on its last line under
    the key it was given. *)
Lemma evaluate_stores env request cacheKey :
  storesResult cacheKey (evaluate env request cacheKey).
Proof.
  unfold evaluate.
  apply stores_bind; [apply keeps_createPublicClientForChain; frame | intros publicClient].
  apply stores_bind; [apply keeps_cache_getPoolMarketInfo | intros info].
  apply stores_bind; [frame | intros _].
  apply stores_bind; [frame | intros _].
  apply stores_bind; [frame | intros quoter].
  apply stores_bind; [frame | intros [quoteRequests data]].
  apply stores_bind; [frame | intros _].
  apply stores_bind; [frame | intros _].
  apply stores_bind; [destruct quoteRequests; frame | intros quoteResults].
  apply stores_bind; [frame | intros _].
  apply stores_bind; [frame | intros _].
  apply stores_bind; [apply keeps_cache_processLoop | intros [tp ds]].
  intros st r st' H.
  apply prepareExercise_normal in H as (_ & _ & _ & sw & sd & now & _ & H). eauto.
Qed.

(** A call changes the result cache, if at all, by storing its response
    under the key of its request. *)
Lemma calculateTraced_cache env request st p r st' :
  calculateTraced env request st = (Normal (p, r), st') ->
  profitabilityCache st' = profitabilityCache st
  \/ exists now,
       profitabilityCache st'
       = <[generateProfitabilityCacheKey request := {| timestamp := now; result := r |}]>
           (profitabilityCache st).
Proof.
  intros H.
  apply calculateTraced_inv in H as [(_ & _ & entry & _ & _ & _ & Hc & _)
                                    | (_ & st0 & Htry & H)]; [left; exact Hc|].
  apply tryState_frame in Htry as (Hc0 & _ & _). rewrite <- Hc0.
  pose proof (tryEvaluate_writes env request _ _ _ _ H) as Hw.
  apply tryEvaluate_inv in H as [(-> & _) | (_ & H)]; [left; apply Hw; discriminate|].
  destruct p; try (left; apply Hw; discriminate).
  right. exact (evaluate_stores _ _ _ _ _ _ H).
Qed.

Lemma Forall_repeat_same {A} (x : A) n : Forall (fun y => y = x) (repeat x n).
Proof. induction n; cbn [repeat]; constructor; auto. Qed.

(** C3.  [calculateOptionProfitability] never raises: it returns a response
    from every state; and whenever its [try] block throws (metadata
    resolution, quote batching or anything else in it), the response is the
    one of the [catch] block: total profit "0", not profitable, no details,
    empty swapper and swap-data arrays, and one "0" per sub-position as
    liquidity to exercise. *)
Theorem calculate_never_raises env request st :
  (exists r st', calculateOptionProfitability env request st = (Normal r, st'))
  /\ (forall st0 error st1,
        tryState env request st = Some st0 ->
        evaluate env request (generateProfitabilityCacheKey request) st0
        = (Throw error, st1) ->
        exists st',
          calculateOptionProfitability env request st
          = (Normal (fallbackResponse request), st'))
  /\ GetRatesResponse.totalProfit (fallbackResponse request) = "0"
  /\ GetRatesResponse.isProfitable (fallbackResponse request) = false
  /\ GetRatesResponse.details (fallbackResponse request) = []
  /\ exists liquidityToExercise,
       GetRatesResponse.exerciseParams (fallbackResponse request)
       = Some (ExerciseParams.mk (GetRatesRequest.tokenId request) [] [] liquidityToExercise)
       /\ length liquidityToExercise = length (GetRatesRequest.internalOptions request)
       /\ Forall (fun entry => entry = "0") liquidityToExercise.
Proof.
  split; [|split].
  - destruct (calculateTraced_total env request st) as (p & r & st' & H).
    exists r, st'. exact (calculateOptionProfitability_eq _ _ _ _ _ _ H).
  - intros st0 error st1 Htry Hthrow.
    destruct (tryEvaluate_caught _ _ _ _ _ _ Hthrow) as [st' H].
    exists st'. apply (calculateOptionProfitability_eq _ _ _ Caught).
    rewrite calculateTraced_eq. cbv zeta. unfold tryState in Htry.
    destruct (profitabilityCache st !! _) as [c|]; [destruct (_ <? _); [discriminate|]|];
      injection Htry as <-; exact H.
  - repeat split. eexists. split; [reflexivity|]. unfold zeroLiquidity.
    split; [apply repeat_length|]. apply Forall_repeat_same.
Qed.

Lemma calculate_never_raises_witness :
  exists st',
    calculateOptionProfitability brokenQuoter (sampleRequest [liveRange]) emptyState
    = (Normal (fallbackResponse (sampleRequest [liveRange])), st').
Proof.
  destruct (calculate_never_raises brokenQuoter (sampleRequest [liveRange]) emptyState)
    as (_ & H & _).
  eapply H; [reflexivity | vm_compute; reflexivity].
Defined.

(** C4.  Take a call and the state it leaves.  If the result cache then
    holds an entry for the request whose age, at the clock reading of the
    validity check of a second call with the same request, is below the
    TTL, the second call returns the stored response as it is, issues no
    network call and leaves both caches untouched; and the stored response
    is the one the first call returned whenever the first call computed it
    to the end or served it from the cache. *)
Theorem cached_result_reused env1 env2 request st p1 r1 st1 entry :
  calculateTraced env1 request st = (Normal (p1, r1), st1) ->
  profitabilityCache st1 !! generateProfitabilityCacheKey request = Some entry ->
  dateNow env2 (S (clockReads st1)) - timestamp entry < CACHE_TTL_MS ->
  (p1 = Computed \/ p1 = CacheHit -> result entry = r1)
  /\ exists st2,
       calculateOptionProfitability env2 request st1 = (Normal (result entry), st2)
       /\ network st2 = network st1
       /\ profitabilityCache st2 = profitabilityCache st1
       /\ poolMarketInfoCache st2 = poolMarketInfoCache st1.
Proof.
  intros H He Hage. split.
  - intros [-> | ->].
    + destruct (calculateTraced_computed_stored _ _ _ _ _ H) as (entry' & He' & Hr).
      rewrite He in He'. now injection He' as ->.
    + apply calculateTraced_inv in H as [(_ & _ & entry' & He' & -> & _ & Hc & _) | (Hne & _)];
        [|congruence].
      rewrite Hc, He' in He. now injection He as ->.
  - destruct (calculateTraced_hit env2 request st1 entry He Hage) as (st2 & H2 & Hn & Hc & Hm).
    exists st2. repeat split; try assumption.
    exact (calculateOptionProfitability_eq _ _ _ _ _ _ H2).
Qed.

Lemma cached_result_reused_witness :
  exists st2,
    calculateOptionProfitability brokenQuoter (sampleRequest [liveRange]) afterFirstCall
    = (Normal profitableResponse, st2)
    /\ network st2 = network afterFirstCall.
Proof.
  assert (Hrun : calculateTraced profitableWorld (sampleRequest [liveRange]) emptyState
                 = (Normal (Computed, profitableResponse), afterFirstCall))
    by (apply run_eq; vm_compute; reflexivity).
  assert (He : profitabilityCache afterFirstCall
                 !! generateProfitabilityCacheKey (sampleRequest [liveRange])
               = Some {| timestamp := 1004; result := profitableResponse |})
    by (vm_compute; reflexivity).
  assert (Hage : dateNow brokenQuoter (S (clockReads afterFirstCall)) - 1004 < CACHE_TTL_MS)
    by (vm_compute; reflexivity).
  destruct (cached_result_reused profitableWorld brokenQuoter (sampleRequest [liveRange])
              emptyState Computed profitableResponse afterFirstCall _ Hrun He Hage)
    as (_ & st2 & H2 & Hn & _).
  exists st2. split; [exact H2 | exact Hn].
Defined.

(** C10.  A call that leaves by one of the three degraded returns (the
    [catch] block, swap data that cannot be encoded, no swapper address)
    leaves the result cache exactly as it found it.  So if the next call
    with the same request is a cache hit, what it serves is an entry that
    was stored before the degraded call; and if there was none, the next
    call goes through the [try] block again. *)
Theorem degraded_result_not_cached env request st p r st' :
  calculateTraced env request st = (Normal (p, r), st') ->
  p = EncodingFailed \/ p = NoSwapper \/ p = Caught ->
  profitabilityCache st' = profitabilityCache st
  /\ (forall env2 p2 r2 st2,
        calculateTraced env2 request st' = (Normal (p2, r2), st2) ->
        p2 = CacheHit ->
        exists entry,
          profitabilityCache st !! generateProfitabilityCacheKey request = Some entry
          /\ r2 = result entry)
  /\ (profitabilityCache st !! generateProfitabilityCacheKey request = None ->
      forall env2 p2 r2 st2,
        calculateTraced env2 request st' = (Normal (p2, r2), st2) -> p2 <> CacheHit).
Proof.
  intros H Hp.
  assert (Hcache : profitabilityCache st' = profitabilityCache st).
  { apply calculateTraced_inv in H as [(-> & _) | (_ & st0 & Htry & H)].
    - destruct Hp as [Hp | [Hp | Hp]]; discriminate Hp.
    - apply tryState_frame in Htry as (<- & _ & _).
      apply (tryEvaluate_writes _ _ _ _ _ _ H).
      intros r0 E. injection E as -> _. destruct Hp as [Hp | [Hp | Hp]]; discriminate Hp. }
  split; [exact Hcache|]. split.
  - intros env2 p2 r2 st2 H2 ->.
    apply calculateTraced_inv in H2 as [(_ & _ & entry & He & -> & _) | (Hne & _)];
      [|congruence].
    exists entry. rewrite <- Hcache. auto.
  - intros Hnone env2 p2 r2 st2 H2 ->.
    apply calculateTraced_inv in H2 as [(_ & _ & entry & He & _) | (Hne & _)];
      [|congruence].
    rewrite Hcache, Hnone in He. discriminate He.
Qed.

Lemma degraded_result_not_cached_witness :
  profitabilityCache afterNoSwapper = profitabilityCache emptyState.
Proof.
  eapply (degraded_result_not_cached noSwapperWorld (sampleRequest [liveRange]) emptyState
            NoSwapper noSwapperResponse).
  - apply run_eq. vm_compute. reflexivity.
  - right. left. reflexivity.
Defined.

(* ===================================================================== *)
(** ** The details of a computed response *)
(* ===================================================================== *)

(** A response that comes out of the [try] block: its details are the
    expected ones for the data of the first loop and the answer of the
    batch, its aggregate figures are derived from those details, and its
    exercise parameters depend on the return taken. *)
Lemma computed_response env request st p r st' :
  calculateTraced env request st = (Normal (p, r), st') ->
  p <> CacheHit -> p <> Caught ->
  exists info quoterAddress quoteRequests data quoteResults,
    scanLoop quoterAddress (assetToUse info request) (assetToGet info request)
      (PoolMarketInfo.poolFee info) (isAmount0 info request) 0
      (GetRatesRequest.internalOptions request) [] []
    = Normal (quoteRequests, data)
    /\ match quoteRequests with
       | [] => quoteResults = []
       | _ => multicallQuotes env quoteRequests = Normal quoteResults
       end
    /\ (forall batch,
          In (MulticallQuotes batch) (network st') ->
          In (MulticallQuotes batch) (network st) \/ batch = quoteRequests)
    /\ GetRatesResponse.details r = expectedDetails data quoteResults 0
    /\ GetRatesResponse.totalProfit r
       = JS.BigInt_toString (sumPositiveProfits (GetRatesResponse.details r))
    /\ GetRatesResponse.isProfitable r
       = (0 <? sumPositiveProfits (GetRatesResponse.details r))
    /\ exists liquidityToExercise swapper swapData,
         GetRatesResponse.exerciseParams r
         = Some (ExerciseParams.mk (GetRatesRequest.tokenId request) swapper swapData
                   liquidityToExercise)
         /\ liquidityToExercise
            = match p with
              | Computed => exercisable (GetRatesResponse.details r)
              | _ => zeroLiquidity request
              end.
Proof.
  intros H Hhit Hcaught.
  apply calculateTraced_inv in H as [(-> & _) | (_ & st0 & Htry & H)]; [congruence|].
  apply tryState_frame in Htry as (_ & _ & Hnet).
  apply tryEvaluate_inv in H as [(-> & _) | (_ & H)]; [congruence|].
  apply evaluate_normal in H
    as (info & quoter & reqs & data & qrs & st6 & _ & Hscan & Hb & Hbatches & H).
  apply prepareExercise_normal in H as (Hd & Ht & Hp & H).
  exists info, quoter, reqs, data, qrs. rewrite Hd.
  split; [assumption|]. split; [assumption|]. split.
  { intros batch Hin. apply (proj1 (In_quoteBatches _ _)) in Hin. rewrite Hbatches in Hin.
    apply in_app_or in Hin as [Hin|Hin].
    - right. destruct reqs; [destruct Hin|]. destruct Hin as [<-|[]]. reflexivity.
    - left. apply (proj2 (In_quoteBatches _ _)). unfold quoteBatches in *.
      rewrite <- Hnet. exact Hin. }
  repeat split; try assumption.
  destruct p; try contradiction.
  - destruct H as (swapper & swapData & now & -> & _). do 3 eexists. split; reflexivity.
  - destruct H as [-> _]. do 3 eexists. split; reflexivity.
  - destruct H as [-> _]. do 3 eexists. split; reflexivity.
Qed.

(** The detail at the position of a sub-position is the one expected for
    the data of its pass and for its slot in the batch. *)
Lemma expectedDetails_at quoterAddress use get poolFee amount0 ios quoteRequests data
    quoteResults j io :
  scanLoop quoterAddress use get poolFee amount0 0 ios [] [] = Normal (quoteRequests, data) ->
  ios !! j = Some io ->
  exists pushed od,
    scanInternalOption quoterAddress use get poolFee amount0 j io = Normal (pushed, od)
    /\ expectedDetails data quoteResults 0 !! j
       = Some (detailFor od quoteResults (quoteSlot ios j)).
Proof.
  intros Hscan Hj.
  apply scanLoop_normal in Hscan as (pushes & datas & _ & -> & Hl1 & _ & Hall).
  cbn [app]. destruct (Hall j io Hj) as (pushed & od & _ & Hod & Hs). cbn in Hs.
  exists pushed, od. split; [exact Hs|].
  rewrite (expectedDetails_lookup _ _ _ _ _ Hod). cbn [Nat.add].
  rewrite (dataSlot_quoteSlot ios datas Hl1); [reflexivity|].
  intros j' io' Hj'. destruct (Hall j' io' Hj') as (p' & od' & _ & Hod' & Hs').
  exists od'. split; [exact Hod'|].
  now apply scanInternalOption_normal in Hs' as (_ & Hskip & _).
Qed.

Lemma lookup_exercisable details j d :
  details !! j = Some d ->
  exercisable details !! j
  = Some (if ProfitabilityResult.isProfitable d
          then ProfitabilityResult.liquidityAvailable d else "0").
Proof. intros H. unfold exercisable. now rewrite list_lookup_fmap, H. Qed.

Lemma lookup_zeroLiquidity request j io :
  GetRatesRequest.internalOptions request !! j = Some io ->
  zeroLiquidity request !! j = Some "0".
Proof.
  unfold zeroLiquidity. intros H. apply lookup_lt_Some in H.
  revert j H. induction (length (GetRatesRequest.internalOptions request)) as [|n IH];
    intros j H; [lia|].
  destruct j as [|j]; [reflexivity|]. cbn. apply IH. lia.
Qed.

(* ===================================================================== *)
(** ** Sub-positions without liquidity, profit, and failed quotes *)
(* ===================================================================== *)

Lemma concat_length_pushes ios pushes :
  length pushes = length ios ->
  (forall j io, ios !! j = Some io ->
     exists pushed : list QuoteRequest,
       pushes !! j = Some pushed
       /\ length pushed = (if hasLiquidity io then 1 else 0)%nat) ->
  length (concat pushes) = quoteSlot ios (length ios).
Proof.
  revert pushes. induction ios as [|io ios IH]; intros [|pushed pushes] Hlen Hall;
    try discriminate Hlen; [reflexivity|].
  cbn [concat length quoteSlot]. rewrite length_app.
  destruct (Hall 0%nat io eq_refl) as (p0 & Hp0 & Hl0). injection Hp0 as <-.
  rewrite Hl0, (IH pushes); [reflexivity | cbn in Hlen; lia |].
  intros j io' Hj. exact (Hall (S j) io' Hj).
Qed.

(** The batch built by the first loop has one request per sub-position
    with liquidity. *)
Lemma scanLoop_batch_length quoterAddress use get poolFee amount0 ios quoteRequests data :
  scanLoop quoterAddress use get poolFee amount0 0 ios [] [] = Normal (quoteRequests, data) ->
  length quoteRequests = quoteSlot ios (length ios).
Proof.
  intros H. apply scanLoop_normal in H as (pushes & datas & -> & _ & _ & Hl & Hall).
  cbn [app]. apply concat_length_pushes; [exact Hl|].
  intros j io Hj. destruct (Hall j io Hj) as (pushed & od & Hp & _ & Hs).
  exists pushed. split; [exact Hp|].
  now apply scanInternalOption_normal in Hs as (_ & _ & Hlen & _).
Qed.

(** The pass of the first loop over a sub-position with liquidity: the
    two amounts come from the range calculation on the parsed ticks and
    the liquidity, and [isAmount0] says which is locked and which is the
    refill. *)
Lemma scanInternalOption_amounts quoterAddress use get poolFee amount0 i io pushed od :
  scanInternalOption quoterAddress use get poolFee amount0 i io = Normal (pushed, od) ->
  hasLiquidity io = true ->
  exists sqrtRatioAX96 sqrtRatioBX96 a0 a1,
    JS.BigInt (GetRatesRequestInternalOption.liquidity io)
    = Normal (iod_liquidityAvailable od)
    /\ TickMath.getSqrtRatioAtTick
         (JS.parseInt (GetRatesRequestInternalOption.tickLower io)) = Normal sqrtRatioAX96
    /\ TickMath.getSqrtRatioAtTick
         (JS.parseInt (GetRatesRequestInternalOption.tickUpper io)) = Normal sqrtRatioBX96
    /\ SqrtPriceMath.getAmount0Delta sqrtRatioAX96 sqrtRatioBX96
         (iod_liquidityAvailable od) true = Normal a0
    /\ SqrtPriceMath.getAmount1Delta sqrtRatioAX96 sqrtRatioBX96
         (iod_liquidityAvailable od) true = Normal a1
    /\ iod_amountLocked od = (if amount0 then a0 else a1)
    /\ iod_amountToRefill od = (if amount0 then a1 else a0)
    /\ iod_index od = i
    /\ iod_skipQuote od = false.
Proof.
  unfold scanInternalOption, hasLiquidity.
  destruct (JS.BigInt (GetRatesRequestInternalOption.liquidity io)) as [L|e];
    cbn [mbind Completion_bind cbind]; [|discriminate].
  intros H Hpos. apply Z.ltb_lt in Hpos.
  destruct (Z.leb_spec L 0) as [Hle|_]; [lia|].
  cbv zeta in H.
  destruct (TickMath.getSqrtRatioAtTick
              (JS.parseInt (GetRatesRequestInternalOption.tickLower io))) as [A|e] eqn:HA;
    cbn [mbind Completion_bind cbind] in H; [|discriminate H].
  destruct (TickMath.getSqrtRatioAtTick
              (JS.parseInt (GetRatesRequestInternalOption.tickUpper io))) as [B|e] eqn:HB;
    cbn [mbind Completion_bind cbind] in H; [|discriminate H].
  rewrite !BigInt_toString_roundtrip in H. cbn [mbind Completion_bind cbind] in H.
  destruct (SqrtPriceMath.getAmount0Delta A B L true) as [a0|e] eqn:H0;
    cbn [mbind Completion_bind cbind] in H; [|discriminate H].
  destruct (SqrtPriceMath.getAmount1Delta A B L true) as [a1|e] eqn:H1;
    cbn [mbind Completion_bind cbind] in H; [|discriminate H].
  exists A, B, a0, a1.
  destruct amount0; rewrite !BigInt_toString_roundtrip in H;
    cbn [mbind Completion_bind cbind] in H; injection H as <- <-;
    cbn [iod_liquidityAvailable iod_amountLocked iod_amountToRefill iod_index iod_skipQuote];
    repeat split; (reflexivity || assumption).
Qed.

(** In a response that comes out of the [try] block on a cache miss, a
    sub-position with liquidity has its quote in the batch this call has
    sent: the answer of the chain to that batch has an entry at the
    sub-position's slot, and the detail is the one the second loop builds
    from the data of the first loop and from that entry. *)
Lemma quoted_sub_position env request st p r st' j io :
  calculateTraced env request st = (Normal (p, r), st') ->
  p <> CacheHit -> p <> Caught ->
  GetRatesRequest.internalOptions request !! j = Some io ->
  hasLiquidity io = true ->
  exists info quoterAddress pushed od quoteRequests quoteResults entry,
    scanInternalOption quoterAddress (assetToUse info request) (assetToGet info request)
      (PoolMarketInfo.poolFee info) (isAmount0 info request) j io
    = Normal (pushed, od)
    /\ quoteBatches st' = quoteRequests :: quoteBatches st
    /\ multicallQuotes env quoteRequests = Normal quoteResults
    /\ quoteResults !! quoteSlot (GetRatesRequest.internalOptions request) j = Some entry
    /\ GetRatesResponse.details r !! j
       = Some match entry with
              | Success quote => quotedDetail od (qt_amountOut quote)
              | Failure _ => failedQuoteDetail od
              end.
Proof.
  intros H Hhit Hcaught Hj Hliq.
  apply calculateTraced_inv in H as [(-> & _) | (_ & st0 & Htry & H)]; [congruence|].
  apply tryState_frame in Htry as (_ & _ & Hnet).
  apply tryEvaluate_inv in H as [(-> & _) | (_ & H)]; [congruence|].
  apply evaluate_quotes in H
    as (info & quoter & reqs & data & qrs & st6 & _ & Hscan & Hb & Hbatches & Hentries & H).
  apply prepareExercise_normal in H as (Hd & _).
  pose proof Hscan as Hscan'.
  apply scanLoop_normal in Hscan' as (pushes & datas & _ & Hdata & Hl1 & _ & Hall).
  cbn [app] in Hdata. subst data.
  destruct (Hall j io Hj) as (pushed & od & _ & Hod & Hs). cbn [Nat.add] in Hs.
  pose proof Hs as Hs'.
  apply scanInternalOption_normal in Hs' as (_ & Hskip & _).
  rewrite Hliq in Hskip. cbn [negb] in Hskip.
  assert (Hslot : dataSlot datas j = quoteSlot (GetRatesRequest.internalOptions request) j).
  { apply (dataSlot_quoteSlot _ datas Hl1).
    intros j' io' Hj'. destruct (Hall j' io' Hj') as (p' & od' & _ & Hod' & Hs'').
    exists od'. split; [exact Hod'|].
    now apply scanInternalOption_normal in Hs'' as (_ & Hskip' & _). }
  destruct (Hentries j od Hod Hskip) as [entry Hentry]. rewrite Hslot in Hentry.
  exists info, quoter, pushed, od, reqs, qrs, entry.
  split; [exact Hs|].
  assert (Hreqs : reqs <> []).
  { intros ->. subst qrs. discriminate Hentry. }
  destruct reqs as [|req reqs]; [congruence|].
  split; [rewrite Hbatches; unfold quoteBatches; now rewrite Hnet|].
  split; [exact Hb|]. split; [exact Hentry|].
  rewrite Hd, (expectedDetails_lookup _ _ _ _ _ Hod). cbn [Nat.add].
  rewrite Hslot. unfold detailFor. rewrite Hskip, Hentry. reflexivity.
Qed.

(** C6, as amended.  For a sub-position whose liquidity is zero or
    negative: the pass of the first loop over it pushes no quote request
    and returns before its ticks are parsed or converted, whatever they
    are; and in every response that comes out of the [try] block on a
    cache miss (every return but the cache hit and the [catch] block) the
    quote batch has one request per sub-position with liquidity, and the
    detail at its position is the all-zero, not-profitable one. *)
Theorem zero_liquidity_short_circuit env request st j io liquidity :
  GetRatesRequest.internalOptions request !! j = Some io ->
  JS.BigInt (GetRatesRequestInternalOption.liquidity io) = Normal liquidity ->
  liquidity <= 0 ->
  (forall quoterAddress use get poolFee amount0 i tickLower tickUpper,
     scanInternalOption quoterAddress use get poolFee amount0 i
       (GetRatesRequestInternalOption.mk tickLower tickUpper
          (GetRatesRequestInternalOption.liquidity io))
     = Normal ([], {| iod_index := i; iod_liquidityAvailable := 0; iod_amountLocked := 0;
                      iod_amountToRefill := 0; iod_skipQuote := true |}))
  /\ (forall p r st',
        calculateTraced env request st = (Normal (p, r), st') ->
        p <> CacheHit -> p <> Caught ->
        (forall quoteRequests,
           In (MulticallQuotes quoteRequests) (network st') ->
           ~ In (MulticallQuotes quoteRequests) (network st) ->
           length quoteRequests
           = quoteSlot (GetRatesRequest.internalOptions request)
               (length (GetRatesRequest.internalOptions request)))
        /\ GetRatesResponse.details r !! j
           = Some (ProfitabilityResult.mk j "0" "0" "0" "0" "0" false)).
Proof.
  intros Hj HL Hle. split.
  - intros. apply (scanInternalOption_skip _ _ _ _ _ _ _ liquidity); assumption.
  - intros p r st' H Hhit Hcaught. split.
    + destruct (computed_response _ _ _ _ _ _ H Hhit Hcaught)
        as (info & quoter & reqs & data & qrs & Hscan & _ & Hnet & _).
      intros batch Hin Hnew. destruct (Hnet batch Hin) as [Hold | ->]; [contradiction|].
      exact (scanLoop_batch_length _ _ _ _ _ _ _ _ Hscan).
    + destruct (computed_response _ _ _ _ _ _ H Hhit Hcaught)
        as (info & quoter & reqs & data & qrs & Hscan & _ & _ & Hd & _).
      rewrite Hd.
      destruct (expectedDetails_at _ _ _ _ _ _ _ _ qrs j io Hscan Hj)
        as (pushed & od & Hs & ->).
      rewrite (scanInternalOption_skip _ _ _ _ _ _ _ liquidity HL Hle) in Hs.
      injection Hs as _ <-. reflexivity.
Qed.

Lemma zero_liquidity_short_circuit_witness :
  GetRatesResponse.details mixedResponse !! 1%nat
  = Some (ProfitabilityResult.mk 1 "0" "0" "0" "0" "0" false).
Proof.
  assert (Hj : GetRatesRequest.internalOptions (sampleRequest [liveRange; emptyRange])
               !! 1%nat = Some emptyRange) by (vm_compute; reflexivity).
  assert (HL : JS.BigInt (GetRatesRequestInternalOption.liquidity emptyRange) = Normal 0)
    by (vm_compute; reflexivity).
  assert (Hrun : calculateTraced profitableWorld (sampleRequest [liveRange; emptyRange])
                   emptyState
                 = (Normal (Computed, mixedResponse), afterMixedCall))
    by (apply run_eq; vm_compute; reflexivity).
  exact (proj2 (proj2 (zero_liquidity_short_circuit profitableWorld
                         (sampleRequest [liveRange; emptyRange]) emptyState 1 emptyRange 0
                         Hj HL (Z.le_refl 0))
                  Computed mixedResponse afterMixedCall Hrun
                  ltac:(discriminate) ltac:(discriminate))).
Defined.

(** C6 as stated fails when the [try] block throws: the response then
    carries no detail at all, also for a sub-position without liquidity. *)
Lemma zero_liquidity_detail_missing :
  GetRatesRequest.internalOptions (sampleRequest [emptyRange]) !! 0%nat = Some emptyRange
  /\ JS.BigInt (GetRatesRequestInternalOption.liquidity emptyRange) = Normal 0
  /\ fst (calculateOptionProfitability metadataFailureWorld (sampleRequest [emptyRange])
            emptyState)
     = Normal emptyRangeFallback
  /\ GetRatesResponse.details emptyRangeFallback !! 0%nat = None.
Proof. repeat split; vm_compute; reflexivity. Qed.

(** C7, as amended.  In every response that comes out of the [try] block
    on a cache miss, the total profit is the sum of the positive profits
    of the details and the response is profitable exactly when that sum is
    positive.  For each sub-position with liquidity, the call has sent one
    quote batch, the chain's answer to it has an entry at the
    sub-position's slot, and the two amounts of the sub-position are those
    of the range calculation on its ticks and liquidity, one being the
    locked amount and the other the refill.  When that entry is a
    successful quote, the detail reports the liquidity, the locked amount,
    the quoted amount, the refill and, as profit, the quoted amount minus
    the refill, and it is profitable exactly when that difference is
    positive.  The liquidity-to-exercise entry is the available liquidity
    when the detail is profitable and "0" otherwise if the response was
    returned at the end of the [try] block; on the two early returns it is
    "0" in any case. *)
Theorem profit_rule env request st p r st' :
  calculateTraced env request st = (Normal (p, r), st') ->
  p <> CacheHit -> p <> Caught ->
  GetRatesResponse.totalProfit r
  = JS.BigInt_toString (sumPositiveProfits (GetRatesResponse.details r))
  /\ GetRatesResponse.isProfitable r
     = (0 <? sumPositiveProfits (GetRatesResponse.details r))
  /\ exists liquidityToExercise swapper swapData,
       GetRatesResponse.exerciseParams r
       = Some (ExerciseParams.mk (GetRatesRequest.tokenId request) swapper swapData
                 liquidityToExercise)
       /\ forall j io,
            GetRatesRequest.internalOptions request !! j = Some io ->
            hasLiquidity io = true ->
            exists quoteRequests quoteResults entry liquidity sqrtRatioAX96 sqrtRatioBX96
                   amount0 amount1 amountLocked amountToRefill,
              quoteBatches st' = quoteRequests :: quoteBatches st
              /\ multicallQuotes env quoteRequests = Normal quoteResults
              /\ quoteResults !! quoteSlot (GetRatesRequest.internalOptions request) j
                 = Some entry
              /\ JS.BigInt (GetRatesRequestInternalOption.liquidity io) = Normal liquidity
              /\ TickMath.getSqrtRatioAtTick
                   (JS.parseInt (GetRatesRequestInternalOption.tickLower io))
                 = Normal sqrtRatioAX96
              /\ TickMath.getSqrtRatioAtTick
                   (JS.parseInt (GetRatesRequestInternalOption.tickUpper io))
                 = Normal sqrtRatioBX96
              /\ SqrtPriceMath.getAmount0Delta sqrtRatioAX96 sqrtRatioBX96 liquidity true
                 = Normal amount0
              /\ SqrtPriceMath.getAmount1Delta sqrtRatioAX96 sqrtRatioBX96 liquidity true
                 = Normal amount1
              /\ (amountLocked = amount0 /\ amountToRefill = amount1
                  \/ amountLocked = amount1 /\ amountToRefill = amount0)
              /\ forall quote,
                   entry = Success quote ->
                   GetRatesResponse.details r !! j
                   = Some (ProfitabilityResult.mk j
                             (JS.BigInt_toString liquidity)
                             (JS.BigInt_toString amountLocked)
                             (JS.BigInt_toString (qt_amountOut quote))
                             (JS.BigInt_toString amountToRefill)
                             (JS.BigInt_toString (qt_amountOut quote - amountToRefill))
                             (0 <? qt_amountOut quote - amountToRefill))
                   /\ liquidityToExercise !! j
                      = Some match p with
                             | Computed =>
                                 if 0 <? qt_amountOut quote - amountToRefill
                                 then JS.BigInt_toString liquidity else "0"
                             | _ => "0"
                             end.
Proof.
  intros H Hhit Hcaught.
  destruct (computed_response _ _ _ _ _ _ H Hhit Hcaught)
    as (_ & _ & _ & _ & _ & _ & _ & _ & _ & Ht & Hp & lte & swapper & swapData & Hep & Hlte).
  split; [exact Ht|]. split; [exact Hp|].
  exists lte, swapper, swapData. split; [exact Hep|].
  intros j io Hj Hliq.
  destruct (quoted_sub_position _ _ _ _ _ _ j io H Hhit Hcaught Hj Hliq)
    as (info & quoter & pushed & od & reqs & qrs & entry & Hs & Hbatch & Hanswer & Hentry & Hd).
  destruct (scanInternalOption_amounts _ _ _ _ _ _ _ _ _ Hs Hliq)
    as (A & B & a0 & a1 & HL & HA & HB & H0 & H1 & Hlocked & Hrefill & Hidx & _).
  exists reqs, qrs, entry, (iod_liquidityAvailable od), A, B, a0, a1,
    (iod_amountLocked od), (iod_amountToRefill od).
  repeat (split; [assumption|]).
  split; [rewrite Hlocked, Hrefill; destruct (isAmount0 info request); auto|].
  intros quote ->. unfold quotedDetail in Hd. rewrite Hidx in Hd.
  split; [exact Hd|].
  rewrite Hlte. destruct p; try contradiction.
  - rewrite (lookup_exercisable _ _ _ Hd). reflexivity.
  - exact (lookup_zeroLiquidity _ _ _ Hj).
  - exact (lookup_zeroLiquidity _ _ _ Hj).
Qed.

Lemma profit_rule_witness :
  GetRatesResponse.totalProfit profitableResponse
  = JS.BigInt_toString (sumPositiveProfits (GetRatesResponse.details profitableResponse))
  /\ exists amountToRefill,
       GetRatesResponse.details profitableResponse !! 0%nat
       = Some (ProfitabilityResult.mk 0 "1000000" "10000" "10050"
                 (JS.BigInt_toString amountToRefill)
                 (JS.BigInt_toString (10050 - amountToRefill))
                 (0 <? 10050 - amountToRefill)).
Proof.
  assert (Hrun : calculateTraced profitableWorld (sampleRequest [liveRange]) emptyState
                 = (Normal (Computed, profitableResponse), afterFirstCall))
    by (apply run_eq; vm_compute; reflexivity).
  destruct (profit_rule profitableWorld (sampleRequest [liveRange]) emptyState Computed
              profitableResponse afterFirstCall Hrun ltac:(discriminate) ltac:(discriminate))
    as (Ht & _ & lte & swapper & swapData & _ & Hsub).
  split; [exact Ht|].
  destruct (Hsub 0%nat liveRange eq_refl eq_refl)
    as (reqs & qrs & entry & liquidity & A & B & a0 & a1 & locked & refill
        & _ & Hanswer & Hentry & _ & _ & _ & _ & _ & _ & Hquote).
  cbn [profitableWorld sampleEnv multicallQuotes] in Hanswer. injection Hanswer as <-.
  cbn in Hentry. injection Hentry as <-.
  destruct (Hquote _ eq_refl) as [Hd _].
  exists refill. rewrite Hd.
  cbn [qt_amountOut]. 
  assert (Hfields : GetRatesResponse.details profitableResponse !! 0%nat
                    = Some (ProfitabilityResult.mk 0 "1000000" "10000" "10050" "10000" "50"
                              true)) by reflexivity.
  rewrite Hd in Hfields. injection Hfields as -> -> _ _ _. reflexivity.
Defined.

(** C7 as stated fails after the quotes have succeeded.  On the early
    return taken when no swapper address is configured, the detail is
    profitable, with available liquidity "1000000", and the
    liquidity-to-exercise entry is "0"; the early return taken when the
    swap data cannot be encoded gives the same response.  When the
    swapper lookup throws, the same quote (10050 against a refill of
    10000) is answered by the [catch] block: total profit "0", no detail,
    entry "0". *)
Lemma profitable_but_not_exercised :
  fst (calculateOptionProfitability noSwapperWorld (sampleRequest [liveRange]) emptyState)
  = Normal noSwapperResponse
  /\ (ProfitabilityResult.isProfitable <$> GetRatesResponse.details noSwapperResponse)
     = [true]
  /\ (ProfitabilityResult.liquidityAvailable <$> GetRatesResponse.details noSwapperResponse)
     = ["1000000"]
  /\ (ExerciseParams.liquidityToExercise <$> GetRatesResponse.exerciseParams noSwapperResponse)
     = Some ["0"]
  /\ fst (calculateOptionProfitability swapperLookupThrows (sampleRequest [liveRange])
            emptyState)
     = Normal (GetRatesResponse.mk "7" "0" false []
                 (Some (ExerciseParams.mk "7" [] [] ["0"])))
  /\ fst (calculateOptionProfitability encodingFailureWorld (sampleRequest [liveRange])
            emptyState)
     = Normal noSwapperResponse.
Proof. repeat split; vm_compute; reflexivity. Qed.

(* ===================================================================== *)
(** ** Failures reported by the batches *)
(* ===================================================================== *)

Lemma keeps_meta_createPublicClientForChain env chainId :
  keeps poolMarketInfoCache (createPublicClientForChain env chainId).
Proof. apply keeps_createPublicClientForChain; frame. Qed.

(** Without a cached entry, a metadata batch that throws or reports a
    failure makes the resolution throw. *)
Lemma getPoolMarketInfo_failure env chainId market pool st :
  poolMarketInfoCache st !! generatePoolMarketCacheKey chainId market pool = None ->
  (forall res, multicallPool env market pool = Normal res -> someFailure res = true) ->
  exists error st', getPoolMarketInfo env chainId market pool st = (Throw error, st').
Proof.
  intros Hmiss Hfail. unfold getPoolMarketInfo. rewrite bindM_eq. cbn [getState].
  rewrite Hmiss. rewrite bindM_eq. cbn [log]. rewrite bindM_eq.
  assert (Hbatch : forall primePool st1,
            exists error st',
              (multicallResult ← rpc (MulticallPool market pool) (multicallPool env market pool);
               match multicallResult with
               | {| mc_fee := Success poolFee; mc_callAsset := Success callAsset;
                    mc_putAsset := Success putAsset; mc_token0 := Success token0;
                    mc_token1 := Success token1 |} =>
                   let info :=
                     PoolMarketInfo.mk poolFee callAsset putAsset token0 token1
                       (Some primePool) in
                   _ ← setPoolMarketInfo
                         (generatePoolMarketCacheKey chainId market pool) info;
                   mret info
               | _ => liftC (Throw "Failed to fetch pool data")
               end) st1 = (Throw error, st')).
  { intros primePool st1. rewrite bindM_eq. unfold rpc.
    destruct (multicallPool env market pool) as [res|e] eqn:E; [|eauto].
    specialize (Hfail res eq_refl).
    destruct res as [[fee|?] [ca|?] [pa|?] [t0|?] [t1|?]]; cbn in Hfail;
      try discriminate Hfail; unfold liftC; eauto. }
  destruct (String.eqb market pool).
  - change (mret (M := M) pool ?s) with (Normal pool, s). apply Hbatch.
  - unfold rpc at 1. destruct (readPrimePool env market) as [primePool|e]; [apply Hbatch | eauto].
Qed.

Lemma evaluate_metadata_failure env request cacheKey st :
  poolMarketInfoCache st
    !! generatePoolMarketCacheKey (GetRatesRequest.chainId request)
         (GetRatesRequest.market request) (GetRatesRequest.pool request) = None ->
  (forall res,
     multicallPool env (GetRatesRequest.market request) (GetRatesRequest.pool request)
     = Normal res -> someFailure res = true) ->
  exists error st', evaluate env request cacheKey st = (Throw error, st').
Proof.
  intros Hmiss Hfail. unfold evaluate. rewrite bindM_eq.
  destruct (createPublicClientForChain env (GetRatesRequest.chainId request) st)
    as [[client|e] st1] eqn:E; [|eauto].
  apply (keeps_eq poolMarketInfoCache) in E; [|apply keeps_meta_createPublicClientForChain].
  rewrite <- E in Hmiss.
  destruct (getPoolMarketInfo_failure env _ _ _ st1 Hmiss Hfail) as (error & st' & H).
  rewrite bindM_eq, H. eauto.
Qed.

(** C2, as amended.  On a cache miss: if the metadata is not cached and the
    metadata batch throws or reports a failure in any of its reads, the
    response is that of the [catch] block, not profitable and with "0" for
    every sub-position.  In a response that comes out of the [try] block,
    each sub-position with liquidity has its quote in the batch the call
    has sent, and the chain's answer to that batch has an entry at the
    sub-position's slot; when this entry reports a failure, the detail of
    the sub-position has quoted amount "0", profit "0" and is not
    profitable, and its liquidity-to-exercise entry is "0" (the other
    sub-positions are evaluated from their own quotes).  A response of
    the [catch] block, which is where a quote batch that throws as a
    whole ends, is not profitable and has "0" for every sub-position. *)
Theorem fail_safe_default env request st p r st' :
  calculateTraced env request st = (Normal (p, r), st') ->
  p <> CacheHit ->
  (poolMarketInfoCache st
     !! generatePoolMarketCacheKey (GetRatesRequest.chainId request)
          (GetRatesRequest.market request) (GetRatesRequest.pool request) = None ->
   (forall res,
      multicallPool env (GetRatesRequest.market request) (GetRatesRequest.pool request)
      = Normal res -> someFailure res = true) ->
   r = fallbackResponse request
   /\ GetRatesResponse.isProfitable r = false
   /\ exists liquidityToExercise,
        (ExerciseParams.liquidityToExercise <$> GetRatesResponse.exerciseParams r)
        = Some liquidityToExercise
        /\ Forall (fun entry => entry = "0") liquidityToExercise)
  /\ (p <> Caught ->
      exists liquidityToExercise,
        (ExerciseParams.liquidityToExercise <$> GetRatesResponse.exerciseParams r)
        = Some liquidityToExercise
        /\ forall j io,
             GetRatesRequest.internalOptions request !! j = Some io ->
             hasLiquidity io = true ->
             exists quoteRequests quoteResults entry,
               quoteBatches st' = quoteRequests :: quoteBatches st
               /\ multicallQuotes env quoteRequests = Normal quoteResults
               /\ quoteResults !! quoteSlot (GetRatesRequest.internalOptions request) j
                  = Some entry
               /\ forall error,
                    entry = Failure error ->
                    exists detail,
                      GetRatesResponse.details r !! j = Some detail
                      /\ ProfitabilityResult.index detail = j
                      /\ ProfitabilityResult.quotedAmountOut detail = "0"
                      /\ ProfitabilityResult.profit detail = "0"
                      /\ ProfitabilityResult.isProfitable detail = false
                      /\ liquidityToExercise !! j = Some "0")
  /\ (p = Caught ->
      GetRatesResponse.isProfitable r = false
      /\ (ExerciseParams.liquidityToExercise <$> GetRatesResponse.exerciseParams r)
         = Some (repeat "0" (length (GetRatesRequest.internalOptions request)))).
Proof.
  intros H Hhit. split; [|split].
  - intros Hmiss Hfail.
    assert (Hr : r = fallbackResponse request).
    { apply calculateTraced_inv in H as [(-> & _) | (_ & st0 & Htry & H)]; [congruence|].
      apply tryState_frame in Htry as (_ & Hmeta & _). rewrite <- Hmeta in Hmiss.
      destruct (evaluate_metadata_failure env request
                  (generateProfitabilityCacheKey request) st0 Hmiss Hfail)
        as (error & st1 & Hthrow).
      apply tryEvaluate_inv in H as [(_ & -> & _) | (_ & H)]; [reflexivity|].
      rewrite H in Hthrow. discriminate Hthrow. }
    subst r. repeat split. eexists. split; [reflexivity|].
    apply Forall_repeat_same.
  - intros Hcaught.
    destruct (computed_response _ _ _ _ _ _ H Hhit Hcaught)
      as (_ & _ & _ & _ & _ & _ & _ & _ & _ & _ & _ & lte & swapper & swapData & Hep & Hlte).
    exists lte. split; [now rewrite Hep|].
    intros j io Hj Hliq.
    destruct (quoted_sub_position _ _ _ _ _ _ j io H Hhit Hcaught Hj Hliq)
      as (info & quoter & pushed & od & reqs & qrs & entry
          & Hs & Hbatch & Hanswer & Hentry & Hd).
    exists reqs, qrs, entry. repeat (split; [assumption|]).
    intros error ->.
    apply scanInternalOption_normal in Hs as (Hidx & _).
    exists (failedQuoteDetail od). split; [exact Hd|].
    repeat split; [exact Hidx|].
    rewrite Hlte. destruct p; try contradiction.
    + rewrite (lookup_exercisable _ _ _ Hd). reflexivity.
    + exact (lookup_zeroLiquidity _ _ _ Hj).
    + exact (lookup_zeroLiquidity _ _ _ Hj).
  - intros ->.
    apply calculateTraced_inv in H as [(Habs & _) | (_ & st0 & _ & H)]; [discriminate Habs|].
    apply tryEvaluate_inv in H as [(_ & -> & _) | (Hne & _)]; [|congruence].
    split; reflexivity.
Qed.

Lemma fail_safe_default_witness :
  (emptyRangeFallback = fallbackResponse (sampleRequest [emptyRange])
   /\ GetRatesResponse.isProfitable emptyRangeFallback = false)
  /\ exists detail,
       GetRatesResponse.details partialFailureResponse !! 0%nat = Some detail
       /\ ProfitabilityResult.quotedAmountOut detail = "0"
       /\ ProfitabilityResult.profit detail = "0"
       /\ ProfitabilityResult.isProfitable detail = false.
Proof.
  split.
  - assert (Hrun : calculateTraced metadataFailureWorld (sampleRequest [emptyRange])
                     emptyState
                   = (Normal (Caught, emptyRangeFallback),
                      snd (calculateTraced metadataFailureWorld (sampleRequest [emptyRange])
                             emptyState)))
      by (apply run_eq; vm_compute; reflexivity).
    destruct (fail_safe_default metadataFailureWorld (sampleRequest [emptyRange]) emptyState
                Caught emptyRangeFallback _ Hrun ltac:(discriminate)) as [H _].
    destruct H as (Hr & Hp & _).
    + vm_compute. reflexivity.
    + intros res E. injection E as <-. reflexivity.
    + exact (conj Hr Hp).
  - assert (Hrun : calculateTraced partialFailureWorld (sampleRequest [liveRange; liveRange])
                     emptyState
                   = (Normal (Computed, partialFailureResponse),
                      snd (calculateTraced partialFailureWorld
                             (sampleRequest [liveRange; liveRange]) emptyState)))
      by (apply run_eq; vm_compute; reflexivity).
    destruct (fail_safe_default partialFailureWorld (sampleRequest [liveRange; liveRange])
                emptyState Computed partialFailureResponse _ Hrun ltac:(discriminate))
      as (_ & H & _).
    destruct (H ltac:(discriminate)) as (lte & _ & Hsub).
    destruct (Hsub 0%nat liveRange eq_refl eq_refl)
      as (reqs & qrs & entry & _ & Hanswer & Hentry & Hfailed).
    cbn [partialFailureWorld sampleEnv multicallQuotes] in Hanswer. injection Hanswer as <-.
    cbn in Hentry. injection Hentry as <-.
    destruct (Hfailed _ eq_refl) as (detail & Hd & _ & Hq & Hprofit & Hflag & _).
    exists detail. auto.
Defined.

(** C2 as stated fails when one quote of the batch reports a failure and
    another succeeds with a profit: the response is profitable, and the
    liquidity of the second sub-position is to be exercised. *)
Lemma partial_quote_failure_still_profitable :
  fst (calculateOptionProfitability partialFailureWorld
         (sampleRequest [liveRange; liveRange]) emptyState)
  = Normal partialFailureResponse
  /\ GetRatesResponse.isProfitable partialFailureResponse = true
  /\ (ExerciseParams.liquidityToExercise
        <$> GetRatesResponse.exerciseParams partialFailureResponse)
     = Some ["0"; "1000000"].
Proof. repeat split; vm_compute; reflexivity. Qed.

(** Beyond one field: the key joins its fields with hyphens and does not
    escape them, so two requests that differ in their market and in their
    pool at once can have the same key, and the second is then answered
    from the cache entry of the first. *)
Lemma cache_key_collision :
  dashedMarket <> dashedPool
  /\ generateProfitabilityCacheKey dashedMarket = generateProfitabilityCacheKey dashedPool
  /\ fst (calculateTraced profitableWorld dashedMarket emptyState)
     = Normal (Computed, dashedResponse)
  /\ fst (calculateTraced profitableWorld dashedPool
            (snd (calculateTraced profitableWorld dashedMarket emptyState)))
     = Normal (CacheHit, dashedResponse).
Proof.
  split; [discriminate|]. repeat split; vm_compute; reflexivity.
Qed.

(** C5.  Two requests that differ in one field (the chain, the market, the
    pool, the position identifier, the call flag, or the list of
    sub-positions: the same sub-positions in another order, or a
    sub-position with another lower tick, upper tick or liquidity) have
    different cache keys.  So a call for the first leaves whatever the
    result cache holds under the key of the second as it was, and a call
    for the second is not answered from the entry the first has stored:
    when it is answered from the cache, the entry it returns has been
    there before the call for the first. *)
Theorem cache_key_sensitive request1 request2 :
  differInOneField request1 request2 ->
  generateProfitabilityCacheKey request1 <> generateProfitabilityCacheKey request2
  /\ forall env1 st p1 r1 st1,
       calculateTraced env1 request1 st = (Normal (p1, r1), st1) ->
       profitabilityCache st1 !! generateProfitabilityCacheKey request2
       = profitabilityCache st !! generateProfitabilityCacheKey request2
       /\ forall env2 r2 st2,
            calculateTraced env2 request2 st1 = (Normal (CacheHit, r2), st2) ->
            exists entry,
              profitabilityCache st !! generateProfitabilityCacheKey request2 = Some entry
              /\ result entry = r2.
Proof.
  intros Hd. pose proof (cache_key_differs _ _ Hd) as Hne. split; [exact Hne|].
  intros env1 st p1 r1 st1 H1.
  assert (Hkept : profitabilityCache st1 !! generateProfitabilityCacheKey request2
                  = profitabilityCache st !! generateProfitabilityCacheKey request2).
  { destruct (calculateTraced_cache _ _ _ _ _ _ H1) as [-> | [now ->]]; [reflexivity|].
    now rewrite lookup_insert_ne. }
  split; [exact Hkept|].
  intros env2 r2 st2 H2.
  apply calculateTraced_inv in H2 as [(_ & _ & entry & He & -> & _) | (Hhit & _)];
    [|congruence].
  exists entry. rewrite <- Hkept. split; [exact He | reflexivity].
Qed.

Lemma cache_key_sensitive_witness :
  generateProfitabilityCacheKey (sampleRequest [liveRange; emptyRange])
  <> generateProfitabilityCacheKey (sampleRequest [emptyRange; liveRange]).
Proof.
  apply (cache_key_sensitive (sampleRequest [liveRange; emptyRange])
           (sampleRequest [emptyRange; liveRange])).
  apply differ_internalOptions. discriminate.
Defined.

(* ===================================================================== *)
(** ** Settlement of expired positions *)
(* ===================================================================== *)

Lemma bindE_eq {A B} (m : E A) (k : A -> E B) st :
  (m ≫= k) st
  = match m st with
    | (Normal a, st') => k a st'
    | (Throw e, st') => (Throw e, st')
    end.
Proof. reflexivity. Qed.

Lemma bindE_inv {A B} (m : E A) (k : A -> E B) st out st' :
  (m ≫= k) st = (out, st') ->
  (exists a st1, m st = (Normal a, st1) /\ k a st1 = (out, st'))
  \/ (exists e, m st = (Throw e, st') /\ out = Throw e).
Proof.
  rewrite bindE_eq. destruct (m st) as [[a|e] st1]; intros H.
  - left. eauto.
  - right. injection H as <- <-. eauto.
Qed.

Lemma keepsE_bind {A B X} (f : EngineState -> X) (m : E A) (k : A -> E B) :
  keepsE f m -> (forall a, keepsE f (k a)) -> keepsE f (m ≫= k).
Proof.
  intros Hm Hk st. rewrite bindE_eq. specialize (Hm st).
  destruct (m st) as [[a|e] st1]; cbn [snd] in *; [|exact Hm].
  now rewrite Hk.
Qed.

Lemma keepsE_onCalculator {A X} (f : EngineState -> X) (m : M A) :
  (forall st c, f (withCalculator c st) = f st) ->
  keepsE f (onCalculator m).
Proof. intros Hf st. apply Hf. Qed.

Lemma keepsE_eq {A X} (f : EngineState -> X) (m : E A) st out st' :
  keepsE f m -> m st = (out, st') -> f st' = f st.
Proof. intros Hk H. specialize (Hk st). now rewrite H in Hk. Qed.

Ltac keepsE_step :=
  match goal with
  | |- keepsE _ (mbind _ _) => apply keepsE_bind; [|intros ?]
  | |- keepsE _ (elog _ _) => apply keepsE_onCalculator; reflexivity
  | |- keepsE _ (match ?x with _ => _ end) => destruct x
  | |- keepsE _ _ => intros ?; reflexivity
  end.

Ltac keepsE_auto := repeat keepsE_step.

Lemma keepsE_submitted_createClientsForChain eenv chainId :
  keepsE submitted (createClientsForChain eenv chainId).
Proof. unfold createClientsForChain, engineGetChainConfig. keepsE_auto. Qed.

Lemma settles_bind {A B} option (m : E A) (k : A -> E B) :
  keepsE submitted m ->
  (forall a, settlesAtMostOnce option (k a)) ->
  settlesAtMostOnce option (m ≫= k).
Proof.
  intros Hm Hk st out st' H. specialize (Hm st).
  apply bindE_inv in H as [(a & st1 & E & H) | (e & E & ->)]; rewrite E in Hm; cbn [snd] in Hm.
  - rewrite <- Hm. exact (Hk a st1 out st' H).
  - left. exact Hm.
Qed.

Lemma settles_bind_lift {A B} option (c : Completion A) (k : A -> E B) :
  (forall a, c = Normal a -> settlesAtMostOnce option (k a)) ->
  settlesAtMostOnce option (liftE c ≫= k).
Proof.
  intros Hk st out st' H.
  apply bindE_inv in H as [(a & st1 & E & H) | (e & E & ->)]; unfold liftE in E.
  - injection E as E <-. exact (Hk a E st out st' H).
  - injection E as _ <-. left. reflexivity.
Qed.

(** The [try] block of [handleExpiredOption] hands at most one call to the
    wallet, carrying the liquidity figures of [settlementLiquidity]. *)
Lemma settleExpired_settles eenv option :
  settlesAtMostOnce option (settleExpired eenv option).
Proof.
  unfold settleExpired.
  apply settles_bind; [apply keepsE_submitted_createClientsForChain | intros _].
  apply settles_bind_lift; intros first _.
  apply settles_bind_lift; intros poolFee _.
  apply settles_bind; [keepsE_auto | intros _].
  apply settles_bind_lift; intros liquidityToSettle Hl.
  apply settles_bind_lift; intros swapData _.
  apply settles_bind_lift; intros swapperAddress _.
  apply settles_bind_lift; intros swapperAddresses _.
  apply settles_bind_lift; intros optionId _.
  apply settles_bind; [keepsE_auto | intros _].
  intros st out st' H. right.
  exists (SettleOptionParams.mk optionId swapperAddresses swapData liquidityToSettle).
  split; [|exact Hl].
  apply bindE_inv in H as [(hash & st1 & E & H) | (e & E & ->)];
    unfold submit in E; injection E as _ <-; [|reflexivity].
  apply (keepsE_eq submitted) in H; [exact H | keepsE_auto].
Qed.

Lemma handleExpiredOption_settles eenv option :
  settlesAtMostOnce option (handleExpiredOption eenv option).
Proof.
  unfold handleExpiredOption.
  apply settles_bind; [keepsE_auto | intros _].
  intros st out st' H. unfold tryCatchE in H.
  destruct (settleExpired eenv option st) as [[a|e] st1] eqn:E.
  - injection H as <- <-. exact (settleExpired_settles eenv option _ _ _ E).
  - assert (Hk : submitted st' = submitted st1).
    { assert (K : keepsE submitted
                    (_ ← elog LError ("Error handlin expired options "
                                        +:+ Option.tokenId option +:+ ":");
                     elog LError "Failed option details:")) by keepsE_auto.
      specialize (K st1). now rewrite H in K. }
    rewrite Hk. exact (settleExpired_settles eenv option _ _ _ E).
Qed.

Lemma handleExpiredOption_total eenv option st :
  exists st', handleExpiredOption eenv option st = (Normal tt, st').
Proof.
  unfold handleExpiredOption. rewrite bindE_eq.
  unfold elog at 1, onCalculator, log. cbn [fst snd]. unfold tryCatchE.
  destruct (settleExpired eenv option _) as [[[]|e] st1]; [eauto|].
  rewrite bindE_eq. unfold elog, onCalculator, log. cbn [fst snd]. eauto.
Qed.

(** What [Array.prototype.map] returns when no callback throws. *)
Lemma mapC_normal {A B} (f : A -> Completion B) (l : list A) ys :
  mapC f l = Normal ys ->
  length ys = length l
  /\ forall j x, l !! j = Some x -> exists y, ys !! j = Some y /\ f x = Normal y.
Proof.
  revert ys. induction l as [|x l IH]; intros ys; cbn [mapC].
  - intros H. injection H as <-. split; [reflexivity|]. intros j x Hj. discriminate Hj.
  - destruct (f x) as [y|e] eqn:E; cbn [mbind Completion_bind cbind]; [|discriminate].
    destruct (mapC f l) as [ys'|e]; cbn [mbind Completion_bind cbind]; [|discriminate].
    intros H. injection H as <-. destruct (IH ys' eq_refl) as [Hlen Hall].
    split; [cbn; now rewrite Hlen|].
    intros [|j] x' Hj; [injection Hj as <-; eauto | exact (Hall j x' Hj)].
Qed.

Lemma settlementLiquidity_normal internalOption liquidity :
  settlementLiquidity internalOption = Normal liquidity ->
  exists atOpen exercised settled,
    JS.BigInt (InternalOption.liquidityAtOpen internalOption) = Normal atOpen
    /\ JS.BigInt (InternalOption.liquidityExercised internalOption) = Normal exercised
    /\ JS.BigInt (InternalOption.liquiditySettled internalOption) = Normal settled
    /\ liquidity = atOpen - exercised - settled.
Proof.
  unfold settlementLiquidity.
  destruct (JS.BigInt (InternalOption.liquidityAtOpen internalOption)) as [a|e];
    cbn [mbind Completion_bind cbind]; [|discriminate].
  destruct (JS.BigInt (InternalOption.liquidityExercised internalOption)) as [b|e];
    cbn [mbind Completion_bind cbind]; [|discriminate].
  destruct (JS.BigInt (InternalOption.liquiditySettled internalOption)) as [c|e];
    cbn [mbind Completion_bind cbind]; [|discriminate].
  intros H. injection H as <-. eauto 10.
Qed.

(** C1, as amended.  [handleExpiredOption] never throws, and a
    [settleOption] call it hands to the wallet carries, for each
    sub-position in order, exactly liquidityAtOpen - liquidityExercised -
    liquiditySettled: the difference itself, with no floor at zero. *)
Theorem settlement_liquidity_is_difference eenv option st out st' :
  handleExpiredOption eenv option st = (out, st') ->
  out = Normal tt
  /\ forall market params,
       submitted st' = SettleOption market params :: submitted st ->
       length (SettleOptionParams.liquidityToSettle params)
       = length (Option.internalOptions option)
       /\ forall j internalOption,
            Option.internalOptions option !! j = Some internalOption ->
            exists atOpen exercised settled,
              JS.BigInt (InternalOption.liquidityAtOpen internalOption) = Normal atOpen
              /\ JS.BigInt (InternalOption.liquidityExercised internalOption)
                 = Normal exercised
              /\ JS.BigInt (InternalOption.liquiditySettled internalOption) = Normal settled
              /\ SettleOptionParams.liquidityToSettle params !! j
                 = Some (atOpen - exercised - settled).
Proof.
  intros H. split.
  - destruct (handleExpiredOption_total eenv option st) as [st1 E].
    rewrite E in H. now injection H as <- _.
  - intros market params Hsub.
    destruct (handleExpiredOption_settles eenv option _ _ _ H) as [Hnone | (params' & Hp & Hl)].
    + rewrite Hnone in Hsub. exfalso.
      apply (f_equal (@length Submission)) in Hsub. cbn in Hsub. lia.
    + rewrite Hp in Hsub. injection Hsub as _ <-.
      apply mapC_normal in Hl as [Hlen Hall]. split; [exact Hlen|].
      intros j io Hj. destruct (Hall j io Hj) as (y & Hy & Hs).
      apply settlementLiquidity_normal in Hs as (a & b & c & Ha & Hb & Hc & ->).
      exists a, b, c. auto.
Qed.

Lemma settlement_liquidity_is_difference_witness :
  SettleOptionParams.liquidityToSettle partlySettledParams !! 0%nat = Some (100 - 30 - 20).
Proof.
  assert (Hrun : handleExpiredOption sampleEngineEnv partlySettledOption idleEngine
                 = (Normal tt,
                    snd (handleExpiredOption sampleEngineEnv partlySettledOption idleEngine)))
    by (rewrite (surjective_pairing (handleExpiredOption _ _ _)) at 1;
        f_equal; vm_compute; reflexivity).
  assert (Hsub : submitted (snd (handleExpiredOption sampleEngineEnv partlySettledOption
                                   idleEngine))
                 = SettleOption "0x3a47" partlySettledParams :: submitted idleEngine)
    by (vm_compute; reflexivity).
  destruct (settlement_liquidity_is_difference _ _ _ _ _ Hrun) as [_ H].
  destruct (H _ _ Hsub) as [_ Hall].
  destruct (Hall 0%nat (sampleInternalOption "100" "30" "20") eq_refl)
    as (a & b & c & Ha & Hb & Hc & Hl).
  vm_compute in Ha, Hb, Hc. injection Ha as <-. injection Hb as <-. injection Hc as <-.
  exact Hl.
Defined.

(** C1 as stated fails: for a position whose exercised and settled
    liquidity exceed what was opened, the [settleOption] call handed to
    the wallet carries the negative difference. *)
Lemma negative_settlement_submitted :
  mapC settlementLiquidity (Option.internalOptions overdrawnOption) = Normal [-10]
  /\ submitted (snd (handleExpiredOption sampleEngineEnv overdrawnOption idleEngine))
     = [SettleOption "0x3a47" overdrawnParams]
  /\ SettleOptionParams.liquidityToSettle overdrawnParams = [-10].
Proof. repeat split; vm_compute; reflexivity. Qed.

(* ===================================================================== *)
(** ** The control loop *)
(* ===================================================================== *)

Ltac case_match_goal :=
  match goal with
  | |- context [match ?x with _ => _ end] => destruct x eqn:?
  end.

Lemma stop_running st : isRunning (snd (stop st)) = false.
Proof.
  unfold stop, setRunning, elog, onCalculator, log, clearCleanupInterval.
  cbv [mbind E_bind]. cbn [fst snd].
  case_match_goal; reflexivity.
Qed.

Lemma catch_running outcome st :
  isRunning (snd (tryCatchE (liftE outcome)
                    (fun error => elog LError "Error in main loop:") st))
  = isRunning st.
Proof. unfold tryCatchE, liftE. destruct outcome; reflexivity. Qed.

Lemma loopBody_eq pass st :
  loopBody pass st
  = tryCatchE (liftE (pass_outcome pass))
      (fun error => elog LError "Error in main loop:")
      (if pass_stop pass then snd (stop (countPass st)) else countPass st).
Proof.
  unfold loopBody. rewrite bindE_eq. unfold beginPass. cbv iota beta. rewrite bindE_eq.
  destruct (pass_stop pass); [|reflexivity].
  destruct (stop (countPass st)) as [[[]|e] st1] eqn:E; [reflexivity|].
  exfalso. revert E.
  unfold stop, setRunning, elog, onCalculator, log, clearCleanupInterval.
  cbv [mbind E_bind]. cbn [fst snd]. discriminate.
Qed.

Lemma loopBody_running pass st :
  isRunning (snd (loopBody pass st)) = (if pass_stop pass then false else isRunning st).
Proof.
  rewrite loopBody_eq, catch_running.
  destruct (pass_stop pass); [apply stop_running | reflexivity].
Qed.






(* ===================================================================== *)
(** ** The chain configuration resolver *)
(* ===================================================================== *)

Lemma bindR_eq {A B} (m : ChainConfigService.Run A) (k : A -> ChainConfigService.Run B) st :
  (m ≫= k) st
  = match m st with
    | (Normal a, st') => k a st'
    | (Throw e, st') => (Throw e, st')
    end.
Proof. reflexivity. Qed.

(** A run that returns, written as an equation on the whole outcome. *)
Lemma runR_eq {A} (m : ChainConfigService.Run A) st a :
  fst (m st) = Normal a -> m st = (Normal a, snd (m st)).
Proof. destruct (m st) as [c st']. cbn. now intros ->. Qed.

Lemma required_eq processEnv name st :
  exists st',
    ChainConfigService.required processEnv name st
    = (ChainConfigService.requiredValue processEnv name, st')
    /\ ChainConfigService.chainConfigs st' = ChainConfigService.chainConfigs st.
Proof.
  unfold ChainConfigService.required, ChainConfigService.requiredValue.
  destruct (processEnv !! name) as [[|c s]|]; eexists; split; reflexivity.
Qed.

(** [loadConfig] returns what the environment holds for the chain, and
    remembers it when it is complete. *)
Lemma loadConfig_eq processEnv chainId st :
  exists st',
    ChainConfigService.loadConfig processEnv chainId st
    = (ChainConfigService.fromEnvironment processEnv chainId, st')
    /\ ChainConfigService.chainConfigs st'
       = match ChainConfigService.fromEnvironment processEnv chainId with
         | Normal config => <[chainId := config]> (ChainConfigService.chainConfigs st)
         | Throw _ => ChainConfigService.chainConfigs st
         end.
Proof.
  unfold ChainConfigService.loadConfig, ChainConfigService.fromEnvironment. cbv zeta.
  rewrite bindR_eq. unfold ChainConfigService.log at 1. cbv iota beta.
  rewrite bindR_eq. unfold ChainConfigService.log at 1. cbv iota beta.
  rewrite bindR_eq.
  match goal with |- context [ChainConfigService.required _ ?n ?s] =>
    destruct (required_eq processEnv n s) as (st1 & -> & H1) end.
  destruct (ChainConfigService.requiredValue processEnv _) as [rpcUrl|e];
    cbn [mbind Completion_bind cbind]; [|eauto].
  rewrite bindR_eq.
  match goal with |- context [ChainConfigService.required _ ?n ?s] =>
    destruct (required_eq processEnv n s) as (st2 & -> & H2) end.
  destruct (ChainConfigService.requiredValue processEnv _) as [swapper|e];
    cbn [mbind Completion_bind cbind]; [|rewrite H1 in H2; eauto].
  rewrite bindR_eq.
  match goal with |- context [ChainConfigService.required _ ?n ?s] =>
    destruct (required_eq processEnv n s) as (st3 & -> & H3) end.
  destruct (ChainConfigService.requiredValue processEnv _) as [auto|e];
    cbn [mbind Completion_bind cbind]; [|rewrite H2, H1 in H3; eauto].
  eexists. split; [reflexivity|].
  cbn [ChainConfigService.chainConfigs]. now rewrite H3, H2, H1.
Qed.

(** The answer of [getConfig] depends on the state only through what is
    remembered for the chain. *)
Lemma getConfig_eq processEnv chainId st :
  exists st',
    ChainConfigService.getConfig processEnv chainId st
    = (match ChainConfigService.chainConfigs st !! chainId with
       | Some config => Normal config
       | None => ChainConfigService.fromEnvironment processEnv chainId
       end, st')
    /\ ChainConfigService.chainConfigs st'
       = match ChainConfigService.chainConfigs st !! chainId,
               ChainConfigService.fromEnvironment processEnv chainId with
         | None, Normal config => <[chainId := config]> (ChainConfigService.chainConfigs st)
         | _, _ => ChainConfigService.chainConfigs st
         end.
Proof.
  unfold ChainConfigService.getConfig.
  destruct (ChainConfigService.chainConfigs st !! chainId) as [config|]; [eauto|].
  apply loadConfig_eq.
Qed.

Lemma getConfig_afterLookup processEnv chainId st :
  exists st',
    ChainConfigService.getConfig processEnv chainId st
    = (match ChainConfigService.chainConfigs st !! chainId with
       | Some config => Normal config
       | None => ChainConfigService.fromEnvironment processEnv chainId
       end, st')
    /\ ChainConfigService.chainConfigs st'
       = ChainConfigService.afterLookup processEnv chainId
           (ChainConfigService.chainConfigs st).
Proof. exact (getConfig_eq processEnv chainId st). Qed.

(** Each lookup answers [answerOf] and leaves the map [afterLookup]. *)
Lemma call_eq getter processEnv chainId st :
  exists st',
    ChainConfigService.call getter processEnv chainId st
    = (ChainConfigService.answerOf getter processEnv chainId
         (ChainConfigService.chainConfigs st), st')
    /\ ChainConfigService.chainConfigs st'
       = ChainConfigService.afterLookup processEnv chainId
           (ChainConfigService.chainConfigs st).
Proof.
  destruct (getConfig_afterLookup processEnv chainId st) as (st1 & H & Hm).
  unfold ChainConfigService.answerOf.
  destruct getter; cbn [ChainConfigService.call];
    unfold ChainConfigService.getRpcUrl, ChainConfigService.getSwapRouterSwapper,
      ChainConfigService.getAutoExercise, ChainConfigService.tryCatch;
    rewrite bindR_eq, H;
    destruct (match ChainConfigService.chainConfigs st !! chainId with
              | Some config => Normal config
              | None => ChainConfigService.fromEnvironment processEnv chainId
              end) as [config|error]; try (eexists; split; [reflexivity | exact Hm]).
  destruct (processEnv !! "FALLBACK_RPC_URL") as [[|c s]|];
    eexists; (split; [reflexivity | exact Hm]).
Qed.

Lemma requiredValue_nonempty processEnv name value :
  ChainConfigService.requiredValue processEnv name = Normal value -> value <> EmptyString.
Proof.
  unfold ChainConfigService.requiredValue.
  destruct (processEnv !! name) as [[|c s]|]; intros H; try discriminate H.
  injection H as <-. discriminate.
Qed.

Lemma fromEnvironment_complete processEnv chainId config :
  ChainConfigService.fromEnvironment processEnv chainId = Normal config ->
  ChainConfigService.complete config = true.
Proof.
  unfold ChainConfigService.fromEnvironment. cbv zeta.
  destruct (ChainConfigService.requiredValue processEnv
              ("RPC_URL_" +:+ JS.BigInt_toString chainId)) as [r|e] eqn:E1;
    cbn [mbind Completion_bind cbind]; [|discriminate].
  destruct (ChainConfigService.requiredValue processEnv
              ("SWAP_ROUTER_SWAPPER_" +:+ JS.BigInt_toString chainId)) as [s|e] eqn:E2;
    cbn [mbind Completion_bind cbind]; [|discriminate].
  destruct (ChainConfigService.requiredValue processEnv
              ("AUTO_EXERCISE_" +:+ JS.BigInt_toString chainId)) as [a|e] eqn:E3;
    cbn [mbind Completion_bind cbind]; [|discriminate].
  intros H. injection H as <-.
  apply requiredValue_nonempty in E1, E2, E3.
  unfold ChainConfigService.complete.
  cbn [ChainConfig.rpcUrl ChainConfig.swapRouterSwapper ChainConfig.autoExercise].
  apply String.eqb_neq in E1, E2, E3. now rewrite E1, E2, E3.
Qed.

Lemma complete_fields config :
  ChainConfigService.complete config = true ->
  ChainConfig.rpcUrl config <> EmptyString
  /\ ChainConfig.swapRouterSwapper config <> EmptyString
  /\ ChainConfig.autoExercise config <> EmptyString.
Proof.
  unfold ChainConfigService.complete. rewrite !andb_true_iff, !negb_true_iff.
  intros [[H1 H2] H3]. now rewrite !String.eqb_neq in *.
Qed.

Lemma afterLookup_wellFormed processEnv chainId remembered :
  map_Forall (fun _ config => ChainConfigService.complete config = true) remembered ->
  map_Forall (fun _ config => ChainConfigService.complete config = true)
    (ChainConfigService.afterLookup processEnv chainId remembered).
Proof.
  intros H. unfold ChainConfigService.afterLookup.
  destruct (remembered !! chainId) as [config|] eqn:E; [exact H|].
  destruct (ChainConfigService.fromEnvironment processEnv chainId) as [config|e] eqn:F;
    [|exact H].
  apply map_Forall_insert_2; [exact (fromEnvironment_complete _ _ _ F) | exact H].
Qed.

(** X1.  The resolver never answers with an empty string: each of the three
    lookups returns a non-empty value or throws, from every state in which
    the remembered configurations are complete (the state the constructor
    leaves is one), and keeps them complete. *)
Theorem resolver_answers_nonempty getter processEnv chainId st out st' :
  ChainConfigService.wellFormed st ->
  ChainConfigService.call getter processEnv chainId st = (out, st') ->
  ChainConfigService.wellFormed st'
  /\ forall value, out = Normal value -> value <> EmptyString.
Proof.
  unfold ChainConfigService.wellFormed. intros Hwf H.
  destruct (call_eq getter processEnv chainId st) as (st1 & E & Hm).
  rewrite E in H. injection H as <- <-. split.
  - rewrite Hm. now apply afterLookup_wellFormed.
  - intros value. unfold ChainConfigService.answerOf.
    destruct (ChainConfigService.chainConfigs st !! chainId) as [config|] eqn:Hc.
    + apply Hwf, complete_fields in Hc as (H1 & H2 & H3).
      destruct getter; intros H; injection H as <-; assumption.
    + destruct (ChainConfigService.fromEnvironment processEnv chainId) as [config|e] eqn:F.
      * apply fromEnvironment_complete, complete_fields in F as (H1 & H2 & H3).
        destruct getter; intros H; injection H as <-; assumption.
      * destruct getter; try discriminate.
        destruct (processEnv !! "FALLBACK_RPC_URL") as [[|c s]|]; try discriminate.
        intros H. injection H as <-. discriminate.
Qed.

Lemma resolver_answers_nonempty_witness :
  fst (ChainConfigService.call ChainConfigService.SwapRouterSwapper fullEnvironment 8453
         ChainConfigService.initial)
  <> Normal EmptyString.
Proof.
  intros H.
  destruct (ChainConfigService.call ChainConfigService.SwapRouterSwapper fullEnvironment 8453
              ChainConfigService.initial) as [out st'] eqn:E.
  cbn [fst] in H. subst out.
  assert (Hwf : ChainConfigService.wellFormed ChainConfigService.initial)
    by apply map_Forall_empty.
  destruct (resolver_answers_nonempty _ _ _ _ _ _ Hwf E) as [_ Hne].
  exact (Hne EmptyString eq_refl eq_refl).
Defined.

Lemma getConfig_remembered processEnv chainId st config :
  ChainConfigService.chainConfigs st !! chainId = Some config ->
  ChainConfigService.getConfig processEnv chainId st = (Normal config, st).
Proof. intros H. unfold ChainConfigService.getConfig. now rewrite H. Qed.

(** X2.  Once [getConfig] has returned a configuration for a chain, the resolver
    keeps answering from it: [getConfig] and the three lookups return that
    configuration and its fields without reading the environment again,
    whatever the environment has become, and without changing the state. *)
Theorem resolver_memoizes processEnv chainId st config st' :
  ChainConfigService.getConfig processEnv chainId st = (Normal config, st') ->
  forall processEnv',
    ChainConfigService.getConfig processEnv' chainId st' = (Normal config, st')
    /\ ChainConfigService.getRpcUrl processEnv' chainId st'
       = (Normal (ChainConfig.rpcUrl config), st')
    /\ ChainConfigService.getSwapRouterSwapper processEnv' chainId st'
       = (Normal (ChainConfig.swapRouterSwapper config), st')
    /\ ChainConfigService.getAutoExercise processEnv' chainId st'
       = (Normal (ChainConfig.autoExercise config), st').
Proof.
  intros H processEnv'.
  assert (Hc : ChainConfigService.chainConfigs st' !! chainId = Some config).
  { destruct (getConfig_eq processEnv chainId st) as (st1 & E & Hm).
    rewrite E in H. injection H as H <-. rewrite Hm.
    destruct (ChainConfigService.chainConfigs st !! chainId) as [c|] eqn:Hs.
    - injection H as <-. exact Hs.
    - rewrite H. apply lookup_insert_eq. }
  pose proof (getConfig_remembered processEnv' chainId st' config Hc) as G.
  unfold ChainConfigService.getRpcUrl, ChainConfigService.getSwapRouterSwapper,
    ChainConfigService.getAutoExercise, ChainConfigService.tryCatch.
  rewrite !bindR_eq, G. repeat split.
Qed.

Lemma resolver_memoizes_witness :
  ChainConfigService.getSwapRouterSwapper ∅ 8453
    (snd (ChainConfigService.getConfig fullEnvironment 8453 ChainConfigService.initial))
  = (Normal "0x5a99",
     snd (ChainConfigService.getConfig fullEnvironment 8453 ChainConfigService.initial)).
Proof.
  assert (Hrun : ChainConfigService.getConfig fullEnvironment 8453 ChainConfigService.initial
                 = (Normal (ChainConfig.mk "https://base.example" "0x5a99" "0xae01"),
                    snd (ChainConfigService.getConfig fullEnvironment 8453
                           ChainConfigService.initial))).
  { apply runR_eq. vm_compute. reflexivity. }
  exact (proj1 (proj2 (proj2 (resolver_memoizes _ _ _ _ _ Hrun ∅)))).
Defined.

Lemma configured_fromEnvironment processEnv chainId :
  ChainConfigService.configured processEnv chainId = false ->
  exists error, ChainConfigService.fromEnvironment processEnv chainId = Throw error.
Proof.
  unfold ChainConfigService.configured, ChainConfigService.fromEnvironment,
    ChainConfigService.requiredValue, ChainConfigService.isSet. cbv zeta.
  destruct (processEnv !! ("RPC_URL_" +:+ JS.BigInt_toString chainId)) as [[|c1 s1]|];
    cbn [mbind Completion_bind cbind andb]; eauto.
  destruct (processEnv !! ("SWAP_ROUTER_SWAPPER_" +:+ JS.BigInt_toString chainId))
    as [[|c2 s2]|]; cbn [mbind Completion_bind cbind andb]; eauto.
  destruct (processEnv !! ("AUTO_EXERCISE_" +:+ JS.BigInt_toString chainId))
    as [[|c3 s3]|]; cbn [mbind Completion_bind cbind andb]; eauto.
  discriminate.
Qed.

(** X3.  A chain that is not remembered and for which one of the three
    variables is unset or empty: the swapper and auto-exercise lookups
    throw the error that names the first of the three variables that is
    missing; [getRpcUrl] returns FALLBACK_RPC_URL when that is set, whether
    or not the chain's own RPC_URL variable is set, and throws the same
    error otherwise.  Nothing is remembered, so the next lookup reads the
    environment again. *)
Theorem unconfigured_chain processEnv chainId st :
  ChainConfigService.chainConfigs st !! chainId = None ->
  ChainConfigService.configured processEnv chainId = false ->
  exists error,
    ChainConfigService.fromEnvironment processEnv chainId = Throw error
    /\ fst (ChainConfigService.getSwapRouterSwapper processEnv chainId st) = Throw error
    /\ fst (ChainConfigService.getAutoExercise processEnv chainId st) = Throw error
    /\ fst (ChainConfigService.getRpcUrl processEnv chainId st)
       = match processEnv !! "FALLBACK_RPC_URL" with
         | Some (String c s) => Normal (String c s)
         | _ => Throw error
         end
    /\ forall getter,
         ChainConfigService.chainConfigs
           (snd (ChainConfigService.call getter processEnv chainId st))
         = ChainConfigService.chainConfigs st.
Proof.
  intros Hnone Hconf.
  destruct (configured_fromEnvironment _ _ Hconf) as [error Herr].
  exists error.
  assert (Hcall : forall getter,
            fst (ChainConfigService.call getter processEnv chainId st)
            = ChainConfigService.answerOf getter processEnv chainId
                (ChainConfigService.chainConfigs st)
            /\ ChainConfigService.chainConfigs
                 (snd (ChainConfigService.call getter processEnv chainId st))
               = ChainConfigService.chainConfigs st).
  { intros getter. destruct (call_eq getter processEnv chainId st) as (st1 & E & Hm).
    rewrite E. cbn [fst snd]. split; [reflexivity|].
    rewrite Hm. unfold ChainConfigService.afterLookup. now rewrite Hnone, Herr. }
  split; [exact Herr|]. split; [|split; [|split]].
  - destruct (Hcall ChainConfigService.SwapRouterSwapper) as [H _].
    cbn [ChainConfigService.call] in H. rewrite H.
    unfold ChainConfigService.answerOf. now rewrite Hnone, Herr.
  - destruct (Hcall ChainConfigService.AutoExercise) as [H _].
    cbn [ChainConfigService.call] in H. rewrite H.
    unfold ChainConfigService.answerOf. now rewrite Hnone, Herr.
  - destruct (Hcall ChainConfigService.RpcUrl) as [H _].
    cbn [ChainConfigService.call] in H. rewrite H.
    unfold ChainConfigService.answerOf. now rewrite Hnone, Herr.
  - intros getter. exact (proj2 (Hcall getter)).
Qed.

Lemma unconfigured_chain_witness :
  fst (ChainConfigService.getRpcUrl partialEnvironment 8453 ChainConfigService.initial)
  = Normal "https://fallback.example".
Proof.
  destruct (unconfigured_chain partialEnvironment 8453 ChainConfigService.initial)
    as (error & _ & _ & _ & H & _).
  - reflexivity.
  - vm_compute. reflexivity.
  - rewrite H. vm_compute. reflexivity.
Defined.

Lemma answerOf_afterLookup getter processEnv chainId chainId' remembered :
  ChainConfigService.answerOf getter processEnv chainId
    (ChainConfigService.afterLookup processEnv chainId' remembered)
  = ChainConfigService.answerOf getter processEnv chainId remembered.
Proof.
  unfold ChainConfigService.answerOf, ChainConfigService.afterLookup.
  destruct (remembered !! chainId') as [c'|] eqn:E'; [reflexivity|].
  destruct (ChainConfigService.fromEnvironment processEnv chainId') as [config'|e'] eqn:F';
    [|reflexivity].
  destruct (decide (chainId' = chainId)) as [->|Hne].
  - rewrite lookup_insert_eq, E', F'. reflexivity.
  - rewrite lookup_insert_ne by exact Hne. reflexivity.
Qed.

(** X4.  Under a fixed environment the answers of the resolver do not depend on
    the lookups made before: whatever lookup is made first, for the same
    chain or another one, a lookup made after it answers what it would
    have answered in its place. *)
Theorem resolver_answers_stable processEnv getter chainId getter' chainId' st :
  fst (ChainConfigService.call getter processEnv chainId
         (snd (ChainConfigService.call getter' processEnv chainId' st)))
  = fst (ChainConfigService.call getter processEnv chainId st).
Proof.
  destruct (call_eq getter' processEnv chainId' st) as (st1 & E1 & Hm1).
  rewrite E1. cbn [snd].
  destruct (call_eq getter processEnv chainId st1) as (st2 & E2 & _).
  destruct (call_eq getter processEnv chainId st) as (st3 & E3 & _).
  rewrite E2, E3. cbn [fst]. rewrite Hm1. apply answerOf_afterLookup.
Qed.

(* ===================================================================== *)
(** ** The pool and market metadata cache *)
(* ===================================================================== *)

Lemma getPoolMarketInfo_hit env chainId market pool st info :
  poolMarketInfoCache st !! generatePoolMarketCacheKey chainId market pool = Some info ->
  getPoolMarketInfo env chainId market pool st
  = (Normal info,
     addLog LDebug ("Using cached pool/market info for "
                      +:+ generatePoolMarketCacheKey chainId market pool) st).
Proof.
  intros H. unfold getPoolMarketInfo. rewrite bindM_eq. cbn [getState]. rewrite H.
  reflexivity.
Qed.

(** What has happened when the metadata resolution returns on a miss. *)
Lemma getPoolMarketInfo_miss env chainId market pool st info st' :
  poolMarketInfoCache st !! generatePoolMarketCacheKey chainId market pool = None ->
  getPoolMarketInfo env chainId market pool st = (Normal info, st') ->
  exists primePool poolFee callAsset putAsset token0 token1,
    (if String.eqb market pool then primePool = pool
     else readPrimePool env market = Normal primePool)
    /\ multicallPool env market pool
       = Normal {| mc_fee := Success poolFee; mc_callAsset := Success callAsset;
                   mc_putAsset := Success putAsset; mc_token0 := Success token0;
                   mc_token1 := Success token1 |}
    /\ info = PoolMarketInfo.mk poolFee callAsset putAsset token0 token1 (Some primePool)
    /\ poolMarketInfoCache st'
       = <[generatePoolMarketCacheKey chainId market pool := info]> (poolMarketInfoCache st)
    /\ network st'
       = MulticallPool market pool
         :: (if String.eqb market pool then [] else [ReadPrimePool market]) ++ network st.
Proof.
  intros Hmiss. unfold getPoolMarketInfo. rewrite bindM_eq. cbn [getState].
  rewrite Hmiss. rewrite bindM_eq. cbn [log]. rewrite bindM_eq.
  destruct (String.eqb market pool).
  - change (mret (M := M) pool ?s) with (Normal pool, s). cbv iota beta.
    rewrite bindM_eq. unfold rpc at 1.
    destruct (multicallPool env market pool) as [res|e]; [|discriminate].
    destruct res as [[fee|?] [ca|?] [pa|?] [t0|?] [t1|?]]; try discriminate.
    intros H. injection H as <- <-. exists pool, fee, ca, pa, t0, t1. repeat split.
  - unfold rpc at 1. destruct (readPrimePool env market) as [primePool|e]; [|discriminate].
    rewrite bindM_eq. unfold rpc at 1.
    destruct (multicallPool env market pool) as [res|e]; [|discriminate].
    destruct res as [[fee|?] [ca|?] [pa|?] [t0|?] [t1|?]]; try discriminate.
    intros H. injection H as <- <-. exists primePool, fee, ca, pa, t0, t1. repeat split.
Qed.

(** X5.  The metadata of a (chain, market, pool) triple is fetched once.  A
    resolution that returns has made no round trip (the record was cached)
    or the five-read batch, preceded by the read of the prime pool only
    when market and pool are different addresses; afterwards the record is
    in the cache under the triple's key.  From any state whose cache holds
    a record under that key, the resolution returns that record, whatever
    the chain would answer now, without a round trip and without touching
    either cache. *)
Theorem pool_info_memoized env chainId market pool st info st' :
  getPoolMarketInfo env chainId market pool st = (Normal info, st') ->
  poolMarketInfoCache st' !! generatePoolMarketCacheKey chainId market pool = Some info
  /\ (network st' = network st
      \/ network st'
         = MulticallPool market pool
           :: (if String.eqb market pool then [] else [ReadPrimePool market]) ++ network st)
  /\ forall env2 st2,
       poolMarketInfoCache st2 !! generatePoolMarketCacheKey chainId market pool = Some info ->
       exists st3,
         getPoolMarketInfo env2 chainId market pool st2 = (Normal info, st3)
         /\ network st3 = network st2
         /\ poolMarketInfoCache st3 = poolMarketInfoCache st2
         /\ profitabilityCache st3 = profitabilityCache st2.
Proof.
  intros H.
  assert (Hlater : forall env2 st2,
            poolMarketInfoCache st2 !! generatePoolMarketCacheKey chainId market pool
            = Some info ->
            exists st3,
              getPoolMarketInfo env2 chainId market pool st2 = (Normal info, st3)
              /\ network st3 = network st2
              /\ poolMarketInfoCache st3 = poolMarketInfoCache st2
              /\ profitabilityCache st3 = profitabilityCache st2).
  { intros env2 st2 H2. rewrite (getPoolMarketInfo_hit _ _ _ _ _ _ H2).
    eexists. repeat split. }
  destruct (poolMarketInfoCache st !! generatePoolMarketCacheKey chainId market pool)
    as [cached|] eqn:E.
  - rewrite (getPoolMarketInfo_hit _ _ _ _ _ _ E) in H. injection H as <- <-.
    split; [exact E|]. split; [left; reflexivity | exact Hlater].
  - destruct (getPoolMarketInfo_miss _ _ _ _ _ _ _ E H)
      as (primePool & fee & ca & pa & t0 & t1 & _ & _ & _ & Hc & Hn).
    split; [rewrite Hc; apply lookup_insert_eq|].
    split; [right; exact Hn | exact Hlater].
Qed.

Lemma pool_info_memoized_witness :
  exists st3,
    getPoolMarketInfo metadataFailureWorld 8453 "0x3a47" "0x3a47" afterFirstCall
    = (Normal (PoolMarketInfo.mk 3000 "0xCa11" "0xFee7" "0xCa11" "0xFee7" (Some "0x3a47")),
       st3)
    /\ network st3 = network afterFirstCall.
Proof.
  assert (Hrun : getPoolMarketInfo profitableWorld 8453 "0x3a47" "0x3a47" emptyState
                 = (Normal (PoolMarketInfo.mk 3000 "0xCa11" "0xFee7" "0xCa11" "0xFee7"
                              (Some "0x3a47")),
                    snd (getPoolMarketInfo profitableWorld 8453 "0x3a47" "0x3a47"
                           emptyState)))
    by (apply run_eq; vm_compute; reflexivity).
  destruct (pool_info_memoized _ _ _ _ _ _ _ Hrun) as (_ & _ & Hlater).
  destruct (Hlater metadataFailureWorld afterFirstCall) as (st3 & H3 & Hn & _).
  - vm_compute. reflexivity.
  - exists st3. split; assumption.
Defined.

Lemma retains_keeps {A} key info (m : M A) :
  keeps poolMarketInfoCache m -> retains key info m.
Proof. intros Hk st H. now rewrite Hk. Qed.

Lemma retains_bind {A B} key info (m : M A) (k : A -> M B) :
  retains key info m -> (forall a, retains key info (k a)) -> retains key info (m ≫= k).
Proof.
  intros Hm Hk st H. rewrite bindM_eq. specialize (Hm st H).
  destruct (m st) as [[a|e] st1]; cbn [snd] in *; [|exact Hm].
  now apply Hk.
Qed.

Lemma retains_getPoolMarketInfo key info env chainId market pool :
  retains key info (getPoolMarketInfo env chainId market pool).
Proof.
  intros st H.
  destruct (poolMarketInfoCache st !! generatePoolMarketCacheKey chainId market pool)
    as [cached|] eqn:E.
  - rewrite (getPoolMarketInfo_hit _ _ _ _ _ _ E). exact H.
  - destruct (getPoolMarketInfo env chainId market pool st) as [[i|e] st'] eqn:G.
    + destruct (getPoolMarketInfo_miss _ _ _ _ _ _ _ E G)
        as (? & ? & ? & ? & ? & ? & _ & _ & _ & Hc & _).
      cbn [snd]. rewrite Hc. rewrite lookup_insert_ne; [exact H|].
      intros Heq. rewrite Heq, H in E. discriminate E.
    + cbn [snd]. revert G. unfold getPoolMarketInfo. rewrite bindM_eq. cbn [getState].
      rewrite E, bindM_eq. cbn [log]. rewrite bindM_eq.
      destruct (String.eqb market pool).
      * change (mret (M := M) pool ?s) with (Normal pool, s). cbv iota beta.
        rewrite bindM_eq. unfold rpc at 1.
        destruct (multicallPool env market pool) as [res|e0].
        -- destruct res as [[fee|?] [ca|?] [pa|?] [t0|?] [t1|?]];
             intros G; try discriminate G; injection G as _ <-; exact H.
        -- intros G. injection G as _ <-. exact H.
      * unfold rpc at 1. destruct (readPrimePool env market) as [primePool|e0].
        -- rewrite bindM_eq. unfold rpc at 1.
           destruct (multicallPool env market pool) as [res|e1].
           ++ destruct res as [[fee|?] [ca|?] [pa|?] [t0|?] [t1|?]];
                intros G; try discriminate G; injection G as _ <-; exact H.
           ++ intros G. injection G as _ <-. exact H.
        -- intros G. injection G as _ <-. exact H.
Qed.

Lemma keeps_meta_processLoop data quoteResults :
  forall quoteIndex totalProfit details,
    keeps poolMarketInfoCache (processLoop data quoteResults quoteIndex totalProfit details).
Proof.
  induction data as [|od data IH]; intros k tp ds; cbn [processLoop].
  - keeps_auto.
  - destruct (iod_skipQuote od); [apply IH|].
    destruct (quoteResults !! k) as [[q|err]|]; keeps_auto; apply IH.
Qed.

Lemma keeps_meta_prepareExercise env request cacheKey poolFee totalProfit details :
  keeps poolMarketInfoCache (prepareExercise env request cacheKey poolFee totalProfit details).
Proof. unfold prepareExercise. keeps_auto. Qed.

Lemma retains_evaluate key info env request cacheKey :
  retains key info (evaluate env request cacheKey).
Proof.
  unfold evaluate.
  apply retains_bind;
    [apply retains_keeps, keeps_meta_createPublicClientForChain | intros publicClient].
  apply retains_bind; [apply retains_getPoolMarketInfo | intros poolInfo].
  apply retains_keeps.
  keeps_auto; (apply keeps_meta_processLoop || apply keeps_meta_prepareExercise).
Qed.

Lemma retains_tryEvaluate key info env request cacheKey :
  retains key info (tryEvaluate env request cacheKey).
Proof.
  intros st H. unfold tryEvaluate, tryCatch.
  pose proof (retains_evaluate key info env request cacheKey st H) as R.
  destruct (evaluate env request cacheKey st) as [[a|e] st1]; cbn [snd] in *; [exact R|].
  rewrite bindM_eq. cbn [log]. exact R.
Qed.

(** X6.  A metadata record is never refreshed and never evicted: whatever the
    cache holds under a key, it still holds under that key after a call of
    [calculateOptionProfitability], however the call ends; and
    [cleanupCache] leaves the metadata cache as it is. *)
Theorem pool_info_never_refreshed env request key info st :
  poolMarketInfoCache st !! key = Some info ->
  poolMarketInfoCache (snd (calculateOptionProfitability env request st)) !! key = Some info
  /\ poolMarketInfoCache (snd (cleanupCache env st)) = poolMarketInfoCache st.
Proof.
  intros H. split.
  - assert (R : poolMarketInfoCache (snd (calculateTraced env request st)) !! key
                = Some info).
    { rewrite calculateTraced_eq. cbv zeta.
      destruct (profitabilityCache st !! generateProfitabilityCacheKey request) as [c|].
      - destruct (_ <? CACHE_TTL_MS); [exact H|].
        apply retains_tryEvaluate. exact H.
      - apply retains_tryEvaluate. exact H. }
    destruct (calculateTraced_total env request st) as (p & r & st1 & E).
    rewrite (calculateOptionProfitability_eq _ _ _ _ _ _ E). now rewrite E in R.
  - assert (K : keeps poolMarketInfoCache (cleanupCache env))
      by (unfold cleanupCache; keeps_auto).
    apply K.
Qed.

Lemma pool_info_never_refreshed_witness :
  poolMarketInfoCache
    (snd (calculateOptionProfitability metadataFailureWorld (sampleRequest [liveRange])
            afterFirstCall))
  !! generatePoolMarketCacheKey 8453 "0x3a47" "0x3a47"
  = Some (PoolMarketInfo.mk 3000 "0xCa11" "0xFee7" "0xCa11" "0xFee7" (Some "0x3a47")).
Proof.
  apply (pool_info_never_refreshed metadataFailureWorld (sampleRequest [liveRange])).
  vm_compute. reflexivity.
Defined.

(* ===================================================================== *)
(** ** Round trips *)
(* ===================================================================== *)

Lemma issues_keeps {A} (m : M A) n : keeps network m -> issuesAtMost n m.
Proof. intros Hk st. exists []. rewrite Hk. split; [reflexivity | cbn; lia]. Qed.

Lemma issues_bind {A B} n k N (m : M A) (f : A -> M B) :
  issuesAtMost n m -> (forall a, issuesAtMost k (f a)) -> (n + k <= N)%nat ->
  issuesAtMost N (m ≫= f).
Proof.
  intros Hm Hf Hle st. rewrite bindM_eq. destruct (Hm st) as (calls & Hn & Hl).
  destruct (m st) as [[a|e] st1]; cbn [snd] in *.
  - destruct (Hf a st1) as (calls' & Hn' & Hl'). exists (calls' ++ calls).
    rewrite Hn', Hn, app_assoc. split; [reflexivity|]. rewrite length_app. lia.
  - exists calls. split; [exact Hn | lia].
Qed.

Lemma issues_rpc {A} call (answer : Completion A) : issuesAtMost 1 (rpc call answer).
Proof. intros st. exists [call]. split; [reflexivity | cbn; lia]. Qed.

Lemma keeps_network_processLoop data quoteResults :
  forall quoteIndex totalProfit details,
    keeps network (processLoop data quoteResults quoteIndex totalProfit details).
Proof.
  induction data as [|od data IH]; intros k tp ds; cbn [processLoop].
  - keeps_auto.
  - destruct (iod_skipQuote od); [apply IH|].
    destruct (quoteResults !! k) as [[q|err]|]; keeps_auto; apply IH.
Qed.

Lemma keeps_network_prepareExercise env request cacheKey poolFee totalProfit details :
  keeps network (prepareExercise env request cacheKey poolFee totalProfit details).
Proof. unfold prepareExercise. keeps_auto. Qed.

Lemma keeps_network_createPublicClientForChain env chainId :
  keeps network (createPublicClientForChain env chainId).
Proof. apply keeps_createPublicClientForChain; frame. Qed.

(** A step that makes no round trip, then the rest. *)
Ltac issues_quiet :=
  eapply (issues_bind 0); [apply issues_keeps; frame | intros ? | apply Nat.le_refl].

(** The metadata resolution makes at most two round trips, at most one
    when market and pool are the same address. *)
Lemma issues_getPoolMarketInfo env chainId market pool :
  issuesAtMost (if String.eqb market pool then 1 else 2)
    (getPoolMarketInfo env chainId market pool).
Proof.
  unfold getPoolMarketInfo.
  eapply (issues_bind 0); [apply issues_keeps; frame | intros st0 | apply Nat.le_refl].
  destruct (poolMarketInfoCache st0 !! _) as [cached|].
  { apply issues_keeps. keeps_auto. }
  eapply (issues_bind 0); [apply issues_keeps; frame | intros _ | apply Nat.le_refl].
  destruct (String.eqb market pool).
  - eapply (issues_bind 0); [apply issues_keeps; frame | intros primePool | apply Nat.le_refl].
    eapply (issues_bind 1 0); [apply issues_rpc | intros res | lia].
    apply issues_keeps. keeps_auto.
  - eapply (issues_bind 1 1); [apply issues_rpc | intros primePool | lia].
    eapply (issues_bind 1 0); [apply issues_rpc | intros res | lia].
    apply issues_keeps. keeps_auto.
Qed.

(** From the end of the metadata resolution to the end of the [try] block:
    at most the quote batch. *)
Lemma issues_after_metadata env request cacheKey (poolMarketInfo : PoolMarketInfo.t) :
  issuesAtMost 1
    (_ ← Date_now env;
     _ ← log LInfo ("Time after getting pool info " +:+ GetRatesRequest.tokenId request);
     let poolFee := PoolMarketInfo.poolFee poolMarketInfo in
     let callAsset := PoolMarketInfo.callAsset poolMarketInfo in
     let putAsset := PoolMarketInfo.putAsset poolMarketInfo in
     let token0 := PoolMarketInfo.token0 poolMarketInfo in
     let isCall := GetRatesRequest.isCall request in
     let isAmount0 :=
       if isCall then String.eqb token0 callAsset else String.eqb token0 putAsset in
     let assetToUse := if isCall then callAsset else putAsset in
     let assetToGet := if isCall then putAsset else callAsset in
     quoterAddress ← liftC (getQuoterAddress env (GetRatesRequest.chainId request));
     '(quoteRequests, internalOptionsData) ←
       liftC (scanLoop quoterAddress assetToUse assetToGet poolFee isAmount0 0
                (GetRatesRequest.internalOptions request) [] []);
     _ ← Date_now env;
     _ ← log LInfo ("Time before multi call 2 " +:+ GetRatesRequest.tokenId request);
     quoteResults ← (match quoteRequests with
                     | [] => mret []
                     | _ => rpc (MulticallQuotes quoteRequests)
                              (multicallQuotes env quoteRequests)
                     end);
     _ ← Date_now env;
     _ ← log LInfo ("Time after multi call 2 " +:+ GetRatesRequest.tokenId request);
     '(totalProfit, profitabilityDetails) ←
       processLoop internalOptionsData quoteResults 0 0 [];
     prepareExercise env request cacheKey poolFee totalProfit profitabilityDetails).
Proof.
  cbv zeta.
  issues_quiet. issues_quiet. issues_quiet. issues_quiet.
  match goal with |- issuesAtMost _ (let '(_, _) := ?x in _) => destruct x as [reqs data] end.
  issues_quiet. issues_quiet.
  eapply (issues_bind 1 0);
    [destruct reqs; [apply issues_keeps; frame | apply issues_rpc] | intros quoteResults | lia].
  issues_quiet. issues_quiet.
  eapply (issues_bind 0 0);
    [apply issues_keeps, keeps_network_processLoop | intros [tp ds] | lia].
  apply issues_keeps, keeps_network_prepareExercise.
Qed.

Lemma issues_evaluate env request cacheKey :
  issuesAtMost
    (if String.eqb (GetRatesRequest.market request) (GetRatesRequest.pool request)
     then 2 else 3)
    (evaluate env request cacheKey).
Proof.
  unfold evaluate.
  eapply (issues_bind 0);
    [apply issues_keeps, keeps_network_createPublicClientForChain | intros publicClient
    | apply Nat.le_refl].
  eapply issues_bind;
    [apply issues_getPoolMarketInfo | intros info; apply issues_after_metadata|].
  destruct (String.eqb _ _); lia.
Qed.

(** With the metadata in the cache, the [try] block makes at most one
    round trip. *)
Lemma issues_evaluate_cached env request cacheKey st info :
  poolMarketInfoCache st
    !! generatePoolMarketCacheKey (GetRatesRequest.chainId request)
         (GetRatesRequest.market request) (GetRatesRequest.pool request) = Some info ->
  exists calls,
    network (snd (evaluate env request cacheKey st)) = calls ++ network st
    /\ (length calls <= 1)%nat.
Proof.
  intros H. unfold evaluate. rewrite bindM_eq.
  pose proof (keeps_network_createPublicClientForChain env (GetRatesRequest.chainId request) st)
    as Hn.
  pose proof (keeps_meta_createPublicClientForChain env (GetRatesRequest.chainId request) st)
    as Hm.
  destruct (createPublicClientForChain env (GetRatesRequest.chainId request) st)
    as [[client|e] st1]; cbn [snd] in *.
  - rewrite <- Hm in H. rewrite bindM_eq, (getPoolMarketInfo_hit _ _ _ _ _ _ H).
    destruct (issues_after_metadata env request cacheKey info
                (addLog LDebug ("Using cached pool/market info for "
                    +:+ generatePoolMarketCacheKey (GetRatesRequest.chainId request)
                          (GetRatesRequest.market request) (GetRatesRequest.pool request))
                   st1)) as (calls & Hc & Hl).
    exists calls. rewrite <- Hn. split; [exact Hc | exact Hl].
  - exists []. split; [exact Hn | cbn; lia].
Qed.

Lemma tryEvaluate_network env request cacheKey st :
  network (snd (tryEvaluate env request cacheKey st))
  = network (snd (evaluate env request cacheKey st)).
Proof.
  unfold tryEvaluate, tryCatch.
  destruct (evaluate env request cacheKey st) as [[a|e] st1]; [reflexivity|].
  rewrite bindM_eq. reflexivity.
Qed.

(** X7.  A call of [calculateOptionProfitability] makes at most three round
    trips (the prime pool, the metadata batch, the quote batch), however
    it ends; at most two when market and pool are the same address, and at
    most one when the metadata of the triple is in the cache. *)
Theorem calculate_round_trips env request st :
  exists calls,
    network (snd (calculateOptionProfitability env request st)) = calls ++ network st
    /\ (length calls <= 3)%nat
    /\ (GetRatesRequest.market request = GetRatesRequest.pool request ->
        (length calls <= 2)%nat)
    /\ (is_Some (poolMarketInfoCache st
                   !! generatePoolMarketCacheKey (GetRatesRequest.chainId request)
                        (GetRatesRequest.market request) (GetRatesRequest.pool request)) ->
        (length calls <= 1)%nat).
Proof.
  destruct (calculateTraced_total env request st) as (p & r & st' & E).
  rewrite (calculateOptionProfitability_eq _ _ _ _ _ _ E).
  assert (Hn : network st' = network (snd (calculateTraced env request st)))
    by now rewrite E.
  cbn [snd]. rewrite Hn. clear E Hn p r st'.
  rewrite calculateTraced_eq. cbv zeta.
  assert (Htry : forall st0,
            network st0 = network st ->
            poolMarketInfoCache st0 = poolMarketInfoCache st ->
            exists calls,
              network (snd (tryEvaluate env request
                              (generateProfitabilityCacheKey request) st0))
              = calls ++ network st
              /\ (length calls <= 3)%nat
              /\ (GetRatesRequest.market request = GetRatesRequest.pool request ->
                  (length calls <= 2)%nat)
              /\ (is_Some (poolMarketInfoCache st
                             !! generatePoolMarketCacheKey (GetRatesRequest.chainId request)
                                  (GetRatesRequest.market request)
                                  (GetRatesRequest.pool request)) ->
                  (length calls <= 1)%nat)).
  { intros st0 Hnet Hmeta. rewrite tryEvaluate_network.
    destruct (issues_evaluate env request (generateProfitabilityCacheKey request) st0)
      as (calls & Hc & Hl).
    exists calls. rewrite <- Hnet. split; [exact Hc|].
    split; [destruct (String.eqb _ _); lia|]. split.
    - intros Heq. rewrite Heq, String.eqb_refl in Hl. exact Hl.
    - intros [info Hinfo]. rewrite <- Hmeta in Hinfo.
      destruct (issues_evaluate_cached env request (generateProfitabilityCacheKey request)
                  st0 info Hinfo) as (calls' & Hc' & Hl').
      rewrite Hc in Hc'. apply app_inv_tail in Hc'. now subst calls'. }
  destruct (profitabilityCache st !! generateProfitabilityCacheKey request) as [c|].
  - destruct (_ <? CACHE_TTL_MS).
    + exists []. cbn. repeat split; lia.
    + apply Htry; reflexivity.
  - apply Htry; reflexivity.
Qed.

(* ===================================================================== *)
(** ** The shape of a response *)
(* ===================================================================== *)

(** The response of the last [return] of the [try] block. *)
Lemma prepareExercise_computed env request cacheKey poolFee totalProfit details st r st' :
  prepareExercise env request cacheKey poolFee totalProfit details st
  = (Normal (Computed, r), st') ->
  exists swapper swapData,
    getSwapRouterSwapper env (GetRatesRequest.chainId request) = Normal swapper
    /\ swapper <> EmptyString
    /\ mapC (fun _ => encodePacked env poolFee) (GetRatesRequest.internalOptions request)
       = Normal swapData
    /\ r = GetRatesResponse.mk (GetRatesRequest.tokenId request)
             (JS.BigInt_toString totalProfit) (0 <? totalProfit) details
             (Some (ExerciseParams.mk (GetRatesRequest.tokenId request)
                      (repeat swapper (length (GetRatesRequest.internalOptions request)))
                      swapData (exercisable details))).
Proof.
  unfold prepareExercise. rewrite bindM_eq. cbn [log].
  destruct (mapC _ _) as [swapData|err] eqn:Hdata.
  - rewrite bindM_eq. cbn [liftC].
    destruct (getSwapRouterSwapper env (GetRatesRequest.chainId request)) as [swapper|e];
      [|discriminate].
    destruct (String.eqb swapper EmptyString) eqn:Hs.
    + intros H. injection H as H _ _. discriminate H.
    + intros H. injection H as <- _. exists swapper, swapData.
      apply String.eqb_neq in Hs. repeat split; assumption.
  - intros H. injection H as H _ _. discriminate H.
Qed.

Lemma detailFor_index od quoteResults slot :
  ProfitabilityResult.index (detailFor od quoteResults slot) = iod_index od.
Proof.
  unfold detailFor. destruct (iod_skipQuote od); [reflexivity|].
  destruct (quoteResults !! slot) as [[q|e]|]; reflexivity.
Qed.

(** The details built from the data of the first loop carry the positions
    of their sub-positions. *)
Lemma expectedDetails_index quoterAddress use get poolFee amount0 ios quoteRequests data
    quoteResults j d :
  scanLoop quoterAddress use get poolFee amount0 0 ios [] [] = Normal (quoteRequests, data) ->
  expectedDetails data quoteResults 0 !! j = Some d ->
  ProfitabilityResult.index d = j.
Proof.
  intros Hscan Hd.
  assert (Hlen : (j < length ios)%nat).
  { apply lookup_lt_Some in Hd. rewrite expectedDetails_length in Hd.
    apply scanLoop_normal in Hscan as (pushes & datas & _ & -> & Hl & _). cbn [app] in Hd.
    lia. }
  destruct (lookup_lt_is_Some_2 ios j Hlen) as [io Hio].
  destruct (expectedDetails_at _ _ _ _ _ _ _ _ quoteResults j io Hscan Hio)
    as (pushed & od & Hs & Hdj).
  rewrite Hdj in Hd. injection Hd as <-. rewrite detailFor_index.
  now apply scanInternalOption_normal in Hs as (Hidx & _).
Qed.

Lemma scanLoop_data_length quoterAddress use get poolFee amount0 ios quoteRequests data :
  scanLoop quoterAddress use get poolFee amount0 0 ios [] [] = Normal (quoteRequests, data) ->
  length data = length ios.
Proof.
  intros H. apply scanLoop_normal in H as (pushes & datas & _ & -> & Hl & _). exact Hl.
Qed.

(** X8.  Every response that is not served from the cache echoes the position
    identifier and has one liquidity-to-exercise entry per sub-position.
    The response of the last [return] of the [try] block has, in addition,
    one detail per sub-position, each carrying its position in the list,
    one swap-data entry per sub-position, and as swappers that many copies
    of the configured swapper address, which is not empty.  On the early
    returns the swapper and swap-data arrays are empty; the response of
    the [catch] block has no details either. *)
Theorem response_arrays_aligned env request st p r st' :
  calculateTraced env request st = (Normal (p, r), st') ->
  p <> CacheHit ->
  GetRatesResponse.tokenId r = GetRatesRequest.tokenId request
  /\ exists exerciseParams,
       GetRatesResponse.exerciseParams r = Some exerciseParams
       /\ ExerciseParams.optionId exerciseParams = GetRatesRequest.tokenId request
       /\ length (ExerciseParams.liquidityToExercise exerciseParams)
          = length (GetRatesRequest.internalOptions request)
       /\ match p with
          | Computed =>
              length (GetRatesResponse.details r)
              = length (GetRatesRequest.internalOptions request)
              /\ (forall j detail,
                    GetRatesResponse.details r !! j = Some detail ->
                    ProfitabilityResult.index detail = j)
              /\ length (ExerciseParams.swapData exerciseParams)
                 = length (GetRatesRequest.internalOptions request)
              /\ exists swapper,
                   getSwapRouterSwapper env (GetRatesRequest.chainId request) = Normal swapper
                   /\ swapper <> EmptyString
                   /\ ExerciseParams.swapper exerciseParams
                      = repeat swapper (length (GetRatesRequest.internalOptions request))
          | Caught =>
              GetRatesResponse.details r = []
              /\ ExerciseParams.swapper exerciseParams = []
              /\ ExerciseParams.swapData exerciseParams = []
          | _ =>
              length (GetRatesResponse.details r)
              = length (GetRatesRequest.internalOptions request)
              /\ ExerciseParams.swapper exerciseParams = []
              /\ ExerciseParams.swapData exerciseParams = []
          end.
Proof.
  intros H Hhit.
  apply calculateTraced_inv in H as [(-> & _) | (_ & st0 & _ & H)]; [congruence|].
  apply tryEvaluate_inv in H as [(-> & -> & _) | (Hcaught & H)].
  { split; [reflexivity|]. eexists. split; [reflexivity|].
    split; [reflexivity|]. split; [apply repeat_length|]. repeat split. }
  apply evaluate_normal in H
    as (info & quoter & reqs & data & qrs & st6 & _ & Hscan & _ & _ & H).
  assert (Hlen : length (expectedDetails data qrs 0)
                 = length (GetRatesRequest.internalOptions request))
    by (rewrite expectedDetails_length; exact (scanLoop_data_length _ _ _ _ _ _ _ _ Hscan)).
  destruct p; try congruence.
  - apply prepareExercise_computed in H as (swapper & swapData & Hsw & Hne & Hdata & ->).
    cbn. split; [reflexivity|]. eexists. split; [reflexivity|]. cbn.
    split; [reflexivity|].
    split; [unfold exercisable; now rewrite length_map|].
    split; [exact Hlen|]. split.
    + intros j d Hd. exact (expectedDetails_index _ _ _ _ _ _ _ _ _ _ _ Hscan Hd).
    + split; [exact (proj1 (mapC_normal _ _ _ Hdata))|]. exists swapper. auto.
  - apply prepareExercise_normal in H as (_ & _ & _ & -> & _).
    cbn. split; [reflexivity|]. eexists. split; [reflexivity|]. cbn.
    split; [reflexivity|]. split; [apply repeat_length|]. auto.
  - apply prepareExercise_normal in H as (_ & _ & _ & -> & _).
    cbn. split; [reflexivity|]. eexists. split; [reflexivity|]. cbn.
    split; [reflexivity|]. split; [apply repeat_length|]. auto.
Qed.

Lemma response_arrays_aligned_witness :
  GetRatesResponse.tokenId mixedResponse = "7"
  /\ exists exerciseParams,
       GetRatesResponse.exerciseParams mixedResponse = Some exerciseParams
       /\ length (ExerciseParams.liquidityToExercise exerciseParams) = 2%nat.
Proof.
  assert (Hrun : calculateTraced profitableWorld (sampleRequest [liveRange; emptyRange])
                   emptyState
                 = (Normal (Computed, mixedResponse), afterMixedCall))
    by (apply run_eq; vm_compute; reflexivity).
  destruct (response_arrays_aligned _ _ _ _ _ _ Hrun ltac:(discriminate))
    as (Ht & ep & Hep & _ & Hl & _).
  split; [exact Ht|]. exists ep. split; [exact Hep | exact Hl].
Defined.

(* ===================================================================== *)
(** ** Requests the first loop cannot get past, and empty requests *)
(* ===================================================================== *)

Lemma quoteBatches_issue batch st :
  quoteBatches (issue (MulticallQuotes batch) st) = batch :: quoteBatches st.
Proof. reflexivity. Qed.

(** The quote batches after the [try] block, however it ends: none was
    added, or the one the first loop built, which is not empty. *)
Lemma evaluate_batches env request cacheKey st :
  quoteBatches (snd (evaluate env request cacheKey st)) = quoteBatches st
  \/ exists info quoterAddress quoteRequests data,
       scanLoop quoterAddress (assetToUse info request) (assetToGet info request)
         (PoolMarketInfo.poolFee info) (isAmount0 info request) 0
         (GetRatesRequest.internalOptions request) [] []
       = Normal (quoteRequests, data)
       /\ quoteRequests <> []
       /\ quoteBatches (snd (evaluate env request cacheKey st))
          = quoteRequests :: quoteBatches st.
Proof.
  unfold evaluate. rewrite bindM_eq.
  destruct (createPublicClientForChain env (GetRatesRequest.chainId request) st)
    as [[client|e] st1] eqn:E1;
    apply (keeps_eq quoteBatches) in E1; try (apply keeps_createPublicClientForChain; frame);
    [|left; exact E1].
  rewrite bindM_eq.
  destruct (getPoolMarketInfo env _ _ _ st1) as [[info|e] st2] eqn:E2;
    apply (keeps_eq quoteBatches) in E2; try apply keeps_batches_getPoolMarketInfo;
    [|left; cbn [snd]; congruence].
  rewrite bindM_eq. cbn [Date_now]. rewrite bindM_eq. cbn [log]. cbv zeta.
  rewrite bindM_eq. cbn [liftC].
  destruct (getQuoterAddress env (GetRatesRequest.chainId request)) as [quoter|e];
    [|left; cbn [snd]; unfold quoteBatches in *; cbn [network addLog tick]; congruence].
  rewrite bindM_eq.
  fold (assetToUse info request). fold (assetToGet info request). fold (isAmount0 info request).
  destruct (scanLoop quoter (assetToUse info request) (assetToGet info request)
              (PoolMarketInfo.poolFee info) (isAmount0 info request) 0
              (GetRatesRequest.internalOptions request) [] []) as [[reqs data]|e] eqn:Hscan;
    [|left; cbn [liftC snd]; unfold quoteBatches in *; cbn [network addLog tick]; congruence].
  cbn [liftC]. cbv iota beta.
  rewrite bindM_eq. cbn [Date_now]. rewrite bindM_eq. cbn [log]. rewrite bindM_eq.
  set (st5 := addLog LInfo _ (tick (addLog LInfo _ (tick st2)))).
  assert (H5 : quoteBatches st5 = quoteBatches st) by (rewrite <- E1, <- E2; reflexivity).
  assert (Htail : forall quoteResults st6,
            quoteBatches
              (snd ((_ ← Date_now env;
                     _ ← log LInfo ("Time after multi call 2 "
                                      +:+ GetRatesRequest.tokenId request);
                     '(totalProfit, profitabilityDetails) ←
                       processLoop data quoteResults 0 0 [];
                     prepareExercise env request cacheKey (PoolMarketInfo.poolFee info)
                       totalProfit profitabilityDetails) st6))
            = quoteBatches st6).
  { intros quoteResults st6.
    assert (K : keeps quoteBatches
                  (_ ← Date_now env;
                   _ ← log LInfo ("Time after multi call 2 "
                                    +:+ GetRatesRequest.tokenId request);
                   '(totalProfit, profitabilityDetails) ←
                     processLoop data quoteResults 0 0 [];
                   prepareExercise env request cacheKey (PoolMarketInfo.poolFee info)
                     totalProfit profitabilityDetails)).
    { keeps_auto;
        (apply keeps_batches_processLoop || apply keeps_batches_prepareExercise). }
    apply K. }
  destruct reqs as [|q reqs].
  - left. change (mret (M := M) (@nil (MulticallEntry QuoteTuple)) ?s) with (Normal (@nil (MulticallEntry QuoteTuple)), s).
    cbv iota beta. rewrite Htail. exact H5.
  - right. exists info, quoter, (q :: reqs), data.
    split; [exact Hscan|]. split; [discriminate|].
    unfold rpc at 1.
    destruct (multicallQuotes env (q :: reqs)) as [quoteResults|e].
    + rewrite Htail, quoteBatches_issue. now rewrite H5.
    + cbn [snd]. rewrite quoteBatches_issue. now rewrite H5.
Qed.

Lemma tickRejected_throws tick :
  tickRejected tick = true ->
  TickMath.getSqrtRatioAtTick tick = Throw "Invariant failed: TICK".
Proof.
  unfold tickRejected, TickMath.getSqrtRatioAtTick. destruct tick as [t|]; [|reflexivity].
  intros H. apply orb_true_iff in H.
  destruct ((TickMath.MIN_TICK <=? t) && (t <=? TickMath.MAX_TICK)) eqn:E; [|reflexivity].
  apply andb_true_iff in E as [E1 E2]. apply Z.leb_le in E1, E2.
  destruct H as [H|H]; apply Z.ltb_lt in H; lia.
Qed.

(** The pass of the first loop over a malformed sub-position throws. *)
Lemma scanInternalOption_malformed quoterAddress use get poolFee amount0 i io :
  malformed io = true ->
  exists error, scanInternalOption quoterAddress use get poolFee amount0 i io = Throw error.
Proof.
  unfold malformed, scanInternalOption.
  destruct (JS.BigInt (GetRatesRequestInternalOption.liquidity io)) as [L|e];
    cbn [mbind Completion_bind cbind]; [|eauto].
  intros H. apply andb_true_iff in H as [HL H]. apply Z.ltb_lt in HL.
  destruct (Z.leb_spec L 0) as [Hle|_]; [lia|].
  destruct (tickRejected (JS.parseInt (GetRatesRequestInternalOption.tickLower io))) eqn:Hlo.
  - rewrite (tickRejected_throws _ Hlo). cbn [mbind Completion_bind cbind]. eauto.
  - cbn [orb] in H. rewrite (tickRejected_throws _ H).
    destruct (TickMath.getSqrtRatioAtTick _) as [a|e]; cbn [mbind Completion_bind cbind]; eauto.
Qed.

Lemma scanLoop_malformed quoterAddress use get poolFee amount0 ios j io :
  ios !! j = Some io ->
  malformed io = true ->
  exists error, scanLoop quoterAddress use get poolFee amount0 0 ios [] [] = Throw error.
Proof.
  intros Hj Hbad.
  destruct (scanLoop quoterAddress use get poolFee amount0 0 ios [] [])
    as [[reqs data]|e] eqn:E; [|eauto].
  exfalso. apply scanLoop_normal in E as (pushes & datas & _ & _ & _ & _ & Hall).
  destruct (Hall j io Hj) as (pushed & od & _ & _ & Hs).
  destruct (scanInternalOption_malformed quoterAddress use get poolFee amount0 (0 + j) io Hbad)
    as [error Herr].
  rewrite Herr in Hs. discriminate Hs.
Qed.

Lemma tryEvaluate_batches env request cacheKey st :
  quoteBatches (snd (tryEvaluate env request cacheKey st))
  = quoteBatches (snd (evaluate env request cacheKey st)).
Proof. unfold quoteBatches. now rewrite tryEvaluate_network. Qed.

(** X9.  One malformed sub-position is enough for the whole request to be
    answered by the [catch] block: if the liquidity of a sub-position is
    not an integer literal, or it has liquidity and one of its ticks is not
    a number or lies outside the supported range, then every call that is
    not a cache hit returns the fallback response, however sound the other
    sub-positions are; no quote batch is sent and nothing is cached. *)
Theorem malformed_sub_position env request st p r st' j io :
  calculateTraced env request st = (Normal (p, r), st') ->
  p <> CacheHit ->
  GetRatesRequest.internalOptions request !! j = Some io ->
  malformed io = true ->
  p = Caught
  /\ r = fallbackResponse request
  /\ quoteBatches st' = quoteBatches st
  /\ profitabilityCache st' = profitabilityCache st.
Proof.
  intros H Hhit Hj Hbad.
  assert (Hst : st' = snd (calculateTraced env request st)) by now rewrite H.
  pose proof H as H0.
  apply calculateTraced_inv in H as [(-> & _) | (_ & st0 & Htry & H)]; [congruence|].
  pose proof (tryEvaluate_writes env request _ _ _ _ H) as Hw.
  assert (Hb : quoteBatches st' = quoteBatches (snd (evaluate env request
                 (generateProfitabilityCacheKey request) st0))).
  { rewrite <- tryEvaluate_batches, H. reflexivity. }
  apply tryState_frame in Htry as (Hc0 & _ & Hn0).
  assert (Hp : p = Caught /\ r = fallbackResponse request).
  { apply tryEvaluate_inv in H as [(-> & -> & _) | (_ & H)]; [auto|].
    apply evaluate_normal in H as (info & quoter & reqs & data & qrs & st6 & _ & Hscan & _).
    destruct (scanLoop_malformed quoter (assetToUse info request) (assetToGet info request)
                (PoolMarketInfo.poolFee info) (isAmount0 info request) _ j io Hj Hbad)
      as [error Herr].
    rewrite Herr in Hscan. discriminate Hscan. }
  destruct Hp as [-> ->]. repeat split.
  - rewrite Hb.
    destruct (evaluate_batches env request (generateProfitabilityCacheKey request) st0)
      as [Hsame | (info & quoter & reqs & data & Hscan & _)].
    + rewrite Hsame. unfold quoteBatches. now rewrite Hn0.
    + destruct (scanLoop_malformed quoter (assetToUse info request)
                  (assetToGet info request) (PoolMarketInfo.poolFee info)
                  (isAmount0 info request) _ j io Hj Hbad) as [error Herr].
      rewrite Herr in Hscan. discriminate Hscan.
  - rewrite <- Hc0. apply Hw. discriminate.
Qed.

Lemma malformed_sub_position_witness :
  fst (calculateTraced profitableWorld (sampleRequest [liveRange; garbledRange]) emptyState)
  = Normal (Caught, fallbackResponse (sampleRequest [liveRange; garbledRange]))
  /\ fst (calculateTraced profitableWorld (sampleRequest [farRange]) emptyState)
     = Normal (Caught, fallbackResponse (sampleRequest [farRange])).
Proof.
  split.
  - destruct (calculateTraced profitableWorld (sampleRequest [liveRange; garbledRange])
                emptyState) as [[[p r]|e] st'] eqn:E.
    + destruct (malformed_sub_position _ _ _ _ _ _ 1%nat garbledRange E) as (-> & -> & _).
      * intros ->. apply (f_equal fst) in E. vm_compute in E. discriminate E.
      * reflexivity.
      * vm_compute. reflexivity.
      * reflexivity.
    + apply (f_equal fst) in E. vm_compute in E. discriminate E.
  - destruct (calculateTraced profitableWorld (sampleRequest [farRange]) emptyState)
      as [[[p r]|e] st'] eqn:E.
    + destruct (malformed_sub_position _ _ _ _ _ _ 0%nat farRange E) as (-> & -> & _).
      * intros ->. apply (f_equal fst) in E. vm_compute in E. discriminate E.
      * reflexivity.
      * vm_compute. reflexivity.
      * reflexivity.
    + apply (f_equal fst) in E. vm_compute in E. discriminate E.
Defined.

(** X10.  A request without sub-positions: every call that is not a cache hit
    returns the same response, whichever way it leaves (total profit "0",
    not profitable, no details, empty exercise arrays), and no quote batch
    is sent. *)
Theorem empty_request env request st p r st' :
  GetRatesRequest.internalOptions request = [] ->
  calculateTraced env request st = (Normal (p, r), st') ->
  p <> CacheHit ->
  r = emptyResponse request /\ quoteBatches st' = quoteBatches st.
Proof.
  intros Hempty H Hhit.
  apply calculateTraced_inv in H as [(-> & _) | (_ & st0 & Htry & H)]; [congruence|].
  assert (Hb : quoteBatches st' = quoteBatches (snd (evaluate env request
                 (generateProfitabilityCacheKey request) st0))).
  { rewrite <- tryEvaluate_batches, H. reflexivity. }
  apply tryState_frame in Htry as (_ & _ & Hn0).
  split.
  - apply tryEvaluate_inv in H as [(-> & -> & _) | (_ & H)].
    { unfold fallbackResponse, emptyResponse, zeroLiquidity. now rewrite Hempty. }
    apply evaluate_normal in H as (info & quoter & reqs & data & qrs & st6 & _ & Hscan & _
                                   & _ & H).
    rewrite Hempty in Hscan. cbn [scanLoop] in Hscan. injection Hscan as <- <-.
    cbn [expectedDetails sumPositiveProfits fold_right] in H.
    destruct p; try congruence.
    + apply prepareExercise_computed in H as (swapper & swapData & _ & _ & Hdata & ->).
      rewrite Hempty in Hdata |- *. cbn [mapC] in Hdata. injection Hdata as <-. reflexivity.
    + apply prepareExercise_normal in H as (_ & _ & _ & -> & _).
      unfold degradedResponse, emptyResponse, zeroLiquidity. now rewrite Hempty.
    + apply prepareExercise_normal in H as (_ & _ & _ & -> & _).
      unfold degradedResponse, emptyResponse, zeroLiquidity. now rewrite Hempty.
    + apply prepareExercise_normal in H as (_ & _ & _ & []).
  - rewrite Hb.
    destruct (evaluate_batches env request (generateProfitabilityCacheKey request) st0)
      as [Hsame | (info & quoter & reqs & data & Hscan & Hne & _)].
    + rewrite Hsame. unfold quoteBatches. now rewrite Hn0.
    + rewrite Hempty in Hscan. cbn [scanLoop] in Hscan. injection Hscan as <- <-.
      now destruct Hne.
Qed.

Lemma empty_request_witness :
  fst (calculateTraced brokenQuoter (sampleRequest []) emptyState)
  = Normal (Computed, emptyResponse (sampleRequest [])).
Proof.
  destruct (calculateTraced brokenQuoter (sampleRequest []) emptyState)
    as [[[p r]|e] st'] eqn:E.
  - destruct (empty_request brokenQuoter (sampleRequest []) emptyState p r st' eq_refl E)
      as [-> _].
    + intros ->. apply (f_equal fst) in E. vm_compute in E. discriminate E.
    + apply (f_equal fst) in E. cbn [fst] in E |- *. rewrite <- E.
      vm_compute. reflexivity.
  - apply (f_equal fst) in E. vm_compute in E. discriminate E.
Defined.

(* ===================================================================== *)
(** ** Cache cleanup *)
(* ===================================================================== *)

(** [cleanupCache] reads the clock once, keeps the entries that are not
    older than the TTL, and touches nothing else but the log. *)
Lemma cleanupCache_eq env st :
  exists st1,
    cleanupCache env st = (Normal tt, st1)
    /\ profitabilityCache st1
       = filter (fun kv => ¬ (CACHE_TTL_MS < dateNow env (clockReads st) - timestamp (snd kv)))
           (profitabilityCache st)
    /\ clockReads st1 = S (clockReads st)
    /\ network st1 = network st
    /\ poolMarketInfoCache st1 = poolMarketInfoCache st.
Proof.
  unfold cleanupCache. rewrite bindM_eq. cbn [Date_now]. rewrite bindM_eq. cbn [getState].
  rewrite bindM_eq. cbv iota beta. rewrite bindM_eq.
  cbn [profitabilityCache tick].
  destruct (0 <? _)%nat; eexists; split; reflexivity || (repeat split).
Qed.

Lemma tryEvaluate_not_hit env request cacheKey st r :
  fst (tryEvaluate env request cacheKey st) <> Normal (CacheHit, r).
Proof.
  intros H. destruct (tryEvaluate env request cacheKey st) as [[[p r']|e] st'] eqn:E;
    [|discriminate H].
  cbn [fst] in H. injection H as -> ->.
  apply tryEvaluate_inv in E as [(E & _) | (_ & E)]; [discriminate E|].
  apply evaluate_normal in E as (? & ? & ? & ? & ? & ? & _ & _ & _ & _ & E).
  apply prepareExercise_normal in E as (_ & _ & _ & []).
Qed.

(** When [calculateTraced] answers from the cache. *)
Lemma calculateTraced_served env request st r :
  fst (calculateTraced env request st) = Normal (CacheHit, r)
  <-> exists entry,
        profitabilityCache st !! generateProfitabilityCacheKey request = Some entry
        /\ dateNow env (S (clockReads st)) - timestamp entry < CACHE_TTL_MS
        /\ r = result entry.
Proof.
  rewrite calculateTraced_eq. cbv zeta.
  destruct (profitabilityCache st !! generateProfitabilityCacheKey request) as [c|].
  - destruct (Z.ltb_spec (dateNow env (S (clockReads st)) - timestamp c) CACHE_TTL_MS)
      as [Hlt|Hge]; cbn [fst]; split.
    + intros H. injection H as <-. eauto.
    + intros (entry & He & _ & ->). now injection He as <-.
    + intros H. now apply tryEvaluate_not_hit in H.
    + intros (entry & He & Hage & _). injection He as <-. lia.
  - split; [intros H; now apply tryEvaluate_not_hit in H|].
    intros (entry & He & _). discriminate He.
Qed.

(** X11.  [cleanupCache] never throws and only removes entries.  If the clock
    does not go backwards, an entry it removes is older than the TTL at
    every later reading of the clock, so the cleanup never changes what is
    served from the cache: a later call is answered from the cache, with
    a given response, exactly when it would have been had the cache not
    been cleaned. *)
Theorem cleanup_keeps_servable env st :
  (forall n m, (n <= m)%nat -> dateNow env n <= dateNow env m) ->
  fst (cleanupCache env st) = Normal tt
  /\ (forall key entry,
        profitabilityCache (snd (cleanupCache env st)) !! key = Some entry ->
        profitabilityCache st !! key = Some entry)
  /\ (forall key entry n,
        profitabilityCache st !! key = Some entry ->
        profitabilityCache (snd (cleanupCache env st)) !! key = None ->
        (clockReads st <= n)%nat ->
        CACHE_TTL_MS < dateNow env n - timestamp entry)
  /\ forall request r,
       fst (calculateTraced env request (snd (cleanupCache env st))) = Normal (CacheHit, r)
       <-> fst (calculateTraced env request
                  (withProfitabilityCache (profitabilityCache st)
                     (snd (cleanupCache env st))))
           = Normal (CacheHit, r).
Proof.
  intros Hmono.
  destruct (cleanupCache_eq env st) as (st1 & E & Hc & Hr & _). rewrite E. cbn [fst snd].
  assert (Hkept : forall key entry,
            profitabilityCache st1 !! key = Some entry
            <-> profitabilityCache st !! key = Some entry
                /\ ~ CACHE_TTL_MS < dateNow env (clockReads st) - timestamp entry).
  { intros key entry. rewrite Hc. apply map_lookup_filter_Some. }
  split; [reflexivity|]. split; [|split].
  - intros key entry H. now apply Hkept in H.
  - intros key entry n He Hgone Hn.
    destruct (Z.lt_ge_cases CACHE_TTL_MS (dateNow env (clockReads st) - timestamp entry))
      as [Hold|Hyoung].
    + specialize (Hmono _ _ Hn). lia.
    + assert (Hin : profitabilityCache st1 !! key = Some entry) by (apply Hkept; split; [exact He | lia]).
      rewrite Hin in Hgone. discriminate Hgone.
  - intros request r. rewrite !calculateTraced_served.
    cbn [profitabilityCache clockReads withProfitabilityCache].
    split; intros (entry & He & Hage & ->); exists entry.
    + apply Hkept in He as [He _]. auto.
    + split; [|auto]. apply Hkept. split; [exact He|].
      rewrite Hr in Hage.
      assert (Hle : dateNow env (clockReads st) <= dateNow env (S (S (clockReads st))))
        by (apply Hmono; lia).
      unfold CACHE_TTL_MS in *. lia.
Qed.

Lemma cleanup_keeps_servable_witness :
  fst (calculateTraced profitableWorld (sampleRequest [liveRange])
         (snd (cleanupCache profitableWorld afterFirstCall)))
  = Normal (CacheHit, profitableResponse).
Proof.
  assert (Hmono : forall n m, (n <= m)%nat ->
                    dateNow profitableWorld n <= dateNow profitableWorld m)
    by (intros n m H; cbn; lia).
  destruct (cleanup_keeps_servable profitableWorld afterFirstCall Hmono) as (_ & _ & _ & H).
  apply H. vm_compute. reflexivity.
Defined.

(* ===================================================================== *)
(** ** Liquidity is exercised only when there is a profit *)
(* ===================================================================== *)

Lemma BigInt_toString_zero z : JS.BigInt_toString z = "0" -> z = 0.
Proof. intros H. apply BigInt_toString_inj. exact H. Qed.

Lemma detailFor_coherent od quoteResults slot :
  (iod_skipQuote od = false -> 0 < iod_liquidityAvailable od) ->
  coherent (detailFor od quoteResults slot).
Proof.
  intros Hliq. unfold detailFor, coherent.
  destruct (iod_skipQuote od); [reflexivity|]. specialize (Hliq eq_refl).
  destruct (quoteResults !! slot) as [[q|e]|]; try reflexivity.
  rewrite positiveProfit_quoted. cbn [quotedDetail ProfitabilityResult.isProfitable
    ProfitabilityResult.liquidityAvailable].
  destruct (Z.ltb_spec 0 (qt_amountOut q - iod_amountToRefill od)) as [Hpos|Hneg];
    [|reflexivity].
  split; [assumption|]. intros H. apply BigInt_toString_zero in H. lia.
Qed.

Lemma expectedDetails_coherent data quoteResults :
  Forall (fun od => iod_skipQuote od = false -> 0 < iod_liquidityAvailable od) data ->
  forall slot, Forall coherent (expectedDetails data quoteResults slot).
Proof.
  induction 1 as [|od data Hod _ IH]; intros slot; cbn [expectedDetails]; constructor.
  - now apply detailFor_coherent.
  - apply IH.
Qed.

(** The data of the first loop: an element whose quote is not skipped has
    positive liquidity. *)
Lemma scanLoop_data_liquidity quoterAddress use get poolFee amount0 ios quoteRequests data :
  scanLoop quoterAddress use get poolFee amount0 0 ios [] [] = Normal (quoteRequests, data) ->
  Forall (fun od => iod_skipQuote od = false -> 0 < iod_liquidityAvailable od) data.
Proof.
  intros H. apply scanLoop_normal in H as (pushes & datas & _ & -> & Hl & _ & Hall).
  cbn [app]. apply Forall_lookup_2. intros j od Hod Hskip.
  assert (Hj : (j < length ios)%nat) by (apply lookup_lt_Some in Hod; lia).
  destruct (lookup_lt_is_Some_2 ios j Hj) as [io Hio].
  destruct (Hall j io Hio) as (pushed & od' & _ & Hod' & Hs).
  rewrite Hod in Hod'. injection Hod' as <-.
  apply scanInternalOption_normal in Hs as (_ & Hsk & _ & HL).
  rewrite Hskip in Hsk. symmetry in Hsk. apply negb_false_iff in Hsk.
  specialize (HL Hsk). unfold hasLiquidity in Hsk. rewrite HL in Hsk. now apply Z.ltb_lt.
Qed.

Lemma sumPositiveProfits_coherent details :
  Forall coherent details ->
  0 <= sumPositiveProfits details
  /\ (0 <? sumPositiveProfits details)
     = negb (forallb (String.eqb "0") (exercisable details)).
Proof.
  induction 1 as [|d details Hd _ [IH0 IH]];
    cbn [sumPositiveProfits fold_right exercisable map forallb]; [split; [lia | reflexivity]|].
  fold (sumPositiveProfits details). fold (exercisable details).
  unfold coherent in Hd. destruct (ProfitabilityResult.isProfitable d).
  - destruct Hd as [Hpos Hne]. split; [lia|].
    assert (E : String.eqb "0" (ProfitabilityResult.liquidityAvailable d) = false)
      by (apply String.eqb_neq; congruence).
    rewrite E. cbn [andb negb]. apply Z.ltb_lt. lia.
  - rewrite Hd. split; [lia|]. cbn [String.eqb Ascii.eqb Bool.eqb andb]. rewrite Z.add_0_l.
    exact IH.
Qed.

Lemma asksNothing_zeroLiquidity request tokenId swapper swapData totalProfit profitable details :
  asksNothing (GetRatesResponse.mk tokenId totalProfit profitable details
                 (Some (ExerciseParams.mk tokenId swapper swapData (zeroLiquidity request))))
  = true.
Proof.
  unfold asksNothing, zeroLiquidity. cbn.
  induction (length (GetRatesRequest.internalOptions request)) as [|n IH]; [reflexivity|].
  exact IH.
Qed.

(** The flags and the liquidity-to-exercise entries of a response, by the
    way the call left. *)
Lemma calculateTraced_faithful env request st p r st' :
  cacheFaithful st ->
  calculateTraced env request st = (Normal (p, r), st') ->
  cacheFaithful st'
  /\ match p with
     | Computed | CacheHit => asksNothing r = negb (GetRatesResponse.isProfitable r)
     | _ => asksNothing r = true
     end.
Proof.
  intros Hcache H.
  apply calculateTraced_inv in H as [(-> & _ & entry & He & -> & _ & Hc & _)
                                    | (Hhit & st0 & Htry & H)].
  - split; [unfold cacheFaithful; now rewrite Hc|].
    apply Hcache in He. unfold faithful in He. now apply Bool.eqb_prop in He.
  - apply tryState_frame in Htry as (Hc0 & _ & _).
    pose proof (tryEvaluate_writes env request _ _ _ _ H) as Hw.
    apply tryEvaluate_inv in H as [(-> & -> & _) | (Hcaught & H)].
    { split; [|apply asksNothing_zeroLiquidity].
      unfold cacheFaithful. rewrite Hw by discriminate. now rewrite Hc0. }
    pose proof H as Hev.
    apply evaluate_normal in H
      as (info & quoter & reqs & data & qrs & st6 & _ & Hscan & _ & _ & H).
    pose proof (expectedDetails_coherent data qrs (scanLoop_data_liquidity _ _ _ _ _ _ _ _ Hscan)
                  0%nat) as Hco.
    destruct (sumPositiveProfits_coherent _ Hco) as [_ Hsum].
    destruct p; try congruence.
    + destruct (evaluate_stores _ _ _ _ _ _ Hev) as [now Hstore].
      apply prepareExercise_computed in H as (swapper & swapData & _ & _ & _ & ->).
      match type of Hstore with context [Build_CacheEntry _ ?resp] =>
        set (response := resp) in * end.
      assert (Hf : asksNothing response = negb (GetRatesResponse.isProfitable response)).
      { unfold asksNothing, response. cbn [GetRatesResponse.exerciseParams
          ExerciseParams.liquidityToExercise GetRatesResponse.isProfitable].
        rewrite Hsum. now rewrite negb_involutive. }
      split; [|exact Hf].
      unfold cacheFaithful. rewrite Hstore, Hc0.
      apply map_Forall_insert_2; [|exact Hcache].
      unfold faithful. cbn [result]. rewrite Hf. apply Bool.eqb_reflx.
    + apply prepareExercise_normal in H as (_ & _ & _ & -> & Hc).
      split; [|apply asksNothing_zeroLiquidity].
      unfold cacheFaithful. rewrite Hw by discriminate. now rewrite Hc0.
    + apply prepareExercise_normal in H as (_ & _ & _ & -> & Hc).
      split; [|apply asksNothing_zeroLiquidity].
      unfold cacheFaithful. rewrite Hw by discriminate. now rewrite Hc0.
Qed.

(** X12.  A response asks to exercise liquidity only for a profit.  The response
    of the last [return] of the [try] block has an entry other than "0"
    exactly when it is flagged profitable; the responses of the two early
    returns and of the [catch] block have none.  So from a state whose
    cached responses are of the first kind (the state a new calculator is
    in), every call returns a response whose entries are all "0" unless it
    is flagged profitable, and leaves such a state. *)
Theorem exercise_only_when_profitable env request st p r st' :
  cacheFaithful st ->
  calculateTraced env request st = (Normal (p, r), st') ->
  cacheFaithful st'
  /\ (GetRatesResponse.isProfitable r = false -> asksNothing r = true)
  /\ match p with
     | Computed | CacheHit => asksNothing r = negb (GetRatesResponse.isProfitable r)
     | _ => asksNothing r = true
     end.
Proof.
  intros Hcache H.
  destruct (calculateTraced_faithful env request st p r st' Hcache H) as [Hst Hp].
  split; [exact Hst|]. split; [|exact Hp].
  intros Hnot. destruct p; rewrite ?Hp, ?Hnot; reflexivity || exact Hp.
Qed.

Lemma exercise_only_when_profitable_witness :
  asksNothing profitableResponse = negb (GetRatesResponse.isProfitable profitableResponse)
  /\ asksNothing noSwapperResponse = true.
Proof.
  assert (Hfresh : cacheFaithful emptyState) by apply map_Forall_empty.
  assert (Hrun : calculateTraced profitableWorld (sampleRequest [liveRange]) emptyState
                 = (Normal (Computed, profitableResponse), afterFirstCall))
    by (apply run_eq; vm_compute; reflexivity).
  assert (Hrun' : calculateTraced noSwapperWorld (sampleRequest [liveRange]) emptyState
                  = (Normal (NoSwapper, noSwapperResponse), afterNoSwapper))
    by (apply run_eq; vm_compute; reflexivity).
  split.
  - exact (proj2 (proj2 (exercise_only_when_profitable _ _ _ _ _ _ Hfresh Hrun))).
  - exact (proj2 (proj2 (exercise_only_when_profitable _ _ _ _ _ _ Hfresh Hrun'))).
Defined.

(* ===================================================================== *)
(** ** The settlement call *)
(* ===================================================================== *)

Lemma bindE_liftE {A B} (c : Completion A) (k : A -> E B) st :
  (liftE c ≫= k) st
  = match c with
    | Normal a => k a st
    | Throw e => (Throw e, st)
    end.
Proof. rewrite bindE_eq. unfold liftE. now destruct c. Qed.

Lemma bindE_elog {B} level message (k : unit -> E B) st :
  (elog level message ≫= k) st
  = k tt (withCalculator (addLog level message (calculator st)) st).
Proof. reflexivity. Qed.

(** The clients of a chain are created exactly when the RPC URL is
    configured and the account can be derived from the key, whatever chain
    definitions the engine remembers. *)
Lemma createClientsForChain_outcome eenv chainId st :
  match fst (createClientsForChain eenv chainId st) with
  | Normal _ =>
      exists account,
        (_ ← getRpcUrl (base eenv) chainId; privateKeyToAccount eenv) = Normal account
  | Throw error =>
      (_ ← getRpcUrl (base eenv) chainId; privateKeyToAccount eenv) = Throw error
  end.
Proof.
  unfold createClientsForChain, engineGetChainConfig.
  rewrite bindE_liftE.
  destruct (getRpcUrl (base eenv) chainId) as [rpcUrl|e] eqn:Hrpc;
    cbn [mbind Completion_bind cbind]; [|reflexivity].
  rewrite bindE_eq.
  destruct (chainId =? 8450).
  - rewrite bindE_liftE.
    change (mret (M := E) ?x ?s) with (Normal x, s). cbv iota beta.
    rewrite bindE_liftE.
    destruct (privateKeyToAccount eenv) as [account|e];
      try change (mret (M := E) ?x ?s) with (Normal x, s); cbn [fst]; eauto.
  - rewrite bindE_eq. cbn [getEngine].
    destruct (engineChainConfigs st !! chainId) as [chain|].
    + change (mret (M := E) ?x ?s) with (Normal x, s). cbv iota beta.
      rewrite bindE_liftE.
      destruct (privateKeyToAccount eenv) as [account|e];
      try change (mret (M := E) ?x ?s) with (Normal x, s); cbn [fst]; eauto.
    + rewrite bindE_liftE, bindE_liftE.
      rewrite bindE_eq. cbn [setEngineChainConfig].
      change (mret (M := E) ?x ?s) with (Normal x, s). cbv iota beta.
      rewrite bindE_liftE.
      destruct (privateKeyToAccount eenv) as [account|e];
      try change (mret (M := E) ?x ?s) with (Normal x, s); cbn [fst]; eauto.
Qed.

Lemma keepsE_calculator_createClientsForChain eenv chainId :
  keepsE calculator (createClientsForChain eenv chainId).
Proof. unfold createClientsForChain, engineGetChainConfig. keepsE_auto. Qed.

(** What the [try] block of [handleExpiredOption] hands to the wallet. *)
Lemma settleExpired_submitted eenv option st :
  submitted (snd (settleExpired eenv option st))
  = match settlementCall eenv option with
    | Some call => call :: submitted st
    | None => submitted st
    end.
Proof.
  unfold settleExpired, settlementCall, settlementParams.
  rewrite bindE_eq.
  pose proof (createClientsForChain_outcome eenv (Option.chainId option) st) as Hout.
  pose proof (keepsE_submitted_createClientsForChain eenv (Option.chainId option) st) as Hsub.
  destruct (createClientsForChain eenv (Option.chainId option) st) as [[clients|e] st1];
    cbn [fst snd] in *.
  2: { destruct (getRpcUrl (base eenv) (Option.chainId option)) as [rpcUrl|e'];
         cbn [mbind Completion_bind cbind] in *; [|exact Hsub].
       rewrite Hout. exact Hsub. }
  destruct Hout as [account Hout].
  destruct (getRpcUrl (base eenv) (Option.chainId option)) as [rpcUrl|e'];
    cbn [mbind Completion_bind cbind] in *; [|discriminate Hout].
  rewrite Hout. cbn [mbind Completion_bind cbind].
  rewrite bindE_liftE.
  destruct (Option.internalOptions option) as [|first rest] eqn:Hios;
    cbn [mbind Completion_bind cbind]; [exact Hsub|].
  rewrite bindE_liftE.
  destruct (readPoolFee eenv (InternalOption.pool first)) as [poolFee|e];
    cbn [mbind Completion_bind cbind]; [|exact Hsub].
  rewrite bindE_elog, bindE_liftE.
  destruct (mapC settlementLiquidity (first :: rest)) as [liquidityToSettle|e];
    cbn [mbind Completion_bind cbind]; [|exact Hsub].
  rewrite bindE_liftE.
  destruct (mapC _ (first :: rest)) as [swapData|e];
    cbn [mbind Completion_bind cbind]; [|exact Hsub].
  rewrite bindE_liftE.
  destruct (getSwapRouterSwapper (base eenv) (Option.chainId option)) as [swapperAddress|e];
    cbn [mbind Completion_bind cbind]; [|exact Hsub].
  rewrite bindE_liftE.
  destruct (arrayFill (Option.opTickArrayLen option) swapperAddress) as [swapperAddresses|e];
    cbn [mbind Completion_bind cbind]; [|exact Hsub].
  rewrite bindE_liftE.
  destruct (JS.BigInt (Option.tokenId option)) as [optionId|e];
    cbn [mbind Completion_bind cbind]; [|exact Hsub].
  rewrite bindE_elog, bindE_eq. unfold submit at 1.
  destruct (writeContract eenv _) as [hash|e];
    cbn [elog onCalculator log fst snd submitted addSubmission withCalculator];
    now rewrite Hsub.
Qed.

Lemma handleExpiredOption_submitted eenv option st :
  submitted (snd (handleExpiredOption eenv option st))
  = match settlementCall eenv option with
    | Some call => call :: submitted st
    | None => submitted st
    end.
Proof.
  unfold handleExpiredOption. rewrite bindE_elog. unfold tryCatchE.
  pose proof (settleExpired_submitted eenv option
                (withCalculator (addLog LInfo ("Handling expired option "
                                                 +:+ Option.tokenId option)
                                   (calculator st)) st)) as H.
  destruct (settleExpired eenv option _) as [[[]|e] st1]; [exact H|].
  rewrite bindE_elog. exact H.
Qed.

Lemma mapC_const_Forall {A B} (c : Completion B) (l : list A) ys :
  mapC (fun _ => c) l = Normal ys ->
  length ys = length l /\ Forall (fun y => c = Normal y) ys.
Proof.
  revert ys. induction l as [|x l IH]; intros ys; cbn [mapC].
  - intros H. injection H as <-. split; [reflexivity | constructor].
  - destruct c as [y|e] eqn:E; cbn [mbind Completion_bind cbind]; [|discriminate].
    destruct (mapC (fun _ => Normal y) l) as [ys'|e]; cbn [mbind Completion_bind cbind];
      [|discriminate].
    intros H. injection H as <-. destruct (IH ys' eq_refl) as [Hl Hall].
    split; [cbn; now rewrite Hl | constructor; [reflexivity | exact Hall]].
Qed.

Lemma arrayFill_normal {A} n (x : A) xs :
  arrayFill n x = Normal xs -> 0 <= n < 2 ^ 32 /\ xs = repeat x (Z.to_nat n).
Proof.
  unfold arrayFill. destruct ((0 <=? n) && (n <? 2 ^ 32)) eqn:E; [|discriminate].
  intros H. injection H as <-. apply andb_true_iff in E as [E1 E2].
  apply Z.leb_le in E1. apply Z.ltb_lt in E2. auto.
Qed.

Lemma settlementParams_normal eenv option params :
  settlementParams eenv option = Normal params ->
  JS.BigInt (Option.tokenId option) = Normal (SettleOptionParams.optionId params)
  /\ exists first rest poolFee swapperAddress,
       Option.internalOptions option = first :: rest
       /\ readPoolFee eenv (InternalOption.pool first) = Normal poolFee
       /\ length (SettleOptionParams.swapData params) = length (Option.internalOptions option)
       /\ Forall (fun data => encodePacked (base eenv) poolFee = Normal data)
            (SettleOptionParams.swapData params)
       /\ getSwapRouterSwapper (base eenv) (Option.chainId option) = Normal swapperAddress
       /\ 0 <= Option.opTickArrayLen option < 2 ^ 32
       /\ SettleOptionParams.swapper params
          = repeat swapperAddress (Z.to_nat (Option.opTickArrayLen option))
       /\ mapC settlementLiquidity (Option.internalOptions option)
          = Normal (SettleOptionParams.liquidityToSettle params).
Proof.
  unfold settlementParams.
  destruct (getRpcUrl (base eenv) (Option.chainId option)) as [rpcUrl|e];
    cbn [mbind Completion_bind cbind]; [|discriminate].
  destruct (privateKeyToAccount eenv) as [account|e];
    cbn [mbind Completion_bind cbind]; [|discriminate].
  destruct (Option.internalOptions option) as [|first rest] eqn:Hios;
    cbn [mbind Completion_bind cbind]; [discriminate|].
  destruct (readPoolFee eenv (InternalOption.pool first)) as [poolFee|e] eqn:Hfee;
    cbn [mbind Completion_bind cbind]; [|discriminate].
  destruct (mapC settlementLiquidity (first :: rest)) as [liquidityToSettle|e] eqn:Hliq;
    cbn [mbind Completion_bind cbind]; [|discriminate].
  destruct (mapC (fun _ => encodePacked (base eenv) poolFee) (first :: rest))
    as [swapData|e] eqn:Hdata; cbn [mbind Completion_bind cbind]; [|discriminate].
  destruct (getSwapRouterSwapper (base eenv) (Option.chainId option))
    as [swapperAddress|e] eqn:Hsw;
    cbn [mbind Completion_bind cbind]; [|discriminate].
  destruct (arrayFill (Option.opTickArrayLen option) swapperAddress)
    as [swapperAddresses|e] eqn:Hfill; cbn [mbind Completion_bind cbind]; [|discriminate].
  destruct (JS.BigInt (Option.tokenId option)) as [optionId|e];
    cbn [mbind Completion_bind cbind]; [|discriminate].
  intros H. injection H as <-. cbn.
  apply mapC_const_Forall in Hdata as [Hlen Hall].
  apply arrayFill_normal in Hfill as [Hrange ->].
  split; [reflexivity|]. exists first, rest, poolFee, swapperAddress.
  repeat split; try assumption; try reflexivity; lia.
Qed.

(** X13.  The [settleOption] call [handleExpiredOption] hands to the wallet is
    for the position's market and identifier; the position has at least
    one sub-position, and the fee encoded in every swap-data entry is the
    one read from the pool of the first; there is one swap-data entry per
    sub-position, while the swappers are as many copies of the configured
    swapper address as the position's [opTickArrayLen] says, which is a
    valid array length. *)
Theorem settle_call_shape eenv option st out st' market params :
  handleExpiredOption eenv option st = (out, st') ->
  submitted st' = SettleOption market params :: submitted st ->
  market = Option.market option
  /\ JS.BigInt (Option.tokenId option) = Normal (SettleOptionParams.optionId params)
  /\ exists first rest poolFee swapperAddress,
       Option.internalOptions option = first :: rest
       /\ readPoolFee eenv (InternalOption.pool first) = Normal poolFee
       /\ length (SettleOptionParams.swapData params) = length (Option.internalOptions option)
       /\ Forall (fun data => encodePacked (base eenv) poolFee = Normal data)
            (SettleOptionParams.swapData params)
       /\ getSwapRouterSwapper (base eenv) (Option.chainId option) = Normal swapperAddress
       /\ 0 <= Option.opTickArrayLen option < 2 ^ 32
       /\ SettleOptionParams.swapper params
          = repeat swapperAddress (Z.to_nat (Option.opTickArrayLen option)).
Proof.
  intros H Hsub.
  pose proof (handleExpiredOption_submitted eenv option st) as Hs.
  rewrite H in Hs. cbn [snd] in Hs. rewrite Hsub in Hs.
  unfold settlementCall in Hs.
  destruct (settlementParams eenv option) as [params'|e] eqn:Hp.
  - injection Hs as -> ->. split; [reflexivity|].
    apply settlementParams_normal in Hp
      as (Hid & first & rest & fee & sw & H1 & H2 & H3 & H4 & H5 & H6 & H7 & _).
    split; [exact Hid|]. exists first, rest, fee, sw. auto 10.
  - exfalso. apply (f_equal (@length Submission)) in Hs. cbn in Hs. lia.
Qed.

Lemma settle_call_shape_witness :
  SettleOptionParams.swapper partlySettledParams = repeat "0x5a99" (Z.to_nat 1).
Proof.
  assert (Hrun : handleExpiredOption sampleEngineEnv partlySettledOption idleEngine
                 = (fst (handleExpiredOption sampleEngineEnv partlySettledOption idleEngine),
                    snd (handleExpiredOption sampleEngineEnv partlySettledOption idleEngine)))
    by apply surjective_pairing.
  assert (Hsub : submitted (snd (handleExpiredOption sampleEngineEnv partlySettledOption
                                   idleEngine))
                 = SettleOption "0x3a47" partlySettledParams :: submitted idleEngine)
    by (vm_compute; reflexivity).
  destruct (settle_call_shape _ _ _ _ _ _ _ Hrun Hsub)
    as (_ & _ & first & rest & fee & sw & _ & _ & _ & _ & Hsw & _ & Hrep).
  vm_compute in Hsw. injection Hsw as <-. exact Hrep.
Defined.

(* ===================================================================== *)
(** ** The cleanup timer *)
(* ===================================================================== *)

Lemma stop_timer st :
  cacheCleanupInterval (snd (stop st)) = None
  /\ timersCreated (snd (stop st)) = timersCreated st.
Proof.
  unfold stop, setRunning, elog, onCalculator, log, clearCleanupInterval.
  cbv [mbind E_bind]. cbn [fst snd].
  case_match_goal; split; try reflexivity.
  cbn [cacheCleanupInterval withCalculator withRunning] in *. assumption.
Qed.

Lemma loopBody_timer pass st :
  timersCreated (snd (loopBody pass st)) = timersCreated st
  /\ cacheCleanupInterval (snd (loopBody pass st))
     = if pass_stop pass then None else cacheCleanupInterval st.
Proof.
  rewrite loopBody_eq. unfold tryCatchE, liftE.
  destruct (stop_timer (countPass st)) as [Hi Ht].
  destruct (pass_stop pass), (pass_outcome pass); cbn [snd elog onCalculator fst log
    timersCreated cacheCleanupInterval withCalculator]; rewrite ?Hi, ?Ht; split; reflexivity.
Qed.

Lemma clearCleanupInterval_timer st :
  cacheCleanupInterval (snd (clearCleanupInterval st)) = None
  /\ timersCreated (snd (clearCleanupInterval st)) = timersCreated st.
Proof.
  unfold clearCleanupInterval. cbn [snd].
  destruct (cacheCleanupInterval st) eqn:E; split; try reflexivity. exact E.
Qed.

Lemma controlLoop_stopped schedule st :
  isRunning st = false -> controlLoop schedule st = (Returned, st).
Proof. intros H. destruct schedule; cbn [controlLoop]; now rewrite H. Qed.

Lemma controlLoop_timer schedule :
  forall st progress st',
    controlLoop schedule st = (progress, st') ->
    timersCreated st' = timersCreated st
    /\ match progress with
       | Looping => cacheCleanupInterval st' = cacheCleanupInterval st
       | Returned => isRunning st = true -> cacheCleanupInterval st' = None
       end.
Proof.
  induction schedule as [|pass rest IH]; intros st progress st'; cbn [controlLoop];
    destruct (isRunning st) eqn:Hrun; intros H.
  - injection H as <- <-. auto.
  - injection H as <- <-. split; [reflexivity | discriminate].
  - destruct (loopBody_timer pass st) as [Ht Hi].
    pose proof (loopBody_running pass st) as Hr.
    destruct (pass_stop pass) eqn:Hs.
    + rewrite (controlLoop_stopped _ _ Hr) in H. injection H as <- <-.
      split; [exact Ht | intros _; exact Hi].
    + rewrite Hrun in Hr. apply IH in H as [Ht' Hp]. split; [congruence|].
      destruct progress.
      * intros _. apply Hp. exact Hr.
      * rewrite Hp. exact Hi.
  - injection H as <- <-. split; [reflexivity | discriminate].
Qed.

(** X14.  [start()] on a stopped engine creates exactly one cleanup timer; the
    timer is held while the loop is running and has been cleared when
    [start()] has returned.  On a running engine [start()] creates none and
    leaves the one held alone.  [stop()] clears the timer held. *)
Theorem cleanup_timer_lifecycle schedule st progress st' :
  start schedule st = (progress, st') ->
  (if isRunning st
   then timersCreated st' = timersCreated st
        /\ cacheCleanupInterval st' = cacheCleanupInterval st
   else timersCreated st' = S (timersCreated st)
        /\ cacheCleanupInterval st'
           = match progress with
             | Returned => None
             | Looping => Some (timersCreated st)
             end)
  /\ cacheCleanupInterval (snd (stop st')) = None
  /\ timersCreated (snd (stop st')) = timersCreated st'.
Proof.
  intros H. split; [|apply stop_timer].
  unfold start in H. destruct (isRunning st) eqn:Hrun.
  - injection H as <- <-. split; reflexivity.
  - cbv zeta in H.
    destruct (controlLoop schedule _) as [[|] st4] eqn:E; injection H as <- <-;
      apply controlLoop_timer in E as [Ht Hi].
    + destruct (clearCleanupInterval_timer st4) as [Hnone Hsame].
      unfold clearCleanupInterval in Hnone, Hsame. cbn [snd] in Hnone, Hsame.
      split; [rewrite Hsame; exact Ht | exact Hnone].
    + split; [exact Ht | exact Hi].
Qed.

Lemma cleanup_timer_lifecycle_witness :
  cacheCleanupInterval (snd (start stoppedSchedule idleEngine)) = None
  /\ cacheCleanupInterval (snd (start roughSchedule idleEngine)) = Some 0%nat.
Proof.
  split.
  - destruct (start stoppedSchedule idleEngine) as [progress st'] eqn:E.
    destruct (cleanup_timer_lifecycle _ _ _ _ E) as [[_ H] _]. cbn [snd]. rewrite H.
    apply (f_equal fst) in E. vm_compute in E. now subst progress.
  - destruct (start roughSchedule idleEngine) as [progress st'] eqn:E.
    destruct (cleanup_timer_lifecycle _ _ _ _ E) as [[_ H] _]. cbn [snd]. rewrite H.
    apply (f_equal fst) in E. vm_compute in E. now subst progress.
Defined.

(* ===================================================================== *)
(** ** Expiring positions *)
(* ===================================================================== *)

Lemma bindO_eq {A B} (m : O A) (k : A -> O B) st :
  (m ≫= k) st
  = match m st with
    | (Normal a, st') => k a st'
    | (Throw e, st') => (Throw e, st')
    end.
Proof. reflexivity. Qed.

Lemma bindO_liftO {A B} (c : Completion A) (k : A -> O B) st :
  (liftO c ≫= k) st
  = match c with
    | Normal a => k a st
    | Throw e => (Throw e, st)
    end.
Proof. rewrite bindO_eq. unfold liftO. now destruct c. Qed.

Lemma bindO_olog {B} level message (k : unit -> O B) st :
  (olog level message ≫= k) st
  = k tt (withEngine (withCalculator (addLog level message (calculator (engine st)))
                        (engine st)) st).
Proof. reflexivity. Qed.

Lemma olog_eq level message st :
  olog level message st
  = (Normal tt,
     withEngine (withCalculator (addLog level message (calculator (engine st)))
                   (engine st)) st).
Proof. reflexivity. Qed.

Lemma bindO_onEngine {A B} (m : E A) (k : A -> O B) st :
  (onEngine m ≫= k) st
  = match m (engine st) with
    | (Normal a, e') => k a (withEngine e' st)
    | (Throw e, e') => (Throw e, withEngine e' st)
    end.
Proof. rewrite bindO_eq. unfold onEngine. now destruct (m (engine st)) as [[a|e] e']. Qed.

Lemma keepsO_bind {A B X} (f : Orchestrator -> X) (m : O A) (k : A -> O B) :
  keepsO f m -> (forall a, keepsO f (k a)) -> keepsO f (m ≫= k).
Proof.
  intros Hm Hk st. rewrite bindO_eq. specialize (Hm st).
  destruct (m st) as [[a|e] st1]; cbn [snd] in *; [|exact Hm].
  now rewrite Hk.
Qed.

Lemma keepsO_onEngine {A X} (f : Orchestrator -> X) (g : EngineState -> X) (m : E A) :
  (forall st, f st = g (engine st)) ->
  keepsE g m -> keepsO f (onEngine m).
Proof. intros Hf Hm st. unfold onEngine. cbn [snd]. rewrite !Hf. apply Hm. Qed.

Lemma keepsO_tryCatch {A X} (f : Orchestrator -> X) (body : O A) handler :
  keepsO f body -> (forall e, keepsO f (handler e)) -> keepsO f (tryCatchO body handler).
Proof.
  intros Hb Hh st. unfold tryCatchO. specialize (Hb st).
  destruct (body st) as [[a|e] st1]; cbn [snd] in *; [exact Hb|].
  now rewrite Hh.
Qed.

Lemma sumLiquidity_zeros entries :
  forallb (String.eqb "0") entries = true ->
  forall sum, sumLiquidity sum entries = Normal sum.
Proof.
  induction entries as [|entry entries IH]; intros H sum; cbn [sumLiquidity]; [reflexivity|].
  cbn [forallb] in H. apply andb_true_iff in H as [H0 H].
  apply String.eqb_eq in H0. subst entry.
  change (JS.BigInt (orZero "0")) with (@Normal Z 0). cbn [mbind Completion_bind cbind].
  rewrite Z.add_0_r. now apply IH.
Qed.

(** A call is handed over only for a response with an entry other than
    "0"; its fields are those of the position and of the response. *)
Lemma exerciseCall_some oenv option r call :
  exerciseCall oenv option r = Some call ->
  asksNothing r = false
  /\ AutoExerciseCall.market call = Option.market option
  /\ AutoExerciseCall.executorFee call = 100000
  /\ getAutoExercise oenv (Option.chainId option) = Normal (AutoExerciseCall.address call)
  /\ JS.BigInt (Option.tokenId option) = Normal (AutoExerciseCall.tokenId call)
  /\ exists exerciseParams,
       GetRatesResponse.exerciseParams r = Some exerciseParams
       /\ JS.BigInt (orZero (ExerciseParams.optionId exerciseParams))
          = Normal (AutoExerciseCall.optionId call)
       /\ AutoExerciseCall.swapper call = ExerciseParams.swapper exerciseParams
       /\ AutoExerciseCall.swapData call = ExerciseParams.swapData exerciseParams
       /\ mapC (fun liquidity => JS.BigInt (orZero liquidity))
            (ExerciseParams.liquidityToExercise exerciseParams)
          = Normal (AutoExerciseCall.liquidityToExercise call).
Proof.
  unfold exerciseCall, asksNothing.
  destruct (GetRatesResponse.exerciseParams r) as [ep|]; [|discriminate].
  destruct (sumLiquidity 0 (ExerciseParams.liquidityToExercise ep)) as [total|e] eqn:Hsum;
    [|discriminate].
  destruct (getAutoExercise oenv (Option.chainId option)) as [addr|e]; [|discriminate].
  destruct (JS.BigInt (Option.tokenId option)) as [tokenId|e]; [|discriminate].
  destruct (JS.BigInt (orZero (ExerciseParams.optionId ep))) as [optionId|e] eqn:Hopt;
    [|discriminate].
  destruct (mapC _ (ExerciseParams.liquidityToExercise ep)) as [lte|e] eqn:Hmap;
    [|discriminate].
  destruct (total =? 0) eqn:Hz; [discriminate|].
  intros H. injection H as <-.
  cbn [AutoExerciseCall.market AutoExerciseCall.executorFee AutoExerciseCall.address
       AutoExerciseCall.tokenId AutoExerciseCall.optionId AutoExerciseCall.swapper
       AutoExerciseCall.swapData AutoExerciseCall.liquidityToExercise].
  split.
  - destruct (forallb (String.eqb "0") (ExerciseParams.liquidityToExercise ep)) eqn:Hall;
      [|reflexivity].
    rewrite (sumLiquidity_zeros _ Hall) in Hsum. injection Hsum as <-. discriminate Hz.
  - repeat split. exists ep. repeat split; assumption.
Qed.

(** What the [try] block of [handleExpiringOption] hands to the wallet,
    and where it leaves the result cache, given the answer of the
    calculator. *)
Lemma exerciseExpiring_submitted oenv option st p r cst' :
  calculateTraced (base (engineEnv oenv)) (exerciseRequest option) (calculator (engine st))
  = (Normal (p, r), cst') ->
  (exerciseSubmitted (snd (exerciseExpiring oenv option st)) = exerciseSubmitted st
   \/ exists call,
        exerciseCall oenv option r = Some call
        /\ exerciseSubmitted (snd (exerciseExpiring oenv option st))
           = call :: exerciseSubmitted st)
  /\ (profitabilityCache (calculator (engine (snd (exerciseExpiring oenv option st))))
      = profitabilityCache (calculator (engine st))
      \/ profitabilityCache (calculator (engine (snd (exerciseExpiring oenv option st))))
         = profitabilityCache cst').
Proof.
  intros Hcalc. unfold exerciseExpiring, exerciseCall.
  rewrite bindO_onEngine.
  pose proof (keepsE_calculator_createClientsForChain (engineEnv oenv) (Option.chainId option)
                (engine st)) as Hkeep.
  destruct (createClientsForChain (engineEnv oenv) (Option.chainId option) (engine st))
    as [[clients|e] e1]; cbn [snd] in Hkeep.
  2: { cbn [snd engine withEngine exerciseSubmitted]. rewrite Hkeep. auto. }
  cbv zeta. rewrite bindO_onEngine. cbn [engine withEngine]. unfold onCalculator.
  rewrite Hkeep, (calculateOptionProfitability_eq _ _ _ _ _ _ Hcalc). cbn [fst snd].
  rewrite bindO_olog, bindO_liftO. cbn [engine withEngine calculator withCalculator].
  destruct (GetRatesResponse.exerciseParams r) as [ep|].
  2: { change (0 =? 0) with true. cbv iota. rewrite olog_eq.
       cbn [snd engine withEngine exerciseSubmitted calculator withCalculator
              profitabilityCache addLog]. auto. }
  destruct (sumLiquidity 0 (ExerciseParams.liquidityToExercise ep)) as [total|e].
  2: { cbn [snd engine withEngine exerciseSubmitted calculator withCalculator
              profitabilityCache addLog]. auto. }
  destruct (total =? 0).
  { rewrite olog_eq.
    cbn [snd engine withEngine exerciseSubmitted calculator withCalculator
           profitabilityCache addLog]. auto. }
  rewrite bindO_liftO.
  destruct (getAutoExercise oenv (Option.chainId option)) as [addr|e].
  2: { cbn [snd engine withEngine exerciseSubmitted calculator withCalculator
              profitabilityCache addLog]. auto. }
  rewrite bindO_liftO.
  destruct (JS.BigInt (Option.tokenId option)) as [tokenId|e].
  2: { cbn [snd engine withEngine exerciseSubmitted calculator withCalculator
              profitabilityCache addLog]. auto. }
  rewrite bindO_liftO.
  destruct (JS.BigInt (orZero (ExerciseParams.optionId ep))) as [optionId|e].
  2: { cbn [snd engine withEngine exerciseSubmitted calculator withCalculator
              profitabilityCache addLog]. auto. }
  rewrite bindO_liftO.
  destruct (mapC _ (ExerciseParams.liquidityToExercise ep)) as [lte|e].
  2: { cbn [snd engine withEngine exerciseSubmitted calculator withCalculator
              profitabilityCache addLog]. auto. }
  rewrite bindO_eq. unfold submitExercise.
  destruct (writeAutoExercise oenv _) as [hash|e];
    rewrite ?olog_eq;
    cbn [snd engine withEngine exerciseSubmitted calculator withCalculator
           profitabilityCache addLog addExercise];
    (split; [right; eexists; split; reflexivity | right; reflexivity]).
Qed.

Ltac keepsO_step :=
  match goal with
  | |- keepsO _ (mbind _ _) => apply keepsO_bind; [|intros ?]
  | |- keepsO _ (tryCatchO _ _) => apply keepsO_tryCatch; [|intros ?]
  | |- keepsO _ (match ?x with _ => _ end) => destruct x
  | |- keepsO _ _ => intros ?; reflexivity
  end.

Ltac keepsO_auto := repeat keepsO_step.

(** [handleExpiringOption] never hands a [settleOption] call to the
    wallet. *)
Lemma keepsO_submitted_handleExpiringOption oenv option :
  keepsO (fun st => submitted (engine st)) (handleExpiringOption oenv option).
Proof.
  unfold handleExpiringOption, exerciseExpiring. keepsO_auto.
  apply (keepsO_onEngine _ submitted); [reflexivity|].
  apply keepsE_submitted_createClientsForChain.
Qed.

(** [handleExpiringOption], unfolded to its [try] block. *)
Lemma handleExpiringOption_eq oenv option st :
  let st0 := withEngine (withCalculator (calculatorAtCall option st) (engine st)) st in
  handleExpiringOption oenv option st
  = (Normal tt,
     match exerciseExpiring oenv option st0 with
     | (Normal _, st1) => st1
     | (Throw _, st1) =>
         snd (olog LError "Failed option details:"
                (snd (olog LError ("Error handling expiring option "
                                     +:+ Option.tokenId option +:+ ":") st1)))
     end).
Proof.
  cbv zeta. unfold handleExpiringOption. rewrite bindO_olog. unfold tryCatchO.
  fold (calculatorAtCall option st).
  destruct (exerciseExpiring oenv option _) as [[[]|e] st1]; [reflexivity|].
  rewrite bindO_olog, olog_eq. reflexivity.
Qed.

(** The outcome of [handleExpiringOption], given the answer of the
    calculator. *)
Lemma handleExpiringOption_outcome oenv option st p r cst' :
  calculateTraced (base (engineEnv oenv)) (exerciseRequest option) (calculatorAtCall option st)
  = (Normal (p, r), cst') ->
  fst (handleExpiringOption oenv option st) = Normal tt
  /\ (exerciseSubmitted (snd (handleExpiringOption oenv option st)) = exerciseSubmitted st
      \/ exists call,
           exerciseCall oenv option r = Some call
           /\ exerciseSubmitted (snd (handleExpiringOption oenv option st))
              = call :: exerciseSubmitted st)
  /\ (profitabilityCache (calculator (engine (snd (handleExpiringOption oenv option st))))
      = profitabilityCache (calculator (engine st))
      \/ profitabilityCache (calculator (engine (snd (handleExpiringOption oenv option st))))
         = profitabilityCache cst').
Proof.
  intros Hcalc. rewrite handleExpiringOption_eq. cbv zeta. cbn [fst snd].
  split; [reflexivity|].
  set (st0 := withEngine (withCalculator (calculatorAtCall option st) (engine st)) st).
  destruct (exerciseExpiring_submitted oenv option st0 p r cst' Hcalc) as [Hsub Hcache].
  destruct (exerciseExpiring oenv option st0) as [[[]|e] st1]; cbn [snd] in *.
  - split; [exact Hsub | exact Hcache].
  - rewrite !olog_eq. cbn [snd engine withEngine exerciseSubmitted calculator withCalculator
      profitabilityCache addLog]. split; [exact Hsub | exact Hcache].
Qed.

(** X15.  [handleExpiringOption] never throws and never settles.  From a state
    in which the cached responses ask to exercise only when flagged
    profitable (a new engine is in one), it leaves such a state, and it
    hands at most one [autoExercise] call to the wallet, and only then
    when the calculator, called for the position's request, has returned a
    response flagged profitable from the end of its [try] block or from
    its cache: never after one of the degraded returns.  The call is for
    the position's market and identifier, goes to the configured
    auto-exercise address with the fixed executor fee 100000, and carries
    the swappers, the swap data and, converted to integers, the liquidity
    to exercise of the response. *)
Theorem expiring_exercise_safe oenv option st out st' :
  cacheFaithful (calculator (engine st)) ->
  handleExpiringOption oenv option st = (out, st') ->
  out = Normal tt
  /\ cacheFaithful (calculator (engine st'))
  /\ submitted (engine st') = submitted (engine st)
  /\ (exerciseSubmitted st' = exerciseSubmitted st
      \/ exists call p r cst' exerciseParams,
           exerciseSubmitted st' = call :: exerciseSubmitted st
           /\ calculateTraced (base (engineEnv oenv)) (exerciseRequest option)
                (calculatorAtCall option st)
              = (Normal (p, r), cst')
           /\ (p = Computed \/ p = CacheHit)
           /\ GetRatesResponse.isProfitable r = true
           /\ GetRatesResponse.exerciseParams r = Some exerciseParams
           /\ AutoExerciseCall.market call = Option.market option
           /\ JS.BigInt (Option.tokenId option) = Normal (AutoExerciseCall.tokenId call)
           /\ getAutoExercise oenv (Option.chainId option)
              = Normal (AutoExerciseCall.address call)
           /\ AutoExerciseCall.executorFee call = 100000
           /\ AutoExerciseCall.swapper call = ExerciseParams.swapper exerciseParams
           /\ AutoExerciseCall.swapData call = ExerciseParams.swapData exerciseParams
           /\ mapC (fun liquidity => JS.BigInt (orZero liquidity))
                (ExerciseParams.liquidityToExercise exerciseParams)
              = Normal (AutoExerciseCall.liquidityToExercise call)).
Proof.
  intros Hfaith H.
  destruct (calculateTraced_total (base (engineEnv oenv)) (exerciseRequest option)
              (calculatorAtCall option st)) as (p & r & cst' & Hcalc).
  destruct (handleExpiringOption_outcome oenv option st p r cst' Hcalc)
    as (Hout & Hsub & Hcache).
  pose proof (keepsO_submitted_handleExpiringOption oenv option st) as Hsettle.
  rewrite H in Hout, Hsub, Hcache, Hsettle. cbn [fst snd] in *.
  assert (Hfaith0 : cacheFaithful (calculatorAtCall option st)) by exact Hfaith.
  destruct (calculateTraced_faithful _ _ _ _ _ _ Hfaith0 Hcalc) as (Hfaith' & Hp).
  split; [exact Hout|]. split; [|split; [exact Hsettle|]].
  - unfold cacheFaithful. destruct Hcache as [-> | ->]; assumption.
  - destruct Hsub as [Hsame | (call & Hcall & Hsub)]; [left; exact Hsame|].
    right. apply exerciseCall_some in Hcall
      as (Hasks & Hm & Hfee & Haddr & Htok & ep & Hep & _ & Hsw & Hsd & Hlte).
    exists call, p, r, cst', ep.
    assert (Hpath : (p = Computed \/ p = CacheHit)
                    /\ GetRatesResponse.isProfitable r = true).
    { destruct p; rewrite Hasks in Hp; try discriminate Hp;
        (split; [auto|]); symmetry in Hp; now apply negb_false_iff in Hp. }
    destruct Hpath as [Hpath Hprof]. repeat split; assumption.
Qed.


Lemma expiring_exercise_safe_witness :
  fst (handleExpiringOption (sampleOrchestratorEnv sampleEngineEnv (Normal []))
         liveOption idleOrchestrator) = Normal tt
  /\ submitted (engine (snd (handleExpiringOption
                               (sampleOrchestratorEnv sampleEngineEnv (Normal []))
                               liveOption idleOrchestrator))) = [].
Proof.
  assert (Hfresh : cacheFaithful (calculator (engine idleOrchestrator)))
    by apply map_Forall_empty.
  destruct (expiring_exercise_safe (sampleOrchestratorEnv sampleEngineEnv (Normal []))
              liveOption idleOrchestrator _ _ Hfresh (surjective_pairing _))
    as (Hout & _ & Hsettle & _).
  split; [exact Hout | exact Hsettle].
Defined.

(* --------------------------------------------------------------------- *)
(** *** The two walks *)

Lemma forEachO_cons {A} (f : A -> O unit) x xs st :
  forEachO f (x :: xs) st
  = match f x st with
    | (Normal _, st1) => forEachO f xs st1
    | (Throw e, st1) => (Throw e, st1)
    end.
Proof. cbn [forEachO]. rewrite bindO_eq. reflexivity. Qed.

Lemma keepsO_forEachO {A X} (g : Orchestrator -> X) (f : A -> O unit) xs :
  (forall x, keepsO g (f x)) -> keepsO g (forEachO f xs).
Proof.
  intros Hf. induction xs as [|x xs IH]; cbn [forEachO]; [intros ?; reflexivity|].
  apply keepsO_bind; [apply Hf | intros _; exact IH].
Qed.

(** The walk over the expired positions: no position stops it, and each
    position whose parameters can be built adds its call. *)
Lemma forEach_expired eenv options st :
  fst (forEachO (fun option => onEngine (handleExpiredOption eenv option)) options st)
  = Normal tt
  /\ submitted (engine (snd (forEachO (fun option => onEngine (handleExpiredOption eenv option))
                               options st)))
     = rev (omap (settlementCall eenv) options) ++ submitted (engine st).
Proof.
  revert st. induction options as [|option options IH]; intros st.
  - split; reflexivity.
  - rewrite forEachO_cons. unfold onEngine at 1 3.
    destruct (handleExpiredOption_total eenv option (engine st)) as [est' Hrun].
    pose proof (handleExpiredOption_submitted eenv option (engine st)) as Hsub.
    rewrite Hrun in *. cbn [fst snd] in *.
    destruct (IH (withEngine est' st)) as [Hout Hwalk]. split; [exact Hout|].
    rewrite Hwalk. cbn [engine withEngine]. rewrite Hsub. cbn [omap list_omap].
    destruct (settlementCall eenv option) as [call|].
    + cbn [rev]. rewrite <- app_assoc. reflexivity.
    + reflexivity.
Qed.

Lemma keepsO_handleExpiredOption {X} (g : Orchestrator -> X) eenv option :
  (forall e st, g (withEngine e st) = g st) ->
  keepsO g (onEngine (handleExpiredOption eenv option)).
Proof. intros Hg st. unfold onEngine. cbn [snd]. apply Hg. Qed.

Lemma getExpiredOptions_eq oenv st :
  OptionsService.getExpiredOptions oenv st
  = match httpGet oenv (baseUrl oenv +:+ "/expired-options") (requestsSent st) with
    | Normal options => (Normal options, countRequest st)
    | Throw e =>
        (Throw e, addConsoleError "Error fetching expired options:" (countRequest st))
    end.
Proof.
  unfold OptionsService.getExpiredOptions, tryCatchO, axiosGet.
  destruct (httpGet oenv _ _); reflexivity.
Qed.

Lemma getExpiringOptions_eq oenv st :
  OptionsService.getExpiringOptions oenv st
  = match httpGet oenv (baseUrl oenv +:+ "/expiring-options") (requestsSent st) with
    | Normal options => (Normal options, countRequest st)
    | Throw e =>
        (Throw e, addConsoleError "Error fetching expiring options:" (countRequest st))
    end.
Proof.
  unfold OptionsService.getExpiringOptions, tryCatchO, axiosGet.
  destruct (httpGet oenv _ _); reflexivity.
Qed.

(** [processExpiredOptions], by the answer of the indexer. *)
Lemma processExpiredOptions_eq oenv st :
  fst (processExpiredOptions oenv st) = Normal tt
  /\ requestsSent (snd (processExpiredOptions oenv st)) = S (requestsSent st)
  /\ exerciseSubmitted (snd (processExpiredOptions oenv st)) = exerciseSubmitted st
  /\ match httpGet oenv (baseUrl oenv +:+ "/expired-options") (requestsSent st) with
     | Normal options =>
         submitted (engine (snd (processExpiredOptions oenv st)))
         = rev (omap (settlementCall (engineEnv oenv)) options) ++ submitted (engine st)
         /\ consoleErrors (snd (processExpiredOptions oenv st)) = consoleErrors st
     | Throw _ =>
         submitted (engine (snd (processExpiredOptions oenv st))) = submitted (engine st)
         /\ consoleErrors (snd (processExpiredOptions oenv st))
            = "Error fetching expired options:" :: consoleErrors st
     end.
Proof.
  unfold processExpiredOptions, tryCatchO. rewrite bindO_eq, getExpiredOptions_eq.
  destruct (httpGet oenv _ _) as [options|e].
  - rewrite bindO_olog.
    set (st1 := withEngine _ (countRequest st)).
    set (walk := forEachO _ options).
    assert (Hframe : forall X (g : Orchestrator -> X),
               (forall e st, g (withEngine e st) = g st) ->
               g (snd (walk st1)) = g (countRequest st)).
    { intros X g Hg.
      transitivity (g st1); [|subst st1; apply Hg].
      subst walk. apply keepsO_forEachO. intros option.
      apply keepsO_handleExpiredOption, Hg. }
    destruct (forEach_expired (engineEnv oenv) options st1) as [Hout Hwalk].
    fold walk in Hout, Hwalk.
    destruct (walk st1) as [[[]|e] st2]; cbn [fst snd] in *; [|discriminate Hout].
    repeat split.
    + exact (Hframe _ requestsSent (fun _ _ => eq_refl)).
    + exact (Hframe _ exerciseSubmitted (fun _ _ => eq_refl)).
    + rewrite Hwalk. reflexivity.
    + exact (Hframe _ consoleErrors (fun _ _ => eq_refl)).
  - rewrite olog_eq. cbn [fst snd]. repeat split.
Qed.

(** X16.  [processExpiredOptions] never throws and sends one request to the
    indexer.  When the request fails it writes one line with
    [console.error] and hands nothing to the wallet.  When the indexer
    answers with a list of positions, the walk visits every one of them
    in order, whatever happened to the ones before: the calls handed to
    the wallet are, first to last, the [settleOption] calls of the
    positions whose parameters could be built, one for each, and a
    position whose parameters could not be built adds none.  No
    [autoExercise] call is made. *)
Theorem expired_walk_visits_all oenv st out st' :
  processExpiredOptions oenv st = (out, st') ->
  out = Normal tt
  /\ requestsSent st' = S (requestsSent st)
  /\ exerciseSubmitted st' = exerciseSubmitted st
  /\ match httpGet oenv (baseUrl oenv +:+ "/expired-options") (requestsSent st) with
     | Normal options =>
         submitted (engine st')
         = rev (omap (settlementCall (engineEnv oenv)) options) ++ submitted (engine st)
         /\ consoleErrors st' = consoleErrors st
     | Throw _ =>
         submitted (engine st') = submitted (engine st)
         /\ consoleErrors st' = "Error fetching expired options:" :: consoleErrors st
     end.
Proof.
  intros H. pose proof (processExpiredOptions_eq oenv st) as K.
  rewrite H in K. exact K.
Qed.

Lemma expired_walk_visits_all_witness :
  submitted (engine (snd (processExpiredOptions
                            (sampleOrchestratorEnv sampleEngineEnv
                               (Normal [hollowOption; liveOption; spentOption]))
                            idleOrchestrator)))
  = rev (omap (settlementCall sampleEngineEnv) [hollowOption; liveOption; spentOption]) ++ []
  /\ length (omap (settlementCall sampleEngineEnv) [hollowOption; liveOption; spentOption])
     = 2%nat.
Proof.
  split; [|vm_compute; reflexivity].
  pose proof (expired_walk_visits_all
                (sampleOrchestratorEnv sampleEngineEnv
                   (Normal [hollowOption; liveOption; spentOption]))
                idleOrchestrator _ _ (surjective_pairing _)) as (_ & _ & _ & Hwalk).
  cbn [httpGet sampleOrchestratorEnv] in Hwalk. exact (proj1 Hwalk).
Defined.

Lemma handleExpiringOption_step oenv option st :
  cacheFaithful (calculator (engine st)) ->
  exists st1,
    handleExpiringOption oenv option st = (Normal tt, st1)
    /\ cacheFaithful (calculator (engine st1))
    /\ (exerciseSubmitted st1 = exerciseSubmitted st
        \/ exists call, exercises oenv call option
                        /\ exerciseSubmitted st1 = call :: exerciseSubmitted st).
Proof.
  intros Hfaith.
  destruct (calculateTraced_total (base (engineEnv oenv)) (exerciseRequest option)
              (calculatorAtCall option st)) as (p & r & cst' & Hcalc).
  destruct (handleExpiringOption_outcome oenv option st p r cst' Hcalc)
    as (Hout & Hsub & Hcache).
  assert (Hfaith0 : cacheFaithful (calculatorAtCall option st)) by exact Hfaith.
  destruct (calculateTraced_faithful _ _ _ _ _ _ Hfaith0 Hcalc) as (Hfaith' & _).
  destruct (handleExpiringOption oenv option st) as [out st1]. cbn [fst snd] in *.
  subst out. exists st1. split; [reflexivity|]. split.
  - unfold cacheFaithful. destruct Hcache as [-> | ->]; assumption.
  - destruct Hsub as [Hsame | (call & Hcall & Hsub)]; [left; exact Hsame|].
    right. exists call. split; [|exact Hsub].
    apply exerciseCall_some in Hcall as (_ & Hm & Hfee & Haddr & Htok & _).
    repeat split; assumption.
Qed.

Lemma keepsO_handleExpiringOption_requests oenv option :
  keepsO (fun st => (requestsSent st, consoleErrors st)) (handleExpiringOption oenv option).
Proof. unfold handleExpiringOption, exerciseExpiring. keepsO_auto. Qed.

(** The walk over the expiring positions: no position stops it, and each
    position adds at most its own call. *)
Lemma forEach_expiring oenv options st :
  cacheFaithful (calculator (engine st)) ->
  fst (forEachO (handleExpiringOption oenv) options st) = Normal tt
  /\ cacheFaithful (calculator (engine (snd (forEachO (handleExpiringOption oenv) options st))))
  /\ exists calls exercised,
       exerciseSubmitted (snd (forEachO (handleExpiringOption oenv) options st))
       = rev calls ++ exerciseSubmitted st
       /\ sublist exercised options
       /\ Forall2 (exercises oenv) calls exercised.
Proof.
  revert st. induction options as [|option options IH]; intros st Hfaith.
  - split; [reflexivity|]. split; [exact Hfaith|]. exists [], []. repeat constructor.
  - rewrite forEachO_cons.
    destruct (handleExpiringOption_step oenv option st Hfaith) as (st1 & -> & Hfaith1 & Hsub).
    destruct (IH st1 Hfaith1) as (Hout & Hfaith' & calls & exercised & Hcalls & Hsl & Hall).
    split; [exact Hout|]. split; [exact Hfaith'|].
    destruct Hsub as [Hsame | (call & Hcall & Hsub)].
    + exists calls, exercised. rewrite Hcalls, Hsame.
      split; [reflexivity|]. split; [now apply sublist_cons | exact Hall].
    + exists (call :: calls), (option :: exercised). rewrite Hcalls, Hsub. cbn [rev].
      rewrite <- app_assoc. split; [reflexivity|].
      split; [now apply sublist_skip | now constructor].
Qed.

(** X17.  [processExpiringOptions] never throws, sends one request to the
    indexer and never settles.  When the request fails it writes one line
    with [console.error] and makes no [autoExercise] call.  When the
    indexer answers with a list of positions, every position is visited
    whatever happened to the ones before, and the [autoExercise] calls
    made are, first to last, calls for some of these positions in the
    order of the list, at most one for each; every call names its
    position's market and identifier, goes to the auto-exercise contract
    of the position's chain and offers the executor fee 100000.  Cached
    responses that ask to exercise only when flagged profitable stay
    so. *)
Theorem expiring_walk_one_call_each oenv st out st' :
  cacheFaithful (calculator (engine st)) ->
  processExpiringOptions oenv st = (out, st') ->
  out = Normal tt
  /\ cacheFaithful (calculator (engine st'))
  /\ requestsSent st' = S (requestsSent st)
  /\ submitted (engine st') = submitted (engine st)
  /\ match httpGet oenv (baseUrl oenv +:+ "/expiring-options") (requestsSent st) with
     | Normal options =>
         consoleErrors st' = consoleErrors st
         /\ exists calls exercised,
              exerciseSubmitted st' = rev calls ++ exerciseSubmitted st
              /\ sublist exercised options
              /\ Forall2 (exercises oenv) calls exercised
     | Throw _ =>
         consoleErrors st' = "Error fetching expiring options:" :: consoleErrors st
         /\ exerciseSubmitted st' = exerciseSubmitted st
     end.
Proof.
  intros Hfaith H.
  assert (K :
      fst (processExpiringOptions oenv st) = Normal tt
      /\ cacheFaithful (calculator (engine (snd (processExpiringOptions oenv st))))
      /\ requestsSent (snd (processExpiringOptions oenv st)) = S (requestsSent st)
      /\ submitted (engine (snd (processExpiringOptions oenv st))) = submitted (engine st)
      /\ match httpGet oenv (baseUrl oenv +:+ "/expiring-options") (requestsSent st) with
         | Normal options =>
             consoleErrors (snd (processExpiringOptions oenv st)) = consoleErrors st
             /\ exists calls exercised,
                  exerciseSubmitted (snd (processExpiringOptions oenv st))
                  = rev calls ++ exerciseSubmitted st
                  /\ sublist exercised options
                  /\ Forall2 (exercises oenv) calls exercised
         | Throw _ =>
             consoleErrors (snd (processExpiringOptions oenv st))
             = "Error fetching expiring options:" :: consoleErrors st
             /\ exerciseSubmitted (snd (processExpiringOptions oenv st)) = exerciseSubmitted st
         end).
  { unfold processExpiringOptions, tryCatchO. rewrite bindO_eq, getExpiringOptions_eq.
    destruct (httpGet oenv _ _) as [options|e].
    - rewrite bindO_olog.
      set (st1 := withEngine _ (countRequest st)).
      assert (Hfaith1 : cacheFaithful (calculator (engine st1))) by exact Hfaith.
      pose proof (keepsO_forEachO _ _ options
                    (keepsO_handleExpiringOption_requests oenv) st1) as Hreq.
      pose proof (keepsO_forEachO _ _ options
                    (keepsO_submitted_handleExpiringOption oenv) st1) as Hsettle.
      destruct (forEach_expiring oenv options st1 Hfaith1)
        as (Hout & Hfaith' & calls & exercised & Hcalls & Hsl & Hall).
      destruct (forEachO _ options st1) as [[[]|e] st2]; cbn [fst snd] in *;
        [|discriminate Hout].
      injection Hreq as Hreq Herr.
      split; [reflexivity|]. split; [exact Hfaith'|]. split; [exact Hreq|].
      split; [exact Hsettle|]. split; [exact Herr|]. exists calls, exercised. auto.
    - rewrite olog_eq. cbn [fst snd]. repeat split. exact Hfaith. }
  rewrite H in K. exact K.
Qed.

Lemma expiring_walk_one_call_each_witness :
  fst (processExpiringOptions
         (sampleOrchestratorEnv sampleEngineEnv (Normal [spentOption; liveOption; hollowOption]))
         idleOrchestrator) = Normal tt
  /\ length (exerciseSubmitted
               (snd (processExpiringOptions
                       (sampleOrchestratorEnv sampleEngineEnv
                          (Normal [spentOption; liveOption; hollowOption]))
                       idleOrchestrator))) = 1%nat.
Proof.
  assert (Hfresh : cacheFaithful (calculator (engine idleOrchestrator)))
    by apply map_Forall_empty.
  split; [|vm_compute; reflexivity].
  exact (proj1 (expiring_walk_one_call_each
                  (sampleOrchestratorEnv sampleEngineEnv
                     (Normal [spentOption; liveOption; hollowOption]))
                  idleOrchestrator _ _ Hfresh (surjective_pairing _))).
Defined.

(* --------------------------------------------------------------------- *)
(** *** One pass of the loop *)

Lemma forEachO_total {A} (f : A -> O unit) xs st :
  (forall x st, fst (f x st) = Normal tt) ->
  fst (forEachO f xs st) = Normal tt.
Proof.
  intros Hf. revert st. induction xs as [|x xs IH]; intros st; [reflexivity|].
  rewrite forEachO_cons. specialize (Hf x st).
  destruct (f x st) as [[[]|e] st1]; [apply IH | discriminate Hf].
Qed.

(** [processExpiringOptions] from any state. *)
Lemma processExpiringOptions_total oenv st :
  fst (processExpiringOptions oenv st) = Normal tt
  /\ requestsSent (snd (processExpiringOptions oenv st)) = S (requestsSent st)
  /\ submitted (engine (snd (processExpiringOptions oenv st))) = submitted (engine st).
Proof.
  unfold processExpiringOptions, tryCatchO. rewrite bindO_eq, getExpiringOptions_eq.
  destruct (httpGet oenv _ _) as [options|e].
  - rewrite bindO_olog.
    set (st1 := withEngine _ (countRequest st)).
    pose proof (keepsO_forEachO _ _ options
                  (keepsO_handleExpiringOption_requests oenv) st1) as Hreq.
    pose proof (keepsO_forEachO _ _ options
                  (keepsO_submitted_handleExpiringOption oenv) st1) as Hsettle.
    pose proof (forEachO_total (handleExpiringOption oenv) options st1
                  (fun option st => f_equal fst (handleExpiringOption_eq oenv option st)))
      as Hout.
    destruct (forEachO _ options st1) as [[[]|e] st2]; cbn [fst snd] in *;
      [|discriminate Hout].
    injection Hreq as Hreq _. repeat split; assumption.
  - rewrite olog_eq. cbn [fst snd]. repeat split.
Qed.

(** X18.  One pass of the loop of [start()] never throws, so the [catch] clause
    of the loop is not entered on account of the indexer, of a position or
    of the chain.  The pass sends two requests to the indexer, and what it
    settles does not depend on the walk over the expiring positions: the
    [settleOption] calls it hands to the wallet are those of the positions
    in the indexer's second answer whose parameters could be built, in
    order, and none when the second request fails. *)
Theorem pass_never_throws oenv st out st' :
  poll oenv st = (out, st') ->
  out = Normal tt
  /\ requestsSent st' = S (S (requestsSent st))
  /\ submitted (engine st')
     = match httpGet oenv (baseUrl oenv +:+ "/expired-options") (S (requestsSent st)) with
       | Normal options =>
           rev (omap (settlementCall (engineEnv oenv)) options) ++ submitted (engine st)
       | Throw _ => submitted (engine st)
       end.
Proof.
  unfold poll. rewrite bindO_eq.
  destruct (processExpiringOptions_total oenv st) as (Hout1 & Hreq1 & Hsettle1).
  destruct (processExpiringOptions oenv st) as [[[]|e] st1]; cbn [fst snd] in *;
    [|discriminate Hout1].
  rewrite bindO_eq.
  destruct (processExpiredOptions_eq oenv st1) as (Hout2 & Hreq2 & _ & Hsettle2).
  destruct (processExpiredOptions oenv st1) as [[[]|e] st2]; cbn [fst snd] in *;
    [|discriminate Hout2].
  intros H. injection H as <- <-. rewrite Hreq1 in Hreq2, Hsettle2.
  split; [reflexivity|]. split; [exact Hreq2|].
  destruct (httpGet oenv _ _) as [options|e]; destruct Hsettle2 as [Hsettle2 _];
    rewrite Hsettle2, Hsettle1; reflexivity.
Qed.

Lemma pass_never_throws_witness :
  fst (poll (sampleOrchestratorEnv sampleEngineEnv (Throw "ECONNREFUSED")) idleOrchestrator)
  = Normal tt
  /\ requestsSent (snd (poll (sampleOrchestratorEnv sampleEngineEnv (Throw "ECONNREFUSED"))
                          idleOrchestrator)) = 2%nat.
Proof.
  pose proof (pass_never_throws (sampleOrchestratorEnv sampleEngineEnv (Throw "ECONNREFUSED"))
                idleOrchestrator _ _ (surjective_pairing _)) as (Hout & Hreq & _).
  split; [exact Hout | exact Hreq].
Defined.

(* ===================================================================== *)
(** ** Telegram notifications *)
(* ===================================================================== *)

Lemma eqb_empty_false s : String.eqb s EmptyString = false <-> s <> EmptyString.
Proof. rewrite <- String.eqb_neq. reflexivity. Qed.

(** X19.  [initialize] never throws and sends nothing.  With a configuration
    that is enabled and names a token and a chat, the service ends up
    enabled exactly when the bot could be constructed, and then holds the
    new bot and the configured chat; when the constructor throws, the
    service is disabled and keeps the bot it had, though the chat has
    already been replaced.  With any other configuration the service is
    disabled and keeps both the bot and the chat it had.  In every case an
    enabled service holds a bot afterwards. *)
Theorem initialize_outcome api config st out st' :
  TelegramService.initialize api config st = (out, st') ->
  out = Normal tt
  /\ TelegramService.sent st' = TelegramService.sent st
  /\ (if usable config then
        TelegramService.chatId st' = TelegramConfig.chatId config
        /\ match newTelegramBot api (TelegramConfig.token config) with
           | Normal newBot =>
               TelegramService.enabled st' = true
               /\ TelegramService.bot st' = Some newBot
           | Throw _ =>
               TelegramService.enabled st' = false
               /\ TelegramService.bot st' = TelegramService.bot st
           end
      else
        TelegramService.enabled st' = false
        /\ TelegramService.bot st' = TelegramService.bot st
        /\ TelegramService.chatId st' = TelegramService.chatId st)
  /\ TelegramService.unavailable st' = negb (TelegramService.enabled st').
Proof.
  unfold TelegramService.initialize, TelegramService.tryCatch, usable,
    TelegramService.unavailable.
  destruct config as [token chatId enabled].
  cbn [TelegramConfig.enabled TelegramConfig.token TelegramConfig.chatId].
  cbv [mbind mret TelegramService.Run_bind TelegramService.Run_ret TelegramService.setEnabled
       TelegramService.get TelegramService.log TelegramService.setChatId
       TelegramService.setBot TelegramService.lift].
  cbn [TelegramService.enabled negb].
  destruct enabled; cbn [negb andb].
  2:{ intros H. injection H as <- <-. repeat split. }
  destruct (String.eqb token EmptyString); cbn [negb andb].
  1:{ intros H. injection H as <- <-. repeat split. }
  destruct (String.eqb chatId EmptyString); cbn [negb andb].
  1:{ intros H. injection H as <- <-. repeat split. }
  destruct (newTelegramBot api token) as [newBot|e];
    intros H; injection H as <- <-; repeat split.
Qed.

Lemma initialize_outcome_witness :
  TelegramService.enabled readyService = true
  /\ TelegramService.unavailable readyService = false.
Proof.
  destruct (initialize_outcome sampleApi sampleConfig TelegramService.initial _ _
              (surjective_pairing _)) as (_ & _ & Hready & Hbot).
  cbn [usable sampleConfig sampleApi newTelegramBot TelegramConfig.enabled
       TelegramConfig.token TelegramConfig.chatId String.eqb Ascii.eqb Bool.eqb
       negb andb] in Hready.
  destruct Hready as (_ & Henabled & _).
  change (TelegramService.enabled readyService = true) in Henabled.
  change (TelegramService.unavailable readyService
          = negb (TelegramService.enabled readyService)) in Hbot.
  split; [exact Henabled|]. rewrite Hbot, Henabled. reflexivity.
Defined.

(** What the three methods have in common, from a state in which the
    service is available. *)
Lemma deliver_outcome api (text : Completion string) line st :
  TelegramService.unavailable st = false ->
  let run :=
    TelegramService.tryCatch
      (message ← TelegramService.lift text;
       _ ← TelegramService.botSend api message;
       mret true)
      (fun error => _ ← TelegramService.log LError line; mret false) st in
  TelegramService.bot (snd run) = TelegramService.bot st
  /\ TelegramService.chatId (snd run) = TelegramService.chatId st
  /\ TelegramService.enabled (snd run) = TelegramService.enabled st
  /\ match text with
     | Normal text =>
         exists recipient,
           TelegramService.bot st = Some recipient
           /\ TelegramService.sent (snd run)
              = (recipient, TelegramService.chatId st, text) :: TelegramService.sent st
           /\ match botSendMessage api recipient (TelegramService.chatId st) text
                      (length (TelegramService.sent st)) with
              | Normal _ =>
                  fst run = Normal true
                  /\ TelegramService.logged (snd run) = TelegramService.logged st
              | Throw _ =>
                  fst run = Normal false
                  /\ TelegramService.logged (snd run)
                     = (LError, line) :: TelegramService.logged st
              end
     | Throw _ =>
         fst run = Normal false
         /\ TelegramService.sent (snd run) = TelegramService.sent st
         /\ TelegramService.logged (snd run) = (LError, line) :: TelegramService.logged st
     end.
Proof.
  unfold TelegramService.unavailable. intros Hready. cbv zeta.
  unfold TelegramService.tryCatch.
  cbv [mbind mret TelegramService.Run_bind TelegramService.Run_ret TelegramService.lift
       TelegramService.botSend TelegramService.log].
  destruct text as [text|e]; [|repeat split].
  destruct (TelegramService.bot st) as [recipient|] eqn:Hbot.
  2:{ destruct (TelegramService.enabled st); discriminate Hready. }
  destruct (botSendMessage api recipient _ text _) as [[]|e] eqn:Hsend;
    cbn [fst snd TelegramService.bot TelegramService.chatId TelegramService.enabled
         TelegramService.sent TelegramService.logged];
    (split; [reflexivity|]); (split; [reflexivity|]); (split; [reflexivity|]);
    exists recipient; rewrite ?Hsend; repeat split.
Qed.

Lemma withContext_eq api message context st :
  TelegramService.withContext api message context st
  = TelegramService.lift (decorated api message context) st.
Proof.
  unfold TelegramService.withContext, decorated, TelegramService.lift.
  destruct context as [context|]; [|reflexivity].
  cbv [mbind mret TelegramService.Run_bind TelegramService.Run_ret TelegramService.lift
       Completion_bind cbind].
  destruct (jsonStringify api context); reflexivity.
Qed.

Lemma bindT_eq {A B} (m : TelegramService.Run A) (k : A -> TelegramService.Run B) st :
  (m ≫= k) st
  = match m st with
    | (Normal a, st') => k a st'
    | (Throw e, st') => (Throw e, st')
    end.
Proof. reflexivity. Qed.

Lemma bindT_get {B} (k : TelegramService.State -> TelegramService.Run B) st :
  (TelegramService.get ≫= k) st = k st st.
Proof. reflexivity. Qed.

(** Each method is a guarded delivery of its text. *)
Lemma send_eq api alert st :
  send api alert st
  = if TelegramService.unavailable st then (Normal false, st)
    else
      TelegramService.tryCatch
        (message ← TelegramService.lift (textOf api alert);
         _ ← TelegramService.botSend api message;
         mret true)
        (fun error =>
           _ ← TelegramService.log LError
                 match alert with
                 | Message _ => "Failed to send Telegram message:"
                 | ErrorAlert _ _ => "Failed to send error alert to Telegram:"
                 | InfoAlert _ _ => "Failed to send info alert to Telegram:"
                 end;
           mret false) st.
Proof.
  destruct alert as [message|errorMessage context|infoMessage context];
    cbn [send textOf];
    unfold TelegramService.sendMessage, TelegramService.sendErrorAlert,
      TelegramService.sendInfoAlert;
    rewrite bindT_get; destruct (TelegramService.unavailable st); try reflexivity;
    unfold TelegramService.tryCatch; rewrite !(bindT_eq _ _ st), withContext_eq;
    reflexivity.
Qed.

(** X20.  [sendMessage], [sendErrorAlert] and [sendInfoAlert] never throw and
    leave the bot, the chat and the flag of the service as they are.  A
    service that is disabled or holds no bot answers [false], hands
    nothing to the Telegram library and logs nothing.  Otherwise, when
    the context cannot be serialised the method answers [false], hands
    nothing over and logs one error; when the text can be built, exactly
    one message with this text is handed over for the service's bot and
    chat, and the answer is [true] when the library delivers it, [false]
    with one error logged when the library throws. *)
Theorem alert_outcome api alert st out st' :
  send api alert st = (out, st') ->
  TelegramService.bot st' = TelegramService.bot st
  /\ TelegramService.chatId st' = TelegramService.chatId st
  /\ TelegramService.enabled st' = TelegramService.enabled st
  /\ if TelegramService.unavailable st then
       out = Normal false
       /\ TelegramService.sent st' = TelegramService.sent st
       /\ TelegramService.logged st' = TelegramService.logged st
     else
       match textOf api alert with
       | Normal text =>
           exists recipient,
             TelegramService.bot st = Some recipient
             /\ TelegramService.sent st'
                = (recipient, TelegramService.chatId st, text) :: TelegramService.sent st
             /\ match botSendMessage api recipient (TelegramService.chatId st) text
                        (length (TelegramService.sent st)) with
                | Normal _ =>
                    out = Normal true
                    /\ TelegramService.logged st' = TelegramService.logged st
                | Throw _ =>
                    out = Normal false
                    /\ exists line,
                         TelegramService.logged st'
                         = (LError, line) :: TelegramService.logged st
                end
       | Throw _ =>
           out = Normal false
           /\ TelegramService.sent st' = TelegramService.sent st
           /\ exists line,
                TelegramService.logged st' = (LError, line) :: TelegramService.logged st
       end.
Proof.
  rewrite send_eq. destruct (TelegramService.unavailable st) eqn:Hready.
  - intros H. injection H as <- <-. repeat split.
  - intros H.
    match type of H with
    | TelegramService.tryCatch _ (fun _ => _ ← TelegramService.log LError ?l; _) _ = _ =>
        pose proof (deliver_outcome api (textOf api alert) l st Hready) as K
    end.
    cbv zeta in K.
    match type of H with ?run = _ => set (r := run) in H, K end.
    destruct r as [out0 st0]. injection H as -> ->. cbn [fst snd] in K.
    destruct K as (Hbot & Hchat & Henabled & K).
    split; [exact Hbot|]. split; [exact Hchat|]. split; [exact Henabled|].
    destruct (textOf api alert) as [text|e].
    + destruct K as (recipient & Hr & Hsent & K). exists recipient.
      split; [exact Hr|]. split; [exact Hsent|].
      destruct (botSendMessage api recipient _ text _); destruct K as [Hout Hlog];
        (split; [exact Hout|]); eauto.
    + destruct K as (Hout & Hsent & Hlog). eauto.
Qed.

Lemma alert_outcome_witness :
  fst (send sampleApi (ErrorAlert "Error in main loop:" (Some ∅)) readyService) = Normal true
  /\ fst (send sampleApi (Message "hello") TelegramService.initial) = Normal false.
Proof.
  split.
  - pose proof (alert_outcome sampleApi (ErrorAlert "Error in main loop:" (Some ∅))
                  readyService _ _ (surjective_pairing _)) as (_ & _ & _ & K).
    remember (send sampleApi (ErrorAlert "Error in main loop:" (Some ∅)) readyService)
      as run eqn:Hrun.
    vm_compute in K. destruct K as (recipient & _ & _ & Hout & _). exact Hout.
  - pose proof (alert_outcome sampleApi (Message "hello") TelegramService.initial _ _
                  (surjective_pairing _)) as (_ & _ & _ & K).
    exact (proj1 K).
Defined.

Lemma send_total api alert st : exists delivered, fst (send api alert st) = Normal delivered.
Proof.
  rewrite send_eq. destruct (TelegramService.unavailable st) eqn:Hready; [eauto|].
  match goal with
  | |- context [TelegramService.log LError ?l] =>
      pose proof (deliver_outcome api (textOf api alert) l st Hready) as K
  end.
  cbv zeta in K. destruct K as (_ & _ & _ & K).
  destruct (textOf api alert) as [text|e].
  - destruct K as (recipient & _ & _ & K).
    destruct (botSendMessage api recipient _ text _); destruct K as [-> _]; eauto.
  - destruct K as (-> & _). eauto.
Qed.

Lemma bindL_eq {A B} (m : TelegramTransport.Run A) (k : A -> TelegramTransport.Run B) st :
  (m ≫= k) st
  = match m st with
    | (Normal a, st') => k a st'
    | (Throw e, st') => (Throw e, st')
    end.
Proof. reflexivity. Qed.

(** [log], unfolded. *)
Lemma transport_log_eq api enabledLevels info st :
  TelegramTransport.log api enabledLevels info st
  = (Normal tt,
     {| TelegramTransport.telegramService :=
          if TelegramTransport.levelEnabled enabledLevels (levelOf info)
          then snd (send api (alertOf info) (TelegramTransport.telegramService st))
          else TelegramTransport.telegramService st;
        TelegramTransport.callbacks := S (TelegramTransport.callbacks st);
        TelegramTransport.consoleErrors := TelegramTransport.consoleErrors st |}).
Proof.
  unfold TelegramTransport.log. fold (levelOf info). cbv zeta. fold (metadataOf info).
  destruct (TelegramTransport.levelEnabled enabledLevels (levelOf info)); cbn [negb];
    [|reflexivity].
  unfold alertOf. rewrite bindL_eq. unfold TelegramTransport.tryCatch.
  destruct (String.eqb (levelOf info) "error");
    [|destruct (String.eqb (levelOf info) "warn")];
    rewrite bindL_eq; unfold TelegramTransport.onService at 1.
  - destruct (send_total api (ErrorAlert (TelegramTransport.message info)
                                (Some (metadataOf info)))
                (TelegramTransport.telegramService st)) as [d Hd].
    cbn [send] in *. rewrite Hd. reflexivity.
  - match goal with
    | |- context [TelegramService.sendMessage api ?m] =>
        destruct (send_total api (Message m) (TelegramTransport.telegramService st))
          as [d Hd]
    end.
    cbn [send] in *. rewrite Hd. reflexivity.
  - destruct (send_total api (InfoAlert (TelegramTransport.message info)
                                (Some (metadataOf info)))
                (TelegramTransport.telegramService st)) as [d Hd].
    cbn [send] in *. rewrite Hd. reflexivity.
Qed.

(** X21.  [log] never throws, calls [callback] exactly once and never writes
    with [console.error]: the [catch] clause is not entered, since the
    methods of the service do not throw.  A record whose level is not
    enabled leaves the service as it is; a record of an enabled level is
    passed to the service once: an error as an error alert, a warning as
    a plain message under the warning heading and without its metadata,
    any other level as an info alert; the alerts carry as context the
    record's properties without [level], [message] and [timestamp], also
    when none is left. *)
Theorem transport_log_outcome api enabledLevels info st out st' :
  TelegramTransport.log api enabledLevels info st = (out, st') ->
  out = Normal tt
  /\ TelegramTransport.callbacks st' = S (TelegramTransport.callbacks st)
  /\ TelegramTransport.consoleErrors st' = TelegramTransport.consoleErrors st
  /\ TelegramTransport.telegramService st'
     = if TelegramTransport.levelEnabled enabledLevels (levelOf info)
       then snd (send api (alertOf info) (TelegramTransport.telegramService st))
       else TelegramTransport.telegramService st.
Proof.
  rewrite transport_log_eq. intros H. injection H as <- <-. repeat split.
Qed.

Lemma transport_log_outcome_witness :
  TelegramService.sent
    (TelegramTransport.telegramService
       (snd (TelegramTransport.log sampleApi (TelegramTransport.enabledLevels None)
               infoRecord (idleTransport readyService))))
  = []
  /\ length (TelegramService.sent
               (TelegramTransport.telegramService
                  (snd (TelegramTransport.log sampleApi
                          (TelegramTransport.enabledLevels None)
                          errorRecord (idleTransport readyService)))))
     = 1%nat.
Proof.
  split.
  - destruct (transport_log_outcome sampleApi (TelegramTransport.enabledLevels None)
                infoRecord (idleTransport readyService) _ _ (surjective_pairing _))
      as (_ & _ & _ & ->).
    vm_compute. reflexivity.
  - destruct (transport_log_outcome sampleApi (TelegramTransport.enabledLevels None)
                errorRecord (idleTransport readyService) _ _ (surjective_pairing _))
      as (_ & _ & _ & ->).
    vm_compute. reflexivity.
Defined.

Ltac lookup_level level :=
  repeat match goal with
         | |- context [<[?k := _]> _ !! level] =>
             destruct (decide (level = k)) as [->|];
             [rewrite lookup_insert_eq | rewrite lookup_insert_ne by congruence]
         end.

(** X22.  A transport made without [levels] forwards the records of level
    [error] and, of the levels winston knows, no others; beyond them it
    forwards exactly the records whose level is the name of a member
    that an object inherits, for which the lookup in the table of
    enabled levels finds that member.  A transport made with [levels]
    follows [levels] for every level named there and the defaults for
    the rest. *)
Theorem enabled_levels_defaults level :
  (TelegramTransport.levelEnabled (TelegramTransport.enabledLevels None) level = true
   <-> level = "error" \/ In level TelegramTransport.objectPrototype)
  /\ forall levels,
       TelegramTransport.levelEnabled (TelegramTransport.enabledLevels (Some levels)) level
       = match levels !! level with
         | Some enabled => enabled
         | None =>
             TelegramTransport.levelEnabled (TelegramTransport.enabledLevels None) level
         end.
Proof.
  split.
  - unfold TelegramTransport.levelEnabled, TelegramTransport.enabledLevels,
      TelegramTransport.defaultLevels.
    cbn [list_to_map foldr fst snd uncurry].
    assert (Hproto : forall name, In name TelegramTransport.objectPrototype ->
                                  name <> "error")
      by (intros name Hin ->; vm_compute in Hin; intuition discriminate).
    lookup_level level; try (split; [discriminate|]);
      try (intros [Heq | Hin]; [congruence | vm_compute in Hin; intuition discriminate]).
    + split; auto.
    + rewrite lookup_empty, existsb_exists. split.
      * intros (name & Hin & Heq). apply String.eqb_eq in Heq. subst name. auto.
      * intros [Heq | Hin]; [congruence|].
        exists level. split; [exact Hin | apply String.eqb_refl].
  - intros levels. unfold TelegramTransport.levelEnabled at 1.
    unfold TelegramTransport.enabledLevels at 1.
    destruct (levels !! level) as [enabled|] eqn:Hlevel.
    + now rewrite (lookup_union_Some_l _ _ _ _ Hlevel).
    + rewrite (lookup_union_r _ _ _ Hlevel). reflexivity.
Qed.
